(* ===== verification/_CoqProject ===== *)
-Q . S2P
Prelude.v
Tokenizer.v
AccessLevel.v
Options.v
Argument.v
AsyncAction.v
Runtime.v
Promise.v
Store.v
Linear.v
Output.v
Credit.v
Account.v
Patterns.v
Commands.v
Dispatcher.v
Interop.v
Scope.v
TestCommandJs.v
TestJs.v
CommandAdapterJs.v
MainJs.v
Example.v
Polite.v
Scripts.v
