(* ===== verification/Prelude.v ===== *)
(** * ModularBot scripting layer: a verification development

    ** The program

    The repository holds the JavaScript side of ModularBot, a modular chat
    bot whose core is a Java library.  The files under [src/] are scripts
    that the bot's script hosts (Nashorn and GraalVM) evaluate:

    - [src/example/scripts/_script_header.js]: the bindings every Nashorn
      script starts from ([Java.type] class references and the two
      [JavaImporter] scopes [baseImports] and [commandImports]);
    - [src/example/scripts/testCommand.js]: a module that declares the
      command [testjs] with two patterns and hands it to the host through
      [getCommands];
    - [src/example/scripts/test.js]: a module with load and unload hooks;
    - [src/example/main.js]: a GraalVM module class that registers the quick
      command [yolo] and chains callbacks on promise-like objects;
    - [src/ModularBot-NashornCommandSupport/src/main/resources/commandAdapter.js]:
      the (empty) adapter module of the Nashorn command support.

    The scripts only have a meaning together with the command engine they
    call into (tokenizer, argument matchers, patterns, options, access
    levels, dispatcher, asynchronous actions).  That engine is Java code
    which is not part of [src/]; it is modelled here from the repository's
    design description, and every such definition is marked as modelled
    from the description in the project map.

    ** Files, in dependency order

    Each file holds one module of the same name.

    - [Prelude] (this file): characters and strings (case folding, the
      case-insensitive equivalence [eq_ci], word predicates, [unwords],
      number parsing), lemmas on lists that are updated in place while they
      grow, sums of numbers and of multisets over lists and finite sets,
      the development's tactics and its hint databases.
    - [Tokenizer]: [tokenize], the splitting of a raw message into tokens
      with double-quoted substrings kept whole, and the printer [render]
      that [tokenize] inverts.
    - [AccessLevel]: the totally ordered access tiers and the gate [allow].
    - [Options]: option kinds, marker tokens and the resolver [resolve].
    - [Argument]: the argument matchers [Literal], [Typed], [Predicate],
      the kinds of typed matcher ([STRING], [INT], [USER] over a directory,
      composite kinds that read several tokens) and [match_arg].
    - [AsyncAction]: the single-fire asynchronous result as a state machine
      with ordered continuations; executions as lists of events.
    - [Runtime]: the host world the scripts act on (replies sent, log
      records, console output, the store of asynchronous actions, the queue
      of jobs) and the state-and-exception monad [Host] in which script
      code is written; [respects], the computations that keep a preorder
      on worlds.
    - [Promise]: [then] and [catch] on the actions of the store, the
      completion of an action by the host ([settle]) and the loop that runs
      the queued jobs ([run_jobs]).
    - [Store]: properties of every reaction of a world ([every]), among
      them the well-formedness of a world ([world_ok]: every reaction
      names a derived action of the store), and the evolution of the store
      along the state machine of [AsyncAction] ([store_evolves]), both
      shown for every operation on the store and the queue; the interface
      [Stable] of the relations between worlds that every primitive keeps.
    - [Linear]: every derived action is named by the reactions of one
      action or by one queued job ([linear]), and an error that passes
      through a reaction reaches the reactions behind it ([drain_passes]).
    - [Output]: outputs are only appended to ([extends]); the lines
      written and the callbacks still owed a run ([balance]); the
      interface [Writer] of the callbacks of a script.
    - [Credit]: the lines a world can still write when the hosts complete
      only the actions they made themselves (the roots): the charge of a
      reaction, the potential of a root, the [credit] of a world and the
      invariant [inv] under which no completion, job or reply raises it;
      the interface [Total] of callbacks that return.
    - [Account]: the lines themselves, as a multiset, given the fate of
      each root ([account]), for linear worlds and callbacks that write
      one line and return ([Exact]).
    - [Patterns]: command patterns with their handlers, [match_pattern] and
      the first-match selection [select_pattern].
    - [Commands]: commands, their validation [from], quick commands, and
      the alias registry.
    - [Dispatcher]: [dispatch], its outcomes, and the dispatch as a step
      relation over phases with the refinement between the two.
    - [Interop]: the script header, the module base class ([ModuleInfo],
      [Java_extend]), loggers, the lifecycle [cycles], Java arrays with
      their bounds ([new_array], [array_get], [array_set]), the
      registration of an array of commands ([loadCommands]) and classes
      exported to a polyglot host ([Polyglot_export], [invoke]).
    - [Scope]: the evaluation of a script in an engine: the global scope,
      the statements a script is made of, the hoisting of its declarations
      ([hoist]), the execution of its statements ([exec], [evaluate]),
      several scripts in one engine ([run]), the calls of the host on
      the functions a script declares ([call_function]) and on the hooks
      of the objects it has obtained ([call_hook], [link]).
    - [TestCommandJs], [TestJs], [CommandAdapterJs], [MainJs]: one file per
      script, each definition a translation of the lines named in the
      project map, followed by the theorems about the script and their
      instances at concrete inputs.
    - [Example]: the scripts of [src/example] loaded together into one
      command module ([boot]), the bot serving a sequence of messages
      ([serve]), and everything the hosts can do to a world as a step
      relation ([host_step]) and as a function of events ([host_run],
      [host_runs]).
    - [Polite]: the hosts that complete, and hand to the scripts, only the
      actions of the replies they sent ([polite], [polite_run]), and the
      exact number of lines the console holds under them.
    - [Scripts]: the five files as programs of [Scope], statement by
      statement, and what the hosts get from evaluating them, each in an
      engine of its own or several in one.

    ** Modelling conventions

    - JavaScript strings are [string]; arrays are [list] with stdpp's
      lookup [!!], an out-of-range read being [undefined] ([None]); a Java
      array of [n] slots is a list of [n] options, [None] being [null],
      whose length never changes: a read or a store outside the array is
      an exception ([None] of [array_get] and [array_set]), and so is
      [new] on a class that is not an array class.
    - A script function with effects is a computation of the [Host] monad:
      a function from the world to a completion (a normal value or a thrown
      error) and the new world.  [event.fastReply], [LOG.info],
      [console.log] and [console.error] append to the world's lists, so the
      order of effects is the order of list elements.
    - An asynchronous action is an index into the world's store; the
      object is shared by everyone who holds the index.  The callbacks a
      script registers are the constructors of a type of the script's own
      ([MainJs.Callback]) which the script's [call] interprets, so the world
      is a first-order record.
    - [Java.extend] is a record of overridden members laid over the base
      class's hooks.
    - Strings are sequences of 8-bit characters, and case is folded on
      the letters of ASCII only ([lower], [eq_ci]); the strings of
      JavaScript and Java are sequences of UTF-16 units with the case
      mapping of Unicode.  Aliases and literals are matched as the code
      matches them on ASCII input; nothing is claimed of other input.
    - [console.log] and [console.error] append the value they are given
      to the console; how a value is printed is not modelled.
    - A continuation registered with [then] or [catch] on an action that
      has completed is queued as a job and runs when the host runs the
      queue, as in a JavaScript engine; the description has it fire
      immediately.  The theorems on [main.js] that speak of the order of
      lines rest on this choice ([MainJs.acceptPromise_race]); the line
      itself does not ([MainJs.acceptPromise_once]).
    - The hosts are not in the repository and the description says
      nothing of them: what a host may do to a running bot
      ([Example.host_step], [Example.HostEvent]) is what the scripts offer
      and no more: a message, a call of a method of the exported class,
      the completion of an action, a job of the queue.
    - The definitions of the script files are closed: a name of the
      script stands for the value the script binds it to.  [Scripts] gives
      the same files as programs whose statements bind the names in a
      global scope, one after the other, and shows that evaluation yields
      the closed definitions ([Scripts.script_loads],
      [Scripts.boot_evaluated_eq]).  In particular the hooks of a module
      of the script files are closed over the logger of their script,
      while the hooks of the programs read the name [LOG] in the scope
      when they are called: [Scope.link] gives the module an object is
      while the scope is a given one, and [Scripts.link_own] shows that in
      the scope its script has left it is the closed module.

    ** Fuel

    One function takes fuel: [Promise.run_jobs], the host's loop over the
    job queue, since a callback may queue further jobs.  It returns [None]
    only when the fuel runs out on a non-empty queue.  [Promise.measure]
    (queued jobs plus the reactions pending actions still hold) bounds the
    number of iterations for callbacks that leave the store alone (the
    interface [Promise.StoreFrame]): [Promise.run_jobs_terminates] shows
    that fuel equal to the measure always gives a result with an empty
    queue, and [Promise.run_jobs_mono] that more fuel changes nothing.  The
    callbacks of [main.js] implement the interface ([MainJs.call_frame]),
    whence [MainJs.jobs_drain].  Every other function is structurally
    recursive on a string, a list or a number.

    ** What the theorems show

    - Engine lemmas (per engine file): the tokenizer's behaviour on runs of
      whitespace, under case folding, and its round trip with [unwords];
      the access order and the monotonicity of the gate; option extraction
      independent of the marker's position and idempotent; matchers that
      consume at least one token, stay inside the token sequence and
      depend on the window of remaining tokens alone, patterns that never
      have more matchers than tokens; first-match
      behaviour of pattern selection; registration keeping the registry
      consistent and refusing duplicates; the dispatcher as a deterministic
      state machine refined by the function [dispatch]; exactly-once,
      in-order firing of continuations under every interleaving of
      registrations and completions, for one action on its own
      ([AsyncAction.run_resolve_once]) and for the actions of the store
      under [then] ([Promise.then_all_interleave]).
    - [TestCommandJs]: the behaviour of the command [testjs] on every
      branch under [dispatch] against a reference function [answer],
      totality and safety of dispatch (no handler throws, nobody is denied,
      some pattern always matches), the literal pattern, the option
      [FORCE] anywhere in the message, the error path of the first handler
      called on its own, and the module's lifecycle; that [getCommands]
      stays within the bounds of its array and leaves no slot empty; that
      no pattern of the command is dead; that a command line printed with
      [Tokenizer.render] is read back argument by argument.
    - [TestJs], [CommandAdapterJs]: what any number of load/unload cycles
      write to the log (two alternating records; nothing).
    - [MainJs]: registration of [yolo] (success, duplicate) and its
      dispatch; for [acceptPromise] and [listenRestAction], the world after
      the action is settled and the jobs have run, in both orders of the
      call and the completion; the unhandled rejection of
      [listenRestAction]; the exception on a non-action; termination of the
      job loop; any number of listeners on one shared action, registered
      before and after its completion; two actions settled in the
      opposite order of the calls ([acceptPromise_race]).
    - [Store]: every operation keeps [world_ok] and moves each action
      along [AsyncAction.transition] only; a settled action is final and a
      pending one only gains reactions, at the end of its lists.
    - [Linear], [Output]: each primitive keeps linearity, appends to the
      outputs and never raises the balance except by the callbacks it
      registers.  The three are instances of [Store.Stable] or bounds per
      primitive, so that a script made of the primitives inherits them
      ([MainJs.invoke_stable], [MainJs.invoke_balance]).
    - [Credit], [Account]: per primitive, what a completion, a job, a
      reply and a registration on a root do to the credit (a number, which
      they bound) and to the account (a multiset of lines, which they
      determine) of a world that keeps [Credit.inv];
      [MainJs.invoke_credit] and [MainJs.invoke_account] are the two for a
      call of a method of [main.js].
    - [Example]: the two loading orders give the same consistent registry;
      the replies to a sequence of messages, in arrival order, against the
      reference function [expected]; one pending action per reply and
      nothing else changed; a reply of [yolo] followed to its delivery
      through [acceptPromise]; a reply whose delivery fails, which nobody
      hears of.  Over [host_step] (a message dispatched, a method of the
      exported class called, an action completed, a job run, in any
      order and number): well-formedness of every reachable world
      ([reachable_ok]), the store as a refinement of one [AsyncAction]
      machine per action ([host_refines]), and the liveness of
      [acceptPromise] ([logged_eventually], [rejected_eventually]):
      whatever happens between the call and the completion of the action,
      the value or the error is written once the jobs have run.  Over
      sequences of events ([host_runs]): linearity of every reachable
      world ([reachable_linear]), outputs that are only appended to
      ([outputs_kept]), the bound on the lines a call can cause to be
      written ([console_budget]), which is reached ([budget_reached]), and
      the independence of a message from the jobs and completions around
      it ([message_commutes]).  Steps and events describe the same runs
      ([host_runs_reach]).  The two Nashorn modules carry the same
      [ModuleInfo] ([module_info_clash]).
    - [Scope]: a preorder on engines that the assignments of a program
      keep is kept by its evaluation, whether it completes or throws
      ([evaluate_respects]); hence a program leaves the names it does not
      bind alone ([evaluate_frame]) and never unbinds a name; a function
      declared at the top level of a program is bound from the first
      statement on ([hoist_function], [function_bound]), one declared
      inside a block is [undefined] until its statement runs
      ([hoist_fresh]); a call depends on the names
      its body reads and on nothing else, so a program that binds none of
      them does not change what the call returns ([evaluate_call]), and
      the same holds of the hooks of an object ([evaluate_link]).
    - [Scripts]: each Nashorn script, evaluated in any engine in which the
      header is loaded, runs to its end, keeps the header and leaves
      [getModule()] returning its module ([script_loads]); the registry
      built from the evaluated programs is [Example.boot]
      ([boot_evaluated_eq]).  [getCommands()] on every branch
      ([getCommands_call]), and the load of the commands that follows,
      which succeeds exactly when [testJSCommand] is bound to a command
      the registry accepts ([loadCommands_evaluated]).  Without the header
      the example scripts throw at their first statement, and leave
      [getModule] bound in [test.js], where it is declared at the top
      level, and unbound in [testCommand.js], where it is declared inside
      a block ([header_required]); [commandAdapter.js] needs no header,
      and its object is inert in every scope ([adapter_standalone]).
      Several
      scripts in one engine all run, and the commands stay available, but
      only the module of the last can be obtained ([shared_engine]), and
      an object obtained from [test.js] before [testCommand.js] was
      evaluated writes its records under the logger of [testCommand.js]
      afterwards ([stale_logger]): both scripts keep their class in the
      global [TestModule] and their logger in the global [LOG].
    - [Polite]: [console_budget] allows two lines for a call of
      [acceptPromise], and a host that completes a derived action gets
      them.  The scripts never return a derived action, so a host can only
      complete the actions it made.  For every sequence of events of such
      hosts the console holds at most one line for each call of a method
      ([polite_budget]), and once the queue is empty it is a permutation
      of the lines the calls stand for ([polite_exact]): the line of
      [onLoad], the outcome of the action for a call of [acceptPromise] on
      an action that has completed, the value of the action for a call of
      [listenRestAction] on an action that has resolved, and nothing for
      any other call.  The order of the lines depends on the order of the
      completions and the jobs ([MainJs.acceptPromise_race]).  The queue
      can always be emptied: as many jobs as [Promise.measure] counts in
      the world drain it ([polite_drains]), so no callback of a completed
      action is lost.

    ** Not modelled

    - Network transport: a reply is a record appended to the world, and its
      delivery is a completion of its action chosen by the host.
    - The Java class loader behind [Java.type] and the name resolution
      inside [with (importer)]: which class a name denotes depends on the
      class path and on the importer's lookup, neither of which is in the
      repository.  [Java.type] is taken to succeed, and the names the
      blocks of [with] use are resolved by hand; the [with] statement
      itself (the evaluation of its object and of its block) is modelled
      in [Scope].
    - The mention format and the identity service behind the matcher kind
      [USER]: neither is described and no script uses the kind, so the
      kind carries its directory as a parameter.
    - Conversions between JavaScript numbers and Java integers (the build
      number of [ModuleInfo] is an integer without a width).
    - Preemptive threads: a completion by the host and a call into a
      script are whole steps that interleave in either order, which is
      what [Example.host_step] enumerates.  The hosts of [host_step] may
      complete any action of the store, derived ones included; the
      theorems that need more say so in their hypotheses, and [Polite]
      is about the hosts that complete their own actions only.  The roots
      of [Polite] are the actions of the replies: the example has no other
      producer of actions.
    - The module manager's bookkeeping, and the statements inside the
      bodies of the handlers as statements of [Scope]: they are
      computations of the [Host] monad, and read no global name of their
      script. *)

From Stdlib Require Import Ascii.
From stdpp Require Export base strings list gmap gmultiset pretty.

Local Abbreviation ascii := Ascii.ascii.

Declare Scope mb_scope.
Delimit Scope mb_scope with mb.
Open Scope mb_scope.

Create HintDb mb discriminated.
Create Rewrite HintDb mb.

(** ** Tactics *)

(** Case analysis over the 256 characters, for facts about one character. *)
Ltac by_ascii c :=
  destruct c as [[] [] [] [] [] [] [] []]; vm_compute; done.

(** Destruct the scrutinee of the first [if] or [match] of the goal. *)
Ltac case_scrut :=
  match goal with
  | |- context [if ?b then _ else _] => destruct b eqn:?
  | |- context [match ?x with _ => _ end] => destruct x eqn:?
  end.

(** Turn boolean connectives of the hypotheses into propositions. *)
Ltac bool_hyps :=
  repeat match goal with
  | H : _ && _ = true |- _ => apply andb_prop in H; destruct H
  | H : _ || _ = false |- _ => apply orb_false_elim in H; destruct H
  | H : negb _ = true |- _ => apply negb_true_iff in H
  | H : negb _ = false |- _ => apply negb_false_iff in H
  | H : Is_true _ |- _ => apply Is_true_true in H
  end.

(** ** Characters *)

Definition quote_char : ascii := Ascii.ascii_of_nat 34.

Definition is_quote (c : ascii) : bool := bool_decide (c = quote_char).

Definition is_upper (c : ascii) : bool :=
  let n := Ascii.N_of_ascii c in (65 <=? n)%N && (n <=? 90)%N.

Definition is_digit (c : ascii) : bool :=
  let n := Ascii.N_of_ascii c in (48 <=? n)%N && (n <=? 57)%N.

Definition to_lower (c : ascii) : ascii :=
  if is_upper c then Ascii.ascii_of_N (Ascii.N_of_ascii c + 32) else c.

(** A character that neither separates tokens nor opens a quotation. *)
Definition plain_char (c : ascii) : bool :=
  negb (Ascii.is_space c) && negb (is_quote c).

Definition digit_value (c : ascii) : N := (Ascii.N_of_ascii c - 48)%N.

(** ** Strings *)

Fixpoint lower (s : string) : string :=
  match s with
  | EmptyString => EmptyString
  | String c s' => String (to_lower c) (lower s')
  end.

Fixpoint string_forallb (p : ascii → bool) (s : string) : bool :=
  match s with
  | EmptyString => true
  | String c s' => p c && string_forallb p s'
  end.

(** The case-insensitive equivalence on strings. *)
Definition eq_ci (s t : string) : Prop := lower s = lower t.

Definition eqb_ci (s t : string) : bool := bool_decide (lower s = lower t).

(** A word: a non-empty string of plain characters, i.e. exactly what the
    tokenizer yields for an unquoted token. *)
Definition plain_word (s : string) : bool :=
  negb (bool_decide (s = EmptyString)) && string_forallb plain_char s.

(** Base-10 digits, most significant first, continuing from [acc]. *)
Fixpoint parse_digits (acc : N) (s : string) : option N :=
  match s with
  | EmptyString => Some acc
  | String c s' =>
      if is_digit c then parse_digits (acc * 10 + digit_value c)%N s' else None
  end.

(** A non-empty string of digits. *)
Definition parse_nat (s : string) : option N :=
  match s with
  | EmptyString => None
  | _ => parse_digits 0 s
  end.

(** An optional sign followed by a non-empty string of digits, as
    [Integer.parseInt] reads it. *)
Definition parse_int (s : string) : option Z :=
  match s with
  | String "-" digits => Z.opp <$> (Z.of_N <$> parse_nat digits)
  | String "+" digits => Z.of_N <$> parse_nat digits
  | _ => Z.of_N <$> parse_nat s
  end.

(** Words joined by single spaces. *)
Fixpoint unwords (ws : list string) : string :=
  match ws with
  | [] => EmptyString
  | [w] => w
  | w :: ws' => w +:+ " " +:+ unwords ws'
  end.

#[export] Instance eq_ci_dec : RelDecision eq_ci.
Proof. intros s t. unfold eq_ci. apply _. Defined.

#[export] Instance eq_ci_equiv : Equivalence eq_ci.
Proof.
  unfold eq_ci. split.
  - by intros s.
  - by intros s t.
  - intros s t u Hst Htu. by rewrite Hst.
Qed.

(** ** Lemmas on characters *)

Lemma to_lower_idemp c : to_lower (to_lower c) = to_lower c.
Proof. by_ascii c. Qed.

Lemma is_space_to_lower c : Ascii.is_space (to_lower c) = Ascii.is_space c.
Proof. by_ascii c. Qed.

Lemma is_quote_to_lower c : is_quote (to_lower c) = is_quote c.
Proof. by_ascii c. Qed.

Lemma plain_char_to_lower c : plain_char (to_lower c) = plain_char c.
Proof. unfold plain_char. by rewrite is_space_to_lower, is_quote_to_lower. Qed.

Lemma is_digit_plain c : is_digit c = true → plain_char c = true.
Proof. by_ascii c. Qed.

Lemma is_digit_to_lower c : is_digit c = true → to_lower c = c.
Proof. by_ascii c. Qed.

Lemma plain_char_not_space c : plain_char c = true → Ascii.is_space c = false.
Proof. unfold plain_char. intros. by bool_hyps. Qed.

Lemma plain_char_not_quote c : plain_char c = true → is_quote c = false.
Proof. unfold plain_char. intros. by bool_hyps. Qed.

(** ** Lemmas on strings *)

(** [String.app] does not unfold under [simpl]; these two equations (and
    the tactic [string_simpl]) take its place. *)
Lemma string_app_nil_l (t : string) : "" +:+ t = t.
Proof. done. Qed.

Lemma string_app_cons c (s t : string) : String c s +:+ t = String c (s +:+ t).
Proof. done. Qed.

Ltac string_simpl :=
  repeat (progress (rewrite ?string_app_cons, ?string_app_nil_l; simpl)).

Lemma string_app_nil_r (s : string) : s +:+ "" = s.
Proof. induction s; string_simpl; congruence. Qed.

Lemma string_app_assoc (s t u : string) : (s +:+ t) +:+ u = s +:+ (t +:+ u).
Proof. induction s; string_simpl; congruence. Qed.

Lemma string_app_length (s t : string) :
  String.length (s +:+ t) = String.length s + String.length t.
Proof. induction s; string_simpl; congruence. Qed.

Lemma lower_idemp s : lower (lower s) = lower s.
Proof. induction s; simpl; [done|]. by rewrite to_lower_idemp, IHs. Qed.

Lemma lower_app s t : lower (s +:+ t) = lower s +:+ lower t.
Proof. induction s; string_simpl; congruence. Qed.

Lemma lower_length s : String.length (lower s) = String.length s.
Proof. induction s; simpl; congruence. Qed.

Lemma lower_nil_inv s : lower s = "" → s = "".
Proof. by destruct s. Qed.

Lemma string_forallb_app p s t :
  string_forallb p (s +:+ t) = string_forallb p s && string_forallb p t.
Proof. induction s; string_simpl; [done|]. by rewrite IHs, andb_assoc. Qed.

Lemma string_forallb_lower p s :
  (∀ c, p (to_lower c) = p c) →
  string_forallb p (lower s) = string_forallb p s.
Proof. intros Hp. induction s; simpl; [done|]. by rewrite Hp, IHs. Qed.

Lemma eqb_ci_eq s t : eqb_ci s t = true ↔ eq_ci s t.
Proof. unfold eqb_ci, eq_ci. apply bool_decide_eq_true. Qed.

Lemma eqb_ci_refl s : eqb_ci s s = true.
Proof. by apply eqb_ci_eq. Qed.

Lemma eqb_ci_sym s t : eqb_ci s t = eqb_ci t s.
Proof. unfold eqb_ci. apply bool_decide_ext. split; congruence. Qed.

Lemma eqb_ci_lower_l s t : eqb_ci (lower s) t = eqb_ci s t.
Proof. unfold eqb_ci. by rewrite lower_idemp. Qed.

Lemma eqb_ci_lower_r s t : eqb_ci s (lower t) = eqb_ci s t.
Proof. unfold eqb_ci. by rewrite lower_idemp. Qed.

Lemma eq_ci_lower s : eq_ci (lower s) s.
Proof. unfold eq_ci. apply lower_idemp. Qed.

#[export] Instance lower_proper : Proper (eq_ci ==> eq) lower.
Proof. by intros s t Hst. Qed.

#[export] Instance eqb_ci_proper : Proper (eq_ci ==> eq_ci ==> eq) eqb_ci.
Proof. intros s s' Hs t t' Ht. unfold eqb_ci. by rewrite Hs, Ht. Qed.

Lemma plain_word_nonempty s : plain_word s = true → s ≠ "".
Proof.
  unfold plain_word. intros H. bool_hyps.
  by apply bool_decide_eq_false in H.
Qed.

Lemma plain_word_chars s : plain_word s = true → string_forallb plain_char s = true.
Proof. unfold plain_word. intros H. by bool_hyps. Qed.

Lemma plain_word_cons c s :
  plain_char c = true → string_forallb plain_char s = true →
  plain_word (String c s) = true.
Proof. unfold plain_word. simpl. by intros -> ->. Qed.

Lemma plain_word_app w v :
  plain_word w = true → string_forallb plain_char v = true →
  plain_word (w +:+ v) = true.
Proof.
  unfold plain_word. intros Hw Hv. bool_hyps.
  rewrite string_forallb_app, Hv, andb_true_r.
  destruct w; [done|]. by rewrite string_app_cons.
Qed.

Lemma plain_word_lower s : plain_word (lower s) = plain_word s.
Proof.
  unfold plain_word.
  rewrite (string_forallb_lower _ _ plain_char_to_lower). f_equal. f_equal.
  apply bool_decide_ext. split; [apply lower_nil_inv | by intros ->].
Qed.

Lemma parse_digits_digits acc s n :
  parse_digits acc s = Some n → string_forallb is_digit s = true.
Proof.
  revert acc. induction s as [|c s IH]; intros acc; simpl; [done|].
  destruct (is_digit c); [eauto | done].
Qed.

Lemma parse_digits_app acc s t :
  parse_digits acc (s +:+ t) = parse_digits acc s ≫= λ n, parse_digits n t.
Proof.
  revert acc. induction s as [|c s IH]; intros acc; [done|].
  rewrite string_app_cons. simpl. destruct (is_digit c); [apply IH | done].
Qed.

Lemma unwords_cons w w' ws :
  unwords (w :: w' :: ws) = w +:+ " " +:+ unwords (w' :: ws).
Proof. done. Qed.

(** ** Lemmas on lists *)

(** Replacing one element changes a sum by the difference of the two. *)
Lemma sum_list_with_insert {A} (f : A → nat) (l : list A) i x y :
  l !! i = Some x →
  sum_list_with f (<[i:=y]> l) + f x = sum_list_with f l + f y.
Proof.
  revert i. induction l as [|a l IH]; intros [|i] Hi; simplify_eq/=; [lia|].
  specialize (IH i Hi). lia.
Qed.

Lemma sum_list_with_fmap {A B} (f : B → nat) (g : A → B) (l : list A) :
  sum_list_with f (g <$> l) = sum_list_with (f ∘ g) l.
Proof.
  induction l as [|a l IH]; [done|].
  rewrite fmap_cons. cbn [sum_list_with]. by rewrite IH.
Qed.

Lemma sum_list_with_ext {A} (f g : A → nat) (l : list A) :
  (∀ x, f x = g x) → sum_list_with f l = sum_list_with g l.
Proof. intros Hfg. induction l as [|x l IH]; simpl; [done|]. by rewrite Hfg, IH. Qed.

Lemma sum_list_with_Forall_ext {A} (f g : A → nat) (l : list A) :
  Forall (λ x, f x = g x) l → sum_list_with f l = sum_list_with g l.
Proof. induction 1 as [|x l Hx _ IH]; simpl; [done|]. by rewrite Hx, IH. Qed.

Lemma sum_list_with_le {A} (f g : A → nat) (l : list A) :
  Forall (λ x, f x ≤ g x) l → sum_list_with f l ≤ sum_list_with g l.
Proof. induction 1; simpl; lia. Qed.

(** Sums over the elements of a finite set of numbers. *)
Lemma sum_elements_le (f g : nat → nat) (X : gset nat) :
  (∀ x, x ∈ X → f x ≤ g x) →
  sum_list_with f (elements X) ≤ sum_list_with g (elements X).
Proof.
  intros Hle. apply sum_list_with_le, Forall_forall.
  intros x Hx. by apply Hle, elem_of_elements.
Qed.

Lemma sum_elements_union (f : nat → nat) (X : gset nat) x :
  x ∉ X → sum_list_with f (elements ({[x]} ∪ X)) = f x + sum_list_with f (elements X).
Proof. intros Hx. by rewrite elements_union_singleton. Qed.

Lemma sum_elements_ext (f g : nat → nat) (X : gset nat) :
  (∀ x, x ∈ X → f x = g x) →
  sum_list_with f (elements X) = sum_list_with g (elements X).
Proof.
  intros Heq. apply sum_list_with_Forall_ext, Forall_forall.
  intros x Hx. by apply Heq, elem_of_elements.
Qed.

(** One element whose summand changes, while the others stay. *)
Lemma sum_elements_change (f g : nat → nat) (X : gset nat) id :
  id ∈ X → (∀ x, x ∈ X → x ≠ id → g x = f x) →
  sum_list_with g (elements X) + f id = sum_list_with f (elements X) + g id.
Proof.
  intros Hid Heq. rewrite (union_difference_singleton_L id X Hid).
  rewrite !sum_elements_union by set_solver.
  rewrite (sum_elements_ext g f (X ∖ {[id]})); [lia|].
  intros x Hx. apply Heq; set_solver.
Qed.

(** One element whose summand changes, while the others do not grow. *)
Lemma sum_elements_remove (f g : nat → nat) (X : gset nat) id :
  id ∈ X → (∀ x, x ∈ X → x ≠ id → g x ≤ f x) →
  sum_list_with g (elements X) + f id ≤ sum_list_with f (elements X) + g id.
Proof.
  intros Hid Hle. rewrite (union_difference_singleton_L id X Hid).
  rewrite !sum_elements_union by set_solver.
  assert (sum_list_with g (elements (X ∖ {[id]})) ≤
          sum_list_with f (elements (X ∖ {[id]}))); [|lia].
  apply sum_elements_le. intros x Hx. apply Hle; set_solver.
Qed.

(** Replacing one list of a list of lists moves its elements in and out
    of the concatenation. *)
Lemma concat_insert_perm {A} (l : list (list A)) i x y :
  l !! i = Some x → concat (<[i:=y]> l) ++ x ≡ₚ concat l ++ y.
Proof.
  revert i. induction l as [|a l IH]; intros [|i] Hi; simplify_eq/=.
  - rewrite (Permutation_app_comm (y ++ _) x), <- (assoc_L (++) x).
    f_equiv. apply Permutation_app_comm.
  - rewrite <- !(assoc_L (++)). f_equiv. by apply IH.
Qed.

(** ** Multisets summed over a list

    [msum f l] is the disjoint union of the multisets [f x] for the
    elements [x] of [l], with their multiplicity. *)
Section msum.
Context `{Countable L} {A : Type}.
Implicit Types (f g : A → gmultiset L) (l k : list A).

Fixpoint msum f l : gmultiset L :=
  match l with
  | [] => ∅
  | x :: l => f x ⊎ msum f l
  end.

Lemma msum_app f l k : msum f (l ++ k) = msum f l ⊎ msum f k.
Proof. induction l as [|x l IH]; simpl; [|rewrite IH]; multiset_solver. Qed.

Lemma msum_Forall_ext f g l : Forall (λ x, f x = g x) l → msum f l = msum g l.
Proof. induction 1 as [|x l Hx _ IH]; simpl; [done|]. by rewrite Hx, IH. Qed.

Lemma msum_ext f g l : (∀ x, f x = g x) → msum f l = msum g l.
Proof. intros Hfg. apply msum_Forall_ext, Forall_forall. auto. Qed.

Lemma msum_empty l : msum (λ _ : A, ∅ : gmultiset L) l = ∅.
Proof. induction l as [|x l IH]; simpl; [|rewrite IH]; multiset_solver. Qed.

#[export] Instance msum_perm f : Proper ((≡ₚ) ==> (=)) (msum f).
Proof.
  induction 1 as [|x l k _ IH|x y l|l1 l2 l3 _ IH1 _ IH2]; simpl;
    [done | by rewrite IH | multiset_solver | by etrans].
Qed.

Lemma list_to_set_disj_bind (h : A → list L) l :
  list_to_set_disj (l ≫= h) = msum (λ x, list_to_set_disj (h x)) l.
Proof.
  induction l as [|x l IH]; [done|].
  rewrite bind_cons, list_to_set_disj_app, IH. done.
Qed.

End msum.

Section msum_list.
Context `{Countable L}.

(** The elements of a list as a multiset, and back. *)
Lemma msum_singleton (l : list L) : msum (λ x, {[+ x +]}) l = list_to_set_disj l.
Proof. induction l as [|x l IH]; simpl; by rewrite ?IH. Qed.

Lemma list_to_set_disj_inj (l k : list L) :
  list_to_set_disj l =@{gmultiset L} list_to_set_disj k → l ≡ₚ k.
Proof.
  assert (∀ l : list L, elements (list_to_set_disj l : gmultiset L) ≡ₚ l) as Hel.
  { induction l0 as [|x l0 IH]; simpl; [by rewrite gmultiset_elements_empty|].
    by rewrite gmultiset_elements_disj_union, gmultiset_elements_singleton, IH. }
  intros Heq. by rewrite <- (Hel l), <- (Hel k), Heq.
Qed.

End msum_list.

Lemma msum_fmap `{Countable L} {A B} (f : A → gmultiset L) (h : B → A) (l : list B) :
  msum f (h <$> l) = msum (f ∘ h) l.
Proof. induction l as [|x l IH]; [done|]. rewrite fmap_cons. simpl. by rewrite IH. Qed.

(** Multisets summed over the elements of a finite set of numbers. *)
Section msum_elements.
Context `{Countable L}.
Implicit Types (f g : nat → gmultiset L) (X : gset nat).

Lemma msum_elements_ext f g X :
  (∀ x, x ∈ X → f x = g x) → msum f (elements X) = msum g (elements X).
Proof.
  intros Heq. apply msum_Forall_ext, Forall_forall.
  intros x Hx. by apply Heq, elem_of_elements.
Qed.

Lemma msum_elements_union f X x :
  x ∉ X → msum f (elements ({[x]} ∪ X)) = f x ⊎ msum f (elements X).
Proof. intros Hx. by rewrite elements_union_singleton. Qed.

(** One element whose summand changes, while the others stay. *)
Lemma msum_elements_change f g X id :
  id ∈ X → (∀ x, x ∈ X → x ≠ id → g x = f x) →
  msum g (elements X) ⊎ f id = msum f (elements X) ⊎ g id.
Proof.
  intros Hid Heq. rewrite (union_difference_singleton_L id X Hid).
  rewrite !msum_elements_union by set_solver.
  rewrite (msum_elements_ext g f (X ∖ {[id]})); [multiset_solver|].
  intros x Hx. apply Heq; set_solver.
Qed.

End msum_elements.

(** Dropping an element in the middle of a list without duplicates. *)
Lemma NoDup_app_cons_inv {A} (l k : list A) x :
  NoDup (l ++ x :: k) → (x ∉ l ++ k) ∧ NoDup (l ++ k).
Proof. rewrite <- Permutation_middle. apply NoDup_cons. Qed.

(** A list that grows at its end while one of its first elements is
    updated: lookups and updates behind and inside the updated part. *)
Section insert_app.
Context {A : Type}.
Implicit Types (l k : list A).

Lemma lookup_insert_app l k i x :
  i < length l → (<[i:=x]> l ++ k) !! i = Some x.
Proof.
  intros. rewrite lookup_app_l by by rewrite length_insert.
  by apply list_lookup_insert_eq.
Qed.

Lemma lookup_insert_app_r l k i j n x :
  n = length l + j → (<[i:=x]> l ++ k) !! n = k !! j.
Proof. intros ->. rewrite lookup_app_r; rewrite length_insert; [f_equal|]; lia. Qed.

Lemma lookup_insert_app_0 l k i x a :
  (<[i:=x]> l ++ a :: k) !! length l = Some a.
Proof. by rewrite (lookup_insert_app_r _ _ _ 0) by lia. Qed.

Lemma lookup_insert_app_1 l k i x a b :
  (<[i:=x]> l ++ a :: b :: k) !! S (length l) = Some b.
Proof. by rewrite (lookup_insert_app_r _ _ _ 1) by lia. Qed.

Lemma insert_insert_app l k i x y :
  i < length l → <[i:=y]> (<[i:=x]> l ++ k) = <[i:=y]> l ++ k.
Proof.
  intros. by rewrite insert_app_l, list_insert_insert_eq by by rewrite length_insert.
Qed.

Lemma insert_insert_app_r l k i j n x y :
  n = length l + j → <[n:=y]> (<[i:=x]> l ++ k) = <[i:=x]> l ++ <[j:=y]> k.
Proof. intros ->. by rewrite <- (length_insert l i x), insert_app_r. Qed.

End insert_app.

#[export] Hint Rewrite to_lower_idemp is_space_to_lower is_quote_to_lower
  plain_char_to_lower lower_idemp lower_app lower_length string_app_nil_r
  string_app_assoc eqb_ci_refl eqb_ci_lower_l eqb_ci_lower_r plain_word_lower
  : mb.
#[export] Hint Resolve eqb_ci_refl eq_ci_lower plain_word_nonempty
  plain_word_chars plain_char_not_space plain_char_not_quote : mb.
