(* ===== verification/Tokenizer.v ===== *)
(** * Tokenizer

    [tokenize] splits a raw message into its tokens: runs of whitespace
    separate tokens, a double quote opens or closes a quotation inside which
    whitespace is kept, and the quote characters themselves are dropped.
    The scan keeps two pieces of state, as a hand-written loop would: whether
    it is inside a quotation, and the token being built ([None] between
    tokens, [Some ""] right after an opening quote).

    [render] prints a token sequence so that [tokenize] reads it back
    ([tokenize_render]); [unwords] does the same for plain words
    ([tokenize_unwords]). *)

From S2P Require Import Prelude.

Local Abbreviation ascii := Ascii.ascii.

Module Tokenizer.

(** [push cur c] appends one character to the token being built;
    [flush cur] closes the token being built, if any. *)
Local Abbreviation push cur c := (Some (default "" cur +:+ String c "")).
Local Abbreviation flush cur := (option_list cur).

Fixpoint scan (quoted : bool) (cur : option string) (s : string) : list string :=
  match s with
  | EmptyString => flush cur
  | String c s' =>
      if is_quote c then scan (negb quoted) (Some (default "" cur)) s'
      else if quoted then scan true (push cur c) s'
      else if Ascii.is_space c then flush cur ++ scan false None s'
      else scan false (push cur c) s'
  end.

Definition tokenize (raw : string) : list string := scan false None raw.

(** The state the scan is in after reading [s], and the tokens it has
    emitted by then (the token being built not included): the scan of a
    concatenation is the scan of its parts ([scan_app]). *)
Fixpoint scan_state (quoted : bool) (cur : option string) (s : string)
  : bool * option string :=
  match s with
  | EmptyString => (quoted, cur)
  | String c s' =>
      if is_quote c then scan_state (negb quoted) (Some (default "" cur)) s'
      else if quoted then scan_state true (push cur c) s'
      else if Ascii.is_space c then scan_state false None s'
      else scan_state false (push cur c) s'
  end.

Fixpoint scan_emit (quoted : bool) (cur : option string) (s : string)
  : list string :=
  match s with
  | EmptyString => []
  | String c s' =>
      if is_quote c then scan_emit (negb quoted) (Some (default "" cur)) s'
      else if quoted then scan_emit true (push cur c) s'
      else if Ascii.is_space c then flush cur ++ scan_emit false None s'
      else scan_emit false (push cur c) s'
  end.

(** Input without quotations, and input that is only whitespace. *)
Definition quote_free (s : string) : bool :=
  string_forallb (λ c, negb (is_quote c)) s.

Definition all_space (s : string) : bool := string_forallb Ascii.is_space s.

(** A token under construction outside quotations is a plain word. *)
Definition cur_plain (cur : option string) : Prop :=
  ∀ w, cur = Some w → plain_word w = true.

(** A printer for token sequences: every token in double quotes, the
    tokens separated by single spaces. *)
Definition quote (w : string) : string :=
  String quote_char w +:+ String quote_char "".

Definition render (ws : list string) : string := unwords (quote <$> ws).

(** ** Unfolding equations of the scan *)

Section scan_equations.
Context (cur : option string) (c : ascii) (s : string).

Lemma scan_quote q : is_quote c = true →
  scan q cur (String c s) = scan (negb q) (Some (default "" cur)) s.
Proof. simpl. by intros ->. Qed.

Lemma scan_space : Ascii.is_space c = true →
  scan false cur (String c s) = flush cur ++ scan false None s.
Proof. intros Hc. simpl. rewrite Hc. by destruct c as [[] [] [] [] [] [] [] []]. Qed.

Lemma scan_plain : plain_char c = true →
  scan false cur (String c s) = scan false (push cur c) s.
Proof.
  intros Hc. simpl.
  by rewrite (plain_char_not_quote _ Hc), (plain_char_not_space _ Hc).
Qed.

Lemma scan_inside : is_quote c = false →
  scan true cur (String c s) = scan true (push cur c) s.
Proof. simpl. by intros ->. Qed.

End scan_equations.

Lemma push_push cur c w :
  default "" (push cur c) +:+ w = default "" cur +:+ String c w.
Proof. simpl. by rewrite string_app_assoc. Qed.

(** ** Plain words *)

(** Scanning a run of plain characters extends the current token. *)
Lemma scan_plain_run w cur s :
  string_forallb plain_char w = true → w ≠ "" →
  scan false cur (w +:+ s) = scan false (Some (default "" cur +:+ w)) s.
Proof.
  revert cur. induction w as [|c w IH]; intros cur Hw Hne; [done|].
  simpl in Hw. bool_hyps. rewrite string_app_cons, scan_plain by done.
  destruct w as [|c' w'].
  - by rewrite string_app_nil_l.
  - rewrite IH by done. by rewrite push_push.
Qed.

Lemma scan_word w cur :
  string_forallb plain_char w = true →
  scan false (Some cur) w = [cur +:+ w].
Proof.
  intros Hw. destruct w as [|c w].
  - by rewrite string_app_nil_r.
  - rewrite <- (string_app_nil_r (String c w)) at 1.
    by rewrite scan_plain_run.
Qed.

Lemma tokenize_empty : tokenize "" = [].
Proof. done. Qed.

Lemma tokenize_word w : plain_word w = true → tokenize w = [w].
Proof.
  intros Hw. unfold tokenize.
  rewrite <- (string_app_nil_r w) at 1.
  rewrite scan_plain_run by eauto with mb.
  done.
Qed.

(** A word followed by a space is emitted, and the scan starts afresh. *)
Lemma tokenize_word_space w s :
  plain_word w = true → tokenize (w +:+ " " +:+ s) = w :: tokenize s.
Proof.
  intros Hw. unfold tokenize.
  rewrite scan_plain_run by eauto with mb.
  by rewrite string_app_cons, scan_space.
Qed.

(** Leading whitespace is dropped. *)
Lemma tokenize_space c s :
  Ascii.is_space c = true → tokenize (String c s) = tokenize s.
Proof. intros Hc. unfold tokenize. by rewrite scan_space. Qed.

(** Round trip: joining words by single spaces and tokenizing gives the
    words back. *)
Lemma tokenize_unwords ws :
  Forall (λ w, plain_word w = true) ws → tokenize (unwords ws) = ws.
Proof.
  induction 1 as [|w ws Hw Hws IH]; [done|].
  destruct ws as [|w' ws]; [by apply tokenize_word|].
  by rewrite unwords_cons, tokenize_word_space, IH.
Qed.

(** ** Compositionality *)

Lemma scan_app q cur s t :
  scan q cur (s +:+ t) =
  scan_emit q cur s ++ scan (scan_state q cur s).1 (scan_state q cur s).2 t.
Proof.
  revert q cur. induction s as [|c s IH]; intros q cur; [done|].
  rewrite string_app_cons. simpl.
  repeat case_scrut; rewrite ?IH, ?app_assoc; done.
Qed.

Lemma scan_emit_flush q cur s :
  scan q cur s = scan_emit q cur s ++ flush (scan_state q cur s).2.
Proof. rewrite <- (string_app_nil_r s) at 1. by rewrite scan_app. Qed.

(** ** Runs of whitespace *)

Lemma scan_spaces sp cur s :
  all_space sp = true → sp ≠ "" →
  scan false cur (sp +:+ s) = flush cur ++ scan false None s.
Proof.
  unfold all_space. revert cur.
  induction sp as [|c sp IH]; intros cur Hsp Hne; [done|].
  simpl in Hsp. bool_hyps. rewrite string_app_cons, scan_space by done.
  destruct sp as [|c' sp']; [done|]. by rewrite IH.
Qed.

(** Whitespace idempotence: outside a quotation, any non-empty run of
    whitespace separates exactly as a single space does. *)
Lemma tokenize_collapse s sp t :
  (scan_state false None s).1 = false → all_space sp = true → sp ≠ "" →
  tokenize (s +:+ sp +:+ t) = tokenize (s +:+ " " +:+ t).
Proof.
  intros Hs Hsp Hne. unfold tokenize.
  rewrite (scan_app _ _ s (sp +:+ t)), (scan_app _ _ s (" " +:+ t)), Hs.
  by rewrite !scan_spaces.
Qed.

Lemma tokenize_spaces sp s :
  all_space sp = true → tokenize (sp +:+ s) = tokenize s.
Proof.
  intros Hsp. destruct sp as [|c sp]; [done|].
  unfold tokenize. by rewrite scan_spaces.
Qed.

(** ** Case folding commutes with tokenizing *)

Lemma push_lower cur c : push (lower <$> cur) (to_lower c) = lower <$> push cur c.
Proof. destruct cur; simpl; by rewrite ?lower_app. Qed.

Lemma scan_lower q cur s :
  scan q (lower <$> cur) (lower s) = lower <$> scan q cur s.
Proof.
  revert q cur. induction s as [|c s IH]; intros q cur; simpl.
  - by destruct cur.
  - rewrite is_quote_to_lower, is_space_to_lower, !push_lower.
    repeat case_scrut; rewrite ?fmap_app, <- ?IH; by destruct cur.
Qed.

Lemma tokenize_lower s : tokenize (lower s) = lower <$> tokenize s.
Proof. apply (scan_lower false None). Qed.

(** ** Tokens of input without quotations are plain words *)

Lemma cur_plain_push cur c :
  cur_plain cur → plain_char c = true → cur_plain (push cur c).
Proof.
  intros Hcur Hc w [= <-]. destruct cur as [w|]; simpl.
  - apply plain_word_app; [by apply Hcur|]. simpl. by rewrite Hc.
  - by apply plain_word_cons.
Qed.

Lemma flush_plain cur :
  cur_plain cur → Forall (λ w, plain_word w = true) (flush cur).
Proof. intros Hcur. destruct cur; simpl; eauto. Qed.

Lemma scan_plain_words cur s :
  quote_free s = true → cur_plain cur →
  Forall (λ w, plain_word w = true) (scan false cur s).
Proof.
  unfold quote_free. revert cur.
  induction s as [|c s IH]; intros cur Hs Hcur; simpl in *.
  - by apply flush_plain.
  - apply andb_prop in Hs as [Hq%negb_true_iff Hs]. rewrite Hq.
    destruct (Ascii.is_space c) eqn:Hc.
    + apply Forall_app. split; [by apply flush_plain|].
      apply IH; [done|]. by intros w.
    + apply IH; [done|]. apply cur_plain_push; [done|].
      unfold plain_char. by rewrite Hc, Hq.
Qed.

Lemma tokenize_plain_words s :
  quote_free s = true → Forall (λ w, plain_word w = true) (tokenize s).
Proof. intros Hs. apply scan_plain_words; [done|]. by intros w. Qed.

(** ** Quoted tokens *)

(** Inside a quotation every character but the quote extends the token,
    whitespace included. *)
Lemma scan_inside_run w cur s :
  quote_free w = true →
  scan true (Some cur) (w +:+ s) = scan true (Some (cur +:+ w)) s.
Proof.
  unfold quote_free. revert cur. induction w as [|c w IH]; intros cur Hw.
  - by rewrite string_app_nil_l, string_app_nil_r.
  - simpl in Hw. apply andb_prop in Hw as [Hc%negb_true_iff Hw].
    rewrite string_app_cons, scan_inside by done. simpl.
    rewrite IH by done. simpl. by rewrite ?string_app_assoc, ?string_app_cons, ?string_app_nil_l.
Qed.

Lemma scan_quoted w s :
  quote_free w = true →
  scan false None (quote w +:+ s) = scan false (Some w) s.
Proof.
  intros Hw. unfold quote.
  rewrite string_app_assoc, string_app_cons, scan_quote by done. simpl.
  rewrite scan_inside_run, string_app_cons, scan_quote by done. simpl.
  by rewrite !string_app_nil_l.
Qed.

Lemma tokenize_quote w : quote_free w = true → tokenize (quote w) = [w].
Proof.
  intros Hw. unfold tokenize. rewrite <- (string_app_nil_r (quote w)).
  by rewrite scan_quoted.
Qed.

Lemma tokenize_quote_space w s :
  quote_free w = true → tokenize (quote w +:+ " " +:+ s) = w :: tokenize s.
Proof.
  intros Hw. unfold tokenize. rewrite scan_quoted by done.
  by rewrite string_app_cons, scan_space.
Qed.

(** Round trip: a rendered token sequence tokenizes to itself, whatever
    the tokens contain (whitespace, nothing at all) as long as they hold no
    double quote. *)
Theorem tokenize_render ws :
  Forall (λ w, quote_free w = true) ws → tokenize (render ws) = ws.
Proof.
  unfold render. induction 1 as [|w ws Hw Hws IH]; [done|].
  destruct ws as [|w' ws]; [by apply tokenize_quote|].
  cbn [fmap list_fmap] in *. by rewrite unwords_cons, tokenize_quote_space, IH.
Qed.

End Tokenizer.
