(* ===== verification/AccessLevel.v ===== *)
(** * Access levels and the access gate

    The permission tiers form a total order; [allow required actual] is the
    gate applied once per dispatch, before options and patterns are looked
    at. *)

From S2P Require Import Prelude.

Module AccessLevel.

Inductive AccessLevel := EVERYONE | MODERATOR | ADMIN | OWNER.

Definition rank (l : AccessLevel) : nat :=
  match l with EVERYONE => 0 | MODERATOR => 1 | ADMIN => 2 | OWNER => 3 end.

(** The order of the tiers. *)
Definition le (a b : AccessLevel) : Prop := rank a ≤ rank b.

#[export] Instance AccessLevel_eq_dec : EqDecision AccessLevel.
Proof. solve_decision. Defined.

#[export] Instance le_dec : RelDecision le.
Proof. intros a b. unfold le. apply _. Defined.

(** The gate: the caller's level is at least the required one. *)
Definition allow (required actual : AccessLevel) : bool :=
  bool_decide (le required actual).

#[export] Instance AccessLevel_inhabited : Inhabited AccessLevel :=
  populate EVERYONE.

Lemma rank_inj a b : rank a = rank b → a = b.
Proof. by destruct a, b. Qed.

#[export] Instance le_po : PartialOrder le.
Proof.
  unfold le. split; [split|].
  - by intros a.
  - intros a b c. lia.
  - intros a b Hab Hba. apply rank_inj. lia.
Qed.

#[export] Instance le_total : Total le.
Proof. intros a b. unfold le. lia. Qed.

Lemma allow_le required actual : allow required actual = true ↔ le required actual.
Proof. apply bool_decide_eq_true. Qed.

Lemma allow_refl l : allow l l = true.
Proof. by apply allow_le. Qed.

(** Everyone passes a gate that requires [EVERYONE]. *)
Lemma allow_everyone actual : allow EVERYONE actual = true.
Proof. apply allow_le. unfold le. simpl. lia. Qed.

(** The owner passes every gate. *)
Lemma allow_owner required : allow required OWNER = true.
Proof. apply allow_le. unfold le. destruct required; simpl; lia. Qed.

(** Gating is monotonic in the caller's level. *)
Lemma allow_mono required l1 l2 :
  allow required l1 = true → le l1 l2 → allow required l2 = true.
Proof. rewrite !allow_le. intros. by etrans. Qed.

(** Gating is antitonic in the required level. *)
Lemma allow_anti r1 r2 actual :
  allow r2 actual = true → le r1 r2 → allow r1 actual = true.
Proof. rewrite !allow_le. intros. by etrans. Qed.

(** A denied caller is strictly below the required level. *)
Lemma allow_false required actual :
  allow required actual = false ↔ rank actual < rank required.
Proof. unfold allow. rewrite bool_decide_eq_false. unfold le. lia. Qed.

End AccessLevel.

#[export] Hint Resolve AccessLevel.allow_refl AccessLevel.allow_everyone
  AccessLevel.allow_owner : mb.
#[export] Hint Rewrite AccessLevel.allow_refl AccessLevel.allow_everyone
  AccessLevel.allow_owner : mb.
