(* ===== verification/Options.v ===== *)
(** * Options

    A command declares the option kinds it recognises.  [resolve] scans the
    tokens that follow the alias, removes every token that is the marker of
    a declared kind and returns the remaining tokens together with the set
    of active kinds.  A marker is ["--"] followed by the kind's name or
    ["-"] followed by its short name; a token that looks like a marker of
    an undeclared kind is an ordinary token and stays in place. *)

From S2P Require Import Prelude.

Module Options.

#[local] Set Warnings "-clear-no-such-hyp".

Record OptionKind := { opt_name : string; opt_short : string }.

Definition FORCE : OptionKind := {| opt_name := "force"; opt_short := "f" |}.

#[export] Instance OptionKind_eq_dec : EqDecision OptionKind.
Proof. solve_decision. Defined.

#[export] Instance OptionKind_countable : Countable OptionKind.
Proof.
  apply (inj_countable' (λ k, (opt_name k, opt_short k))
                        (λ p, {| opt_name := p.1; opt_short := p.2 |})).
  by intros [].
Defined.

(** The active options handed to a handler. *)
Abbreviation Options := (gset OptionKind).

(** A marker of [k]: ["--"] and the name, or ["-"] and the short name. *)
Definition is_marker (k : OptionKind) (tok : string) : bool :=
  bool_decide (tok = "--" +:+ opt_name k) || bool_decide (tok = "-" +:+ opt_short k).

(** The first declared kind the token is a marker of. *)
Definition find_option (declared : list OptionKind) (tok : string)
  : option OptionKind :=
  snd <$> list_find (λ k, is_marker k tok = true) declared.

Fixpoint resolve (declared : list OptionKind) (tokens : list string)
  : list string * Options :=
  match tokens with
  | [] => ([], ∅)
  | tok :: rest =>
      let '(remaining, active) := resolve declared rest in
      match find_option declared tok with
      | Some k => (remaining, {[ k ]} ∪ active)
      | None => (tok :: remaining, active)
      end
  end.

(** The query surface of the handlers: [options.has(name)]. *)
Definition has (active : Options) (name : string) : bool :=
  bool_decide (set_Exists (λ k, opt_name k = name) active).

(** ** The two components of [resolve] *)

Section resolve.
Context (declared : list OptionKind).
Implicit Types (tokens : list string) (tok : string) (k : OptionKind).

Lemma find_option_declared tok k :
  find_option declared tok = Some k → k ∈ declared ∧ is_marker k tok = true.
Proof.
  unfold find_option. intros H.
  apply fmap_Some in H as ([i k'] & Hfind & ->).
  apply list_find_Some in Hfind as (Hi & Hm & _).
  split; [by eapply list_elem_of_lookup_2 | done].
Qed.

Lemma find_option_None tok :
  find_option declared tok = None ↔ ∀ k, k ∈ declared → is_marker k tok = false.
Proof.
  unfold find_option. rewrite fmap_None, list_find_None, Forall_forall.
  apply forall_proper. intros k. by rewrite not_true_iff_false.
Qed.

Lemma resolve_cons tok tokens :
  resolve declared (tok :: tokens) =
  match find_option declared tok with
  | Some k => ((resolve declared tokens).1, {[ k ]} ∪ (resolve declared tokens).2)
  | None => (tok :: (resolve declared tokens).1, (resolve declared tokens).2)
  end.
Proof. simpl. by destruct (resolve declared tokens), (find_option declared tok). Qed.

(** The remaining tokens are the tokens that mark no declared kind, in
    their original order. *)
Lemma resolve_remaining tokens :
  (resolve declared tokens).1 =
  filter (λ tok, find_option declared tok = None) tokens.
Proof.
  induction tokens as [|tok tokens IH]; [done|].
  rewrite resolve_cons, filter_cons.
  destruct (find_option declared tok); simpl; by rewrite ?IH.
Qed.

(** A kind is active iff one of the tokens is its marker. *)
Lemma resolve_active tokens k :
  k ∈ (resolve declared tokens).2 ↔
  ∃ tok, tok ∈ tokens ∧ find_option declared tok = Some k.
Proof.
  induction tokens as [|tok tokens IH].
  - simpl. split; [set_solver | by intros (? & ?%elem_of_nil & _)].
  - rewrite resolve_cons.
    destruct (find_option declared tok) as [k'|] eqn:Hf; simpl.
    + rewrite elem_of_union, elem_of_singleton, IH. split.
      * intros [->|(t & Ht & Hk)]; [exists tok | exists t];
          split; [left | done | by right | done].
      * intros (t & [->|Ht]%elem_of_cons & Hk); [left; congruence | right; eauto].
    + rewrite IH. split.
      * intros (t & Ht & Hk). exists t. split; [by right | done].
      * intros (t & [->|Ht]%elem_of_cons & Hk); [congruence | eauto].
Qed.

Lemma resolve_app xs ys :
  resolve declared (xs ++ ys) =
  ((resolve declared xs).1 ++ (resolve declared ys).1,
   (resolve declared xs).2 ∪ (resolve declared ys).2).
Proof.
  induction xs as [|x xs IH].
  - simpl. destruct (resolve declared ys). f_equal. set_solver.
  - rewrite <- app_comm_cons, !resolve_cons, IH.
    destruct (find_option declared x); simpl; f_equal. set_solver.
Qed.

(** Option extraction does not depend on where the marker stands: a marker
    inserted at any position activates its kind and leaves the remaining
    tokens as they are without it. *)
Lemma resolve_insert_marker xs ys tok k :
  find_option declared tok = Some k →
  resolve declared (xs ++ tok :: ys) =
  ((resolve declared (xs ++ ys)).1, {[ k ]} ∪ (resolve declared (xs ++ ys)).2).
Proof.
  intros Hk. rewrite !resolve_app, resolve_cons, Hk. simpl.
  f_equal. set_solver.
Qed.

(** A token that marks no declared kind is left in place. *)
Lemma resolve_unknown xs ys tok :
  find_option declared tok = None →
  (resolve declared (xs ++ tok :: ys)).1 =
  (resolve declared xs).1 ++ tok :: (resolve declared ys).1.
Proof. intros Hk. by rewrite resolve_app, resolve_cons, Hk. Qed.

(** Resolving again finds nothing more. *)
Lemma resolve_idemp tokens :
  resolve declared (resolve declared tokens).1 = ((resolve declared tokens).1, ∅).
Proof.
  induction tokens as [|tok tokens IH]; [done|].
  rewrite resolve_cons.
  destruct (find_option declared tok) eqn:Hf; cbn [fst snd]; [done|].
  by rewrite resolve_cons, Hf, IH.
Qed.

(** Every active kind is a declared one. *)
Lemma resolve_active_declared tokens k :
  k ∈ (resolve declared tokens).2 → k ∈ declared.
Proof.
  rewrite resolve_active. intros (tok & _ & Hk).
  by apply find_option_declared in Hk as [? _].
Qed.

End resolve.

(** A command without declared options keeps every token. *)
Lemma resolve_nil tokens : resolve [] tokens = (tokens, ∅).
Proof. induction tokens as [|t ts IH]; [done|]. by rewrite resolve_cons, IH. Qed.

Lemma has_elem (active : Options) k : k ∈ active → has active (opt_name k) = true.
Proof. intros Hk. apply bool_decide_eq_true. by exists k. Qed.

Lemma has_empty name : has ∅ name = false.
Proof. apply bool_decide_eq_false. intros (k & Hk & _). set_solver. Qed.

Lemma has_singleton k name :
  has {[ k ]} name = bool_decide (opt_name k = name).
Proof.
  unfold has. apply bool_decide_ext. split.
  - intros (k' & ->%elem_of_singleton & H). done.
  - intros H. exists k. split; [set_solver | done].
Qed.

End Options.
