(* ===== verification/Argument.v ===== *)
(** * Argument matchers

    A matcher looks at the window of tokens that starts at a position of
    the token sequence and either rejects it or accepts it, saying how many
    tokens it consumed.  [Literal] compares the first token with a fixed
    text ignoring case and yields no value; [Typed] parses the window
    according to its kind and yields the parsed value; [Predicate] accepts
    the tokens a boolean test accepts and yields the token itself.

    The kinds are [STRING] and [INT], which read one token; [USER], which
    reads one token and resolves it to a user through the directory the
    kind is built with (the engine fixes neither the mention format nor
    the identity service, so both are a parameter of the kind); and the
    composite kinds, whose parser is given the whole window and says how
    many tokens it read.  A matcher that accepts has consumed at least one
    token and no more than the window holds ([match_arg_consumed]), and its
    result depends on the window alone ([match_arg_window]). *)

From S2P Require Import Prelude.

Module Argument.

#[local] Set Warnings "-clear-no-such-hyp".

Inductive ArgValue :=
  | VString (s : string)
  | VInt (z : Z)
  | VUser (identity : string).

Inductive ArgKind :=
  | KString
  | KInt
  | KUser (directory : string → option string)
  | KComposite (parse : list string → option (nat * ArgValue)).

Inductive ArgumentMatcher :=
  | Literal (text : string)
  | Typed (kind : ArgKind)
  | Predicate (accepts : string → bool).

(** The constructors as the scripts name them: [Argument.forString(text)]
    and [Argument.STRING]; [INT] and [USER] beside them. *)
Definition forString (text : string) : ArgumentMatcher := Literal text.
Definition STRING : ArgumentMatcher := Typed KString.
Definition INT : ArgumentMatcher := Typed KInt.
Definition USER (directory : string → option string) : ArgumentMatcher :=
  Typed (KUser directory).

#[export] Instance ArgValue_eq_dec : EqDecision ArgValue.
Proof. solve_decision. Defined.

(** The parse of a kind on a window of tokens: the number of tokens read
    and the value.  A composite parser that claims to have read no token,
    or more tokens than the window holds, has not matched. *)
Definition parse_kind (kind : ArgKind) (window : list string)
  : option (nat * ArgValue) :=
  match kind with
  | KString => tok ← head window; Some (1, VString tok)
  | KInt => tok ← head window; z ← parse_int tok; Some (1, VInt z)
  | KUser directory => tok ← head window; u ← directory tok; Some (1, VUser u)
  | KComposite parse =>
      '(n, v) ← parse window;
      if bool_decide (1 ≤ n ≤ length window) then Some (n, v) else None
  end.

(** [match_arg m tokens pos]: the number of tokens consumed and the parsed
    value, if the matcher accepts the window starting at [pos]. *)
Definition match_arg (m : ArgumentMatcher) (tokens : list string) (pos : nat)
  : option (nat * option ArgValue) :=
  let window := drop pos tokens in
  match m with
  | Literal text =>
      tok ← head window; if eqb_ci tok text then Some (1, None) else None
  | Typed kind => '(n, v) ← parse_kind kind window; Some (n, Some v)
  | Predicate accepts =>
      tok ← head window;
      if accepts tok then Some (1, Some (VString tok)) else None
  end.

(** The matchers that read exactly one token. *)
Definition single (m : ArgumentMatcher) : bool :=
  match m with Typed (KComposite _) => false | _ => true end.

(** [args[i].toString()] on a parsed value. *)
Definition toString (v : ArgValue) : string :=
  match v with
  | VString s => s
  | VInt z => pretty z
  | VUser identity => identity
  end.

(** ** Behaviour of the matchers *)

Lemma head_drop {A} (l : list A) pos : head (drop pos l) = l !! pos.
Proof. by rewrite head_lookup, lookup_drop, Nat.add_0_r. Qed.

Lemma head_drop_lt {A} (l : list A) pos x :
  head (drop pos l) = Some x → pos < length l.
Proof. rewrite head_drop. apply lookup_lt_Some. Qed.

Lemma parse_kind_consumed kind window n v :
  parse_kind kind window = Some (n, v) → 1 ≤ n ≤ length window.
Proof.
  destruct kind, window as [|tok window]; simpl; intros H;
    repeat (case_match || simplify_option_eq); simpl in *; lia.
Qed.

Section match_arg.
Context (tokens : list string) (pos : nat).

(** A matcher that accepts consumes at least one token and stays inside
    the token sequence. *)
Lemma match_arg_consumed m n v :
  match_arg m tokens pos = Some (n, v) → 1 ≤ n ∧ pos + n ≤ length tokens.
Proof.
  unfold match_arg. destruct m as [text|kind|accepts]; simpl; intros Hm.
  - destruct (head _) as [tok|] eqn:Htok; [|done]. apply head_drop_lt in Htok.
    simpl in Hm. case_match; simplify_eq. lia.
  - destruct (parse_kind kind _) as [[n' v']|] eqn:Hk; simplify_eq/=.
    apply parse_kind_consumed in Hk. rewrite length_drop in Hk. lia.
  - destruct (head _) as [tok|] eqn:Htok; [|done]. apply head_drop_lt in Htok.
    simpl in Hm. case_match; simplify_eq. lia.
Qed.

(** All matchers but the composite ones consume exactly one token. *)
Lemma match_arg_single m n v :
  single m = true → match_arg m tokens pos = Some (n, v) → n = 1.
Proof.
  unfold match_arg. destruct m as [text|[]|accepts]; try done; simpl; intros _ H;
    repeat (case_match || simplify_option_eq); done.
Qed.

Lemma match_arg_out_of_range m : length tokens ≤ pos → match_arg m tokens pos = None.
Proof.
  intros H. destruct (match_arg m tokens pos) as [[n v]|] eqn:Hm; [|done].
  apply match_arg_consumed in Hm. lia.
Qed.

(** The result is a function of the window alone. *)
Lemma match_arg_window m : match_arg m tokens pos = match_arg m (drop pos tokens) 0.
Proof. unfold match_arg. by rewrite drop_0. Qed.

Lemma match_arg_literal text tok :
  tokens !! pos = Some tok →
  match_arg (Literal text) tokens pos =
  if eqb_ci tok text then Some (1, None) else None.
Proof. unfold match_arg. rewrite head_drop. by intros ->. Qed.

Lemma match_arg_string tok :
  tokens !! pos = Some tok →
  match_arg STRING tokens pos = Some (1, Some (VString tok)).
Proof. unfold match_arg. simpl. rewrite head_drop. by intros ->. Qed.

Lemma match_arg_int tok :
  tokens !! pos = Some tok →
  match_arg INT tokens pos = (λ z, (1, Some (VInt z))) <$> parse_int tok.
Proof.
  unfold match_arg. simpl. rewrite head_drop. intros ->. simpl.
  by destruct (parse_int tok).
Qed.

(** [USER] accepts the tokens its directory resolves, and yields the user
    they denote. *)
Lemma match_arg_user directory tok :
  tokens !! pos = Some tok →
  match_arg (USER directory) tokens pos =
  (λ u, (1, Some (VUser u))) <$> directory tok.
Proof.
  unfold match_arg. simpl. rewrite head_drop. intros ->. simpl.
  by destruct (directory tok).
Qed.

(** A composite kind accepts what its parser accepts within the window. *)
Lemma match_arg_composite parse n v :
  match_arg (Typed (KComposite parse)) tokens pos = Some (n, Some v) ↔
  parse (drop pos tokens) = Some (n, v) ∧ 1 ≤ n ∧ pos + n ≤ length tokens.
Proof.
  unfold match_arg. simpl. destruct (parse _) as [[n' v']|]; simpl;
    [|naive_solver]. rewrite length_drop.
  case_bool_decide; simpl; split; intros; destruct_and?; simplify_eq; try done;
    (split; [done|lia]) || lia.
Qed.

(** A literal yields no value; a typed matcher always yields one. *)
Lemma match_arg_literal_value text n v :
  match_arg (Literal text) tokens pos = Some (n, v) → v = None.
Proof.
  unfold match_arg. intros H. repeat (case_match || simplify_option_eq); done.
Qed.

Lemma match_arg_typed_value kind n v :
  match_arg (Typed kind) tokens pos = Some (n, v) → is_Some v.
Proof.
  unfold match_arg. intros H. repeat (case_match || simplify_option_eq); eauto.
Qed.

Lemma match_arg_predicate_value accepts n v :
  match_arg (Predicate accepts) tokens pos = Some (n, v) → is_Some v.
Proof.
  unfold match_arg. intros H. repeat (case_match || simplify_option_eq); eauto.
Qed.

End match_arg.

(** A match at [pos + k] is a match at [k] of the window that starts at
    [pos]. *)
Lemma match_arg_drop m tokens pos k :
  match_arg m tokens (pos + k) = match_arg m (drop pos tokens) k.
Proof. unfold match_arg. by rewrite drop_drop. Qed.

(** Literals ignore case, on both sides. *)
Lemma match_arg_literal_ci text text' tokens tokens' pos :
  eq_ci text text' → lower <$> tokens = lower <$> tokens' →
  match_arg (Literal text) tokens pos = match_arg (Literal text') tokens' pos.
Proof.
  intros Ht Htoks. unfold match_arg. rewrite !head_drop.
  assert (lower <$> tokens !! pos = lower <$> tokens' !! pos) as Hpos
    by by rewrite <- !list_lookup_fmap, Htoks.
  destruct (tokens !! pos) as [a|], (tokens' !! pos) as [b|]; try done.
  injection Hpos as Hab. simpl. unfold eqb_ci. by rewrite Hab, Ht.
Qed.

End Argument.
