(* ===== verification/AsyncAction.v ===== *)
(** * Asynchronous actions

    The single-fire, continuation-based result of a handler.  An action is
    [Pending] with the continuations registered so far, in registration
    order, or it is settled: [Resolved] with a value or [Rejected] with an
    error.  The four operations return the new state together with the
    continuations that fire, in the order in which they fire; running them
    is left to the caller.  Continuations are values of an arbitrary type
    [K], so that the state of an action contains no functions of the
    program that uses it.

    An execution is a sequence of [Event]s (registrations and completions in
    any interleaving); [run] folds [step] over it. *)

From S2P Require Import Prelude.

Module AsyncAction.

Section defs.
Context {V E K : Type}.

Inductive State :=
  | Pending (on_success on_failure : list K)
  | Resolved (v : V)
  | Rejected (e : E).

(** A continuation that fires, with the value or error it receives. *)
Inductive Firing :=
  | FireSuccess (k : K) (v : V)
  | FireFailure (k : K) (e : E).

Definition init : State := Pending [] [].

Definition settled (st : State) : bool :=
  match st with Pending _ _ => false | _ => true end.

Definition onSuccess (k : K) (st : State) : State * list Firing :=
  match st with
  | Pending ss fs => (Pending (ss ++ [k]) fs, [])
  | Resolved v => (st, [FireSuccess k v])
  | Rejected _ => (st, [])
  end.

Definition onFailure (k : K) (st : State) : State * list Firing :=
  match st with
  | Pending ss fs => (Pending ss (fs ++ [k]), [])
  | Resolved _ => (st, [])
  | Rejected e => (st, [FireFailure k e])
  end.

Definition resolve (v : V) (st : State) : State * list Firing :=
  match st with
  | Pending ss _ => (Resolved v, (λ k, FireSuccess k v) <$> ss)
  | _ => (st, [])
  end.

Definition reject (e : E) (st : State) : State * list Firing :=
  match st with
  | Pending _ fs => (Rejected e, (λ k, FireFailure k e) <$> fs)
  | _ => (st, [])
  end.

(** ** Executions *)

Inductive Event :=
  | RegSuccess (k : K)
  | RegFailure (k : K)
  | Resolve (v : V)
  | Reject (e : E).

Definition step (st : State) (ev : Event) : State * list Firing :=
  match ev with
  | RegSuccess k => onSuccess k st
  | RegFailure k => onFailure k st
  | Resolve v => resolve v st
  | Reject e => reject e st
  end.

Fixpoint run (st : State) (evs : list Event) : State * list Firing :=
  match evs with
  | [] => (st, [])
  | ev :: evs' =>
      let '(st1, fired1) := step st ev in
      let '(st2, fired2) := run st1 evs' in
      (st2, fired1 ++ fired2)
  end.

Definition is_completion (ev : Event) : bool :=
  match ev with Resolve _ | Reject _ => true | _ => false end.

(** The continuations an execution registers, in registration order. *)
Definition successes (evs : list Event) : list K :=
  omap (λ ev, match ev with RegSuccess k => Some k | _ => None end) evs.

Definition failures (evs : list Event) : list K :=
  omap (λ ev, match ev with RegFailure k => Some k | _ => None end) evs.

(** The state machine of the description: a pending action may take
    registrations and settles at most once; a settled action never
    changes. *)
Inductive transition : State → State → Prop :=
  | t_register_success ss fs k : transition (Pending ss fs) (Pending (ss ++ [k]) fs)
  | t_register_failure ss fs k : transition (Pending ss fs) (Pending ss (fs ++ [k]))
  | t_resolve ss fs v : transition (Pending ss fs) (Resolved v)
  | t_reject ss fs e : transition (Pending ss fs) (Rejected e)
  | t_settled st : settled st = true → transition st st.

End defs.

Arguments State : clear implicits.
Arguments Firing : clear implicits.
Arguments Event : clear implicits.

Section lemmas.
Context {V E K : Type}.
Implicit Types (st : State V E K) (ev : Event V E K) (evs : list (Event V E K)).
Implicit Types (k : K) (v : V) (e : E).

(** ** Single steps *)

(** Every step of the functional model is a transition of the state
    machine. *)
Lemma step_transition st ev : transition st (step st ev).1.
Proof.
  destruct ev, st; simpl; by constructor.
Qed.

(** A settled action is terminal. *)
Lemma transition_settled st st' :
  transition st st' → settled st = true → st' = st.
Proof. by destruct 1. Qed.

Lemma step_settled st ev : settled st = true → (step st ev).1 = st.
Proof. intros. eapply transition_settled; eauto using step_transition. Qed.

Lemma transition_settled_mono st st' :
  transition st st' → settled st = true → settled st' = true.
Proof. intros Ht Hs. by rewrite (transition_settled _ _ Ht Hs). Qed.

(** ** Sequences of transitions *)

(** A settled action never changes again. *)
Lemma evolves_settled st st' :
  rtc transition st st' → settled st = true → st' = st.
Proof.
  induction 1 as [|st st1 st2 Hstep _ IH]; [done|]. intros Hs.
  rewrite (transition_settled _ _ Hstep Hs) in IH. by apply IH.
Qed.

(** While an action is pending its continuations only grow, at the end:
    what was registered stays registered, in the same order. *)
Lemma evolves_pending ss fs ss' fs' :
  rtc transition (Pending ss fs : State V E K) (Pending ss' fs') →
  ss `prefix_of` ss' ∧ fs `prefix_of` fs'.
Proof.
  intros H. remember (Pending ss fs) as st eqn:Hst.
  remember (Pending ss' fs') as st' eqn:Hst'. revert ss fs Hst.
  induction H as [|st st1 st2 Hstep Hrest IH]; intros ss fs ->.
  - by simplify_eq.
  - subst st2. inversion Hstep; simplify_eq;
      try (by apply evolves_settled in Hrest);
      destruct (IH eq_refl _ _ eq_refl) as [Hs Hf];
      split; try done; (etrans; [|done]); by apply prefix_app_r.
Qed.
(** ** Executions *)

Lemma run_cons st ev evs :
  run st (ev :: evs) =
  ((run (step st ev).1 evs).1, (step st ev).2 ++ (run (step st ev).1 evs).2).
Proof.
  cbn [run]. destruct (step st ev) as [st1 f1]. cbn [fst snd].
  by destruct (run st1 evs).
Qed.

Lemma run_app st evs1 evs2 :
  run st (evs1 ++ evs2) =
  ((run (run st evs1).1 evs2).1, (run st evs1).2 ++ (run (run st evs1).1 evs2).2).
Proof.
  revert st. induction evs1 as [|ev evs1 IH]; intros st.
  - simpl. by destruct (run st evs2).
  - rewrite <- app_comm_cons, !run_cons, IH. simpl. by rewrite app_assoc.
Qed.

Lemma run_settled_state st evs : settled st = true → (run st evs).1 = st.
Proof.
  revert st. induction evs as [|ev evs IH]; intros st Hst; [done|].
  rewrite run_cons. simpl. rewrite (step_settled _ _ Hst). by apply IH.
Qed.

(** Without a completion nothing fires, and the action holds every
    registered continuation in registration order. *)
Lemma run_pending ss fs evs :
  Forall (λ ev, is_completion ev = false) evs →
  run (Pending ss fs) evs = (Pending (ss ++ successes evs) (fs ++ failures evs), []).
Proof.
  intros Hevs. revert ss fs.
  induction Hevs as [|ev evs Hev _ IH]; intros ss fs.
  - simpl. by rewrite !app_nil_r.
  - rewrite run_cons. destruct ev; try done; simpl; rewrite IH; simpl;
      by rewrite <- ?app_assoc.
Qed.

(** After a resolution, the success continuations registered later fire
    at once, each exactly once and in registration order; nothing else
    fires and later completions are ignored. *)
Lemma run_resolved v evs :
  run (Resolved v) evs = (Resolved v, (λ k, FireSuccess k v) <$> successes evs).
Proof.
  induction evs as [|ev evs IH]; [done|].
  rewrite run_cons. destruct ev; simpl; by rewrite IH.
Qed.

Lemma run_rejected e evs :
  run (Rejected e) evs = (Rejected e, (λ k, FireFailure k e) <$> failures evs).
Proof.
  induction evs as [|ev evs IH]; [done|].
  rewrite run_cons. destruct ev; simpl; by rewrite IH.
Qed.

Lemma successes_app evs1 evs2 :
  successes (evs1 ++ evs2) = successes evs1 ++ successes evs2.
Proof. apply omap_app. Qed.

Lemma failures_app evs1 evs2 :
  failures (evs1 ++ evs2) = failures evs1 ++ failures evs2.
Proof. apply omap_app. Qed.

(** Exactly once, in registration order: whatever the interleaving of
    registrations with the first completion, an execution whose first
    completion is a resolution with [v] fires every registered success
    continuation once with [v], in registration order, and no failure
    continuation. *)
Theorem run_resolve_once pre post v :
  Forall (λ ev, is_completion ev = false) pre →
  run init (pre ++ Resolve v :: post) =
  (Resolved v, (λ k, FireSuccess k v) <$> successes (pre ++ Resolve v :: post)).
Proof.
  intros Hpre. unfold init.
  rewrite run_app, (run_pending _ _ pre) by done. cbn [fst snd].
  rewrite run_cons. cbn [step resolve fst snd]. rewrite run_resolved.
  rewrite successes_app. simpl. by rewrite fmap_app.
Qed.

Theorem run_reject_once pre post e :
  Forall (λ ev, is_completion ev = false) pre →
  run init (pre ++ Reject e :: post) =
  (Rejected e, (λ k, FireFailure k e) <$> failures (pre ++ Reject e :: post)).
Proof.
  intros Hpre. unfold init.
  rewrite run_app, (run_pending _ _ pre) by done. cbn [fst snd].
  rewrite run_cons. cbn [step reject fst snd]. rewrite run_rejected.
  rewrite failures_app. simpl. by rewrite fmap_app.
Qed.

(** The number of firings never exceeds the number of registrations. *)
Lemma run_fired_bound st evs :
  st = init ∨ settled st = true →
  length (run st evs).2 ≤ length (successes evs) + length (failures evs).
Proof.
  assert (∀ st', settled st' = true →
    length (run st' evs).2 ≤ length (successes evs) + length (failures evs)) as Hs.
  { intros [| |] [=]; rewrite ?run_resolved, ?run_rejected; simpl;
      rewrite length_fmap; lia. }
  intros [->|Hst]; [|by apply Hs].
  destruct (list_find (λ ev, is_completion ev = true) evs) as [[i ev]|] eqn:Hf.
  - apply list_find_Some in Hf as (Hi & Hev & Hbefore).
    rewrite <- (take_drop_middle _ _ _ Hi).
    assert (Forall (λ ev, is_completion ev = false) (take i evs)) as Hpre.
    { apply Forall_forall. intros x [j Hj]%list_elem_of_lookup.
      apply lookup_take_Some in Hj as [Hj Hlt].
      apply not_true_is_false. eauto. }
    destruct ev; try done;
      rewrite ?run_resolve_once, ?run_reject_once by done; simpl;
      rewrite length_fmap; lia.
  - apply list_find_None in Hf.
    unfold init. rewrite (run_pending [] [] evs); simpl; [lia|].
    eapply Forall_impl; [done|]. intros x. by apply not_true_is_false.
Qed.

End lemmas.

End AsyncAction.
