(* ===== verification/Runtime.v ===== *)
(** * The host world and the [Host] monad

    What a script can observe and change: the replies sent through events,
    the records written to loggers, the lines written to the console, and
    the store of asynchronous actions.  Script code is written in the monad
    [Host K A]: a function from the world to a completion (a normal value
    or a thrown value) and the new world.  [K] is the type of the
    continuations kept inside asynchronous actions.

    Computations are compared pointwise ([≡]); the monad laws and the
    [Proper] instance of bind are stated for that equivalence. *)

From S2P Require Import Prelude AccessLevel AsyncAction.

Module Runtime.

Import AccessLevel.

(** ** Values *)

Inductive JsValue :=
  | VUndefined
  | VStr (s : string)
  | VNum (z : Z)
  | VBool (b : bool)
  | VAction (id : nat)
  | VError (name message : string).

#[export] Instance JsValue_eq_dec : EqDecision JsValue.
Proof. solve_decision. Defined.

#[export] Instance JsValue_inhabited : Inhabited JsValue := populate VUndefined.

(** The [TypeError] raised by a property access on [undefined]. *)
Definition TypeError (message : string) : JsValue := VError "TypeError" message.

(** ** Events, replies, log records, console lines *)

Record Event := {
  raw : string;
  sender : string;
  level : AccessLevel;
}.

Record Reply := {
  in_reply_to : Event;
  text : string;
}.

Inductive LogLevel := INFO | WARN | ERROR.

Record LogRecord := {
  logger : string;
  log_level : LogLevel;
  log_message : string;
}.

Inductive Stream := Stdout | Stderr.

Record ConsoleLine := {
  stream : Stream;
  line : JsValue;
}.

#[export] Instance Event_eq_dec : EqDecision Event.
Proof. solve_decision. Defined.
#[export] Instance Reply_eq_dec : EqDecision Reply.
Proof. solve_decision. Defined.
#[export] Instance LogLevel_eq_dec : EqDecision LogLevel.
Proof. solve_decision. Defined.
#[export] Instance LogRecord_eq_dec : EqDecision LogRecord.
Proof. solve_decision. Defined.
#[export] Instance Stream_eq_dec : EqDecision Stream.
Proof. solve_decision. Defined.
#[export] Instance ConsoleLine_eq_dec : EqDecision ConsoleLine.
Proof. solve_decision. Defined.

#[export] Instance JsValue_countable : Countable JsValue.
Proof.
  refine (inj_countable'
    (λ v, match v with
          | VUndefined => inl ()
          | VStr s => inr (inl s)
          | VNum z => inr (inr (inl z))
          | VBool b => inr (inr (inr (inl b)))
          | VAction id => inr (inr (inr (inr (inl id))))
          | VError name message => inr (inr (inr (inr (inr (name, message)))))
          end)
    (λ x, match x with
          | inl () => VUndefined
          | inr (inl s) => VStr s
          | inr (inr (inl z)) => VNum z
          | inr (inr (inr (inl b))) => VBool b
          | inr (inr (inr (inr (inl id)))) => VAction id
          | inr (inr (inr (inr (inr (name, message))))) => VError name message
          end) _).
  by intros [].
Qed.

#[export] Instance Stream_countable : Countable Stream.
Proof.
  refine (inj_countable' (λ s, match s with Stdout => true | Stderr => false end)
            (λ b : bool, if b then Stdout else Stderr) _).
  by intros [].
Qed.

#[export] Instance ConsoleLine_countable : Countable ConsoleLine.
Proof.
  refine (inj_countable' (λ l, (stream l, line l))
            (λ x, {| stream := x.1; line := x.2 |}) _).
  by intros [].
Qed.

(** ** The world *)

Section world.
Context {K : Type}.

Abbreviation Action := (AsyncAction.State JsValue JsValue K).
Abbreviation Job := (AsyncAction.Firing JsValue JsValue K).

(** [actions] is the store of asynchronous actions, an action's identifier
    being its index; [jobs] is the queue of continuations that have fired
    and wait for the host to run them, oldest first. *)
Record World := {
  replies : list Reply;
  logs : list LogRecord;
  console : list ConsoleLine;
  actions : list Action;
  jobs : list Job;
}.

Definition empty_world : World :=
  {| replies := []; logs := []; console := []; actions := []; jobs := [] |}.

(** The world after a reply was handed to the transport: the reply is
    queued and a pending action for its delivery is allocated. *)
Definition send (r : Reply) (w : World) : World :=
  {| replies := replies w ++ [r]; logs := logs w; console := console w;
     actions := actions w ++ [AsyncAction.init]; jobs := jobs w |}.

Definition write_log (r : LogRecord) (w : World) : World :=
  {| replies := replies w; logs := logs w ++ [r]; console := console w;
     actions := actions w; jobs := jobs w |}.

Definition write_console (l : ConsoleLine) (w : World) : World :=
  {| replies := replies w; logs := logs w; console := console w ++ [l];
     actions := actions w; jobs := jobs w |}.

Definition set_action (id : nat) (a : Action) (w : World) : World :=
  {| replies := replies w; logs := logs w; console := console w;
     actions := <[id := a]> (actions w); jobs := jobs w |}.

Definition set_jobs (js : list Job) (w : World) : World :=
  {| replies := replies w; logs := logs w; console := console w;
     actions := actions w; jobs := js |}.

(** The world with one more action, pending and without continuations;
    its identifier is the length of the store before. *)
Definition alloc (w : World) : World :=
  {| replies := replies w; logs := logs w; console := console w;
     actions := actions w ++ [AsyncAction.init]; jobs := jobs w |}.

(** Apply an operation of [AsyncAction] to the action [id] of the store
    and queue the continuations that fire.  An identifier outside the
    store denotes no action: nothing happens. *)
Definition apply_action (id : nat) (op : Action → Action * list Job)
    (w : World) : World :=
  match actions w !! id with
  | None => w
  | Some st => set_jobs (jobs w ++ (op st).2) (set_action id (op st).1 w)
  end.

(** ** Completions and computations *)

Inductive Completion (A : Type) :=
  | Normal (a : A)
  | Throw (e : JsValue).
Arguments Normal {A} a.
Arguments Throw {A} e.

Definition Host (A : Type) : Type := World → Completion A * World.

Definition ret {A} (a : A) : Host A := λ w, (Normal a, w).

Definition bind {A B} (m : Host A) (f : A → Host B) : Host B :=
  λ w, match m w with
       | (Normal a, w') => f a w'
       | (Throw e, w') => (Throw e, w')
       end.

Definition throw {A} (e : JsValue) : Host A := λ w, (Throw e, w).

(** [try { m } catch (e) { handler e }]. *)
Definition try_catch {A} (m : Host A) (handler : JsValue → Host A) : Host A :=
  λ w, match m w with
       | (Normal a, w') => (Normal a, w')
       | (Throw e, w') => handler e w'
       end.

(** ** Primitives of the host *)

(** [event.fastReply(text)]: sends the reply and returns the action that
    completes when the message is delivered. *)
Definition fastReply (ev : Event) (txt : string) : Host JsValue :=
  λ w, (Normal (VAction (length (actions w))),
        send {| in_reply_to := ev; text := txt |} w).

(** [LOG.info(message)] on the logger named [name]. *)
Definition LOG_info (name message : string) : Host JsValue :=
  λ w, (Normal VUndefined,
        write_log {| logger := name; log_level := INFO; log_message := message |} w).

(** [console.log(v)] and [console.error(v)]. *)
Definition console_log (v : JsValue) : Host JsValue :=
  λ w, (Normal VUndefined, write_console {| stream := Stdout; line := v |} w).

Definition console_error (v : JsValue) : Host JsValue :=
  λ w, (Normal VUndefined, write_console {| stream := Stderr; line := v |} w).

(** A computation whose every run relates the world before to the world
    after by [R], whether it returns or throws. *)
Definition respects {A} (R : relation World) (m : Host A) : Prop :=
  ∀ w, R w (m w).2.

(** The relation of the worlds between which a property is kept. *)
Definition keeps (I : World → Prop) : relation World := λ w w', I w → I w'.

(** The texts of the replies sent, oldest first. *)
Definition sent (w : World) : list string := text <$> replies w.

End world.

Arguments World : clear implicits.
Arguments Host : clear implicits.
Arguments Completion : clear implicits.
Arguments Normal {A} a.
Arguments Throw {A} e.

#[export] Instance Host_ret {K} : MRet (Host K) := @ret K.
#[export] Instance Host_bind {K} : MBind (Host K) := λ A B f m, bind m f.

(** Pointwise equality of computations. *)
#[export] Instance Host_equiv {K A} : Equiv (Host K A) := λ m m', ∀ w, m w = m' w.

#[export] Instance Host_equivalence {K A} : Equivalence (≡@{Host K A}).
Proof.
  split.
  - by intros m w.
  - intros m m' H w. by rewrite H.
  - intros m1 m2 m3 H1 H2 w. by rewrite H1.
Qed.

#[export] Instance bind_proper {K A B} :
  Proper ((≡) ==> pointwise_relation A (≡) ==> (≡)) (@bind K A B).
Proof.
  intros m m' Hm f f' Hf w. unfold bind. rewrite Hm.
  destruct (m' w) as [[a|e] w']; [apply Hf | done].
Qed.

#[export] Instance try_catch_proper {K A} :
  Proper ((≡) ==> pointwise_relation JsValue (≡) ==> (≡)) (@try_catch K A).
Proof.
  intros m m' Hm f f' Hf w. unfold try_catch. rewrite Hm.
  destruct (m' w) as [[a|e] w']; [done | apply Hf].
Qed.

#[export] Instance keeps_preorder {K} (I : World K → Prop) : PreOrder (keeps I).
Proof.
  split; [intros w H; exact H | intros w1 w2 w3 H12 H23 H; exact (H23 (H12 H))].
Qed.

Section laws.
Context {K : Type}.
Implicit Types (w : World K).

(** ** Monad laws *)

Lemma bind_ret_l {A B} (a : A) (f : A → Host K B) : bind (ret a) f ≡ f a.
Proof. by intros w. Qed.

Lemma bind_ret_r {A} (m : Host K A) : bind m ret ≡ m.
Proof. intros w. unfold bind, ret. by destruct (m w) as [[a|e] w']. Qed.

Lemma bind_assoc {A B C} (m : Host K A) (f : A → Host K B) (g : B → Host K C) :
  bind (bind m f) g ≡ bind m (λ a, bind (f a) g).
Proof. intros w. unfold bind. by destruct (m w) as [[a|e] w']. Qed.

(** A thrown value skips the rest of the computation and is caught by the
    nearest handler. *)
Lemma bind_throw {A B} e (f : A → Host K B) : bind (throw e) f ≡ throw e.
Proof. by intros w. Qed.

Lemma try_catch_ret {A} (a : A) h : try_catch (ret a) h ≡ @ret K A a.
Proof. by intros w. Qed.

Lemma try_catch_throw {A} e (h : JsValue → Host K A) : try_catch (throw e) h ≡ h e.
Proof. by intros w. Qed.

(** ** Relations kept by computations *)

Section respects.
Context (R : relation (World K)) `{!PreOrder R}.

Lemma respects_ret {A} (a : A) : respects R (mret a).
Proof. by intros w. Qed.

Lemma respects_throw {A} e : respects R (throw (A:=A) e).
Proof. by intros w. Qed.

Lemma respects_bind {A B} (m : Host K A) (f : A → Host K B) :
  respects R m → (∀ a, respects R (f a)) → respects R (m ≫= f).
Proof.
  intros Hm Hf w. unfold mbind, Host_bind, bind.
  specialize (Hm w). destruct (m w) as [[a|e] w']; [|done].
  etrans; [done | apply Hf].
Qed.

Lemma respects_try_catch {A} (m : Host K A) (h : JsValue → Host K A) :
  respects R m → (∀ e, respects R (h e)) → respects R (try_catch m h).
Proof.
  intros Hm Hh w. unfold try_catch.
  specialize (Hm w). destruct (m w) as [[a|e] w']; [done|].
  etrans; [done | apply Hh].
Qed.

End respects.

(** ** Effects of the primitives *)

Lemma sent_send r w : sent (send r w) = sent w ++ [text r].
Proof. unfold sent. simpl. by rewrite fmap_app. Qed.

Lemma sent_write_log r w : sent (write_log r w) = sent w.
Proof. done. Qed.

Lemma sent_write_console l w : sent (write_console l w) = sent w.
Proof. done. Qed.

Lemma fastReply_run ev txt w :
  fastReply ev txt w =
  (Normal (VAction (length (actions w))), send {| in_reply_to := ev; text := txt |} w).
Proof. done. Qed.

(** The action returned by [fastReply] is a fresh pending action. *)
Lemma fastReply_fresh ev txt w :
  actions (fastReply ev txt w).2 !! length (actions w) = Some AsyncAction.init.
Proof. simpl. by rewrite lookup_app_r, Nat.sub_diag. Qed.

Lemma fastReply_sent ev txt w : sent (fastReply ev txt w).2 = sent w ++ [txt].
Proof. simpl. by rewrite sent_send. Qed.

(** ** The action store *)

Lemma apply_action_Some id op w st :
  actions w !! id = Some st →
  apply_action id op w = set_jobs (jobs w ++ (op st).2) (set_action id (op st).1 w).
Proof. unfold apply_action. by intros ->. Qed.

Lemma apply_action_None id op w :
  actions w !! id = None → apply_action id op w = w.
Proof. unfold apply_action. by intros ->. Qed.

(** Operations on the store leave replies, logs and console alone, and
    never change the number of actions. *)
Lemma apply_action_frame id op w :
  replies (apply_action id op w) = replies w ∧
  logs (apply_action id op w) = logs w ∧
  console (apply_action id op w) = console w ∧
  length (actions (apply_action id op w)) = length (actions w).
Proof.
  unfold apply_action. destruct (actions w !! id); simpl; [|done].
  by rewrite length_insert.
Qed.

Lemma apply_action_lookup_ne id id' op w :
  id ≠ id' → actions (apply_action id op w) !! id' = actions w !! id'.
Proof.
  intros Hne. unfold apply_action. destruct (actions w !! id); simpl; [|done].
  by apply list_lookup_insert_ne.
Qed.

Lemma apply_action_lookup id op w st :
  actions w !! id = Some st →
  actions (apply_action id op w) !! id = Some (op st).1.
Proof.
  intros Hst. rewrite (apply_action_Some _ _ _ _ Hst). simpl.
  apply list_lookup_insert_eq. by eapply lookup_lt_Some.
Qed.

(** Two operations on the same action, one after the other, are one
    operation: the second acts on the state the first leaves, and what
    they fire is queued in that order. *)
Lemma apply_action_compose id w
    (op1 op2 : AsyncAction.State JsValue JsValue K →
               AsyncAction.State JsValue JsValue K *
               list (AsyncAction.Firing JsValue JsValue K)) :
  apply_action id op2 (apply_action id op1 w) =
  apply_action id (λ st, ((op2 (op1 st).1).1, (op1 st).2 ++ (op2 (op1 st).1).2)) w.
Proof.
  unfold apply_action. destruct (actions w !! id) as [st|] eqn:Hst; simpl;
    [|by rewrite Hst].
  rewrite list_lookup_insert_eq by by eapply lookup_lt_Some.
  unfold set_jobs, set_action. simpl.
  by rewrite list_insert_insert_eq, app_assoc.
Qed.

End laws.

End Runtime.

#[export] Hint Rewrite @Runtime.sent_send @Runtime.sent_write_log
  @Runtime.sent_write_console @Runtime.fastReply_sent : mb.
