(* ===== verification/Promise.v ===== *)
(** * Chaining on asynchronous actions: [then] and [catch]

    A script chains continuations on an action with [p.then(f)] and
    [p.catch(g)].  Either call allocates a derived action and registers a
    reaction on [p]: when [p] settles, the reaction's callback (if it has
    one for that outcome) is run on the value and the derived action is
    resolved with the callback's result, or rejected with what the callback
    throws; without a callback the outcome of [p] passes through to the
    derived action.

    Reactions that fire are queued in the world ([jobs]); the host runs
    them one at a time ([tick]).  [run_jobs] runs them until the queue is
    empty, with fuel; [run_jobs_terminates] shows that the fuel given by
    [measure] is enough for the scripts whose callbacks leave the store
    alone, which is the interface [StoreFrame] a script implements.

    [then_all] is a sequence of calls of [then] on one action;
    [then_all_interleave] shows that the registrations made before and
    after the completion of the action fire exactly once, in registration
    order.

    Callbacks are values of a type [C] of the client's, run by the client's
    [call]. *)

From S2P Require Import Prelude AsyncAction Runtime.

Module Promise.

#[local] Set Warnings "-clear-no-such-hyp".

Import AsyncAction Runtime.

Section defs.
Context {C : Type}.

Record Reaction := {
  handler : option C;
  derived : nat;
}.

(** The completion of the action [id] by its producer. *)
Definition settle (id : nat) (outcome : JsValue + JsValue)
  : World Reaction → World Reaction :=
  apply_action id
    match outcome with
    | inl v => AsyncAction.resolve v
    | inr e => AsyncAction.reject e
    end.

(** [p.then(onFulfilled, onRejected)]. *)
Definition then_ (p : JsValue) (onFulfilled onRejected : option C)
  : Host Reaction JsValue :=
  λ w, match p with
       | VAction id =>
           let d := length (actions w) in
           let w1 := alloc w in
           let w2 := apply_action id
                       (onSuccess {| handler := onFulfilled; derived := d |}) w1 in
           let w3 := apply_action id
                       (onFailure {| handler := onRejected; derived := d |}) w2 in
           (Normal (VAction d), w3)
       | _ => (Throw (TypeError "then is not a function"), w)
       end.

(** [p.catch(onRejected)]. *)
Definition catch_ (p : JsValue) (onRejected : C) : Host Reaction JsValue :=
  then_ p None (Some onRejected).

Section run.
Context (call : C → JsValue → Host Reaction JsValue).

(** The outcome a reaction gives its derived action. *)
Definition react (r : Reaction) (settled_with : JsValue + JsValue)
    (w : World Reaction) : World Reaction :=
  match handler r with
  | None => settle (derived r) settled_with w
  | Some cb =>
      let arg := match settled_with with inl v => v | inr e => e end in
      match call cb arg w with
      | (Normal result, w') => settle (derived r) (inl result) w'
      | (Throw e, w') => settle (derived r) (inr e) w'
      end
  end.

Definition run_job (j : Firing JsValue JsValue Reaction)
  : World Reaction → World Reaction :=
  match j with
  | FireSuccess r v => react r (inl v)
  | FireFailure r e => react r (inr e)
  end.

(** Run the oldest job, if there is one. *)
Definition tick (w : World Reaction) : World Reaction :=
  match jobs w with
  | [] => w
  | j :: js => run_job j (set_jobs js w)
  end.

(** Run jobs until the queue is empty; [None] when the fuel runs out
    first. *)
Fixpoint run_jobs (fuel : nat) (w : World Reaction) : option (World Reaction) :=
  match jobs w with
  | [] => Some w
  | _ :: _ =>
      match fuel with
      | 0 => None
      | S fuel' => run_jobs fuel' (tick w)
      end
  end.

End run.

(** What one call of [then] does to the action it is called on: the state
    after both registrations and the reactions that fire. *)
Definition register (onFulfilled onRejected : option C) (d : nat)
    (st : State JsValue JsValue Reaction)
  : State JsValue JsValue Reaction * list (Firing JsValue JsValue Reaction) :=
  let s1 := onSuccess {| handler := onFulfilled; derived := d |} st in
  let s2 := onFailure {| handler := onRejected; derived := d |} s1.1 in
  (s2.1, s1.2 ++ s2.2).

(** [then] called on the action [id] once for each of [cbs], in order. *)
Fixpoint then_all (id : nat) (cbs : list C) (w : World Reaction)
  : World Reaction :=
  match cbs with
  | [] => w
  | cb :: cbs' => then_all id cbs' (then_ (VAction id) (Some cb) None w).2
  end.

(** The reaction a job runs. *)
Definition reaction_of (j : Firing JsValue JsValue Reaction) : Reaction :=
  match j with FireSuccess r _ | FireFailure r _ => r end.

(** The reactions these calls register: the [i]-th has the [i]-th derived
    action, counted from [d]. *)
Definition reactions (f : C → option C) (d : nat) (cbs : list C) : list Reaction :=
  imap (λ i cb, {| handler := f cb; derived := d + i |}) cbs.

(** The jobs an outcome makes of the reactions an action holds. *)
Definition fire (o : JsValue + JsValue) (ss fs : list Reaction) : list (Firing JsValue JsValue Reaction) :=
  match o with
  | inl v => (λ r, FireSuccess r v) <$> ss
  | inr e => (λ r, FireFailure r e) <$> fs
  end.

(** The state an outcome leaves an action in. *)
Definition settled_with (outcome : JsValue + JsValue)
  : State JsValue JsValue Reaction :=
  match outcome with inl v => Resolved v | inr e => Rejected e end.

(** The reactions an action still holds. *)
Definition held (a : State JsValue JsValue Reaction) : nat :=
  match a with
  | Pending ss fs => length ss + length fs
  | _ => 0
  end.

(** The number of jobs that can still run: those queued and the reactions
    held by pending actions. *)
Definition measure (w : World Reaction) : nat :=
  length (jobs w) + sum_list_with held (actions w).

(** What the job loop asks of the callbacks of a script for its
    termination: a callback leaves the store and the queue alone. *)
Class StoreFrame (call : C → JsValue → Host Reaction JsValue) : Prop :=
  store_frame : ∀ cb v w,
    actions (call cb v w).2 = actions w ∧ jobs (call cb v w).2 = jobs w.

End defs.

Arguments Reaction : clear implicits.

Section lemmas.
Context {C : Type} (call : C → JsValue → Host (Reaction C) JsValue).
Implicit Types (w : World (Reaction C)) (r : Reaction C).
Implicit Types (o : JsValue + JsValue) (j : Firing JsValue JsValue (Reaction C)).
Implicit Types (st : State JsValue JsValue (Reaction C)).

(** ** The operations on a world whose store holds the action *)

Lemma then_run id f g w st :
  actions w !! id = Some st →
  then_ (VAction id) f g w =
  (Normal (VAction (length (actions w))),
   {| replies := replies w; logs := logs w; console := console w;
      actions := <[id := (register f g (length (actions w)) st).1]> (actions w)
                 ++ [init];
      jobs := jobs w ++ (register f g (length (actions w)) st).2 |}).
Proof.
  intros Hst. unfold then_. f_equal.
  assert (actions (alloc w) !! id = Some st) as H1 by by apply lookup_app_l_Some.
  rewrite (apply_action_Some _ _ (apply_action _ _ _) _
             (apply_action_lookup _ _ _ _ H1)).
  rewrite (apply_action_Some _ _ _ _ H1).
  unfold set_jobs, set_action, register. simpl.
  rewrite list_insert_insert_eq, insert_app_l, app_assoc by by eapply lookup_lt_Some.
  done.
Qed.

(** [then] in every world: a fresh action is allocated and the two
    registrations are made on the action called on, if there is one
    (which the fresh one may be). *)
Lemma then_register id f g w :
  then_ (VAction id) f g w =
  (Normal (VAction (length (actions w))),
   apply_action id (register f g (length (actions w))) (alloc w)).
Proof. unfold then_. by rewrite apply_action_compose. Qed.

(** On anything but an action, [then] is not a function. *)
Lemma then_not_action p f g w :
  (∀ id, p ≠ VAction id) →
  then_ p f g w = (Throw (TypeError "then is not a function"), w).
Proof. intros Hp. destruct p; try done. by destruct (Hp id). Qed.

Lemma settle_run id o w st :
  actions w !! id = Some st →
  settle id o w =
  {| replies := replies w; logs := logs w; console := console w;
     actions :=
       <[id := (match o with inl v => resolve v st | inr e => reject e st end).1]>
         (actions w);
     jobs :=
       jobs w ++ (match o with inl v => resolve v st | inr e => reject e st end).2 |}.
Proof.
  intros Hst. unfold settle. rewrite (apply_action_Some _ _ _ _ Hst). by destruct o.
Qed.

Lemma reactions_cons (f : C → option C) d cb cbs :
  reactions f d (cb :: cbs) = {| handler := f cb; derived := d |} :: reactions f (S d) cbs.
Proof.
  unfold reactions. simpl. rewrite Nat.add_0_r. f_equal.
  apply imap_ext. intros i x _. simpl. f_equal. lia.
Qed.

Lemma reactions_app (f : C → option C) d cbs1 cbs2 :
  reactions f d (cbs1 ++ cbs2) =
  reactions f d cbs1 ++ reactions f (d + length cbs1) cbs2.
Proof.
  revert d. induction cbs1 as [|cb cbs1 IH]; intros d.
  - simpl. by rewrite Nat.add_0_r.
  - rewrite <- app_comm_cons, !reactions_cons, IH. simpl.
    by rewrite Nat.add_succ_r.
Qed.

Lemma fire_app o (ss1 ss2 fs1 fs2 : list (Reaction C)) :
  fire o (ss1 ++ ss2) (fs1 ++ fs2) = fire o ss1 fs1 ++ fire o ss2 fs2.
Proof. destruct o; simpl; by rewrite fmap_app. Qed.

(** ** Many registrations on one action *)

(** On a pending action the registrations accumulate, in order, and
    nothing fires. *)
Lemma then_all_pending id cbs w ss fs :
  actions w !! id = Some (Pending ss fs) →
  then_all id cbs w =
  {| replies := replies w; logs := logs w; console := console w;
     actions :=
       <[id := Pending (ss ++ reactions Some (length (actions w)) cbs)
                       (fs ++ reactions (C:=C) (λ _, None) (length (actions w)) cbs)]> (actions w)
       ++ replicate (length cbs) init;
     jobs := jobs w |}.
Proof.
  revert w ss fs. induction cbs as [|cb cbs IH]; intros w ss fs Hst.
  - simpl. rewrite !app_nil_r, list_insert_id by done. by destruct w.
  - cbn [then_all].
    rewrite (then_run _ _ _ _ _ Hst). cbn [snd register onSuccess onFailure fst].
    pose proof (lookup_lt_Some _ _ _ Hst) as Hid.
    erewrite IH by (by apply lookup_insert_app).
    cbn [replies logs console actions jobs].
    rewrite !reactions_cons, insert_insert_app by done.
    rewrite length_app, length_insert, Nat.add_1_r, !app_nil_r.
    by rewrite <- !app_assoc.
Qed.

(** On a settled action every registration fires at once. *)
Lemma then_all_settled id cbs w o :
  actions w !! id = Some (settled_with o) →
  then_all id cbs w =
  {| replies := replies w; logs := logs w; console := console w;
     actions := actions w ++ replicate (length cbs) init;
     jobs := jobs w ++ fire o (reactions Some (length (actions w)) cbs)
                              (reactions (C:=C) (λ _, None) (length (actions w)) cbs) |}.
Proof.
  revert w. induction cbs as [|cb cbs IH]; intros w Hst.
  - destruct o; simpl; rewrite !app_nil_r; by destruct w.
  - cbn [then_all]. rewrite (then_run _ _ _ _ _ Hst).
    pose proof (lookup_lt_Some _ _ _ Hst) as Hid.
    erewrite IH; last first.
    { cbn [snd actions]. destruct o; by apply lookup_insert_app. }
    rewrite !reactions_cons. cbn [snd replies logs console actions jobs].
    rewrite length_app, length_insert, Nat.add_1_r.
    destruct o; simpl; rewrite list_insert_id by done;
      by rewrite <- !app_assoc.
Qed.

(** Exactly once, in registration order, whatever the interleaving: the
    registrations made before the completion and those made after it
    leave the same world as if all had been made before.  In particular
    the jobs are queued in registration order. *)
Theorem then_all_interleave id cbs1 cbs2 o w :
  actions w !! id = Some init →
  then_all id cbs2 (settle id o (then_all id cbs1 w)) =
  settle id o (then_all id (cbs1 ++ cbs2) w).
Proof.
  intros Hst. pose proof (lookup_lt_Some _ _ _ Hst) as Hid.
  rewrite !(then_all_pending _ _ _ _ _ Hst).
  erewrite !settle_run by (by apply lookup_insert_app).
  erewrite (then_all_settled _ _ _ o); last first.
  { cbn [actions]. rewrite insert_insert_app by done.
    destruct o; by apply lookup_insert_app. }
  cbn [replies logs console actions jobs].
  rewrite !insert_insert_app by done.
  rewrite !length_app, !length_insert, !length_replicate, !reactions_app.
  rewrite replicate_add.
  destruct o; simpl; rewrite ?fmap_app, <- ?app_assoc; done.
Qed.
(** ** Settling *)

(** Settling moves the reactions for the outcome from the action to the
    queue and drops the others: the measure does not grow. *)
Lemma settle_measure id o w : measure (settle id o w) ≤ measure w.
Proof.
  unfold settle, apply_action, measure.
  destruct (actions w !! id) as [st|] eqn:Hst; [|done]. simpl.
  rewrite length_app.
  pose proof (sum_list_with_insert held (actions w) id st) as Hsum.
  destruct o as [v|e], st as [ss fs| |]; simpl;
    rewrite ?length_fmap, ?list_insert_id by done; simpl; try lia;
    [specialize (Hsum (Resolved v) Hst) | specialize (Hsum (Rejected e) Hst)];
    simpl in Hsum; lia.
Qed.

(** A settled action stays as it is and nothing is queued. *)
Lemma settle_settled id o w st :
  actions w !! id = Some st → settled st = true → settle id o w = w.
Proof.
  intros Hst Hs. unfold settle. rewrite (apply_action_Some _ _ _ _ Hst).
  unfold set_jobs, set_action.
  destruct w, o, st; simplify_eq/=; by rewrite app_nil_r, list_insert_id.
Qed.

(** ** Termination of the job loop *)

Section termination.
Context `{!StoreFrame call}.

Lemma react_measure r o w : measure (react call r o w) ≤ measure w.
Proof.
  unfold react. destruct (handler r) as [cb|]; [|apply settle_measure].
  destruct (call _ _ w) as [[res|e] w'] eqn:Hcall;
    (etrans; [apply settle_measure|]);
    destruct (store_frame cb (match o with inl v => v | inr e => e end) w) as [Ha Hj];
    rewrite Hcall in Ha, Hj; simpl in *; unfold measure; by rewrite Ha, Hj.
Qed.

(** Every tick on a non-empty queue decreases the measure. *)
Lemma tick_measure w : jobs w ≠ [] → measure (tick call w) < measure w.
Proof.
  unfold tick. destruct (jobs w) as [|j js] eqn:Hjobs; [done|]. intros _.
  eapply Nat.le_lt_trans.
  { destruct j; apply react_measure. }
  unfold measure. simpl. rewrite Hjobs. simpl. lia.
Qed.

(** Enough fuel gives the result: with as much fuel as the measure of the
    world, the loop ends with an empty queue. *)
Theorem run_jobs_terminates fuel w :
  measure w ≤ fuel → ∃ w', run_jobs call fuel w = Some w' ∧ jobs w' = [].
Proof.
  revert w. induction fuel as [|fuel IH]; intros w Hfuel.
  - exists w. unfold measure in Hfuel.
    destruct (jobs w) eqn:Hjobs; simpl in *; [by rewrite Hjobs | lia].
  - simpl. destruct (jobs w) as [|j js] eqn:Hjobs; [by exists w|].
    apply IH. pose proof (tick_measure w) as Hlt.
    rewrite Hjobs in Hlt. specialize (Hlt ltac:(done)). lia.
Qed.

End termination.

(** A completion and a reply that is sent do not see each other: the
    reply allocates its action behind the one that is settled. *)
Lemma settle_send id o rp w :
  id < length (actions w) → settle id o (send rp w) = send rp (settle id o w).
Proof.
  intros [st Hst]%lookup_lt_is_Some. unfold settle, apply_action. simpl.
  rewrite lookup_app_l, Hst by by eapply lookup_lt_Some.
  unfold set_jobs, set_action, send. simpl.
  by rewrite insert_app_l by by eapply lookup_lt_Some.
Qed.

(** ** One job *)

Section one_job.
Context `{!StoreFrame call}.

(** A job leaves the queue, and what it fires joins the queue at its
    end. *)
Lemma tick_jobs j js w :
  jobs w = j :: js → ∃ new, jobs (tick call w) = js ++ new.
Proof.
  intros Hjobs. unfold tick. rewrite Hjobs.
  assert (∀ o w1, jobs w1 = js → ∃ new, jobs (settle (derived (reaction_of j)) o w1) = js ++ new)
    as Hsettle.
  { intros o w1 <-. unfold settle, apply_action.
    destruct (actions w1 !! _); simpl; eauto using app_nil_r. }
  destruct j as [r v|r v]; unfold run_job, react; cbn [reaction_of] in Hsettle;
    (destruct (handler r) as [cb|]; [|by apply Hsettle]);
    destruct (store_frame cb v (set_jobs js w)) as [_ Hj];
    destruct (call cb v _) as [[res|e] w1]; by apply Hsettle.
Qed.

(** A job changes no action but the one its reaction names. *)
Lemma tick_lookup_ne j js w id :
  jobs w = j :: js → derived (reaction_of j) ≠ id →
  actions (tick call w) !! id = actions w !! id.
Proof.
  intros Hjobs Hne. unfold tick. rewrite Hjobs.
  assert (∀ o w1, actions w1 = actions w →
            actions (settle (derived (reaction_of j)) o w1) !! id = actions w !! id)
    as Hsettle.
  { intros o w1 <-. unfold settle. by apply apply_action_lookup_ne. }
  destruct j as [r v|r v]; unfold run_job, react; cbn [reaction_of] in Hsettle, Hne;
    (destruct (handler r) as [cb|]; [|by apply Hsettle]);
    destruct (store_frame cb v (set_jobs js w)) as [Ha _];
    destruct (call cb v _) as [[res|e] w1]; by apply Hsettle.
Qed.

End one_job.

(** More fuel does not change the result. *)
Lemma run_jobs_mono fuel fuel' w w' :
  run_jobs call fuel w = Some w' → fuel ≤ fuel' → run_jobs call fuel' w = Some w'.
Proof.
  revert fuel' w. induction fuel as [|fuel IH]; intros fuel' w; simpl.
  - destruct (jobs w) eqn:Hjobs; [|done]. intros [= <-] _.
    destruct fuel'; simpl; by rewrite Hjobs.
  - destruct (jobs w) eqn:Hjobs.
    + intros [= <-] _. destruct fuel'; simpl; by rewrite Hjobs.
    + intros Hrun Hle. destruct fuel' as [|fuel']; [lia|]. simpl.
      rewrite Hjobs. apply IH; [done | lia].
Qed.

(** The loop only stops on an empty queue. *)
Lemma run_jobs_quiescent fuel w w' :
  run_jobs call fuel w = Some w' → jobs w' = [].
Proof.
  revert w. induction fuel as [|fuel IH]; intros w; simpl;
    destruct (jobs w) eqn:Hjobs; try done; try (by intros [= <-]).
  apply IH.
Qed.

(** On an empty queue the loop does nothing. *)
Lemma run_jobs_empty fuel w : jobs w = [] → run_jobs call fuel w = Some w.
Proof. intros Hjobs. destruct fuel; simpl; by rewrite Hjobs. Qed.

(** One unfolding of the loop on a non-empty queue. *)
Lemma run_jobs_step fuel w j js :
  jobs w = j :: js →
  run_jobs call (S fuel) w = run_jobs call fuel (run_job call j (set_jobs js w)).
Proof. intros Hjobs. simpl. unfold tick. by rewrite Hjobs. Qed.

End lemmas.

(** The length of a store that was updated and has grown. *)
Ltac store_length := repeat first [rewrite length_app | rewrite length_insert].

(** The action at an index of a store that was updated and has grown,
    when the index is one of the updated ones or lies in the part that was
    added. *)
Ltac store_lookup :=
  cbv zeta; cbn [actions fst snd write_console set_jobs set_action];
  repeat first
    [ rewrite list_lookup_insert_ne by lia
    | rewrite list_lookup_insert_eq by (store_length; simpl; lia)
    | rewrite lookup_app_l by (store_length; simpl; lia)
    | rewrite lookup_app_r by (store_length; simpl; lia) ];
  store_length; cbn [length];
  repeat match goal with
         | |- context [?x + ?k - ?x] => replace (x + k - x) with k by lia
         | |- context [S (?x + ?k) - ?x] => replace (S (x + k) - x) with (S k) by lia
         | |- context [S ?x - ?x] => replace (S x - x) with 1 by lia
         | |- context [?x - ?x] => rewrite Nat.sub_diag
         end;
  first [eassumption | reflexivity].

(** One step of simplification of a store that has grown at its end. *)
Ltac store_step :=
  first
    [ rewrite list_insert_insert_eq
    | rewrite insert_insert_app by done
    | rewrite (insert_insert_app_r _ _ _ 0) by lia
    | rewrite (insert_insert_app_r _ _ _ 1) by lia
    | erewrite settle_run by
        first [ by apply lookup_insert_app
              | apply lookup_insert_app_0
              | apply lookup_insert_app_1 ] ].

End Promise.
