(* ===== verification/Store.v ===== *)
(** * The store of actions: invariant and evolution

    Two facts about the worlds the scripts run in, each shown for every
    operation that touches the store or the queue ([alloc], [send],
    [then], [settle], the jobs).

    - [world_ok]: every reaction, whether an action still holds it or it
      waits in the queue, names a derived action that is in the store.
      It is an instance of [every P], a property [P] of all the reactions
      of a world, whose lemmas say when an operation keeps it.
    - [store_evolves]: from one world to the next every action of the
      store moves along the state machine of [AsyncAction] (the relation
      [transition]), and actions are only ever added.  The store thus
      refines one copy of that machine per action.

    [advances] is their conjunction, a preorder on worlds that the
    computations of a script respect ([Runtime.respects]). *)

From S2P Require Import Prelude AsyncAction Runtime Promise.

Module Store.

#[local] Set Warnings "-clear-no-such-hyp".

Import AsyncAction Runtime Promise.

Section defs.
Context {C : Type}.

(** A property of the reactions an action holds, of the reaction a job
    runs, and of every reaction of a world. *)
Definition action_all (P : Reaction C → Prop)
    (a : State JsValue JsValue (Reaction C)) : Prop :=
  match a with
  | Pending ss fs => Forall P ss ∧ Forall P fs
  | _ => True
  end.

Definition job_all (P : Reaction C → Prop)
    (j : Firing JsValue JsValue (Reaction C)) : Prop :=
  match j with
  | FireSuccess r _ | FireFailure r _ => P r
  end.

Definition every (P : Reaction C → Prop) (w : World (Reaction C)) : Prop :=
  Forall (action_all P) (actions w) ∧ Forall (job_all P) (jobs w).

(** Well-formedness: every reaction names an action of the store. *)
Definition reaction_ok (n : nat) (r : Reaction C) : Prop := derived r < n.

Definition action_ok (n : nat) : State JsValue JsValue (Reaction C) → Prop :=
  action_all (reaction_ok n).

Definition job_ok (n : nat) : Firing JsValue JsValue (Reaction C) → Prop :=
  job_all (reaction_ok n).

Definition world_ok (w : World (Reaction C)) : Prop :=
  every (reaction_ok (length (actions w))) w.

#[export] Instance action_all_dec P `{!∀ r, Decision (P r)} a : Decision (action_all P a).
Proof. destruct a; simpl; apply _. Defined.
#[export] Instance job_all_dec P `{!∀ r, Decision (P r)} j : Decision (job_all P j).
Proof. destruct j; simpl; apply _. Defined.
#[export] Instance every_dec P `{!∀ r, Decision (P r)} w : Decision (every P w).
Proof. unfold every. apply _. Defined.
#[export] Instance reaction_ok_dec n r : Decision (reaction_ok n r).
Proof. unfold reaction_ok. apply _. Defined.
#[export] Instance world_ok_dec w : Decision (world_ok w).
Proof. unfold world_ok. apply _. Defined.

(** Every action of [w] is in [w'], further along its state machine. *)
Definition store_evolves (w w' : World (Reaction C)) : Prop :=
  ∀ id st, actions w !! id = Some st →
    ∃ st', actions w' !! id = Some st' ∧ rtc transition st st'.


(** A step between worlds that does both: the store evolves and
    well-formedness is kept. *)
Definition advances (w w' : World (Reaction C)) : Prop :=
  store_evolves w w' ∧ (world_ok w → world_ok w').

(** What it takes for a relation between worlds to hold along every run
    of the hosts and the scripts: it is a preorder, and each primitive
    that changes the world relates the world before to the world after.
    A script whose code is made of these primitives keeps every such
    relation, and so does every sequence of steps of the hosts. *)
Class Stable (call : C → JsValue → Host (Reaction C) JsValue)
    (R : relation (World (Reaction C))) : Prop := {
  stable_preorder :: PreOrder R;
  stable_send rp w : R w (send rp w);
  stable_write_log rc w : R w (write_log rc w);
  stable_write_console l w : R w (write_console l w);
  stable_then p f g : respects R (then_ p f g);
  stable_settle id o w : R w (settle id o w);
  stable_tick w : R w (tick call w);
}.

End defs.

Section lemmas.
Context {C : Type} (call : C → JsValue → Host (Reaction C) JsValue).
Implicit Types (w : World (Reaction C)) (r : Reaction C).
Implicit Types (o : JsValue + JsValue) (j : Firing JsValue JsValue (Reaction C)).
Implicit Types (st : State JsValue JsValue (Reaction C)).

(** ** A property of every reaction *)

Section every.
Context (P : Reaction C → Prop).

Lemma action_all_mono (Q : Reaction C → Prop) st :
  (∀ r, P r → Q r) → action_all P st → action_all Q st.
Proof.
  intros HPQ. destruct st; simpl; [|done..].
  intros [Hs Hf]. split; by eapply Forall_impl.
Qed.

Lemma job_all_mono (Q : Reaction C → Prop) j :
  (∀ r, P r → Q r) → job_all P j → job_all Q j.
Proof. destruct j; simpl; auto. Qed.

Lemma every_mono (Q : Reaction C → Prop) w :
  (∀ r, P r → Q r) → every P w → every Q w.
Proof.
  intros HPQ [Ha Hj]. split; (eapply Forall_impl; [done|]); intros x;
    [by apply action_all_mono | by apply job_all_mono].
Qed.

(** The property reads the store and the queue only. *)
Lemma every_frame w w' :
  actions w' = actions w → jobs w' = jobs w → every P w → every P w'.
Proof. unfold every. by intros -> ->. Qed.

Lemma every_empty : every P (@empty_world (Reaction C)).
Proof. by split. Qed.

Lemma every_alloc w : every P w → every P (alloc w).
Proof.
  intros [Ha Hj]. split; [|done]. simpl. apply Forall_app. by repeat constructor.
Qed.

Lemma every_set_jobs js w :
  Forall (job_all P) js → every P w → every P (set_jobs js w).
Proof. intros Hjs [Ha _]. by split. Qed.

(** An operation that keeps the property of an action and of what it
    fires keeps it of the world. *)
Lemma every_apply_action id op w :
  (∀ st, action_all P st → action_all P (op st).1 ∧ Forall (job_all P) (op st).2) →
  every P w → every P (apply_action id op w).
Proof.
  intros Hop [Ha Hj]. unfold apply_action.
  destruct (actions w !! id) as [st|] eqn:Hst; [|done].
  destruct (Hop st) as [Hst' Hfired]; [by eapply (Forall_lookup_1 _ _ _ _ Ha)|].
  split; simpl; [by apply Forall_insert | by apply Forall_app].
Qed.

Lemma register_all f g d st :
  P {| handler := f; derived := d |} → P {| handler := g; derived := d |} →
  action_all P st →
  action_all P (register f g d st).1 ∧ Forall (job_all P) (register f g d st).2.
Proof.
  intros Hf Hg. destruct st as [ss fs| |]; simpl; [|by repeat constructor..].
  intros [Hs Hfs]. repeat split; try done; apply Forall_app; by repeat constructor.
Qed.

Lemma settle_op_all o st :
  action_all P st →
  action_all P (match o with inl v => resolve v st | inr e => reject e st end).1 ∧
  Forall (job_all P) (match o with inl v => resolve v st | inr e => reject e st end).2.
Proof.
  destruct o, st as [ss fs| |]; simpl; try done; intros [Hs Hf];
    (split; [done|]); by apply Forall_fmap.
Qed.

Lemma every_settle id o w : every P w → every P (settle id o w).
Proof.
  intros Hw. unfold settle.
  assert (apply_action id (match o with inl v => resolve v | inr e => reject e end) w =
          apply_action id (λ st, match o with inl v => resolve v st | inr e => reject e st end) w)
    as -> by by destruct o.
  apply every_apply_action; [|done]. intros st. apply settle_op_all.
Qed.

(** [then] keeps the property when the two reactions it registers have
    it. *)
Lemma every_then p f g w :
  P {| handler := f; derived := length (actions w) |} →
  P {| handler := g; derived := length (actions w) |} →
  every P w → every P (then_ p f g w).2.
Proof.
  intros Hf Hg Hw. destruct p as [| | | |id|]; try done.
  rewrite then_register. cbn [snd].
  apply every_apply_action; [|by apply every_alloc].
  intros st. by apply register_all.
Qed.

Section frame.
Context `{!StoreFrame call}.

Lemma every_react r o w : every P w → every P (react call r o w).
Proof.
  intros Hw. unfold react. destruct (handler r) as [cb|]; [|by apply every_settle].
  destruct (store_frame cb (match o with inl v => v | inr e => e end) w) as [Ha Hj].
  destruct (call _ _ w) as [[res|e] w']; by apply every_settle, (every_frame w).
Qed.

Lemma every_tick w : every P w → every P (tick call w).
Proof.
  intros Hw. unfold tick. destruct (jobs w) as [|j js] eqn:Hjobs; [done|].
  assert (every P (set_jobs js w)) as Hw'.
  { apply every_set_jobs; [|done]. destruct Hw as [_ Hj].
    rewrite Hjobs in Hj. by inversion Hj. }
  destruct j; by apply every_react.
Qed.

End frame.

End every.

(** ** Well-formed worlds *)

Lemma action_ok_mono n m st : n ≤ m → action_ok n st → action_ok m st.
Proof. intros Hle. apply action_all_mono. unfold reaction_ok. lia. Qed.

Lemma job_ok_mono n m j : n ≤ m → job_ok n j → job_ok m j.
Proof. intros Hle. apply job_all_mono. unfold reaction_ok. lia. Qed.

Lemma world_ok_frame w w' :
  actions w' = actions w → jobs w' = jobs w → world_ok w → world_ok w'.
Proof. unfold world_ok. intros Ha Hj. rewrite Ha. by apply every_frame. Qed.

Lemma world_ok_empty : world_ok (@empty_world (Reaction C)).
Proof. apply every_empty. Qed.

(** A world with more actions and reactions that were well formed
    before. *)
Lemma world_ok_grow w w' :
  length (actions w) ≤ length (actions w') →
  every (reaction_ok (length (actions w))) w' → world_ok w'.
Proof. intros Hle. apply every_mono. unfold reaction_ok. lia. Qed.

Lemma world_ok_alloc w : world_ok w → world_ok (alloc w).
Proof.
  intros Hw. apply (world_ok_grow w); [|by apply every_alloc].
  simpl. rewrite length_app. lia.
Qed.

Lemma world_ok_send rp w : world_ok w → world_ok (send rp w).
Proof. intros H. by apply (world_ok_frame (alloc w)), world_ok_alloc. Qed.

Lemma apply_action_length id op w :
  length (actions (apply_action id op w)) = length (actions w).
Proof. apply apply_action_frame. Qed.

Lemma settle_ok id o w : world_ok w → world_ok (settle id o w).
Proof.
  intros Hw. apply (world_ok_grow w); [|by apply every_settle].
  unfold settle. by rewrite apply_action_length.
Qed.

Lemma then_ok p f g w : world_ok w → world_ok (then_ p f g w).2.
Proof.
  intros Hw. destruct p as [| | | |id|]; try done.
  apply (world_ok_grow (alloc w)).
  { rewrite then_register. cbn [snd]. by rewrite apply_action_length. }
  apply every_then; [simpl; unfold reaction_ok; simpl; rewrite length_app; simpl; lia..|].
  apply (every_mono (reaction_ok (length (actions w)))); [|done].
  unfold reaction_ok. simpl. rewrite length_app. lia.
Qed.

Section frame.
Context `{!StoreFrame call}.

Lemma tick_length w : length (actions (tick call w)) = length (actions w).
Proof.
  unfold tick. destruct (jobs w) as [|j js]; [done|].
  assert (∀ r o w1, length (actions (react call r o w1)) = length (actions w1)) as Hr.
  { intros r o w1. unfold react, settle.
    destruct (handler r) as [cb|]; [|apply apply_action_length].
    destruct (store_frame cb (match o with inl v => v | inr e => e end) w1) as [Ha _].
    destruct (call _ _ w1) as [[res|e] w2]; rewrite apply_action_length; simpl in Ha;
      by rewrite Ha. }
  destruct j; (etrans; [apply Hr | done]).
Qed.

Lemma tick_ok w : world_ok w → world_ok (tick call w).
Proof.
  intros Hw. apply (world_ok_grow w); [by rewrite tick_length | by apply every_tick].
Qed.

Lemma run_jobs_ok fuel w w' :
  run_jobs call fuel w = Some w' → world_ok w → world_ok w'.
Proof.
  revert w. induction fuel as [|fuel IH]; intros w; simpl;
    destruct (jobs w) eqn:Hjobs; try done; try (by intros [= <-]).
  intros Hrun Hw. eapply IH; [done|]. by apply tick_ok.
Qed.

End frame.

(** In a well-formed world every queued job finds the action it
    settles. *)
Lemma job_derived_found w j :
  world_ok w → j ∈ jobs w →
  is_Some (actions w !! derived match j with FireSuccess r _ | FireFailure r _ => r end).
Proof.
  intros [_ Hj] Hin. apply lookup_lt_is_Some.
  eapply Forall_forall in Hj; [|done]. by destruct j.
Qed.


(** ** Evolution of the store *)

#[export] Instance store_evolves_preorder : PreOrder (@store_evolves C).
Proof.
  split.
  - intros w id st Hst. by exists st.
  - intros w1 w2 w3 H12 H23 id st Hst.
    destruct (H12 id st Hst) as (st2 & Hst2 & Ht2).
    destruct (H23 id st2 Hst2) as (st3 & Hst3 & Ht3).
    exists st3. split; [done|]. by etrans.
Qed.

Lemma store_evolves_frame w w' : actions w' = actions w → store_evolves w w'.
Proof. intros Ha id st Hst. exists st. by rewrite Ha. Qed.

Lemma store_evolves_app w w' l :
  actions w' = actions w ++ l → store_evolves w w'.
Proof.
  intros Ha id st Hst. exists st. rewrite Ha. split; [|done].
  by apply lookup_app_l_Some.
Qed.

Lemma store_evolves_alloc w : store_evolves w (alloc w).
Proof. by eapply store_evolves_app. Qed.

Lemma store_evolves_send rp w : store_evolves w (send rp w).
Proof. by eapply store_evolves_app. Qed.

(** An operation that is a transition of the state machine. *)
Lemma store_evolves_apply_action id op w :
  (∀ st, transition st (op st).1) → store_evolves w (apply_action id op w).
Proof.
  intros Hop id' st' Hst'. unfold apply_action.
  destruct (actions w !! id) as [st|] eqn:Hst; [|by exists st'].
  simpl. destruct (decide (id = id')) as [<-|Hne].
  - exists (op st).1. simplify_eq. split; [|by apply rtc_once].
    apply list_lookup_insert_eq. by eapply lookup_lt_Some.
  - exists st'. by rewrite list_lookup_insert_ne.
Qed.

Lemma store_evolves_settle id o w : store_evolves w (settle id o w).
Proof.
  unfold settle. apply store_evolves_apply_action. intros st.
  destruct o as [v|e]; [apply (step_transition st (Resolve v))
                        | apply (step_transition st (Reject e))].
Qed.

Lemma store_evolves_then p f g w : store_evolves w (then_ p f g w).2.
Proof.
  destruct p as [| | | |id|]; try done. cbn [then_ snd].
  etrans; [apply store_evolves_alloc|].
  etrans; apply store_evolves_apply_action; intros st.
  - apply (step_transition st (RegSuccess _)).
  - apply (step_transition st (RegFailure _)).
Qed.

Section evolves_frame.
Context `{!StoreFrame call}.

Lemma store_evolves_react r o w : store_evolves w (react call r o w).
Proof.
  unfold react. destruct (handler r) as [cb|]; [|apply store_evolves_settle].
  destruct (store_frame cb (match o with inl v => v | inr e => e end) w) as [Ha _].
  destruct (call _ _ w) as [[res|e] w'];
    (etrans; [by apply store_evolves_frame | apply store_evolves_settle]).
Qed.

Lemma store_evolves_tick w : store_evolves w (tick call w).
Proof.
  unfold tick. destruct (jobs w) as [|j js]; [done|].
  etrans; [by apply (store_evolves_frame w (set_jobs js w))|].
  destruct j; apply store_evolves_react.
Qed.

Lemma store_evolves_run_jobs fuel w w' :
  run_jobs call fuel w = Some w' → store_evolves w w'.
Proof.
  revert w. induction fuel as [|fuel IH]; intros w; simpl;
    destruct (jobs w) eqn:Hjobs; try done; try (by intros [= <-]).
  intros Hrun. etrans; [apply store_evolves_tick | by apply IH].
Qed.

End evolves_frame.

(** ** Steps that advance the world *)

#[export] Instance advances_preorder : PreOrder (@advances C).
Proof.
  split.
  - by intros w.
  - intros w1 w2 w3 [He1 Hok1] [He2 Hok2]. split; [by etrans | auto].
Qed.

Lemma advances_frame w w' :
  actions w' = actions w → jobs w' = jobs w → advances w w'.
Proof.
  intros Ha Hj. split; [by apply store_evolves_frame | by apply world_ok_frame].
Qed.

Lemma advances_send rp w : advances w (send rp w).
Proof. split; [apply store_evolves_send | apply world_ok_send]. Qed.

Lemma advances_settle id o w : advances w (settle id o w).
Proof. split; [apply store_evolves_settle | apply settle_ok]. Qed.

Lemma advances_then p (f g : option C) : respects advances (then_ p f g).
Proof. intros w. split; [apply store_evolves_then | apply then_ok]. Qed.

Lemma advances_tick `{!StoreFrame call} w : advances w (tick call w).
Proof. split; [by apply store_evolves_tick | by apply tick_ok]. Qed.

Lemma advances_run_jobs `{!StoreFrame call} fuel w w' :
  run_jobs call fuel w = Some w' → advances w w'.
Proof.
  intros Hrun. split; [by eapply store_evolves_run_jobs | by eapply run_jobs_ok].
Qed.

#[export] Instance advances_stable `{!StoreFrame call} : Stable call advances.
Proof.
  split; [apply _ | apply advances_send | by intros; apply advances_frame..
         | apply advances_then | apply advances_settle | apply advances_tick].
Qed.

(** ** Relations kept by every primitive *)

Section stable.
Context (R : relation (World (Reaction C))) `{!Stable call R}.

Lemma stable_fastReply ev txt : respects R (fastReply ev txt).
Proof. intros w. apply stable_send. Qed.

Lemma stable_LOG_info name message : respects R (LOG_info name message).
Proof. intros w. apply stable_write_log. Qed.

Lemma stable_console_log v : respects R (console_log v).
Proof. intros w. apply stable_write_console. Qed.

Lemma stable_console_error v : respects R (console_error v).
Proof. intros w. apply stable_write_console. Qed.

Lemma stable_catch p cb : respects R (catch_ p cb).
Proof. apply stable_then. Qed.

Lemma stable_run_jobs fuel w w' : run_jobs call fuel w = Some w' → R w w'.
Proof.
  revert w. induction fuel as [|fuel IH]; intros w; simpl;
    destruct (jobs w) eqn:Hjobs; try done; try (by intros [= <-]).
  intros Hrun. etrans; [apply stable_tick | by apply IH].
Qed.

End stable.

(** What was registered on an action that is still pending is still
    registered. *)
Lemma store_evolves_pending w w' id ss fs ss' fs' :
  store_evolves w w' →
  actions w !! id = Some (Pending ss fs) →
  actions w' !! id = Some (Pending ss' fs') →
  ss `prefix_of` ss' ∧ fs `prefix_of` fs'.
Proof.
  intros Hev Hst Hst'. destruct (Hev _ _ Hst) as (st' & Hst'' & Ht).
  simplify_eq. apply (evolves_pending _ _ _ _ Ht).
Qed.

End lemmas.

End Store.
