(* ===== verification/Linear.v ===== *)
(** * Every derived action has one owner

    A call of [then] allocates a derived action and registers two
    reactions that name it, one for each outcome of the action called on.
    When that action settles, one of the two is queued as a job and the
    other is dropped; when the job runs, it settles the derived action.

    [linear] states that this is the only way a derived action is ever
    settled by the job loop: at any time a derived action is named by the
    reactions of at most one action, or by at most one queued job.  The
    invariant is shown for every primitive ([Store.Stable]), and is what
    makes a chain of reactions deliver: [drain_passes] follows an outcome
    that passes through a reaction without a callback to the reactions
    registered on its derived action. *)

From S2P Require Import Prelude AsyncAction Runtime Promise Store.

Module Linear.

#[local] Set Warnings "-clear-no-such-hyp".

Import AsyncAction Runtime Promise Store.

Section defs.
Context {C : Type}.

(** The derived actions named by the reactions an action holds: those of
    its reactions to a value, which by [paired] are those of its reactions
    to an error. *)
Definition named (st : State JsValue JsValue (Reaction C)) : list nat :=
  match st with Pending ss _ => derived <$> ss | _ => [] end.

Definition paired (st : State JsValue JsValue (Reaction C)) : Prop :=
  match st with Pending ss fs => derived <$> ss = derived <$> fs | _ => True end.

(** The derived actions the queued jobs will settle. *)
Definition queued (js : list (Firing JsValue JsValue (Reaction C))) : list nat :=
  (λ j, derived (reaction_of j)) <$> js.

Definition names (w : World (Reaction C)) : list nat :=
  concat (named <$> actions w) ++ queued (jobs w).

Definition linear (w : World (Reaction C)) : Prop :=
  Forall paired (actions w) ∧ NoDup (names w).

#[export] Instance paired_dec st : Decision (paired st).
Proof. destruct st; simpl; apply _. Defined.
#[export] Instance linear_dec w : Decision (linear w).
Proof. unfold linear. apply _. Defined.

(** Well formed and linear: the invariant of the worlds of a running
    bot. *)
Definition sound (w : World (Reaction C)) : Prop := world_ok w ∧ linear w.

End defs.

Section lemmas.
Context {C : Type} (call : C → JsValue → Host (Reaction C) JsValue).
Implicit Types (w : World (Reaction C)) (r : Reaction C).
Implicit Types (o : JsValue + JsValue) (j : Firing JsValue JsValue (Reaction C)).
Implicit Types (st : State JsValue JsValue (Reaction C)).

(** ** The names of a world *)

Lemma names_frame w w' :
  actions w' = actions w → jobs w' = jobs w → names w' = names w.
Proof. unfold names. by intros -> ->. Qed.

Lemma linear_frame w w' :
  actions w' = actions w → jobs w' = jobs w → linear w → linear w'.
Proof. unfold linear, names. by intros -> ->. Qed.

Lemma linear_empty : linear (@empty_world (Reaction C)).
Proof. split; [done | constructor]. Qed.

Lemma names_alloc w : names (alloc w) = names w.
Proof.
  unfold names. simpl. by rewrite fmap_app, concat_app, !app_nil_r.
Qed.

Lemma linear_alloc w : linear w → linear (alloc w).
Proof.
  intros [Hp Hn]. split; [|by rewrite names_alloc].
  simpl. apply Forall_app. by repeat constructor.
Qed.

(** In a well-formed world every name is an action of the store. *)
Lemma names_lt w : world_ok w → Forall (λ d, d < length (actions w)) (names w).
Proof.
  intros [Ha Hj]. apply Forall_app. split.
  - apply Forall_concat, Forall_fmap. eapply Forall_impl; [done|].
    intros [ss fs| |] Hst; simpl; [|done..].
    apply Forall_fmap. by destruct Hst.
  - apply Forall_fmap. eapply Forall_impl; [done|]. by intros [].
Qed.

(** An operation on one action moves names between the action and the
    queue. *)
Lemma names_apply_action id op w st :
  actions w !! id = Some st →
  names (apply_action id op w) ++ named st ≡ₚ
  names w ++ (named (op st).1 ++ queued (op st).2).
Proof.
  intros Hst. rewrite (apply_action_Some _ _ _ _ Hst). unfold names, queued. simpl.
  rewrite list_fmap_insert, fmap_app.
  pose proof (concat_insert_perm (named <$> actions w) id (named st) (named (op st).1))
    as Hperm.
  rewrite list_lookup_fmap, Hst in Hperm. specialize (Hperm eq_refl).
  rewrite <- (assoc_L (++) (concat _)), (Permutation_app_comm (_ ++ _) (named st)).
  rewrite (assoc_L (++) (concat _)), Hperm, <- !(assoc_L (++)).
  f_equiv. rewrite !(assoc_L (++)). f_equiv. apply Permutation_app_comm.
Qed.

Lemma paired_apply_action id op w :
  (∀ st, paired st → paired (op st).1) →
  Forall paired (actions w) → Forall paired (actions (apply_action id op w)).
Proof.
  intros Hop Hp. unfold apply_action.
  destruct (actions w !! id) as [st|] eqn:Hst; [|done]. simpl.
  apply Forall_insert; [done|]. apply Hop. by eapply (Forall_lookup_1 _ _ _ _ Hp).
Qed.

(** ** Settling *)

(** The reactions for the outcome move to the queue with their names. *)
Lemma settle_op_names o st :
  paired st →
  let op := match o with inl v => resolve v | inr e => reject e end in
  paired (op st).1 ∧ named (op st).1 ++ queued (op st).2 = named st.
Proof.
  unfold queued. destruct o, st as [ss fs| |]; simpl; intros Hp;
    rewrite <- ?list_fmap_compose; by rewrite <- ?Hp.
Qed.

Lemma names_settle id o w :
  Forall paired (actions w) → names (settle id o w) ≡ₚ names w.
Proof.
  intros Hp. unfold settle.
  destruct (actions w !! id) as [st|] eqn:Hst;
    [|by rewrite apply_action_None].
  apply (Permutation_app_inv_r (named st)).
  rewrite (names_apply_action _ _ _ _ Hst).
  destruct (settle_op_names o st) as [_ Hn];
    [by eapply (Forall_lookup_1 _ _ _ _ Hp)|].
  simpl in Hn. by rewrite Hn.
Qed.

Lemma linear_settle id o w : linear w → linear (settle id o w).
Proof.
  intros [Hp Hn]. split; [|by rewrite names_settle].
  unfold settle. apply paired_apply_action; [|done].
  intros st Hst. by apply (settle_op_names o st).
Qed.

(** ** Registration *)

(** The two reactions of a call of [then] add one name: to the action if
    it is pending, to the queue if it is settled. *)
Lemma register_names f g d st :
  paired st →
  paired (register f g d st).1 ∧
  named (register f g d st).1 ++ queued (register f g d st).2 = named st ++ [d].
Proof.
  unfold queued. destruct st as [ss fs| |]; simpl; intros Hp;
    rewrite ?fmap_app, ?app_nil_r; by rewrite ?Hp.
Qed.

Lemma linear_then p f g w : sound w → linear (then_ p f g w).2.
Proof.
  intros [Hok [Hp Hn]]. destruct p as [| | | |id|]; try done.
  rewrite then_register. cbn [snd].
  pose proof (linear_alloc w (conj Hp Hn)) as [Hp' Hn'].
  split.
  { apply paired_apply_action; [|done]. intros st Hst.
    by apply (register_names f g (length (actions w)) st). }
  destruct (actions (alloc w) !! id) as [st|] eqn:Hst;
    [|by rewrite apply_action_None].
  apply (NoDup_Permutation_proper _ (names w ++ [length (actions w)])).
  - apply (Permutation_app_inv_r (named st)).
    rewrite (names_apply_action _ _ _ _ Hst), names_alloc.
    destruct (register_names f g (length (actions w)) st) as [_ ->];
      [by eapply (Forall_lookup_1 _ _ _ _ Hp')|].
    rewrite <- !(assoc_L (++)). f_equiv. apply Permutation_app_comm.
  - apply NoDup_app. split; [done|]. split; [|apply NoDup_singleton].
    intros d Hd ->%list_elem_of_singleton.
    pose proof (names_lt w Hok) as Hlt.
    rewrite Forall_forall in Hlt. specialize (Hlt _ Hd). lia.
Qed.

(** ** The jobs *)

Lemma linear_set_jobs j js w :
  jobs w = j :: js → linear w → linear (set_jobs js w).
Proof.
  unfold linear, names. intros -> [Hp Hn]. split; [done|].
  by apply NoDup_app_cons_inv in Hn as [_ Hn].
Qed.

Section frame.
Context `{!StoreFrame call}.

Lemma linear_react r o w : linear w → linear (react call r o w).
Proof.
  intros Hw. unfold react. destruct (handler r) as [cb|]; [|by apply linear_settle].
  destruct (store_frame cb (match o with inl v => v | inr e => e end) w) as [Ha Hj].
  destruct (call _ _ w) as [[res|e] w'];
    by apply linear_settle, (linear_frame w).
Qed.

Lemma linear_tick w : linear w → linear (tick call w).
Proof.
  intros Hw. unfold tick. destruct (jobs w) as [|j js] eqn:Hjobs; [done|].
  pose proof (linear_set_jobs _ _ _ Hjobs Hw).
  destruct j; by apply linear_react.
Qed.

(** ** The invariant along every step *)

#[export] Instance sound_stable : Stable call (keeps sound).
Proof.
  split; [apply _|..].
  - intros rp w [Hok Hl]. split; [by apply world_ok_send|].
    by apply (linear_frame (alloc w)), linear_alloc.
  - intros rc w [Hok Hl]. split; [by apply (world_ok_frame w) | by apply (linear_frame w)].
  - intros l w [Hok Hl]. split; [by apply (world_ok_frame w) | by apply (linear_frame w)].
  - intros p f g w Hw. split; [by apply then_ok, Hw | by apply linear_then].
  - intros id o w [Hok Hl]. split; [by apply settle_ok | by apply linear_settle].
  - intros w [Hok Hl]. split; [by apply tick_ok | by apply linear_tick].
Qed.

(** ** An outcome that passes through *)

(** A queued job that passes an error on to a pending derived action:
    while the jobs before it run nobody else settles that action, so the
    error reaches every reaction registered on it.  The drain goes
    through a world in which the job of such a reaction is queued. *)
Lemma drain_passes pre post d e ss fs r fuel w w' :
  sound w →
  jobs w = pre ++ FireFailure {| handler := None; derived := d |} e :: post →
  actions w !! d = Some (Pending ss fs) → r ∈ fs →
  run_jobs call fuel w = Some w' →
  ∃ fuel1 w1, FireFailure r e ∈ jobs w1 ∧ run_jobs call fuel1 w1 = Some w'.
Proof.
  revert fuel w post. induction pre as [|j pre IH]; intros [|fuel] w post Hw Hjobs Hd Hr;
    simpl; rewrite Hjobs; simpl; try done; intros Hrun; simpl in Hjobs.
  - exists fuel, (tick call w). split; [|done].
    unfold tick. rewrite Hjobs. cbn [run_job react handler derived].
    erewrite settle_run by done. simpl. apply elem_of_app. right.
    by apply (list_elem_of_fmap_2 (λ r, FireFailure r e)).
  - destruct (tick_jobs call _ _ _ Hjobs) as (new & Hq).
    rewrite <- app_assoc in Hq. simpl in Hq.
    apply (IH fuel (tick call w) (post ++ new)); try done.
    + by apply (stable_tick (R := keeps sound)).
    + rewrite (tick_lookup_ne call _ _ _ _ Hjobs); [done|].
      destruct Hw as [_ [_ Hn]]. unfold names in Hn. rewrite Hjobs in Hn.
      apply NoDup_app in Hn as (_ & _ & Hn). unfold queued in Hn.
      rewrite fmap_cons, fmap_app, fmap_cons in Hn.
      apply NoDup_cons in Hn as [Hn _]. set_solver.
Qed.

End frame.

End lemmas.

End Linear.
