(* ===== verification/Output.v ===== *)
(** * What a world shows, and what it still owes

    Two accounts of the outputs of a world (the replies sent, the log
    records, the lines on the console), each shown for every primitive
    that changes the world.

    - [extends]: outputs are only ever appended to.  What was sent, logged
      or written stays where it is, so the order of the outputs is the
      order in which the effects took place.
    - [balance]: the lines on the console plus the callbacks the world
      still owes a run to ([owed]: the reactions with a callback that an
      action holds or that wait in the queue).  A completion and a job
      never raise the balance: a job that writes a line pays for it with
      its callback, which is gone afterwards.  Only a registration raises
      it, by the number of callbacks it registers.

    [Writer] is what the two accounts ask of the callbacks of a script:
    a callback leaves the store alone, appends to the outputs and writes at
    most one line. *)

From S2P Require Import Prelude AsyncAction Runtime Promise Store.

Module Output.

#[local] Set Warnings "-clear-no-such-hyp".

Import AsyncAction Runtime Promise Store.

Section defs.
Context {C : Type}.

Definition extends (w w' : World (Reaction C)) : Prop :=
  replies w `prefix_of` replies w' ∧
  logs w `prefix_of` logs w' ∧
  console w `prefix_of` console w'.

(** A callback is owed one run; a reaction without a callback is owed
    nothing. *)
Definition due (f : option C) : nat :=
  match f with Some _ => 1 | None => 0 end.

Definition weight (r : Reaction C) : nat := due (handler r).

Definition owed_action (st : State JsValue JsValue (Reaction C)) : nat :=
  match st with
  | Pending ss fs => sum_list_with weight ss + sum_list_with weight fs
  | _ => 0
  end.

Definition owed_job (j : Firing JsValue JsValue (Reaction C)) : nat :=
  weight (reaction_of j).

Definition owed (w : World (Reaction C)) : nat :=
  sum_list_with owed_job (jobs w) + sum_list_with owed_action (actions w).

Definition balance (w : World (Reaction C)) : nat := length (console w) + owed w.

Class Writer (call : C → JsValue → Host (Reaction C) JsValue) : Prop := {
  writer_frame :: StoreFrame call;
  writer_extends cb v w : extends w (call cb v w).2;
  writer_line cb v w : length (console (call cb v w).2) ≤ S (length (console w));
}.

End defs.

Section lemmas.
Context {C : Type} (call : C → JsValue → Host (Reaction C) JsValue).
Implicit Types (w : World (Reaction C)) (r : Reaction C).
Implicit Types (o : JsValue + JsValue) (j : Firing JsValue JsValue (Reaction C)).
Implicit Types (st : State JsValue JsValue (Reaction C)).

(** ** Outputs are appended to *)

#[export] Instance extends_preorder : PreOrder (@extends C).
Proof.
  split.
  - by intros w.
  - intros w1 w2 w3 (?&?&?) (?&?&?). repeat split; by etrans.
Qed.

Lemma extends_same w w' :
  replies w' = replies w → logs w' = logs w → console w' = console w →
  extends w w'.
Proof. unfold extends. by intros -> -> ->. Qed.

Lemma extends_apply_action id op w : extends w (apply_action id op w).
Proof. destruct (apply_action_frame id op w) as (?&?&?&_). by apply extends_same. Qed.

Lemma extends_then p f g w : extends w (then_ p f g w).2.
Proof.
  destruct p as [| | | |id|]; try done. rewrite then_register. cbn [snd].
  etrans; [by apply (extends_same w (alloc w)) | apply extends_apply_action].
Qed.

Lemma extends_react `{!Writer call} r o w : extends w (react call r o w).
Proof.
  unfold react. destruct (handler r) as [cb|]; [|apply extends_apply_action].
  pose proof (writer_extends cb (match o with inl v => v | inr e => e end) w).
  destruct (call _ _ w) as [[res|e] w'];
    (etrans; [done | apply extends_apply_action]).
Qed.

#[export] Instance extends_stable `{!Writer call} : Stable call extends.
Proof.
  split; [apply _|..].
  - intros rp w. repeat split; simpl; by try apply prefix_app_r.
  - intros rc w. repeat split; simpl; by try apply prefix_app_r.
  - intros l w. repeat split; simpl; by try apply prefix_app_r.
  - intros p f g w. apply extends_then.
  - intros id o w. apply extends_apply_action.
  - intros w. unfold tick. destruct (jobs w) as [|j js]; [done|].
    etrans; [by apply (extends_same w (set_jobs js w))|].
    destruct j; apply extends_react.
Qed.

(** ** The callbacks owed *)

Lemma owed_frame w w' :
  actions w' = actions w → jobs w' = jobs w → owed w' = owed w.
Proof. unfold owed. by intros -> ->. Qed.

Lemma owed_alloc w : owed (alloc w) = owed w.
Proof. unfold owed. simpl. rewrite sum_list_with_app. simpl. lia. Qed.

(** An operation on one action changes what is owed by what it does to
    the action and by what it queues. *)
Lemma owed_apply_action id op w st :
  actions w !! id = Some st →
  owed (apply_action id op w) + owed_action st =
  owed w + owed_action (op st).1 + sum_list_with owed_job (op st).2.
Proof.
  intros Hst. rewrite (apply_action_Some _ _ _ _ Hst). unfold owed. simpl.
  rewrite sum_list_with_app.
  pose proof (sum_list_with_insert owed_action (actions w) id st (op st).1 Hst).
  lia.
Qed.

(** What the jobs made of the reactions [ss] and [fs] by an outcome are
    owed. *)
Lemma owed_fire o (ss fs : list (Reaction C)) :
  sum_list_with owed_job (fire o ss fs) =
  sum_list_with weight match o with inl _ => ss | inr _ => fs end.
Proof. destruct o; simpl; by rewrite sum_list_with_fmap. Qed.

(** Settling queues the reactions for the outcome and drops the rest. *)
Lemma settle_op_owed o st :
  let op := match o with inl v => resolve v | inr e => reject e end in
  owed_action (op st).1 + sum_list_with owed_job (op st).2 ≤ owed_action st.
Proof.
  destruct st as [ss fs| |]; [|by destruct o..].
  pose proof (owed_fire o ss fs). destruct o; simpl in *; lia.
Qed.

Lemma owed_settle id o w : owed (settle id o w) ≤ owed w.
Proof.
  unfold settle. destruct (actions w !! id) as [st|] eqn:Hst;
    [|by rewrite apply_action_None].
  pose proof (owed_apply_action id
                (match o with inl v => resolve v | inr e => reject e end) w st Hst).
  pose proof (settle_op_owed o st). simpl in *. lia.
Qed.

(** A call of [then] owes a run to each callback it is given. *)
Lemma register_owed f g d st :
  owed_action (register f g d st).1 + sum_list_with owed_job (register f g d st).2 ≤
  owed_action st + due f + due g.
Proof.
  destruct st as [ss fs| |], f, g; simpl; rewrite ?sum_list_with_app; simpl;
    unfold owed_job, weight, due; simpl; lia.
Qed.

Lemma owed_then p (f g : option C) w :
  owed (then_ p f g w).2 ≤ owed w + due f + due g.
Proof.
  destruct p as [| | | |id|]; try (simpl; lia). rewrite then_register. cbn [snd].
  destruct (actions (alloc w) !! id) as [st|] eqn:Hst;
    [|rewrite apply_action_None, owed_alloc by done; lia].
  pose proof (owed_apply_action id (register f g (length (actions w))) _ st Hst).
  pose proof (register_owed f g (length (actions w)) st).
  rewrite owed_alloc in *. lia.
Qed.

Lemma balance_then p (f g : option C) w :
  balance (then_ p f g w).2 ≤ balance w + due f + due g.
Proof.
  unfold balance. pose proof (owed_then p f g w).
  destruct (extends_then p f g w) as (_ & _ & Hc).
  destruct p as [| | | |id|]; try (simpl; lia).
  rewrite then_register in *. cbn [snd] in *.
  destruct (apply_action_frame id (register f g (length (actions w))) (alloc w))
    as (_ & _ & -> & _).
  simpl. lia.
Qed.

Lemma balance_settle id o w : balance (settle id o w) ≤ balance w.
Proof.
  unfold balance. pose proof (owed_settle id o w).
  destruct (apply_action_frame id (match o with inl v => resolve v | inr e => reject e end) w)
    as (_ & _ & Hc & _).
  unfold settle in *. rewrite Hc. lia.
Qed.

Section writer.
Context `{!Writer call}.

(** A reaction that runs pays for the line it writes. *)
Lemma balance_react r o w : balance (react call r o w) ≤ balance w + weight r.
Proof.
  unfold react, weight, due. destruct (handler r) as [cb|].
  - pose (v := match o with inl v => v | inr e => e end).
    destruct (store_frame cb v w) as [Ha Hj].
    pose proof (writer_line cb v w) as Hl. fold v.
    destruct (call cb v w) as [[res|e] w'];
      (etrans; [apply balance_settle|]); unfold balance;
      rewrite (owed_frame w w') by done; simpl in Hl; lia.
  - etrans; [apply balance_settle | lia].
Qed.

(** A job never raises the balance. *)
Lemma balance_tick w : balance (tick call w) ≤ balance w.
Proof.
  unfold tick. destruct (jobs w) as [|j js] eqn:Hjobs; [done|].
  assert (balance (set_jobs js w) + owed_job j = balance w) as <-.
  { unfold balance, owed. simpl. rewrite Hjobs. simpl. lia. }
  destruct j; apply balance_react.
Qed.

Lemma balance_run_jobs fuel w w' :
  run_jobs call fuel w = Some w' → balance w' ≤ balance w.
Proof.
  revert w. induction fuel as [|fuel IH]; intros w; simpl;
    destruct (jobs w) eqn:Hjobs; try done; try (by intros [= <-]).
  intros Hrun. etrans; [by apply IH | apply balance_tick].
Qed.

End writer.

End lemmas.

End Output.
