(* ===== verification/Credit.v ===== *)
(** * The lines a world can still write

    [Output.balance] counts every callback an action holds, so a call of
    [then] with a callback for each outcome is charged two lines although
    only one of the two can run.  This file does the finer count, for hosts
    that settle the actions they made themselves and no others.

    The actions the hosts made are the [roots], a finite set of
    identifiers; the other actions of the store are derived by [then].  A
    reaction is charged the line of its own callback and the lines of the
    callbacks held by the action it derives, for the outcome it passes to
    that action ([charge]); a root is charged for the more expensive of its
    two outcomes ([pot]).  The [credit] of a world is the number of lines
    on its console plus what its queued jobs and its roots are charged.

    [inv] is what makes the count a bound: reactions name derived actions
    only, and chains are at most two actions long below a root.  Under
    [inv] a completion of a root, a job and a reply never raise the credit
    ([credit_settle], [credit_tick], [credit_send]); a registration on a
    root raises it by the charge of the more expensive of the two
    reactions it registers ([credit_register]).

    [Total] is what the count asks of the callbacks of a script beyond
    [Output.Writer]: they return and never throw. *)

From S2P Require Import Prelude AsyncAction Runtime Promise Store Output.

Module Credit.

#[local] Set Warnings "-clear-no-such-hyp".

Import AsyncAction Runtime Promise Store Output.

Section defs.
Context {C : Type}.
Implicit Types (w : World (Reaction C)) (r : Reaction C).

(** The reactions the action [d] holds for an outcome; none when [d] is
    settled or not in the store. *)
Definition waiting w (success : bool) (d : nat) : list (Reaction C) :=
  match actions w !! d with
  | Some (Pending ss fs) => if success then ss else fs
  | _ => []
  end.

(** The lines the callbacks of these reactions write when they run. *)
Definition dues w (success : bool) (d : nat) : nat :=
  sum_list_with weight (waiting w success d).

(** The outcome a reaction gives its derived action: a callback that
    returns resolves it, and without a callback the outcome passes
    through. *)
Definition passes (success : bool) r : bool :=
  match handler r with Some _ => true | None => success end.

Definition fulfilled (o : JsValue + JsValue) : bool :=
  match o with inl _ => true | inr _ => false end.

(** What running a reaction can write: its own line and the lines of the
    reactions of its derived action. *)
Definition charge w (success : bool) r : nat :=
  weight r + dues w (passes success r) (derived r).

Definition job_charge w (j : Firing JsValue JsValue (Reaction C)) : nat :=
  match j with
  | FireSuccess r _ => charge w true r
  | FireFailure r _ => charge w false r
  end.

(** A pending root settles one way or the other. *)
Definition pot w (id : nat) : nat :=
  sum_list_with (charge w true) (waiting w true id) `max`
  sum_list_with (charge w false) (waiting w false id).

Definition credit (roots : gset nat) w : nat :=
  length (console w) + sum_list_with (job_charge w) (jobs w) +
  sum_list_with (pot w) (elements roots).

(** The action a reaction derives holds no callback. *)
Definition quiet w r : Prop :=
  dues w true (derived r) = 0 ∧ dues w false (derived r) = 0.

(** A reaction names an action of the store that is not a root. *)
Definition owned (roots : gset nat) (n : nat) r : Prop :=
  derived r < n ∧ derived r ∉ roots.

Record inv (roots : gset nat) w : Prop := {
  inv_roots : ∀ id, id ∈ roots → id < length (actions w);
  inv_owned : every (owned roots (length (actions w))) w;
  inv_quiet : ∀ d s, d ∉ roots → Forall (quiet w) (waiting w s d);
}.

(** The callbacks of the script return. *)
Class Total (call : C → JsValue → Host (Reaction C) JsValue) : Prop :=
  total : ∀ cb v w, ∃ res, (call cb v w).1 = Normal res.

(** From [w] to [w'] the action [d] keeps its reactions or loses them. *)
Definition calm w w' (d : nat) : Prop :=
  ∀ s, waiting w' s d = waiting w s d ∨ waiting w' s d = [].

End defs.

Section lemmas.
Context {C : Type} (call : C → JsValue → Host (Reaction C) JsValue).
Implicit Types (w : World (Reaction C)) (r : Reaction C) (roots : gset nat).
Implicit Types (o : JsValue + JsValue) (j : Firing JsValue JsValue (Reaction C)).
Implicit Types (st : State JsValue JsValue (Reaction C)) (s : bool).

(** ** The reactions held *)

Lemma waiting_frame w w' s d : actions w' = actions w → waiting w' s d = waiting w s d.
Proof. unfold waiting. by intros ->. Qed.

Lemma waiting_ge w s d : length (actions w) ≤ d → waiting w s d = [].
Proof. intros Hd. unfold waiting. by rewrite lookup_ge_None_2. Qed.

Lemma waiting_send rp w s d : waiting (send rp w) s d = waiting w s d.
Proof.
  unfold waiting. simpl. destruct (decide (d < length (actions w))) as [Hd|Hd].
  - by rewrite lookup_app_l.
  - rewrite lookup_app_r, (lookup_ge_None_2 (actions w)) by lia.
    destruct (d - length (actions w)) as [|k]; [by destruct s | done].
Qed.

(** A completion empties the action and touches no other. *)
Lemma waiting_settle id o w s d :
  waiting (settle id o w) s d = if decide (d = id) then [] else waiting w s d.
Proof.
  unfold waiting, settle. case_decide as Hd; [subst d|by rewrite apply_action_lookup_ne].
  destruct (actions w !! id) as [st|] eqn:Hst;
    [|by rewrite apply_action_None, Hst].
  rewrite (apply_action_lookup _ _ _ _ Hst). by destruct o, st.
Qed.

Lemma jobs_settle id o w :
  jobs (settle id o w) = jobs w ++ fire o (waiting w true id) (waiting w false id).
Proof.
  unfold waiting, settle, apply_action.
  destruct (actions w !! id) as [[ss fs| |]|]; destruct o; simpl;
    by rewrite ?app_nil_r.
Qed.

Lemma every_waiting (P : Reaction C → Prop) w s d : every P w → Forall P (waiting w s d).
Proof.
  intros [Ha _]. unfold waiting. destruct (actions w !! d) as [st|] eqn:Hst; [|done].
  apply (Forall_lookup_1 _ _ _ _ Ha) in Hst.
  destruct st as [ss fs| |]; [|done..]. destruct Hst. by destruct s.
Qed.

(** ** Charges *)

Lemma charge_frame w w' s r : actions w' = actions w → charge w' s r = charge w s r.
Proof. intros Ha. unfold charge, dues. by rewrite (waiting_frame w w'). Qed.

(** An action that holds nothing writes nothing, whatever it derives. *)
Lemma charges_quiet w s (l : list (Reaction C)) :
  Forall (quiet w) l → sum_list_with (charge w s) l = sum_list_with weight l.
Proof.
  induction 1 as [|r l [Ht Hf] _ IH]; [done|]. simpl. rewrite IH.
  unfold charge. destruct (passes s r); lia.
Qed.

Lemma charges_fire w o (ss fs : list (Reaction C)) :
  sum_list_with (job_charge w) (fire o ss fs) =
  sum_list_with (charge w (fulfilled o)) (if fulfilled o then ss else fs).
Proof. destruct o; simpl; by rewrite sum_list_with_fmap. Qed.

(** ** Actions that keep or lose their reactions *)

Lemma calm_same w w' d : (∀ s, waiting w' s d = waiting w s d) → calm w w' d.
Proof. intros H s. by left. Qed.

Lemma dues_calm w w' s d : calm w w' d → dues w' s d ≤ dues w s d.
Proof. intros H. unfold dues. destruct (H s) as [->| ->]; simpl; lia. Qed.

Lemma charge_calm w w' s r : calm w w' (derived r) → charge w' s r ≤ charge w s r.
Proof.
  intros H. unfold charge.
  pose proof (dues_calm w w' (passes s r) (derived r) H). lia.
Qed.

Lemma quiet_calm w w' r : calm w w' (derived r) → quiet w r → quiet w' r.
Proof.
  intros H [Ht Hf]. pose proof (dues_calm w w' true _ H).
  pose proof (dues_calm w w' false _ H). split; lia.
Qed.

Lemma calm_settle id o w d : calm w (settle id o w) d.
Proof. intros s. rewrite waiting_settle. case_decide; auto. Qed.

(** ** What an invariant world keeps when its derived actions are calm *)

Section calms.
Context (roots : gset nat) (w w' : World (Reaction C)).
Context (Hinv : inv roots w).
Context (Hcalm : ∀ d, d < length (actions w) → d ∉ roots → calm w w' d).

Lemma owned_calm r : owned roots (length (actions w)) r → calm w w' (derived r).
Proof. intros [Hlt Hr]. by apply Hcalm. Qed.

Lemma charges_calms s (l : list (Reaction C)) :
  Forall (owned roots (length (actions w))) l →
  sum_list_with (charge w' s) l ≤ sum_list_with (charge w s) l.
Proof.
  intros Hl. apply sum_list_with_le. eapply Forall_impl; [done|].
  intros r Hr. by apply charge_calm, owned_calm.
Qed.

Lemma jobs_calms :
  sum_list_with (job_charge w') (jobs w) ≤ sum_list_with (job_charge w) (jobs w).
Proof.
  destruct Hinv as [_ [_ Hj] _]. apply sum_list_with_le.
  eapply Forall_impl; [done|]. intros [r v|r v] Hr; by apply charge_calm, owned_calm.
Qed.

Lemma waiting_calms s d :
  sum_list_with (charge w' s) (waiting w s d) ≤ sum_list_with (charge w s) (waiting w s d).
Proof. apply charges_calms, every_waiting, Hinv. Qed.

Lemma pot_calms id : calm w w' id → pot w' id ≤ pot w id.
Proof.
  intros Hid. unfold pot.
  pose proof (waiting_calms true id). pose proof (waiting_calms false id).
  destruct (Hid true) as [->| ->], (Hid false) as [->| ->]; simpl; lia.
Qed.

Lemma quiet_calms (l : list (Reaction C)) :
  Forall (owned roots (length (actions w))) l →
  Forall (quiet w) l → Forall (quiet w') l.
Proof.
  intros Ho Hq. apply Forall_forall. intros r Hr.
  rewrite Forall_forall in Ho, Hq. by apply (quiet_calm w), Hq; [apply owned_calm, Ho|].
Qed.

(** The part of the invariant that reads the reactions held. *)
Lemma inv_quiet_calms :
  (∀ d, calm w w' d) → ∀ d s, d ∉ roots → Forall (quiet w') (waiting w' s d).
Proof.
  intros Hall d s Hd. destruct (Hall d s) as [->| ->]; [|done].
  apply quiet_calms; [apply every_waiting, Hinv | by apply Hinv].
Qed.

End calms.

(** ** The invariant in worlds with the same store *)

Lemma credit_frame roots w w' :
  actions w' = actions w → jobs w' = jobs w →
  credit roots w' + length (console w) = credit roots w + length (console w').
Proof.
  intros Ha Hj. unfold credit. rewrite Hj.
  rewrite (sum_list_with_ext (job_charge w') (job_charge w)), (sum_list_with_ext (pot w') (pot w)).
  - lia.
  - intros id. unfold pot. rewrite !(waiting_frame w w') by done.
    f_equal; apply sum_list_with_ext; intros r; by apply charge_frame.
  - intros [r v|r v]; by apply charge_frame.
Qed.

Lemma quiet_frame w w' r : actions w' = actions w → quiet w r → quiet w' r.
Proof. intros Ha. unfold quiet, dues. by rewrite !(waiting_frame w w'). Qed.

Lemma inv_frame roots w w' :
  actions w' = actions w → jobs w' = jobs w → inv roots w → inv roots w'.
Proof.
  intros Ha Hj [Hr Ho Hq]. split.
  - by rewrite Ha.
  - rewrite Ha. by apply (every_frame _ w).
  - intros d s Hd. rewrite (waiting_frame w w') by done.
    eapply Forall_impl; [by apply Hq|]. intros r. by apply quiet_frame.
Qed.

Lemma inv_empty : inv ∅ (@empty_world (Reaction C)).
Proof. split; [set_solver | apply every_empty | done]. Qed.

(** ** Completions *)

Lemma inv_settle roots id o w : inv roots w → inv roots (settle id o w).
Proof.
  intros Hinv. pose proof (apply_action_length id
    (match o with inl v => resolve v | inr e => reject e end) w) as Hlen.
  split.
  - unfold settle. rewrite Hlen. apply Hinv.
  - unfold settle at 1. rewrite Hlen. apply every_settle, Hinv.
  - apply (inv_quiet_calms roots w _ Hinv); intros; apply calm_settle.
Qed.

(** The jobs a completion queues are charged what the reactions were. *)
Lemma settle_charges roots id o w :
  inv roots w →
  sum_list_with (job_charge (settle id o w)) (jobs (settle id o w)) ≤
  sum_list_with (job_charge w) (jobs w) +
  sum_list_with (charge w (fulfilled o)) (waiting w (fulfilled o) id).
Proof.
  intros Hinv. rewrite jobs_settle, sum_list_with_app, charges_fire.
  pose proof (jobs_calms roots w (settle id o w) Hinv (λ d _ _, calm_settle id o w d)).
  pose proof (waiting_calms roots w (settle id o w) Hinv (λ d _ _, calm_settle id o w d)
                (fulfilled o) id).
  destruct o; simpl in *; lia.
Qed.

Lemma settle_pots roots id o w :
  inv roots w →
  sum_list_with (pot (settle id o w)) (elements roots) +
    (if decide (id ∈ roots) then pot w id else 0) ≤
  sum_list_with (pot w) (elements roots).
Proof.
  intros Hinv.
  assert (∀ x, pot (settle id o w) x ≤ pot w x) as Hle.
  { intros x. apply (pot_calms roots w _ Hinv); intros; apply calm_settle. }
  case_decide as Hid; [|rewrite Nat.add_0_r; by apply sum_elements_le].
  pose proof (sum_elements_remove (pot w) (pot (settle id o w)) roots id Hid (λ x _ _, Hle x)).
  assert (pot (settle id o w) id = 0) as Hz; [|lia].
  unfold pot. rewrite !waiting_settle. by case_decide.
Qed.

(** The completion of a root never raises the credit; that of a derived
    action raises it by the lines of the callbacks the action holds for the
    outcome. *)
Lemma credit_settle roots id o w :
  inv roots w →
  credit roots (settle id o w) ≤
  credit roots w + (if decide (id ∈ roots) then 0 else dues w (fulfilled o) id).
Proof.
  intros Hinv. unfold credit.
  pose proof (settle_charges roots id o w Hinv).
  pose proof (settle_pots roots id o w Hinv) as Hpots.
  destruct (apply_action_frame id (match o with inl v => resolve v | inr e => reject e end) w)
    as (_ & _ & Hc & _). fold (settle id o w) in Hc. rewrite Hc.
  case_decide as Hid.
  - assert (sum_list_with (charge w (fulfilled o)) (waiting w (fulfilled o) id) ≤ pot w id);
      [unfold pot; destruct (fulfilled o); lia | lia].
  - rewrite charges_quiet in * by by apply Hinv. unfold dues. lia.
Qed.

(** ** Jobs *)

Section total.
Context `{!Writer call, !Total call}.

Lemma inv_react roots r o w : inv roots w → inv roots (react call r o w).
Proof.
  intros Hinv. unfold react. destruct (handler r) as [cb|]; [|by apply inv_settle].
  destruct (store_frame cb (match o with inl v => v | inr e => e end) w) as [Ha Hj].
  destruct (call _ _ w) as [[res|e] w1]; by apply inv_settle, (inv_frame roots w).
Qed.

(** A reaction that runs spends its charge. *)
Lemma credit_react roots r o w :
  inv roots w → derived r ∉ roots →
  credit roots (react call r o w) ≤ credit roots w + charge w (fulfilled o) r.
Proof.
  intros Hinv Hr. unfold react, charge, passes, weight.
  destruct (handler r) as [cb|]; simpl.
  - pose (v := match o with inl v => v | inr e => e end). fold v.
    destruct (store_frame cb v w) as [Ha Hj].
    pose proof (writer_line cb v w) as Hl. destruct (total cb v w) as [res Hres].
    destruct (call cb v w) as [c w1]. simpl in *. subst c.
    pose proof (credit_settle roots (derived r) (inl res) w1 (inv_frame roots w w1 Ha Hj Hinv))
      as Hs.
    pose proof (credit_frame roots w w1 Ha Hj). rewrite decide_False in Hs by done.
    unfold dues in *. rewrite (waiting_frame w w1) in Hs by done. simpl in Hs. lia.
  - pose proof (credit_settle roots (derived r) o w Hinv) as Hs.
    by rewrite decide_False in Hs.
Qed.

Lemma inv_set_jobs roots j js w :
  jobs w = j :: js → inv roots w → inv roots (set_jobs js w).
Proof.
  intros Hjobs [Hr [Ha Hj] Hq]. split; [done | split; [done|] | done].
  rewrite Hjobs in Hj. by apply Forall_cons in Hj as [_ Hj].
Qed.

Lemma inv_tick roots w : inv roots w → inv roots (tick call w).
Proof.
  intros Hinv. unfold tick. destruct (jobs w) as [|j js] eqn:Hjobs; [done|].
  pose proof (inv_set_jobs roots j js w Hjobs Hinv).
  destruct j; by apply inv_react.
Qed.

(** A job never raises the credit. *)
Lemma credit_tick roots w : inv roots w → credit roots (tick call w) ≤ credit roots w.
Proof.
  intros Hinv. unfold tick. destruct (jobs w) as [|j js] eqn:Hjobs; [done|].
  pose proof (inv_set_jobs roots j js w Hjobs Hinv) as Hinv'.
  assert (credit roots (set_jobs js w) + job_charge w j = credit roots w) as <-.
  { unfold credit. rewrite Hjobs.
    change (job_charge (set_jobs js w)) with (job_charge w).
    change (pot (set_jobs js w)) with (pot w). simpl. lia. }
  destruct Hinv as [_ [_ Hj] _]. rewrite Hjobs in Hj.
  apply Forall_cons in Hj as [Hr _].
  destruct j as [r v|r v]; destruct Hr as [_ Hr]; by apply credit_react.
Qed.

End total.

(** ** Replies *)

(** The action of a reply is a root. *)
Lemma inv_send roots rp w :
  inv roots w → inv ({[length (actions w)]} ∪ roots) (send rp w).
Proof.
  intros [Hr Ho Hq]. split.
  - intros id. simpl. rewrite length_app. simpl.
    intros [->%elem_of_singleton|Hid%Hr]%elem_of_union; lia.
  - apply (every_frame _ (alloc w)); [done..|]. apply every_alloc.
    eapply every_mono; [|done]. intros r [Hlt Hd]. split.
    + simpl. rewrite length_app. lia.
    + apply not_elem_of_union. split; [|done]. rewrite elem_of_singleton. lia.
  - intros d s [_ Hd]%not_elem_of_union. rewrite waiting_send.
    eapply Forall_impl; [by apply Hq|]. intros r. unfold quiet, dues.
    by rewrite !waiting_send.
Qed.

Lemma credit_send roots rp w :
  inv roots w →
  credit ({[length (actions w)]} ∪ roots) (send rp w) ≤ credit roots w.
Proof.
  intros Hinv. unfold credit.
  assert (∀ d, calm w (send rp w) d) as Hcalm.
  { intros d. apply calm_same. intros s. apply waiting_send. }
  pose proof (jobs_calms roots w (send rp w) Hinv (λ d _ _, Hcalm d)).
  rewrite sum_elements_union; last first.
  { intros Hn%(inv_roots _ _ Hinv). lia. }
  assert (pot (send rp w) (length (actions w)) = 0) as ->.
  { unfold pot. by rewrite !waiting_send, !waiting_ge. }
  assert (sum_list_with (pot (send rp w)) (elements roots) ≤
          sum_list_with (pot w) (elements roots)); [|simpl in *; lia].
  apply sum_elements_le. intros x _. by apply (pot_calms roots w _ Hinv).
Qed.

(** ** Registrations on a root *)

(** A script that chains on the root [p]: the two reactions of a call of
    [then] with the callbacks [f] and [g] are registered on [p], and the
    actions [ext] are allocated behind the store, the first of them the
    one the reactions derive. *)
Section register.
Context (roots : gset nat) (w w' : World (Reaction C)) (p : nat).
Context (st : State JsValue JsValue (Reaction C)) (f g : option C).
Context (ext : list (State JsValue JsValue (Reaction C))).
Local Abbreviation n := (length (actions w)).
Local Abbreviation rf := {| handler := f; derived := n |}.
Local Abbreviation rg := {| handler := g; derived := n |}.
Context (Hinv : inv roots w) (Hp : p ∈ roots) (Hst : actions w !! p = Some st).
Context (Hc : console w' = console w).
Context (Ha : actions w' = <[p := (register f g n st).1]> (actions w) ++ ext).
Context (Hj : jobs w' = jobs w ++ (register f g n st).2).

Lemma waiting_register_ne s d : d < n → d ≠ p → waiting w' s d = waiting w s d.
Proof.
  intros Hd Hne. unfold waiting.
  by rewrite Ha, lookup_app_l, list_lookup_insert_ne by (rewrite ?length_insert; done).
Qed.

Lemma waiting_register s :
  waiting w' s p =
  match st with
  | Pending _ _ => waiting w s p ++ [if s then rf else rg]
  | _ => []
  end.
Proof.
  pose proof (lookup_lt_Some _ _ _ Hst). unfold waiting.
  rewrite Ha, lookup_app_l, list_lookup_insert_eq, Hst by (rewrite ?length_insert; done).
  clear. destruct st; simpl; by destruct s.
Qed.

Lemma waiting_register_ext s d :
  n ≤ d →
  waiting w' s d =
  match ext !! (d - n) with
  | Some (Pending ss fs) => if s then ss else fs
  | _ => []
  end.
Proof.
  intros Hd. unfold waiting.
  by rewrite Ha, lookup_app_r, length_insert by (rewrite ?length_insert; done).
Qed.

Lemma calm_register d : d < n → d ∉ roots → calm w w' d.
Proof.
  intros Hd Hr. apply calm_same. intros s. apply waiting_register_ne; [done|].
  by intros ->.
Qed.

Lemma pot_register :
  pot w' p + sum_list_with (job_charge w') (register f g n st).2 ≤
  pot w p + charge w' true rf `max` charge w' false rg.
Proof.
  unfold pot. rewrite !waiting_register.
  pose proof (charges_calms roots w w' calm_register true (waiting w true p)
                (every_waiting _ w true p (inv_owned _ _ Hinv))).
  pose proof (charges_calms roots w w' calm_register false (waiting w false p)
                (every_waiting _ w false p (inv_owned _ _ Hinv))).
  destruct st; simpl; rewrite ?sum_list_with_app; simpl; lia.
Qed.

(** The registration raises the credit by the charge of the more
    expensive of the two reactions. *)
Lemma credit_register :
  credit roots w' ≤ credit roots w + charge w' true rf `max` charge w' false rg.
Proof.
  unfold credit. rewrite Hc, Hj, sum_list_with_app.
  pose proof (jobs_calms roots w w' Hinv calm_register).
  pose proof pot_register.
  assert (sum_list_with (pot w') (elements roots) + pot w p ≤
          sum_list_with (pot w) (elements roots) + pot w' p); [|lia].
  apply sum_elements_remove; [done|]. intros x Hx Hne.
  apply (pot_calms roots w w' Hinv calm_register), calm_same.
  intros s. apply waiting_register_ne; [by apply Hinv | done].
Qed.

(** The invariant is kept when the actions allocated hold reactions that
    derive actions allocated with them, which hold no callback. *)
Lemma inv_register :
  ext ≠ [] →
  Forall (action_all (λ r, n ≤ derived r < n + length ext ∧ quiet w' r)) ext →
  inv roots w'.
Proof.
  intros Hne Hext.
  assert (length (actions w') = n + length ext) as Hlen
    by by rewrite Ha, length_app, length_insert.
  assert (0 < length ext) by (destruct ext; [done | simpl; lia]).
  assert (∀ r, owned roots n r → owned roots (n + length ext) r) as Hmono.
  { intros r [Hlt Hr]. split; [lia | done]. }
  assert (∀ h : option C, owned roots (n + length ext) {| handler := h; derived := n |})
    as Hnew.
  { intros h. split; simpl; [lia|]. intros Hn%(inv_roots _ _ Hinv). lia. }
  destruct (register_all (owned roots (n + length ext)) f g n st) as [Hst' Hfired];
    [done.. | |].
  { eapply action_all_mono; [exact Hmono|].
    destruct Hinv as [_ [Hact _] _]. by eapply (Forall_lookup_1 _ _ _ _ Hact). }
  split.
  - intros id Hid%(inv_roots _ _ Hinv). lia.
  - destruct (every_mono _ _ w Hmono (inv_owned _ _ Hinv)) as [Hact Hjobs].
    rewrite Hlen. split; [rewrite Ha | rewrite Hj]; apply Forall_app; split; try done.
    + by apply Forall_insert.
    + eapply Forall_impl; [exact Hext|]. intros x. apply action_all_mono.
      intros r [[Hge Hlt] _]. split; [lia|]. intros Hr%(inv_roots _ _ Hinv). lia.
  - intros d s Hd. destruct (decide (d < n)) as [Hlt|Hge].
    + rewrite waiting_register_ne by (try done; by intros ->).
      apply (quiet_calms roots w w' calm_register);
        [apply every_waiting, Hinv | by apply Hinv].
    + rewrite waiting_register_ext by lia.
      destruct (ext !! (d - n)) as [x|] eqn:Hx; [|done].
      apply (Forall_lookup_1 _ _ _ _ Hext) in Hx.
      destruct x as [ss fs| |]; [|done..]. destruct Hx as [Hs Hf].
      destruct s; (eapply Forall_impl; [done|]); by intros r [_ Hq].
Qed.

(** Both at once, for a registration whose reactions are charged at most
    [k] lines. *)
Lemma register_root k :
  ext ≠ [] →
  Forall (action_all (λ r, n ≤ derived r < n + length ext ∧ quiet w' r)) ext →
  charge w' true rf ≤ k → charge w' false rg ≤ k →
  inv roots w' ∧ credit roots w' ≤ credit roots w + k.
Proof.
  intros Hne Hext Hf Hg. split; [by apply inv_register|].
  pose proof credit_register. lia.
Qed.

End register.

(** A line written to the console is counted once. *)
Lemma credit_write_console roots l w :
  credit roots (write_console l w) = S (credit roots w).
Proof.
  pose proof (credit_frame roots w (write_console l w) eq_refl eq_refl) as H.
  simpl in H. rewrite length_app in H. simpl in H. lia.
Qed.

End lemmas.

(** The charge and the dues of a reaction that derives one of the first
    two actions allocated by a registration, [Ha] being the equation of
    the store after it. *)
Ltac charge_ext Ha :=
  unfold charge, quiet, dues, weight; cbn [handler derived passes];
  rewrite ?(waiting_register_ext _ _ _ _ _ _ _ Ha) by lia;
  rewrite ?Nat.sub_diag;
  repeat match goal with
         | |- context [S ?x - ?x] => replace (S x - x) with 1 by lia
         end;
  simpl; try lia; try done.

End Credit.
