(* ===== verification/Account.v ===== *)
(** * The lines a world will write

    [Credit] bounds the number of lines a world can still write by charging
    every root for the more expensive of its two outcomes.  When it is
    known how the roots end (their [fate]: the value or the error they are
    completed with, or nothing when they are never completed), the lines
    themselves are known.  For callbacks that write one line and return
    ([Exact], with the line [says cb v] and the result [returns cb v]), a
    reaction that runs on an outcome yields its own line and the lines of
    the reactions of its derived action ([yield]); the [account] of a world
    is the multiset of the lines on its console, of the lines its queued
    jobs yield and of the lines the reactions of each root yield on the
    fate of the root.

    In worlds that are linear ([Linear.linear]: a derived action is named
    once) and keep the invariant of [Credit], a completion of a root that
    agrees with its fate, a job and a reply leave the account as it is
    ([account_settle_root], [account_tick], [account_send]), and a
    registration on a root adds what the reaction registered yields on the
    fate of the root ([account_register]).  Once the queue is empty and
    every root has met its fate, the account is the console
    ([account_quiescent]). *)

From S2P Require Import Prelude AsyncAction Runtime Promise Store Linear Output Credit.

Module Account.

#[local] Set Warnings "-clear-no-such-hyp".

Import AsyncAction Runtime Promise Store Linear Output Credit.

Section defs.
Context {C : Type}.
Context (says : C → JsValue → ConsoleLine) (returns : C → JsValue → JsValue).
Implicit Types (w : World (Reaction C)) (r : Reaction C) (o : JsValue + JsValue).
Implicit Types (fate : nat → option (JsValue + JsValue)).

(** The value or the error of an outcome. *)
Definition payload o : JsValue := match o with inl v => v | inr e => e end.

(** The line a reaction writes when it runs on an outcome, and the
    outcome it gives its derived action. *)
Definition own r o : gmultiset ConsoleLine :=
  match handler r with
  | Some cb => {[+ says cb (payload o) +]}
  | None => ∅
  end.

Definition out r o : JsValue + JsValue :=
  match handler r with
  | Some cb => inl (returns cb (payload o))
  | None => o
  end.

(** The lines the reactions an action holds write on an outcome. *)
Definition echo w o (d : nat) : gmultiset ConsoleLine :=
  msum (λ r, own r o) (waiting w (fulfilled o) d).

(** What running a reaction writes: its own line and the lines of the
    reactions of its derived action. *)
Definition yield w o r : gmultiset ConsoleLine :=
  own r o ⊎ echo w (out r o) (derived r).

Definition job_yield w (j : Firing JsValue JsValue (Reaction C))
  : gmultiset ConsoleLine :=
  match j with
  | FireSuccess r v => yield w (inl v) r
  | FireFailure r e => yield w (inr e) r
  end.

(** How an action has ended, if it has. *)
Definition outcome_of (st : State JsValue JsValue (Reaction C))
  : option (JsValue + JsValue) :=
  match st with
  | Pending _ _ => None
  | Resolved v => Some (inl v)
  | Rejected e => Some (inr e)
  end.

(** The fate the actions have met in [w]. *)
Definition fate_of w (id : nat) : option (JsValue + JsValue) :=
  actions w !! id ≫= outcome_of.

(** The actions settled in [w] have ended as [fate] says. *)
Definition agrees fate w : Prop :=
  ∀ id st o, actions w !! id = Some st → outcome_of st = Some o → fate id = Some o.

(** What the reactions of a root will write, given how the root ends. *)
Definition side w (end_ : option (JsValue + JsValue)) (id : nat)
  : gmultiset ConsoleLine :=
  match end_ with
  | Some o => msum (yield w o) (waiting w (fulfilled o) id)
  | None => ∅
  end.

(** The lines still to come, and the account. *)
Definition pending fate (roots : gset nat) w : gmultiset ConsoleLine :=
  msum (job_yield w) (jobs w) ⊎ msum (λ id, side w (fate id) id) (elements roots).

Definition account fate (roots : gset nat) w : gmultiset ConsoleLine :=
  list_to_set_disj (console w) ⊎ pending fate roots w.

(** What the reaction registered by a call of [then] with the callbacks
    [f] and [g] will write, given how the action it is registered on
    ends. *)
Definition registered w (f g : option C) (d : nat)
    (end_ : option (JsValue + JsValue)) : gmultiset ConsoleLine :=
  match end_ with
  | Some o => yield w o {| handler := if fulfilled o then f else g; derived := d |}
  | None => ∅
  end.

(** No reaction of the world names the action [d]. *)
Definition lone w (d : nat) : Prop := every (λ r, derived r ≠ d) w.

(** The callbacks of the script write one line and return. *)
Class Exact (call : C → JsValue → Host (Reaction C) JsValue) : Prop :=
  exactly : ∀ cb v w,
    call cb v w = (Normal (returns cb v), write_console (says cb v) w).

End defs.

Arguments exactly {C} says returns call {_} cb v w.

Section lemmas.
Context {C : Type} (call : C → JsValue → Host (Reaction C) JsValue).
Context (says : C → JsValue → ConsoleLine) (returns : C → JsValue → JsValue).
Implicit Types (w : World (Reaction C)) (r : Reaction C) (roots : gset nat).
Implicit Types (o : JsValue + JsValue) (j : Firing JsValue JsValue (Reaction C)).
Implicit Types (st : State JsValue JsValue (Reaction C)).
Implicit Types (fate : nat → option (JsValue + JsValue)).

Local Abbreviation own := (own says).
Local Abbreviation out := (out returns).
Local Abbreviation echo := (echo says).
Local Abbreviation yield := (yield says returns).
Local Abbreviation job_yield := (job_yield says returns).
Local Abbreviation side := (side says returns).
Local Abbreviation pending := (pending says returns).
Local Abbreviation account := (account says returns).
Local Abbreviation registered := (registered says returns).

(** ** Fates *)

Lemma agrees_fate_of w : agrees (fate_of w) w.
Proof. intros id st o Hst Ho. unfold fate_of. by rewrite Hst. Qed.

(** A fate that is met later is the fate now: a settled action never
    changes. *)
Lemma agrees_evolves fate w w' : store_evolves w w' → agrees fate w' → agrees fate w.
Proof.
  intros Hev Hw' id st o Hst Ho. destruct (Hev id st Hst) as (st' & Hst' & Ht).
  apply (Hw' id st'); [done|].
  by rewrite (evolves_settled _ _ Ht) by by destruct st.
Qed.

(** An action that has met its fate holds nothing: once the queue is
    empty, the account is the console. *)
Lemma side_fate_of w id : side w (fate_of w id) id = ∅.
Proof.
  unfold side, fate_of, waiting. by destruct (actions w !! id) as [[]|].
Qed.

Lemma account_quiescent roots w :
  jobs w = [] → account (fate_of w) roots w = list_to_set_disj (console w).
Proof.
  intros Hjobs. unfold account, pending. rewrite Hjobs.
  rewrite (msum_ext (λ id, side w (fate_of w id) id) (λ _, ∅)) by apply side_fate_of.
  rewrite msum_empty. simpl. multiset_solver.
Qed.

(** ** Yields *)

(** A reaction without a callback writes nothing. *)
Lemma own_weight r o : weight r = 0 → own r o = ∅.
Proof. unfold weight, due, Account.own. by destruct (handler r). Qed.

Lemma echo_weight w o d : dues w (fulfilled o) d = 0 → echo w o d = ∅.
Proof.
  unfold dues, Account.echo.
  induction (waiting w (fulfilled o) d) as [|r l IH]; [done|].
  simpl. intros Hl. rewrite own_weight, IH by lia. multiset_solver.
Qed.

Lemma echo_quiet w o r : quiet w r → echo w o (derived r) = ∅.
Proof. intros [Ht Hf]. apply echo_weight. by destruct o. Qed.

(** A reaction that derives an action without callbacks writes its own
    line only. *)
Lemma yields_quiet w o (l : list (Reaction C)) :
  Forall (quiet w) l → msum (yield w o) l = msum (λ r, own r o) l.
Proof.
  intros Hl. apply msum_Forall_ext. eapply Forall_impl; [done|].
  intros r Hr. unfold Account.yield. rewrite echo_quiet by done. multiset_solver.
Qed.

Lemma yields_fire w o (ss fs : list (Reaction C)) :
  msum (job_yield w) (fire o ss fs) = msum (yield w o) (if fulfilled o then ss else fs).
Proof. destruct o; simpl; by rewrite msum_fmap. Qed.

(** ** Yields in a world where the actions named keep their reactions *)

Section same.
Context (w w' : World (Reaction C)) (D : nat → Prop).
Context (Hsame : ∀ d s, ¬ D d → waiting w' s d = waiting w s d).
Context (Hnames : every (λ r, ¬ D (derived r)) w).

Lemma yield_same o r : ¬ D (derived r) → yield w' o r = yield w o r.
Proof. intros Hr. unfold Account.yield, Account.echo. by rewrite Hsame. Qed.

Lemma jobs_same : msum (job_yield w') (jobs w) = msum (job_yield w) (jobs w).
Proof.
  destruct Hnames as [_ Hj]. apply msum_Forall_ext.
  eapply Forall_impl; [done|]. intros [r v|r v] Hr; by apply yield_same.
Qed.

Lemma waiting_same o s id :
  msum (yield w' o) (waiting w s id) = msum (yield w o) (waiting w s id).
Proof.
  apply msum_Forall_ext.
  eapply Forall_impl; [by apply (every_waiting _ w s id Hnames)|].
  intros r Hr. by apply yield_same.
Qed.

Lemma side_same (end_ : option (JsValue + JsValue)) id :
  ¬ D id → side w' end_ id = side w end_ id.
Proof.
  intros Hid. destruct end_ as [o|]; [|done]. simpl.
  rewrite Hsame by done. apply waiting_same.
Qed.

End same.

(** ** Worlds with the same store *)

Lemma pending_frame fate roots w w' :
  actions w' = actions w → jobs w' = jobs w → pending fate roots w' = pending fate roots w.
Proof.
  intros Ha Hj. unfold Account.pending. rewrite Hj.
  assert (∀ d s, ¬ False → waiting w' s d = waiting w s d) as Hsame.
  { intros d s _. by apply waiting_frame. }
  f_equal.
  - apply msum_ext. intros [r v|r v]; simpl;
      apply (yield_same w w' (λ _, False) Hsame); tauto.
  - apply msum_ext. intros id. destruct (fate id) as [o|]; [|done]. simpl.
    rewrite Hsame by tauto. apply msum_ext. intros r.
    apply (yield_same w w' (λ _, False) Hsame); tauto.
Qed.

Lemma account_write_console fate roots l w :
  account fate roots (write_console l w) = {[+ l +]} ⊎ account fate roots w.
Proof.
  unfold Account.account. rewrite (pending_frame fate roots w) by done.
  simpl. rewrite list_to_set_disj_app. simpl. multiset_solver.
Qed.

Lemma lone_frame w w' d :
  actions w' = actions w → jobs w' = jobs w → lone w d → lone w' d.
Proof. apply every_frame. Qed.

(** No reaction names a root. *)
Lemma inv_lone roots w id : inv roots w → id ∈ roots → lone w id.
Proof.
  intros Hinv Hid. eapply every_mono; [|apply Hinv].
  intros r [_ Hr] Heq. by rewrite Heq in Hr.
Qed.

(** ** Completions *)

(** A completion moves the yield of the reactions for the outcome from
    the action to the queue. *)
Lemma account_settle fate roots id o w :
  lone w id →
  account fate roots (settle id o w) ⊎
    (if decide (id ∈ roots) then side w (fate id) id else ∅) =
  account fate roots w ⊎ msum (yield w o) (waiting w (fulfilled o) id).
Proof.
  intros Hlone. unfold Account.account, Account.pending.
  assert (∀ d s, ¬ d = id → waiting (settle id o w) s d = waiting w s d) as Hsame.
  { intros d s Hd. rewrite waiting_settle. by rewrite decide_False. }
  destruct (apply_action_frame id (match o with inl v => resolve v | inr e => reject e end) w)
    as (_ & _ & Hc & _). fold (settle id o w) in Hc. rewrite Hc.
  rewrite jobs_settle, msum_app, yields_fire.
  rewrite (jobs_same w _ (λ d, d = id) Hsame Hlone).
  assert ((if fulfilled o then waiting w true id else waiting w false id) =
          waiting w (fulfilled o) id) as -> by by destruct (fulfilled o).
  rewrite (waiting_same w _ (λ d, d = id) Hsame Hlone).
  case_decide as Hid.
  - pose proof (msum_elements_change (λ x, side w (fate x) x)
                  (λ x, side (settle id o w) (fate x) x) roots id Hid) as Hsum.
    simpl in Hsum.
    assert (side (settle id o w) (fate id) id = ∅) as Hz.
    { destruct (fate id) as [o'|]; [|done]. simpl. rewrite waiting_settle.
      by rewrite decide_True. }
    rewrite Hz in Hsum. rewrite <- (assoc_L (⊎)), <- (assoc_L (⊎)), Hsum.
    + multiset_solver.
    + intros x _ Hx. by apply (side_same w _ (λ d, d = id)).
  - rewrite (msum_elements_ext (λ x, side (settle id o w) (fate x) x)
               (λ x, side w (fate x) x)); [multiset_solver|].
    intros x Hx. apply (side_same w _ (λ d, d = id)); [done..|]. by intros ->.
Qed.

(** The completion of a root that agrees with its fate leaves the
    account as it is. *)
Lemma account_settle_root fate roots id o w :
  inv roots w → id ∈ roots → agrees fate (settle id o w) →
  account fate roots (settle id o w) = account fate roots w.
Proof.
  intros Hinv Hid Hfate.
  pose proof (account_settle fate roots id o w (inv_lone roots w id Hinv Hid)) as Hs.
  rewrite decide_True in Hs by done.
  assert (side w (fate id) id = msum (yield w o) (waiting w (fulfilled o) id)) as Heq;
    [|rewrite Heq in Hs; by apply (inj (.⊎ _)) in Hs].
  destruct (actions w !! id) as [st|] eqn:Hst; last first.
  { unfold Account.side, waiting. rewrite Hst. by destruct (fate id). }
  destruct st as [ss fs| |];
    [|unfold Account.side, waiting; rewrite Hst; by destruct (fate id)..].
  rewrite (Hfate id (settled_with o) o); [done| |by destruct o].
  unfold settle. rewrite (apply_action_lookup _ _ _ _ Hst). by destruct o.
Qed.

(** The completion of a derived action that nobody else names queues the
    callbacks it holds for the outcome. *)
Lemma account_settle_derived fate roots id o w :
  inv roots w → id ∉ roots → lone w id →
  account fate roots (settle id o w) = account fate roots w ⊎ echo w o id.
Proof.
  intros Hinv Hid Hlone. pose proof (account_settle fate roots id o w Hlone) as Hs.
  rewrite decide_False, yields_quiet in Hs by (try done; by apply Hinv).
  unfold Account.echo. rewrite <- Hs. multiset_solver.
Qed.

(** ** Jobs *)

Section exact.
Context `{!Exact says returns call}.

#[local] Instance exact_frame : StoreFrame call.
Proof. intros cb v w. by rewrite (exactly says returns call). Qed.

#[local] Instance exact_writer : Writer call.
Proof.
  split; [apply _|..]; intros cb v w; rewrite (exactly says returns call); simpl.
  - repeat split; simpl; by try apply prefix_app_r.
  - rewrite length_app. simpl. lia.
Qed.

#[local] Instance exact_total : Total call.
Proof. intros cb v w. rewrite (exactly says returns call). by eexists. Qed.

(** A reaction that runs writes its line and queues what is left of its
    yield. *)
Lemma account_react fate roots r o w :
  inv roots w → derived r ∉ roots → lone w (derived r) →
  account fate roots (react call r o w) = account fate roots w ⊎ yield w o r.
Proof.
  intros Hinv Hr Hlone. unfold react, Account.yield, Account.own, Account.out.
  destruct (handler r) as [cb|].
  - fold (payload o). rewrite (exactly says returns call).
    rewrite (account_settle_derived fate roots);
      [|by apply (inv_frame roots w) | done | by apply (lone_frame w)].
    rewrite account_write_console. unfold Account.echo.
    rewrite (waiting_frame w (write_console _ w)) by done. multiset_solver.
  - rewrite account_settle_derived by done. multiset_solver.
Qed.

(** In a linear world the action a job settles is named by that job
    alone. *)
Lemma linear_lone j js w :
  linear w → jobs w = j :: js → lone (set_jobs js w) (derived (reaction_of j)).
Proof.
  intros [Hp Hn] Hjobs. unfold names in Hn. rewrite Hjobs in Hn.
  apply NoDup_app in Hn as (_ & Hact & Hq). unfold queued in Hq.
  rewrite fmap_cons in Hq. apply NoDup_cons in Hq as [Hq _].
  assert (Forall (λ d, d ≠ derived (reaction_of j)) (concat (named <$> actions w)))
    as Hnamed.
  { apply Forall_forall. intros d Hd ->. apply (Hact _ Hd). by left. }
  rewrite Forall_concat, Forall_fmap in Hnamed.
  split; simpl.
  - apply Forall_forall. intros st Hst.
    pose proof (proj1 (Forall_forall _ _) Hp st Hst) as Hpair.
    pose proof (proj1 (Forall_forall _ _) Hnamed st Hst) as Hd.
    destruct st as [ss fs| |]; simpl in *; [|done..].
    rewrite Forall_forall in Hd.
    split; apply Forall_forall; intros r Hr; apply Hd; [|rewrite Hpair];
      by apply list_elem_of_fmap_2.
  - apply Forall_forall. intros j' Hj'.
    assert (derived (reaction_of j') ≠ derived (reaction_of j)) as Hne.
    { intros Heq. apply Hq. rewrite <- Heq.
      by apply (list_elem_of_fmap_2 (λ j, derived (reaction_of j))). }
    by destruct j'.
Qed.

(** A job leaves the account as it is. *)
Lemma account_tick fate roots w :
  inv roots w → linear w → account fate roots (tick call w) = account fate roots w.
Proof.
  intros Hinv Hlin. unfold tick. destruct (jobs w) as [|j js] eqn:Hjobs; [done|].
  pose proof (inv_set_jobs roots j js w Hjobs Hinv) as Hinv'.
  pose proof (linear_lone j js w Hlin Hjobs) as Hlone.
  assert (account fate roots (set_jobs js w) ⊎ job_yield w j = account fate roots w) as <-.
  { unfold Account.account, Account.pending. rewrite Hjobs.
    change (Account.job_yield says returns (set_jobs js w)) with (job_yield w).
    change (λ id, side (set_jobs js w) (fate id) id) with (λ id, side w (fate id) id).
    simpl. multiset_solver. }
  destruct Hinv as [_ [_ Hj] _]. rewrite Hjobs in Hj.
  apply Forall_cons in Hj as [Hr _].
  destruct j as [r v|r v]; destruct Hr as [_ Hr]; by apply account_react.
Qed.

End exact.

(** ** Replies *)

Lemma account_send fate roots rp w :
  inv roots w →
  account fate ({[length (actions w)]} ∪ roots) (send rp w) = account fate roots w.
Proof.
  intros Hinv. unfold Account.account, Account.pending.
  assert (∀ d s, ¬ False → waiting (send rp w) s d = waiting w s d) as Hsame.
  { intros d s _. apply waiting_send. }
  assert (every (λ r : Reaction C, ¬ False) w) as Hnames.
  { eapply every_mono; [|apply Hinv]. tauto. }
  change (jobs (send rp w)) with (jobs w).
  change (console (send rp w)) with (console w).
  rewrite (jobs_same w _ (λ _, False) Hsame Hnames).
  rewrite msum_elements_union; last first.
  { intros Hn%(inv_roots _ _ Hinv). lia. }
  assert (side (send rp w) (fate (length (actions w))) (length (actions w)) = ∅) as ->.
  { destruct (fate _) as [o|]; [|done]. simpl. by rewrite waiting_send, waiting_ge. }
  rewrite (msum_elements_ext (λ x, side (send rp w) (fate x) x) (λ x, side w (fate x) x)).
  - multiset_solver.
  - intros x _. apply (side_same w _ (λ _, False)); tauto.
Qed.

(** ** Registrations on a root *)

Section register.
Context (fate : nat → option (JsValue + JsValue)).
Context (roots : gset nat) (w w' : World (Reaction C)) (p : nat).
Context (st : State JsValue JsValue (Reaction C)) (f g : option C).
Context (ext : list (State JsValue JsValue (Reaction C))).
Local Abbreviation n := (length (actions w)).
Local Abbreviation rf := {| handler := f; derived := n |}.
Local Abbreviation rg := {| handler := g; derived := n |}.
Context (Hinv : inv roots w) (Hp : p ∈ roots) (Hst : actions w !! p = Some st).
Context (Hc : console w' = console w).
Context (Ha : actions w' = <[p := (register f g n st).1]> (actions w) ++ ext).
Context (Hj : jobs w' = jobs w ++ (register f g n st).2).
Context (Hfate : ∀ o, outcome_of st = Some o → fate p = Some o).

(** The registration touches the root and the actions it allocates, which
    no reaction named before. *)
Lemma register_keeps d s : ¬ (n ≤ d ∨ d = p) → waiting w' s d = waiting w s d.
Proof.
  intros Hd. apply (waiting_register_ne w w' p st f g ext Ha); tauto || lia.
Qed.

Lemma register_unnamed : every (λ r : Reaction C, ¬ (n ≤ derived r ∨ derived r = p)) w.
Proof.
  eapply every_mono; [|apply Hinv]. intros r [Hlt Hr] [?|Heq]; [lia|].
  by rewrite Heq in Hr.
Qed.

Lemma side_register :
  side w' (fate p) p ⊎ msum (job_yield w') (register f g n st).2 =
  side w (fate p) p ⊎ registered w' f g n (fate p).
Proof.
  pose proof (waiting_same w w' _ register_keeps register_unnamed) as Hsame.
  pose proof (waiting_register w w' p st f g ext Hst Ha) as Hw.
  destruct st as [ss fs|v|e].
  - destruct (fate p) as [o|]; [|simpl; multiset_solver]. simpl.
    rewrite Hw, msum_app, Hsame. simpl. destruct o; simpl; multiset_solver.
  - rewrite (Hfate (inl v) eq_refl). simpl. rewrite Hw.
    unfold waiting. rewrite Hst. simpl. multiset_solver.
  - rewrite (Hfate (inr e) eq_refl). simpl. rewrite Hw.
    unfold waiting. rewrite Hst. simpl. multiset_solver.
Qed.

Lemma account_register :
  account fate roots w' = account fate roots w ⊎ registered w' f g n (fate p).
Proof.
  unfold Account.account, Account.pending. rewrite Hc, Hj, msum_app.
  rewrite (jobs_same w w' _ register_keeps register_unnamed).
  pose proof side_register as Hside.
  assert (msum (λ x, side w' (fate x) x) (elements roots) ⊎ side w (fate p) p =
          msum (λ x, side w (fate x) x) (elements roots) ⊎ side w' (fate p) p) as Hsum.
  { apply (msum_elements_change (λ x, side w (fate x) x) (λ x, side w' (fate x) x));
      [done|].
    intros x Hx Hne. apply (side_same w w' _ register_keeps register_unnamed).
    intros [Hge|?]; [|done]. apply (inv_roots _ _ Hinv) in Hx. lia. }
  apply (inj (.⊎ side w (fate p) p)). multiset_solver.
Qed.

End register.

End lemmas.

(** The yield of a reaction that derives the first of the actions
    allocated by a registration, [Ha] being the equation of the store
    after it. *)
Ltac yield_ext Ha :=
  unfold registered, yield, echo, own, out;
  cbn [handler derived fulfilled payload];
  rewrite ?(waiting_register_ext _ _ _ _ _ _ _ Ha) by lia;
  rewrite ?Nat.sub_diag; simpl; try multiset_solver.

End Account.
