(* ===== verification/Patterns.v ===== *)
(** * Command patterns and pattern selection

    A pattern is an ordered sequence of argument matchers with a handler, or
    a handler alone (the catch-all).  [match_pattern] decides whether the
    tokens that remain after the alias and the options have the pattern's
    shape: every matcher accepts in turn, starting at position 0, and no
    token is left over.  [select_pattern] tries the patterns in declaration
    order and returns the first that matches, with the parsed values. *)

From S2P Require Import Prelude Options Argument Runtime.

Module Patterns.

#[local] Set Warnings "-clear-no-such-hyp".

Import Options Argument Runtime.

Section defs.
Context {K : Type}.

(** [function (event, args, options) { ... }] *)
Definition Handler : Type :=
  Event → list ArgValue → Options → Host K JsValue.

Inductive CommandPattern :=
  | WithArguments (arguments : list ArgumentMatcher) (handler : Handler)
  | CatchAll (handler : Handler).

Definition handler_of (p : CommandPattern) : Handler :=
  match p with WithArguments _ h | CatchAll h => h end.

(** Match the matchers [ms] against the tokens from position [pos] on;
    the result is the list of parsed values, literals contributing none. *)
Fixpoint match_from (ms : list ArgumentMatcher) (tokens : list string)
    (pos : nat) : option (list ArgValue) :=
  match ms with
  | [] => if bool_decide (pos = length tokens) then Some [] else None
  | m :: ms' =>
      match match_arg m tokens pos with
      | None => None
      | Some (n, v) =>
          (λ vs, option_list v ++ vs) <$> match_from ms' tokens (pos + n)
      end
  end.

Definition match_pattern (p : CommandPattern) (tokens : list string)
  : option (Handler * list ArgValue) :=
  match p with
  | WithArguments ms h => (λ args, (h, args)) <$> match_from ms tokens 0
  | CatchAll h => Some (h, [])
  end.

Fixpoint select_pattern (ps : list CommandPattern) (tokens : list string)
  : option (Handler * list ArgValue) :=
  match ps with
  | [] => None
  | p :: ps' =>
      match match_pattern p tokens with
      | Some r => Some r
      | None => select_pattern ps' tokens
      end
  end.

Definition is_catch_all (p : CommandPattern) : bool :=
  match p with CatchAll _ => true | _ => false end.

(** The matchers that yield a value. *)
Definition yields_value (m : ArgumentMatcher) : bool :=
  match m with Literal _ => false | _ => true end.

End defs.

Arguments Handler : clear implicits.
Arguments CommandPattern : clear implicits.

Section lemmas.
Context {K : Type}.
Implicit Types (p : CommandPattern K) (ps : list (CommandPattern K)).
Implicit Types (ms : list ArgumentMatcher) (tokens : list string).
Implicit Types (h : Handler K).

(** ** Matching one pattern *)

Lemma match_from_cons m ms tokens pos :
  match_from (m :: ms) tokens pos =
  '(n, v) ← match_arg m tokens pos;
  (λ vs, option_list v ++ vs) <$> match_from ms tokens (pos + n).
Proof. simpl. by destruct (match_arg m tokens pos) as [[n v]|]. Qed.

(** A match consumes the whole token sequence, and every matcher takes at
    least one token: a pattern never has more matchers than there are
    tokens left, and has exactly as many when none of its matchers is of a
    composite kind. *)
Lemma match_from_bound ms tokens pos args :
  match_from ms tokens pos = Some args → pos + length ms ≤ length tokens.
Proof.
  revert pos args. induction ms as [|m ms IH]; intros pos args; simpl.
  - case_bool_decide; [lia | done].
  - destruct (match_arg m tokens pos) as [[n v]|] eqn:Hm; [|done].
    intros (vs & Hvs & _)%fmap_Some. apply IH in Hvs.
    apply match_arg_consumed in Hm. lia.
Qed.

Lemma match_from_length ms tokens pos args :
  Forall (λ m, single m = true) ms →
  match_from ms tokens pos = Some args → pos + length ms = length tokens.
Proof.
  intros Hms. revert pos args.
  induction Hms as [|m ms Hm Hms IH]; intros pos args; simpl.
  - case_bool_decide; [lia | done].
  - destruct (match_arg m tokens pos) as [[n v]|] eqn:Harg; [|done].
    intros (vs & Hvs & _)%fmap_Some. apply IH in Hvs.
    apply (match_arg_single _ _ _ _ _ Hm) in Harg as ->. lia.
Qed.

(** Matching is a function of the window: what lies before the position
    does not matter. *)
Lemma match_from_drop ms tokens pos k :
  pos ≤ length tokens →
  match_from ms tokens (pos + k) = match_from ms (drop pos tokens) k.
Proof.
  intros Hpos. revert k. induction ms as [|m ms IH]; intros k; simpl.
  - rewrite length_drop, (bool_decide_ext (pos + k = _) (k = length tokens - pos)); [done | lia].
  - rewrite match_arg_drop. destruct (match_arg m _ k) as [[n v]|]; [|done].
    by rewrite <- Nat.add_assoc, IH.
Qed.

(** A pattern matches the concatenation of what its first matchers match
    and what the others match. *)
Lemma match_from_app ms1 ms2 tokens pos :
  match_from (ms1 ++ ms2) tokens pos =
  match ms1 with
  | [] => match_from ms2 tokens pos
  | m :: ms1' =>
      '(n, v) ← match_arg m tokens pos;
      (λ vs, option_list v ++ vs) <$> match_from (ms1' ++ ms2) tokens (pos + n)
  end.
Proof. destruct ms1 as [|m ms1]; [done|]. apply match_from_cons. Qed.

(** The handler receives one value per value-yielding matcher. *)
Lemma match_from_args ms tokens pos args :
  match_from ms tokens pos = Some args →
  length args = length (filter (λ m, yields_value m = true) ms).
Proof.
  revert pos args. induction ms as [|m ms IH]; intros pos args; simpl.
  - case_bool_decide; by intros [= <-].
  - destruct (match_arg m tokens pos) as [[n v]|] eqn:Hm; [|done].
    intros (vs & Hvs & ->)%fmap_Some. apply IH in Hvs.
    rewrite length_app, Hvs, filter_cons.
    destruct m; simpl.
    + by rewrite (match_arg_literal_value _ _ _ _ _ Hm).
    + by destruct (match_arg_typed_value _ _ _ _ _ Hm) as [? ->].
    + by destruct (match_arg_predicate_value _ _ _ _ _ Hm) as [? ->].
Qed.

Lemma match_pattern_handler p tokens h args :
  match_pattern p tokens = Some (h, args) → h = handler_of p.
Proof. destruct p; simpl; intros H; by simplify_option_eq. Qed.

Lemma match_pattern_catch_all h tokens :
  match_pattern (CatchAll h) tokens = Some (h, @nil ArgValue).
Proof. done. Qed.

(** ** Selection *)

(** First match wins: the selected pattern matches and every pattern
    declared before it does not. *)
Lemma select_pattern_Some ps tokens r :
  select_pattern ps tokens = Some r ↔
  ∃ i p, ps !! i = Some p ∧ match_pattern p tokens = Some r ∧
         ∀ j q, j < i → ps !! j = Some q → match_pattern q tokens = None.
Proof.
  induction ps as [|p ps IH]; simpl.
  - split; [done | by intros (i & q & ? & _)].
  - destruct (match_pattern p tokens) as [r'|] eqn:Hp.
    + split.
      * intros [= <-]. exists 0, p. repeat split; [done | intros; lia].
      * intros (i & q & Hi & Hq & Hfirst). destruct i as [|i].
        -- simpl in Hi. by simplify_eq.
        -- by rewrite (Hfirst 0 p) in Hp by (done || lia).
    + rewrite IH. split.
      * intros (i & q & Hi & Hq & Hfirst). exists (S i), q.
        repeat split; [done..|]. intros [|j] q' Hj Hq'; simpl in *.
        -- by simplify_eq.
        -- eapply Hfirst; [|done]. lia.
      * intros (i & q & Hi & Hq & Hfirst). destruct i as [|i]; simpl in Hi.
        -- simplify_eq.
        -- exists i, q. repeat split; [done..|]. intros j q' Hj Hq'.
           apply (Hfirst (S j) q'); [lia | done].
Qed.

Lemma select_pattern_None ps tokens :
  select_pattern ps tokens = None ↔
  Forall (λ p, match_pattern p tokens = None) ps.
Proof.
  induction ps as [|p ps IH]; simpl; [by split|].
  destruct (match_pattern p tokens) eqn:Hp.
  - split; [done | by intros [? _]%Forall_cons; simplify_eq].
  - rewrite IH, Forall_cons. naive_solver.
Qed.

Lemma select_pattern_app ps1 ps2 tokens :
  select_pattern (ps1 ++ ps2) tokens =
  match select_pattern ps1 tokens with
  | Some r => Some r
  | None => select_pattern ps2 tokens
  end.
Proof.
  induction ps1 as [|p ps1 IH]; simpl; [done|].
  by destruct (match_pattern p tokens).
Qed.

(** A command with a catch-all pattern accepts every argument shape. *)
Lemma select_pattern_total ps tokens :
  existsb is_catch_all ps = true → is_Some (select_pattern ps tokens).
Proof.
  induction ps as [|p ps IH]; simpl; [done|].
  destruct p as [ms h|h]; simpl; [|eauto].
  intros Hps. destruct (match_from ms tokens 0); simpl; eauto.
Qed.

(** Patterns declared after a catch-all are never selected. *)
Lemma select_pattern_shadow ps1 h ps2 tokens :
  select_pattern (ps1 ++ CatchAll h :: ps2) tokens =
  select_pattern (ps1 ++ [CatchAll h]) tokens.
Proof. rewrite !select_pattern_app. by destruct (select_pattern ps1 tokens). Qed.

(** The selected handler is the handler of one of the patterns. *)
Lemma select_pattern_handler ps tokens h args :
  select_pattern ps tokens = Some (h, args) → ∃ p, p ∈ ps ∧ h = handler_of p.
Proof.
  intros (i & p & Hi & Hp & _)%select_pattern_Some.
  exists p. split; [by eapply list_elem_of_lookup_2|].
  by eapply match_pattern_handler.
Qed.

End lemmas.

End Patterns.
