(* ===== verification/Commands.v ===== *)
(** * Commands and the alias registry

    A command aggregates its aliases, descriptions, required access level,
    declared options and ordered patterns.  [from] is the validating
    constructor behind [JavaScriptCommand.from({...})]; [quickCommand] is
    the degenerate command behind [registerQuickCommand].  The registry maps
    every alias, folded to lower case, to its command; registering a command
    one of whose aliases is taken is an error and leaves the registry as it
    was. *)

From S2P Require Import Prelude AccessLevel Options Argument Runtime Patterns.

Module Commands.

#[local] Set Warnings "-clear-no-such-hyp".

Import AccessLevel Options Argument Runtime Patterns.

Section defs.
Context {K : Type}.

Record Command := {
  aliases : list string;
  description : string;
  shortDescription : string;
  accessLevel : AccessLevel;
  options : list OptionKind;
  patterns : list (CommandPattern K);
}.

(** The keys under which a command is registered. *)
Definition keys (c : Command) : list string := lower <$> aliases c.

(** What a configuration must satisfy to define a command: at least one
    alias, every alias a single word, no two aliases equal up to case, and
    at least one pattern. *)
Definition well_formed (c : Command) : Prop :=
  aliases c ≠ [] ∧ Forall (λ a, plain_word a = true) (aliases c) ∧
  NoDup (keys c) ∧ patterns c ≠ [].

#[export] Instance well_formed_dec c : Decision (well_formed c).
Proof. unfold well_formed. apply _. Defined.

(** [JavaScriptCommand.from(config)]. *)
Definition from (config : Command) : option Command :=
  if decide (well_formed config) then Some config else None.

(** [registerQuickCommand(alias, handler)]'s command: one alias, open to
    everyone, no options, one catch-all pattern whose handler is given the
    event only. *)
Definition quickCommand (alias : string) (handler : Event → Host K JsValue)
  : Command :=
  {| aliases := [alias]; description := ""; shortDescription := "";
     accessLevel := EVERYONE; options := [];
     patterns := [CatchAll (λ ev _ _, handler ev)] |}.

Abbreviation Registry := (gmap string Command).

(** All of the command's keys are free in the registry. *)
Definition free (c : Command) (reg : Registry) : Prop :=
  Forall (λ k, reg !! k = None) (keys c).

#[export] Instance free_dec c reg : Decision (free c reg).
Proof. unfold free. apply _. Defined.

Definition insert_all (c : Command) (ks : list string) (reg : Registry)
  : Registry :=
  foldr (λ k r, <[k := c]> r) reg ks.

(** Registration: [None] when the command is malformed or an alias is
    taken. *)
Definition register (c : Command) (reg : Registry) : option Registry :=
  if decide (well_formed c ∧ free c reg)
  then Some (insert_all c (keys c) reg)
  else None.

Definition registerQuickCommand (alias : string)
    (handler : Event → Host K JsValue) (reg : Registry) : option Registry :=
  register (quickCommand alias handler) reg.

(** Alias resolution: a case-insensitive exact lookup. *)
Definition lookup_alias (reg : Registry) (alias : string) : option Command :=
  reg !! lower alias.

(** The registry invariant: every key is in lower case and is one of the
    keys of the command stored under it, which is well formed. *)
Definition registry_ok (reg : Registry) : Prop :=
  ∀ k c, reg !! k = Some c → k ∈ keys c ∧ well_formed c.

End defs.

Arguments Command : clear implicits.

Section lemmas.
Context {K : Type}.
Implicit Types (c config : Command K) (reg : gmap string (Command K)).
Implicit Types (k alias : string).

Lemma from_Some config c : from config = Some c → c = config ∧ well_formed c.
Proof. unfold from. case_decide; naive_solver. Qed.

Lemma from_well_formed config : well_formed config → from config = Some config.
Proof. unfold from. by case_decide. Qed.

Lemma quickCommand_well_formed alias (h : Event → Host K JsValue) :
  plain_word alias = true → well_formed (quickCommand alias h).
Proof.
  intros Halias. repeat split; simpl; try done.
  - by constructor.
  - apply NoDup_singleton.
Qed.

(** ** Insertion of all keys *)

Lemma lookup_insert_all c ks reg k :
  insert_all c ks reg !! k = if decide (k ∈ ks) then Some c else reg !! k.
Proof.
  unfold insert_all. induction ks as [|k' ks IH]; cbn [foldr].
  - by case_decide; [set_solver|].
  - rewrite lookup_insert, IH. repeat case_decide; set_solver.
Qed.

(** ** Registration *)

Lemma register_Some c reg reg' :
  register c reg = Some reg' ↔
  well_formed c ∧ free c reg ∧ reg' = insert_all c (keys c) reg.
Proof. unfold register. case_decide; naive_solver. Qed.

Lemma register_free c reg :
  well_formed c → free c reg → register c reg = Some (insert_all c (keys c) reg).
Proof. intros. by apply register_Some. Qed.

Lemma register_None c reg :
  register c reg = None ↔ ¬ well_formed c ∨ ∃ k, k ∈ keys c ∧ is_Some (reg !! k).
Proof.
  unfold register, free. case_decide as H; split; try done.
  - intros [Hwf|(k & Hk & Hreg)]; [naive_solver|].
    destruct H as [_ H]. rewrite Forall_forall in H.
    rewrite (H k Hk) in Hreg. by destruct Hreg.
  - intros _. destruct (decide (well_formed c)) as [Hwf|]; [right | by left].
    apply not_and_l in H as [?|H]; [done|].
    apply not_Forall_Exists in H; [|apply _].
    apply Exists_exists in H as (k & Hk & Hreg).
    exists k. split; [done|]. by apply not_eq_None_Some.
Qed.

(** After registration every alias resolves to the command, whatever its
    capitalisation. *)
Lemma register_lookup c reg reg' alias :
  register c reg = Some reg' → lower alias ∈ keys c →
  lookup_alias reg' alias = Some c.
Proof.
  intros (_ & _ & ->)%register_Some Hk. unfold lookup_alias.
  by rewrite lookup_insert_all, decide_True.
Qed.

(** Aliases of other commands resolve as before. *)
Lemma register_lookup_other c reg reg' alias :
  register c reg = Some reg' → lower alias ∉ keys c →
  lookup_alias reg' alias = lookup_alias reg alias.
Proof.
  intros (_ & _ & ->)%register_Some Hk. unfold lookup_alias.
  by rewrite lookup_insert_all, decide_False.
Qed.

(** A second registration of the same command is refused. *)
Lemma register_twice c reg reg' :
  register c reg = Some reg' → register c reg' = None.
Proof.
  intros Hreg. pose proof Hreg as (Hwf & _ & ->)%register_Some.
  apply register_None. right.
  destruct Hwf as (Hne & _). destruct (aliases c) as [|a l] eqn:Ha; [done|].
  assert (lower a ∈ keys c) as Hk by (unfold keys; rewrite Ha; set_solver).
  exists (lower a). split; [done|]. by rewrite lookup_insert_all, decide_True.
Qed.

(** Registration preserves the registry invariant. *)
Lemma register_ok c reg reg' :
  registry_ok reg → register c reg = Some reg' → registry_ok reg'.
Proof.
  intros Hok (Hwf & _ & ->)%register_Some k c'.
  rewrite lookup_insert_all. case_decide; [|by apply Hok].
  by intros [= <-].
Qed.

Lemma registry_ok_empty : registry_ok (∅ : gmap string (Command K)).
Proof. intros k c. by rewrite lookup_empty. Qed.

(** Alias resolution ignores case. *)
#[export] Instance lookup_alias_proper reg :
  Proper (eq_ci ==> eq) (lookup_alias reg).
Proof. intros a b Hab. unfold lookup_alias. by rewrite Hab. Qed.

Lemma lookup_alias_lower reg alias :
  lookup_alias reg (lower alias) = lookup_alias reg alias.
Proof. apply lookup_alias_proper, eq_ci_lower. Qed.

(** In a registry that satisfies the invariant, the alias a command is
    found under is one of its aliases up to case. *)
Lemma lookup_alias_ok reg alias c :
  registry_ok reg → lookup_alias reg alias = Some c →
  ∃ a, a ∈ aliases c ∧ eq_ci a alias.
Proof.
  intros Hok Hc. apply Hok in Hc as [Hk _].
  unfold keys in Hk. apply list_elem_of_fmap in Hk as (a & Ha & Hin).
  exists a. by split.
Qed.

End lemmas.

End Commands.
