(* ===== verification/Dispatcher.v ===== *)
(** * The dispatcher

    [dispatch] routes one incoming message: it tokenizes the raw text,
    resolves the first token as an alias, applies the access gate, resolves
    the options among the remaining tokens, selects the first matching
    pattern and invokes its handler in the host world.

    The same process is given as the state machine of the description, a
    step relation over [Phase]s; [dispatch_steps] and [steps_dispatch] show
    that the function computes exactly the terminal phase of the machine. *)

From S2P Require Import Prelude Tokenizer AccessLevel Options Argument.
From S2P Require Import Runtime Patterns Commands.

Module Dispatcher.

#[local] Set Warnings "-clear-no-such-hyp".

Import Tokenizer AccessLevel Options Argument Runtime Patterns Commands.

Section defs.
Context {K : Type}.

Inductive DispatchOutcome :=
  | Invoked (result : Completion JsValue)
  | Unknown
  | AccessDenied
  | NoPatternMatched.

Definition dispatch (reg : gmap string (Command K)) (ev : Event)
    (w : World K) : DispatchOutcome * World K :=
  match tokenize (raw ev) with
  | [] => (Unknown, w)
  | alias :: rest =>
      match lookup_alias reg alias with
      | None => (Unknown, w)
      | Some cmd =>
          if negb (allow (accessLevel cmd) (level ev)) then (AccessDenied, w)
          else
            let '(remaining, active) := resolve (options cmd) rest in
            match select_pattern (patterns cmd) remaining with
            | None => (NoPatternMatched, w)
            | Some (h, args) =>
                let '(c, w') := h ev args active w in (Invoked c, w')
            end
      end
  end.

(** ** The dispatch as a state machine *)

Inductive Phase :=
  | Received
  | AliasResolved (cmd : Command K) (rest : list string)
  | AccessChecked (cmd : Command K) (rest : list string)
  | OptionsResolved (cmd : Command K) (remaining : list string) (active : Options)
  | PatternMatched (h : Handler K) (args : list ArgValue) (active : Options)
  | HandlerInvoked (c : Completion JsValue)
  | Completed (o : DispatchOutcome).

Inductive step (reg : gmap string (Command K)) (ev : Event)
  : Phase * World K → Phase * World K → Prop :=
  | step_no_token w :
      tokenize (raw ev) = [] →
      step reg ev (Received, w) (Completed Unknown, w)
  | step_unknown w alias rest :
      tokenize (raw ev) = alias :: rest → lookup_alias reg alias = None →
      step reg ev (Received, w) (Completed Unknown, w)
  | step_alias w alias rest cmd :
      tokenize (raw ev) = alias :: rest → lookup_alias reg alias = Some cmd →
      step reg ev (Received, w) (AliasResolved cmd rest, w)
  | step_denied w cmd rest :
      allow (accessLevel cmd) (level ev) = false →
      step reg ev (AliasResolved cmd rest, w) (Completed AccessDenied, w)
  | step_allowed w cmd rest :
      allow (accessLevel cmd) (level ev) = true →
      step reg ev (AliasResolved cmd rest, w) (AccessChecked cmd rest, w)
  | step_options w cmd rest :
      step reg ev (AccessChecked cmd rest, w)
        (OptionsResolved cmd (resolve (options cmd) rest).1
                             (resolve (options cmd) rest).2, w)
  | step_no_pattern w cmd remaining active :
      select_pattern (patterns cmd) remaining = None →
      step reg ev (OptionsResolved cmd remaining active, w)
        (Completed NoPatternMatched, w)
  | step_pattern w cmd remaining active h args :
      select_pattern (patterns cmd) remaining = Some (h, args) →
      step reg ev (OptionsResolved cmd remaining active, w)
        (PatternMatched h args active, w)
  | step_invoke w h args active :
      step reg ev (PatternMatched h args active, w)
        (HandlerInvoked (h ev args active w).1, (h ev args active w).2)
  | step_complete w c :
      step reg ev (HandlerInvoked c, w) (Completed (Invoked c), w).

Definition is_invoked (o : DispatchOutcome) : bool :=
  match o with Invoked _ => true | _ => false end.

End defs.

Arguments DispatchOutcome : clear implicits.
Arguments Phase : clear implicits.

Section lemmas.
Context {K : Type}.
Implicit Types (reg : gmap string (Command K)) (ev : Event) (w : World K).
Implicit Types (cmd : Command K) (o : DispatchOutcome).

(** ** The branches of [dispatch] *)

Lemma dispatch_no_token reg ev w :
  tokenize (raw ev) = [] → dispatch reg ev w = (Unknown, w).
Proof. unfold dispatch. by intros ->. Qed.

Lemma dispatch_unknown reg ev w alias rest :
  tokenize (raw ev) = alias :: rest → lookup_alias reg alias = None →
  dispatch reg ev w = (Unknown, w).
Proof. unfold dispatch. by intros -> ->. Qed.

Section resolved.
Context (reg : gmap string (Command K)) (ev : Event) (w : World K).
Context (alias : string) (rest : list string) (cmd : Command K).
Context (Htok : tokenize (raw ev) = alias :: rest).
Context (Hcmd : lookup_alias reg alias = Some cmd).

(** The gate is applied before options and patterns: a caller below the
    required level is denied whatever the arguments are. *)
Lemma dispatch_denied :
  allow (accessLevel cmd) (level ev) = false →
  dispatch reg ev w = (AccessDenied, w).
Proof. unfold dispatch. rewrite Htok, Hcmd. by intros ->. Qed.

Lemma dispatch_no_pattern :
  allow (accessLevel cmd) (level ev) = true →
  select_pattern (patterns cmd) (resolve (options cmd) rest).1 = None →
  dispatch reg ev w = (NoPatternMatched, w).
Proof.
  unfold dispatch. rewrite Htok, Hcmd. intros -> Hsel. simpl.
  destruct (resolve (options cmd) rest) as [remaining active].
  simpl in Hsel. by rewrite Hsel.
Qed.

Lemma dispatch_invoked h args :
  allow (accessLevel cmd) (level ev) = true →
  select_pattern (patterns cmd) (resolve (options cmd) rest).1 = Some (h, args) →
  dispatch reg ev w =
  (Invoked (h ev args (resolve (options cmd) rest).2 w).1,
   (h ev args (resolve (options cmd) rest).2 w).2).
Proof.
  unfold dispatch. rewrite Htok, Hcmd. intros -> Hsel. simpl.
  destruct (resolve (options cmd) rest) as [remaining active].
  simpl in *. rewrite Hsel. by destruct (h ev args active w).
Qed.

End resolved.

(** Only an invoked handler changes the world. *)
Lemma dispatch_world reg ev w o w' :
  dispatch reg ev w = (o, w') → is_invoked o = false → w' = w.
Proof.
  unfold dispatch. intros H Ho.
  repeat case_match; simplify_eq; done.
Qed.

(** The outcome depends on the capitalisation of the alias in no way. *)
Lemma dispatch_alias_ci reg ev ev' w alias alias' rest :
  tokenize (raw ev) = alias :: rest → tokenize (raw ev') = alias' :: rest →
  eq_ci alias alias' → sender ev = sender ev' → level ev = level ev' →
  (dispatch reg ev w).1 = Unknown ↔ (dispatch reg ev' w).1 = Unknown.
Proof.
  intros Htok Htok' Hci _ Hlev. unfold dispatch.
  rewrite Htok, Htok', (lookup_alias_proper reg _ _ Hci), Hlev.
  repeat case_match; simplify_eq; done.
Qed.

(** ** Refinement of the state machine *)

Lemma step_deterministic reg ev : deterministic (step reg ev).
Proof.
  intros s s1 s2. destruct 1; inversion 1; simplify_eq; try done; congruence.
Qed.

(** A completed dispatch is terminal. *)
Lemma step_completed reg ev o w : nf (step reg ev) (Completed o, w).
Proof. intros [s Hs]. inversion Hs. Qed.

(** [dispatch] is a run of the machine, of at most six steps. *)
Lemma dispatch_steps reg ev w :
  ∃ n, n ≤ 6 ∧
    nsteps (step reg ev) n (Received, w)
      (Completed (dispatch reg ev w).1, (dispatch reg ev w).2).
Proof.
  unfold dispatch.
  destruct (tokenize (raw ev)) as [|alias rest] eqn:Htok.
  { exists 1. split; [lia|]. apply nsteps_once. by constructor. }
  destruct (lookup_alias reg alias) as [cmd|] eqn:Hcmd.
  2:{ exists 1. split; [lia|]. apply nsteps_once. by eapply step_unknown. }
  assert (step reg ev (Received, w) (AliasResolved cmd rest, w)) as Halias
    by by eapply step_alias.
  destruct (allow (accessLevel cmd) (level ev)) eqn:Hallow; simpl.
  2:{ exists 2. split; [lia|]. eapply nsteps_l; [done|].
      apply nsteps_once. by constructor. }
  destruct (resolve (options cmd) rest) as [remaining active] eqn:Hres.
  assert (step reg ev (AccessChecked cmd rest, w)
            (OptionsResolved cmd remaining active, w)) as Hopt.
  { replace remaining with (resolve (options cmd) rest).1 by by rewrite Hres.
    replace active with (resolve (options cmd) rest).2 by by rewrite Hres.
    constructor. }
  assert (nsteps (step reg ev) 3 (Received, w)
            (OptionsResolved cmd remaining active, w)) as Hpre.
  { eapply nsteps_l; [done|]. eapply nsteps_l; [by apply step_allowed|].
    by apply nsteps_once. }
  destruct (select_pattern (patterns cmd) remaining) as [[h args]|] eqn:Hsel.
  - exists (3 + 3). split; [lia|]. eapply nsteps_trans; [done|].
    destruct (h ev args active w) as [c w'] eqn:Hh.
    eapply nsteps_l; [by apply step_pattern|].
    eapply nsteps_l; [apply step_invoke|]. rewrite Hh. simpl.
    apply nsteps_once. constructor.
  - exists (3 + 1). split; [lia|]. eapply nsteps_trans; [done|].
    apply nsteps_once. by constructor.
Qed.

(** Conversely, every run of the machine that completes ends in the
    outcome and the world [dispatch] computes. *)
Lemma steps_dispatch reg ev w o w' :
  rtc (step reg ev) (Received, w) (Completed o, w') →
  dispatch reg ev w = (o, w').
Proof.
  intros Hrun. destruct (dispatch_steps reg ev w) as (n & _ & Hn).
  apply rtc_nsteps_2 in Hn.
  assert ((@Completed K o, w') =
          (Completed (dispatch reg ev w).1, (dispatch reg ev w).2)) as [= -> ->].
  { eapply confluent_rtc_nf; eauto using step_completed.
    apply deterministic_confluent, step_deterministic. }
  by destruct (dispatch reg ev w).
Qed.

End lemmas.

End Dispatcher.
