(* ===== verification/Interop.v ===== *)
(** * The script host interface

    What the Nashorn scripts start from and are called through:

    - the bindings of [_script_header.js] (class references obtained with
      [Java.type] and the two [JavaImporter] scopes);
    - the module base class: a module has an [info] and the lifecycle hooks
      [onLoad] and [onUnload]; [Java_extend] builds a subclass instance from
      the base and the members a script overrides;
    - loggers ([LoggerFactory.getLogger], [LOG.info]);
    - Java arrays of fixed length, whose reads and stores are checked
      against the bounds, and the registration of an array of commands by
      the host ([loadCommands]);
    - classes exported with [Polyglot.export] and the calls of the host on
      them. *)

From Stdlib Require Import Ascii.
From S2P Require Import Prelude Runtime Patterns Commands.

Module Interop.

#[local] Set Warnings "-clear-no-such-hyp".

Import Runtime Patterns Commands.

(** ** Class references and importers *)

(** [Java.type(name)]: a reference to the class with that qualified
    name. *)
Inductive JavaClass := Java_type (qualified_name : string).

Definition qualified_name (c : JavaClass) : string :=
  match c with Java_type n => n end.

(** [new JavaImporter(pkg, ...)]: the packages given to the importer. *)
Definition JavaImporter := list string.

#[export] Instance JavaClass_eq_dec : EqDecision JavaClass.
Proof. solve_decision. Defined.

(** The bindings of [_script_header.js]. *)
Definition BaseJavaScriptModule : JavaClass :=
  Java_type "com.jesus_crie.modularbot_nashorn_support.module.BaseJavaScriptModule".

Definition ModuleInfo_class : JavaClass :=
  Java_type "com.jesus_crie.modularbot.module.BaseModule.ModuleInfo".

Definition baseImports : JavaImporter :=
  ["java.lang"; "java.util"; "java.io"; "org.slf4j"; "com.jesus_crie.modularbot"].

Definition JavaScriptCommandArray : JavaClass :=
  Java_type "com.jesus_crie.modularbot_nashorn_command_support.JavaScriptCommand[]".

Definition commandImports : JavaImporter :=
  ["com.jesus_crie.modularbot_nashorn_command_support";
   "com.jesus_crie.modularbot_command";
   "com.jesus_crie.modularbot_command.processing"].

(** Whether a class reference denotes an array type. *)
Definition is_array_class (c : JavaClass) : bool :=
  match String.rev (qualified_name c) with
  | String "]" (String "[" _) => true
  | _ => false
  end.

(** ** Loggers *)

Record Logger := { logger_name : string }.

Definition getLogger (name : string) : Logger := {| logger_name := name |}.

Section host.
Context {K : Type}.

Definition info_ (LOG : Logger) (message : string) : Host K JsValue :=
  LOG_info (logger_name LOG) message.

(** ** Modules *)

Record ModuleInfo := {
  name : string;
  author : string;
  url : string;
  versionName : string;
  buildNumber : Z;
}.

(** A module as the host sees it: an instance of a class that extends
    [superclass].  The hooks receive the module manager and the builder;
    the scripts of the repository ignore both. *)
Record Module := {
  superclass : JavaClass;
  info : option ModuleInfo;
  onLoad : JsValue → JsValue → Host K JsValue;
  onUnload : Host K JsValue;
}.

(** The members a script passes to [Java.extend]. *)
Record Overrides := {
  ov_info : option ModuleInfo;
  ov_onLoad : option (JsValue → JsValue → Host K JsValue);
  ov_onUnload : option (Host K JsValue);
}.

(** What a module base class provides: no info, hooks that do nothing. *)
Definition BaseModule (class : JavaClass) : Module :=
  {| superclass := class; info := None;
     onLoad := λ _ _, mret VUndefined; onUnload := mret VUndefined |}.

(** [Java.extend(Base, { ... })] followed by [new]: an instance of a
    subclass of [Base] in which the members given override the base's and
    the others are inherited. *)
Definition Java_extend (Base : JavaClass) (members : Overrides) : Module :=
  let base := BaseModule Base in
  {| superclass := Base;
     info := match ov_info members with Some i => Some i | None => info base end;
     onLoad := default (onLoad base) (ov_onLoad members);
     onUnload := default (onUnload base) (ov_onUnload members) |}.

(** The lifecycle the host runs a module through. *)
Definition load (m : Module) : Host K JsValue := onLoad m VUndefined VUndefined.
Definition unload (m : Module) : Host K JsValue := onUnload m.

(** The host may run a module through any number of load/unload
    cycles. *)
Fixpoint cycles (n : nat) (m : Module) : Host K JsValue :=
  match n with
  | 0 => mret VUndefined
  | S n' => _ ← load m; _ ← unload m; cycles n' m
  end.

(** ** Arrays of commands *)

(** [new C(n)] for a class reference [C]: an array of [n] slots holding
    [null] when [C] denotes an array type, a [TypeError] ([None])
    otherwise. *)
Definition new_array {A} (class : JavaClass) (n : nat) : option (list (option A)) :=
  if is_array_class class then Some (replicate n None) else None.

(** [a[i]] and [a[i] = x] on a Java array: the length is fixed, and an
    index outside the array is an [ArrayIndexOutOfBoundsException]
    ([None]). *)
Definition array_get {A} (i : nat) (a : list A) : option A := a !! i.

Definition array_set {A} (i : nat) (x : A) (a : list A) : option (list A) :=
  if decide (i < length a) then Some (<[i := x]> a) else None.

(** The host registers the commands of an array in order; a [null] slot
    or a refused registration fails the whole array. *)
Fixpoint registerCommands (commands : list (option (Command K)))
    (reg : gmap string (Command K)) : option (gmap string (Command K)) :=
  match commands with
  | [] => Some reg
  | None :: _ => None
  | Some c :: rest => register c reg ≫= registerCommands rest
  end.

(** The host calls [getCommands()] of a script and registers the array it
    returns; an exception in the script fails the load. *)
Definition loadCommands (getCommands : option (list (option (Command K))))
    (reg : gmap string (Command K)) : option (gmap string (Command K)) :=
  commands ← getCommands; registerCommands commands reg.

(** ** Classes exported to a polyglot host *)

(** A class of a script as the host uses it: the constructor, applied to
    the command module, and the methods by name.  A method receives the
    arguments of the call; a parameter without argument is [undefined]. *)
Record Class := {
  new : gmap string (Command K) → option (gmap string (Command K));
  methods : gmap string (list JsValue → Host K JsValue);
}.

Definition parameter (args : list JsValue) (i : nat) : JsValue :=
  default VUndefined (args !! i).

(** [Polyglot.export(name, value)]. *)
Definition Polyglot_export (name : string) (value : Class)
    (bindings : gmap string Class) : gmap string Class :=
  <[name := value]> bindings.

(** A call of the host on an instance of the class exported as [name]. *)
Definition invoke (bindings : gmap string Class) (name method : string)
    (args : list JsValue) : Host K JsValue :=
  match bindings !! name ≫= λ c, methods c !! method with
  | Some f => f args
  | None => throw (TypeError (method +:+ " is not a function"))
  end.

End host.

Arguments Module : clear implicits.
Arguments Overrides : clear implicits.

Section lemmas.
Context {K : Type}.

(** ** Overriding *)

Section extend.
Context (Base : JavaClass) (members : Overrides K).

Lemma Java_extend_onLoad f :
  ov_onLoad members = Some f → onLoad (Java_extend Base members) = f.
Proof. simpl. by intros ->. Qed.

Lemma Java_extend_onLoad_inherited :
  ov_onLoad members = None →
  onLoad (Java_extend Base members) = onLoad (BaseModule Base).
Proof. simpl. by intros ->. Qed.

Lemma Java_extend_onUnload f :
  ov_onUnload members = Some f → onUnload (Java_extend Base members) = f.
Proof. simpl. by intros ->. Qed.

Lemma Java_extend_onUnload_inherited :
  ov_onUnload members = None →
  onUnload (Java_extend Base members) = onUnload (BaseModule Base).
Proof. simpl. by intros ->. Qed.

(** A hook that is not overridden leaves the world as it is. *)
Lemma Java_extend_load_inherited (w : World K) :
  ov_onLoad members = None →
  load (Java_extend Base members) w = (Normal VUndefined, w).
Proof. unfold load. simpl. by intros ->. Qed.

Lemma Java_extend_unload_inherited (w : World K) :
  ov_onUnload members = None →
  unload (Java_extend Base members) w = (Normal VUndefined, w).
Proof. unfold unload. simpl. by intros ->. Qed.

End extend.

(** ** Lifecycle *)

(** One cycle of a module whose hooks complete normally. *)
Lemma cycles_S n (m : Module K) (w w1 w2 : World K) v1 v2 :
  load m w = (Normal v1, w1) → unload m w1 = (Normal v2, w2) →
  cycles (S n) m w = cycles n m w2.
Proof.
  intros Hload Hunload. cbn [cycles]. unfold mbind, Host_bind, bind.
  by rewrite Hload, Hunload.
Qed.

(** Hooks that never throw and change the world by [f] and [g]: [n]
    cycles apply [g ∘ f] [n] times. *)
Lemma cycles_iter n (m : Module K) (f g : World K → World K) (w : World K) :
  (∀ w, load m w = (Normal VUndefined, f w)) →
  (∀ w, unload m w = (Normal VUndefined, g w)) →
  cycles n m w = (Normal VUndefined, Nat.iter n (λ w, g (f w)) w).
Proof.
  intros Hload Hunload. revert w. induction n as [|n IH]; intros w; [done|].
  by rewrite (cycles_S _ _ _ _ _ _ _ (Hload w) (Hunload _)), IH, Nat.iter_succ_r.
Qed.

(** ** Arrays *)

Section arrays.
Context {A : Type}.
Implicit Types (a : list A) (i j : nat) (x : A).

Lemma new_array_Some class n (a : list (option A)) :
  new_array class n = Some a ↔ is_array_class class = true ∧ a = replicate n None.
Proof. unfold new_array. destruct (is_array_class class); naive_solver. Qed.

Lemma array_set_Some i x a a' :
  array_set i x a = Some a' ↔ i < length a ∧ a' = <[i := x]> a.
Proof. unfold array_set. case_decide; naive_solver. Qed.

(** A store outside the array fails and a store inside it succeeds. *)
Lemma array_set_None i x a : array_set i x a = None ↔ length a ≤ i.
Proof. unfold array_set. case_decide; split; (done || lia). Qed.

(** The length of an array never changes. *)
Lemma array_set_length i x a a' : array_set i x a = Some a' → length a' = length a.
Proof. intros [_ ->]%array_set_Some. apply length_insert. Qed.

(** Reading back what was stored, and the other slots as they were. *)
Lemma array_get_set i x a a' : array_set i x a = Some a' → array_get i a' = Some x.
Proof. intros [Hi ->]%array_set_Some. by apply list_lookup_insert_eq. Qed.

Lemma array_get_set_ne i j x a a' :
  array_set i x a = Some a' → i ≠ j → array_get j a' = array_get j a.
Proof. intros [_ ->]%array_set_Some Hne. by apply list_lookup_insert_ne. Qed.

Lemma array_get_None i a : array_get i a = None ↔ length a ≤ i.
Proof. apply lookup_ge_None. Qed.

End arrays.

(** ** Registration of arrays *)

Lemma registerCommands_null commands (reg : gmap string (Command K)) :
  None ∈ commands → registerCommands commands reg = None.
Proof.
  revert reg. induction commands as [|[c|] commands IH]; intros reg Hin; simpl.
  - by apply elem_of_nil in Hin.
  - apply elem_of_cons in Hin as [?|Hin]; [done|].
    destruct (register c reg); simpl; eauto.
  - done.
Qed.

Lemma registerCommands_ok commands (reg reg' : gmap string (Command K)) :
  registry_ok reg → registerCommands commands reg = Some reg' → registry_ok reg'.
Proof.
  revert reg. induction commands as [|[c|] commands IH]; intros reg Hok; simpl.
  - by intros [= <-].
  - destruct (register c reg) as [reg1|] eqn:Hreg; simpl; [|done].
    apply IH. by eapply register_ok.
  - done.
Qed.

End lemmas.

End Interop.
