(* ===== verification/Scope.v ===== *)
(** * Evaluation of a script in an engine

    The scripts of the repository are sequences of top-level statements
    that a script engine evaluates in a global scope: [var] statements,
    function declarations, [with] blocks, and for [main.js] a class
    declaration and a call of [Polyglot.export].  The hosts then call the
    functions the script has left in the scope ([getModule],
    [getCommands]) or take what it has exported.

    This file gives the statements their meaning.  The names a script
    declares are bound before its first statement runs ([hoist]): a
    function declared at the top level of the script to its function; a
    [var] to [undefined] unless the name is bound already.  A function
    declared inside a block is a function statement, as Nashorn reads it:
    its name is declared like a [var], and bound to the function when the
    statement runs.  The statements then run in order ([exec_top],
    [exec]); the first that throws ends the evaluation and the bindings
    made so far remain.  The body of a function reads the scope when the
    function is called, not when it is declared ([call_body]), and so do
    the hooks of the classes built by [Java.extend] ([call_hook]): an
    object the host holds behaves as the scope of its engine makes it
    behave when a hook is called ([link]).

    A [with] statement evaluates its object, which fails when the name is
    unbound or [undefined], and runs its block; the lookup of the names
    of the block in the object is not modelled (see the header of the
    development): the initialisers of the scripts are given with these
    names resolved. *)

From S2P Require Import Prelude Runtime Patterns Commands Interop.

Module Scope.

#[local] Set Warnings "-clear-no-such-hyp,-register-all".

Import Runtime Patterns Commands Interop.

(** ** Completions without a world *)

#[export] Instance Completion_ret : MRet Completion := @Normal.
#[export] Instance Completion_bind : MBind Completion := λ A B f m,
  match m with Normal a => f a | Throw e => Throw e end.
#[export] Instance Completion_fmap : FMap Completion := λ A B f m,
  match m with Normal a => Normal (f a) | Throw e => Throw e end.

Definition ReferenceError (name : string) : JsValue :=
  VError "ReferenceError" (name +:+ " is not defined").

(** ** Function bodies *)

(** The bodies of the functions the scripts declare:
    [return new C();] and
    [var a = new C(n); a[i] = x; ...; return a;] for global names [C] and
    [x]. *)
Inductive Body :=
  | ReturnNew (class_name : string)
  | ReturnArray (array_class : string) (size : nat) (stores : list (nat * string)).

#[export] Instance Body_eq_dec : EqDecision Body.
Proof. solve_decision. Defined.

(** ** Classes built by [Java.extend] *)

(** The bodies of the hooks the scripts give to [Java.extend]: a sequence
    of statements [L.info("text");] for global names [L], each given by
    the name and the text; the empty sequence is the empty body. *)
Definition HookBody := list (string * string).

(** The object literal given to [Java.extend]: the info, evaluated when
    the literal is, and the bodies of the hooks it defines. *)
Record Members := {
  m_info : option ModuleInfo;
  m_onLoad : option HookBody;
  m_onUnload : option HookBody;
}.

(** The class [Java.extend] returns.  Its instances have no state of
    their own: [new] yields the class as an object. *)
Record ModuleClass := {
  mc_base : JavaClass;
  mc_members : Members;
}.

Section scope.
Context {K : Type}.

(** ** The global scope *)

(** What a global name is bound to: [undefined], a Java class
    ([Java.type]), an importer, a logger, a class built by [Java.extend],
    a command, a class of the script, a function. *)
Inductive Binding :=
  | BUndefined
  | BClass (class : JavaClass)
  | BImporter (importer : JavaImporter)
  | BLogger (LOG : Logger)
  | BModuleClass (class : ModuleClass)
  | BCommand (command : Command K)
  | BScriptClass (class : Class (K:=K))
  | BFunction (body : Body).

Local Abbreviation Globals := (gmap string Binding).

(** An engine: its global scope and what its scripts have exported to the
    polyglot host. *)
Record Engine := {
  globals : Globals;
  exported : gmap string Binding;
}.

Definition empty_engine : Engine := {| globals := ∅; exported := ∅ |}.

Definition assign (name : string) (b : Binding) (e : Engine) : Engine :=
  {| globals := <[name := b]> (globals e); exported := exported e |}.

Definition export (name : string) (b : Binding) (e : Engine) : Engine :=
  {| globals := globals e; exported := <[name := b]> (exported e) |}.

(** Reading a name: a name that is not bound is a [ReferenceError]. *)
Definition lookup_global (name : string) (g : Globals) : Completion Binding :=
  match g !! name with
  | Some b => Normal b
  | None => Throw (ReferenceError name)
  end.

(** ** Statements *)

(** [var name = init;], [function name() { body }], [class name { ... }],
    [with (object) { block }] and [Polyglot.export(name, value);].  The
    initialiser of a [var] is a function of the scope it is evaluated
    in. *)
Inductive Statement :=
  | Var (name : string) (init : Globals → Completion Binding)
  | FunctionDecl (name : string) (body : Body)
  | ClassDecl (name : string) (class : Class (K:=K))
  | With (object : string) (block : list Statement)
  | Export (name value : string).

Local Abbreviation Program := (list Statement).

(** A function declared at the top level of a program. *)
Definition top_function (s : Statement) : option (string * Body) :=
  match s with FunctionDecl name body => Some (name, body) | _ => None end.

Definition functions (program : Program) : list (string * Body) :=
  omap top_function program.

(** The names a statement of a block declares as variables: its [var]s
    and its function statements, those of nested blocks included. *)
Fixpoint variables (s : Statement) : list string :=
  match s with
  | Var name _ | FunctionDecl name _ => [name]
  | With _ block => block ≫= variables
  | _ => []
  end.

(** The names a statement of a block assigns when it runs. *)
Fixpoint assigned (s : Statement) : list string :=
  match s with
  | Var name _ | ClassDecl name _ | FunctionDecl name _ => [name]
  | With _ block => block ≫= assigned
  | _ => []
  end.

(** The same for a statement at the top level, where a function
    declaration is neither: it is bound by hoisting. *)
Definition top_variables (s : Statement) : list string :=
  match s with FunctionDecl _ _ => [] | _ => variables s end.

Definition top_assigned (s : Statement) : list string :=
  match s with FunctionDecl _ _ => [] | _ => assigned s end.

(** The names a statement exports. *)
Fixpoint exports (s : Statement) : list string :=
  match s with
  | Export name _ => [name]
  | With _ block => block ≫= exports
  | _ => []
  end.

(** The names a program binds, by a declaration or an assignment. *)
Definition names (program : Program) : list string :=
  (functions program).*1 ++ (program ≫= top_assigned).

(** ** Hoisting *)

Definition declare_function (e : Engine) (f : string * Body) : Engine :=
  assign f.1 (BFunction f.2) e.

Definition declare_var (e : Engine) (name : string) : Engine :=
  match globals e !! name with Some _ => e | None => assign name BUndefined e end.

(** The scope before the first statement runs: every function declared
    at the top level is bound, a later declaration of a name replacing an
    earlier one, and every variable that was not bound is [undefined]. *)
Definition hoist (program : Program) (e : Engine) : Engine :=
  foldl declare_var
    (foldl declare_function e (functions program))
    (program ≫= top_variables).

(** ** Running the statements *)

Local Abbreviation Outcome := (Completion () * Engine)%type.

(** Run statements in order until one throws. *)
Definition sequence (exec : Statement → Engine → Outcome)
  : list Statement → Engine → Outcome :=
  fix go ss e :=
    match ss with
    | [] => (Normal (), e)
    | s :: ss' =>
        match exec s e with
        | (Normal _, e') => go ss' e'
        | (Throw err, e') => (Throw err, e')
        end
    end.

(** A statement inside a block. *)
Fixpoint exec (s : Statement) (e : Engine) : Outcome :=
  match s with
  | Var name init =>
      match init (globals e) with
      | Normal b => (Normal (), assign name b e)
      | Throw err => (Throw err, e)
      end
  | FunctionDecl name body => (Normal (), assign name (BFunction body) e)
  | ClassDecl name class => (Normal (), assign name (BScriptClass class) e)
  | With object block =>
      match lookup_global object (globals e) with
      | Normal BUndefined =>
          (Throw (TypeError ("Cannot apply with to " +:+ object)), e)
      | Normal _ => sequence exec block e
      | Throw err => (Throw err, e)
      end
  | Export name value =>
      match lookup_global value (globals e) with
      | Normal b => (Normal (), export name b e)
      | Throw err => (Throw err, e)
      end
  end.

Definition exec_block : list Statement → Engine → Outcome := sequence exec.

(** A statement at the top level: a function declaration has been bound
    by hoisting and does nothing when the evaluation reaches it. *)
Definition exec_top (s : Statement) (e : Engine) : Outcome :=
  match s with FunctionDecl _ _ => (Normal (), e) | _ => exec s e end.

Definition exec_all : Program → Engine → Outcome := sequence exec_top.

(** The evaluation of a script: hoisting, then the statements. *)
Definition evaluate (program : Program) (e : Engine) : Outcome :=
  exec_all program (hoist program e).

(** Scripts evaluated one after the other in the same engine, until one
    throws. *)
Fixpoint run (programs : list Program) (e : Engine) : Outcome :=
  match programs with
  | [] => (Normal (), e)
  | program :: programs' =>
      match evaluate program e with
      | (Normal _, e') => run programs' e'
      | (Throw err, e') => (Throw err, e')
      end
  end.

(** ** Calls of the host *)

(** What the functions of the scripts return: an instance of a class
    built by [Java.extend] or an array of commands. *)
Inductive Returned :=
  | RModule (object : ModuleClass)
  | RCommands (commands : list (option (Command K))).

(** [new C()] for a global name [C]. *)
Definition construct (class_name : string) (g : Globals) : Completion ModuleClass :=
  b ← lookup_global class_name g;
  match b with
  | BModuleClass class => Normal class
  | _ => Throw (TypeError (class_name +:+ " is not a constructor"))
  end.

(** The value of a global name as an element of an array of commands:
    [undefined] is stored as [null]. *)
Definition element (name : string) (g : Globals)
  : Completion (option (Command K)) :=
  b ← lookup_global name g;
  match b with
  | BCommand command => Normal (Some command)
  | BUndefined => Normal None
  | _ => Throw (TypeError (name +:+ " is not a command"))
  end.

(** [a[i] = x] for a global name [x]. *)
Definition store (g : Globals) (a : list (option (Command K)))
    (s : nat * string) : Completion (list (option (Command K))) :=
  x ← element s.2 g;
  match array_set s.1 x a with
  | Some a' => Normal a'
  | None => Throw (VError "ArrayIndexOutOfBoundsException" (pretty s.1))
  end.

Fixpoint stores_all (g : Globals) (stores : list (nat * string))
    (a : list (option (Command K))) : Completion (list (option (Command K))) :=
  match stores with
  | [] => Normal a
  | s :: stores' => a' ← store g a s; stores_all g stores' a'
  end.

(** [Java.extend(Base, { info: new Info(...), ... })] for global names
    [Base] and [Info]: both must be bound to classes. *)
Definition extend (base info_class : string) (members : Members)
    (g : Globals) : Completion Binding :=
  b ← lookup_global base g;
  i ← lookup_global info_class g;
  match b, i with
  | BClass class, BClass _ =>
      Normal (BModuleClass {| mc_base := class; mc_members := members |})
  | BClass _, _ => Throw (TypeError (info_class +:+ " is not a constructor"))
  | _, _ => Throw (TypeError (base +:+ " is not a class"))
  end.

(** [JavaScriptCommand.from(config)]: the command, or the exception of a
    configuration that is refused. *)
Definition command_from (config : Command K) (g : Globals) : Completion Binding :=
  match from config with
  | Some command => Normal (BCommand command)
  | None => Throw (VError "IllegalArgumentException" "invalid command")
  end.

(** The global names a function body reads. *)
Definition reads (body : Body) : list string :=
  match body with
  | ReturnNew class_name => [class_name]
  | ReturnArray array_class _ stores => array_class :: stores.*2
  end.

(** The call of a function body in a scope. *)
Definition call_body (body : Body) (g : Globals) : Completion Returned :=
  match body with
  | ReturnNew class_name => RModule <$> construct class_name g
  | ReturnArray array_class size stores =>
      b ← lookup_global array_class g;
      match b with
      | BClass class =>
          match new_array class size with
          | Some a => RCommands <$> stores_all g stores a
          | None => Throw (TypeError (array_class +:+ " is not an array type"))
          end
      | _ => Throw (TypeError (array_class +:+ " is not a constructor"))
      end
  end.

(** The host calls the function bound to [name]. *)
Definition call_function (name : string) (e : Engine) : Completion Returned :=
  b ← lookup_global name (globals e);
  match b with
  | BFunction body => call_body body (globals e)
  | _ => Throw (TypeError (name +:+ " is not a function"))
  end.

(** [getModule()] and [getCommands()] as the hosts call them. *)
Definition host_getModule (e : Engine) : Completion ModuleClass :=
  r ← call_function "getModule" e;
  match r with
  | RModule object => Normal object
  | RCommands _ => Throw (VError "ClassCastException" "not a module")
  end.

(** ** Hooks *)

(** [L.info(text)] in a scope: the name is read when the statement runs. *)
Definition info_call (g : Globals) (c : string * string) : Host K JsValue :=
  match g !! c.1 with
  | Some (BLogger LOG) => info_ LOG c.2
  | Some BUndefined => throw (TypeError ("Cannot read property info of undefined"))
  | Some _ => throw (TypeError (c.1 +:+ ".info is not a function"))
  | None => throw (ReferenceError c.1)
  end.

(** The call of a hook in a scope. *)
Fixpoint call_hook (body : HookBody) (g : Globals) : Host K JsValue :=
  match body with
  | [] => mret VUndefined
  | c :: body' => _ ← info_call g c; call_hook body' g
  end.

(** The global names the hooks of a class read. *)
Definition hook_reads (class : ModuleClass) : list string :=
  (default [] (m_onLoad (mc_members class))).*1 ++
  (default [] (m_onUnload (mc_members class))).*1.

(** An object of a class built by [Java.extend] as the host calls it
    while the scope is [g]: the hooks the script has given run their
    bodies in [g], the others are inherited from the base. *)
Definition link (g : Globals) (object : ModuleClass) : Module K :=
  Java_extend (mc_base object)
    {| ov_info := m_info (mc_members object);
       ov_onLoad := (λ body _ _, call_hook body g) <$> m_onLoad (mc_members object);
       ov_onUnload := (λ body, call_hook body g) <$> m_onUnload (mc_members object) |}.

(** The module the host has after a call of [getModule()], as it behaves
    while the engine stays as it is. *)
Definition host_module (e : Engine) : Completion (Module K) :=
  link (globals e) <$> host_getModule e.

Definition host_getCommands (e : Engine)
  : Completion (list (option (Command K))) :=
  r ← call_function "getCommands" e;
  match r with
  | RCommands commands => Normal commands
  | RModule _ => Throw (VError "ClassCastException" "not an array of commands")
  end.

(** The host of the commands calls [getCommands()] and registers the
    array it returns; an exception in the script fails the load. *)
Definition host_loadCommands (e : Engine) (reg : gmap string (Command K))
  : option (gmap string (Command K)) :=
  match host_getCommands e with
  | Normal commands => registerCommands commands reg
  | Throw _ => None
  end.

(** The classes among the exports, as the polyglot host sees them. *)
Definition exported_classes (e : Engine) : gmap string (Class (K:=K)) :=
  omap (λ b, match b with BScriptClass class => Some class | _ => None end)
       (exported e).

(** The binding of a name is the same in both engines. *)
Definition same_at (n : string) : relation Engine :=
  λ e e', globals e' !! n = globals e !! n.

(** Every name bound in the first engine is bound in the second. *)
Definition grows : relation Engine :=
  λ e e', ∀ n, is_Some (globals e !! n) → is_Some (globals e' !! n).

(** The engine binds the names of [bs] as [bs] says. *)
Definition bound (bs : list (string * Binding)) (e : Engine) : Prop :=
  Forall (λ nb, globals e !! nb.1 = Some nb.2) bs.

End scope.

Arguments Binding : clear implicits.
Arguments Engine : clear implicits.
Arguments Statement : clear implicits.
Arguments Returned : clear implicits.

Abbreviation Globals K := (gmap string (Binding K)).
Abbreviation Program K := (list (Statement K)).
Abbreviation Outcome K := (Completion () * Engine K)%type.

Section lemmas.
Context {K : Type}.
Implicit Types (e : Engine K) (s : Statement K) (ss block : list (Statement K)).
Implicit Types (program : Program K) (g : Globals K) (b : Binding K).
Implicit Types (name n : string) (body : Body).

(** ** Induction on statements *)

Lemma statement_ind (P : Statement K → Prop) :
  (∀ name init, P (Var name init)) →
  (∀ name body, P (FunctionDecl name body)) →
  (∀ name class, P (ClassDecl name class)) →
  (∀ object block, Forall P block → P (With object block)) →
  (∀ name value, P (Export name value)) →
  ∀ s, P s.
Proof.
  intros HVar HFun HClass HWith HExport. fix IH 1.
  intros [name init|name body|name class|object block|name value];
    [apply HVar | apply HFun | apply HClass | | apply HExport].
  apply HWith. induction block as [|s block IHblock]; constructor;
    [apply IH | apply IHblock].
Qed.

(** ** Sequences *)

Lemma sequence_cons (run : Statement K → Engine K → Outcome K) s ss e :
  sequence run (s :: ss) e =
  match run s e with
  | (Normal _, e') => sequence run ss e'
  | (Throw err, e') => (Throw err, e')
  end.
Proof. done. Qed.

Lemma sequence_app (run : Statement K → Engine K → Outcome K) ss1 ss2 e :
  sequence run (ss1 ++ ss2) e =
  match sequence run ss1 e with
  | (Normal _, e') => sequence run ss2 e'
  | (Throw err, e') => (Throw err, e')
  end.
Proof.
  revert e. induction ss1 as [|s ss1 IH]; intros e; [done|].
  rewrite <- app_comm_cons, !sequence_cons.
  by destruct (run s e) as [[[]|err] e'].
Qed.

(** A statement that throws ends the evaluation: the statements after it
    do not run. *)
Lemma sequence_throw (run : Statement K → Engine K → Outcome K) ss1 s ss2 e e1 e2 err :
  sequence run ss1 e = (Normal (), e1) → run s e1 = (Throw err, e2) →
  sequence run (ss1 ++ s :: ss2) e = (Throw err, e2).
Proof. intros H1 Hs. by rewrite sequence_app, H1, sequence_cons, Hs. Qed.

Lemma exec_all_cons s program e :
  exec_all (s :: program) e =
  match exec_top s e with
  | (Normal _, e') => exec_all program e'
  | (Throw err, e') => (Throw err, e')
  end.
Proof. done. Qed.

Lemma exec_block_cons s block e :
  exec_block (s :: block) e =
  match exec s e with
  | (Normal _, e') => exec_block block e'
  | (Throw err, e') => (Throw err, e')
  end.
Proof. done. Qed.

(** ** The statements one by one *)

Lemma globals_assign_eq name b e : globals (assign name b e) !! name = Some b.
Proof. apply lookup_insert_eq. Qed.

Lemma globals_assign_ne name n b e :
  name ≠ n → globals (assign name b e) !! n = globals e !! n.
Proof. apply lookup_insert_ne. Qed.

Lemma exec_var name init e b :
  init (globals e) = Normal b → exec (Var name init) e = (Normal (), assign name b e).
Proof. simpl. by intros ->. Qed.

Lemma exec_var_throw name init e err :
  init (globals e) = Throw err → exec (Var name init) e = (Throw err, e).
Proof. simpl. by intros ->. Qed.

Lemma extend_class base info_class members g class class' :
  g !! base = Some (BClass class) → g !! info_class = Some (BClass class') →
  extend base info_class members g
  = Normal (BModuleClass {| mc_base := class; mc_members := members |}).
Proof. unfold extend, lookup_global. by intros -> ->. Qed.

Lemma command_from_accepted (config command : Command K) g :
  from config = Some command → command_from config g = Normal (BCommand command).
Proof. unfold command_from. by intros ->. Qed.

Lemma extend_unbound base info_class members g :
  g !! base = None →
  extend base info_class members g = Throw (ReferenceError base).
Proof. unfold extend, lookup_global. by intros ->. Qed.

(** With its object bound to anything but [undefined], a [with] statement
    is its block. *)
Lemma exec_with object block e b :
  globals e !! object = Some b → b ≠ BUndefined →
  exec (With object block) e = exec_block block e.
Proof. simpl. unfold lookup_global. intros -> ?. by destruct b. Qed.

Lemma exec_with_unbound object block e :
  globals e !! object = None →
  exec (With object block) e = (Throw (ReferenceError object), e).
Proof. simpl. unfold lookup_global. by intros ->. Qed.

(** A variable is assigned where it is declared. *)
Lemma variables_assigned s n : n ∈ variables s → n ∈ assigned s.
Proof.
  induction s as [| | |object block IH|] using statement_ind; simpl;
    try (done || by intros ?%elem_of_nil).
  rewrite !list_elem_of_bind. intros (s & Hn & Hs). exists s. split; [|done].
  rewrite Forall_forall in IH. by apply IH.
Qed.

Lemma top_variables_assigned s n : n ∈ top_variables s → n ∈ top_assigned s.
Proof.
  destruct s; try apply (variables_assigned _ n). by intros ?%elem_of_nil.
Qed.

Lemma top_assigned_assigned s n : n ∈ top_assigned s → n ∈ assigned s.
Proof. destruct s; try done. by intros ?%elem_of_nil. Qed.

(** ** Relations kept by an evaluation *)

(** A preorder on engines that the assignments and the exports of a
    program keep is kept by its evaluation, whether it completes or
    throws. *)
Section respects.
Context (R : relation (Engine K)) `{!PreOrder R}.

Lemma foldl_respects {A} (f : Engine K → A → Engine K) (l : list A) e :
  Forall (λ x, ∀ e, R e (f e x)) l → R e (foldl f e l).
Proof.
  intros Hl. revert e. induction Hl as [|x l Hx _ IH]; intros e; simpl; [done|].
  by trans (f e x).
Qed.

Lemma sequence_respects (run : Statement K → Engine K → Outcome K) ss :
  Forall (λ s, ∀ e, R e (run s e).2) ss → ∀ e, R e (sequence run ss e).2.
Proof.
  induction 1 as [|s ss Hs _ IH]; intros e; [done|]. rewrite sequence_cons.
  specialize (Hs e). destruct (run s e) as [[[]|err] e']; simpl in *; [|done].
  by trans e'.
Qed.

Lemma exec_respects s :
  (∀ name b e, name ∈ assigned s → R e (assign name b e)) →
  (∀ name b e, name ∈ exports s → R e (export name b e)) →
  ∀ e, R e (exec s e).2.
Proof.
  induction s as [name init|name body|name class|object block IH|name value]
    using statement_ind; intros Hassign Hexport e; simpl.
  - destruct (init _); simpl; [apply Hassign; set_solver | done].
  - apply Hassign. set_solver.
  - apply Hassign. set_solver.
  - assert (∀ e, R e (sequence exec block e).2) as Hblock.
    { apply sequence_respects. rewrite Forall_forall in IH |- *.
      intros s Hs. apply IH; [done | |]; intros;
        [apply Hassign | apply Hexport]; simpl; apply list_elem_of_bind; eauto. }
    destruct (lookup_global _ _) as [[]|]; simpl; done || apply Hblock.
  - destruct (lookup_global _ _); simpl; [apply Hexport; set_solver | done].
Qed.

Lemma exec_top_respects s :
  (∀ name b e, name ∈ top_assigned s → R e (assign name b e)) →
  (∀ name b e, name ∈ exports s → R e (export name b e)) →
  ∀ e, R e (exec_top s e).2.
Proof. destruct s; try apply exec_respects. by intros. Qed.

Lemma exec_all_respects program :
  (∀ name b e, name ∈ program ≫= top_assigned → R e (assign name b e)) →
  (∀ name b e, name ∈ program ≫= exports → R e (export name b e)) →
  ∀ e, R e (exec_all program e).2.
Proof.
  intros Hassign Hexport. apply sequence_respects, Forall_forall.
  intros s Hs. apply exec_top_respects; intros;
    [apply Hassign | apply Hexport]; apply list_elem_of_bind; eauto.
Qed.

Lemma hoist_respects program :
  (∀ name b e, name ∈ names program → R e (assign name b e)) →
  ∀ e, R e (hoist program e).
Proof.
  intros Hassign e. unfold hoist.
  trans (foldl declare_function e (functions program));
    apply foldl_respects, Forall_forall.
  - intros [name body] Hf e'. apply Hassign, elem_of_app. left.
    by apply (list_elem_of_fmap_2 fst) in Hf.
  - intros name Hname e'. unfold declare_var.
    destruct (globals e' !! name); [done|].
    apply Hassign, elem_of_app. right.
    apply list_elem_of_bind in Hname as (s & Hname & Hs).
    apply list_elem_of_bind. exists s. split; [by apply top_variables_assigned | done].
Qed.

Lemma evaluate_respects program :
  (∀ name b e, name ∈ names program → R e (assign name b e)) →
  (∀ name b e, name ∈ program ≫= exports → R e (export name b e)) →
  ∀ e, R e (evaluate program e).2.
Proof.
  intros Hassign Hexport e. unfold evaluate. trans (hoist program e).
  - by apply hoist_respects.
  - apply exec_all_respects; [|done]. intros. apply Hassign, elem_of_app. by right.
Qed.

End respects.

(** ** Programs statement by statement *)

Lemma exec_all_var name init program e b :
  init (globals e) = Normal b →
  exec_all (Var name init :: program) e = exec_all program (assign name b e).
Proof. intros Hinit. rewrite exec_all_cons. simpl. by rewrite Hinit. Qed.

Lemma exec_all_var_throw name init program e err :
  init (globals e) = Throw err →
  exec_all (Var name init :: program) e = (Throw err, e).
Proof. intros Hinit. rewrite exec_all_cons. simpl. by rewrite Hinit. Qed.

(** At the top level a function declaration does nothing when the
    evaluation reaches it. *)
Lemma exec_all_function name body program e :
  exec_all (FunctionDecl name body :: program) e = exec_all program e.
Proof. done. Qed.

Lemma exec_all_class name class program e :
  exec_all (ClassDecl name class :: program) e =
  exec_all program (assign name (BScriptClass class) e).
Proof. done. Qed.

(** A [with] statement whose object is bound runs its block, then the
    rest of the program. *)
Lemma exec_all_with object block program e b :
  globals e !! object = Some b → b ≠ BUndefined →
  exec_all (With object block :: program) e =
  match exec_block block e with
  | (Normal _, e') => exec_all program e'
  | (Throw err, e') => (Throw err, e')
  end.
Proof.
  intros Hobject Hb. rewrite exec_all_cons.
  change (exec_top (With object block) e) with (exec (With object block) e).
  by rewrite (exec_with _ _ _ _ Hobject Hb).
Qed.

Lemma exec_all_with_unbound object block program e :
  globals e !! object = None →
  exec_all (With object block :: program) e = (Throw (ReferenceError object), e).
Proof.
  intros Hobject. rewrite exec_all_cons.
  change (exec_top (With object block) e) with (exec (With object block) e).
  by rewrite exec_with_unbound.
Qed.

(** Inside a block. *)
Lemma exec_block_var name init block e b :
  init (globals e) = Normal b →
  exec_block (Var name init :: block) e = exec_block block (assign name b e).
Proof. intros Hinit. by rewrite exec_block_cons, (exec_var _ _ _ _ Hinit). Qed.

Lemma exec_block_var_throw name init block e err :
  init (globals e) = Throw err →
  exec_block (Var name init :: block) e = (Throw err, e).
Proof. intros Hinit. by rewrite exec_block_cons, (exec_var_throw _ _ _ _ Hinit). Qed.

(** Inside a block a function declaration binds its name when the
    evaluation reaches it. *)
Lemma exec_block_function name body block e :
  exec_block (FunctionDecl name body :: block) e =
  exec_block block (assign name (BFunction body) e).
Proof. done. Qed.

Lemma exec_block_with object inner block e b :
  globals e !! object = Some b → b ≠ BUndefined →
  exec_block (With object inner :: block) e = exec_block (inner ++ block) e.
Proof.
  intros Hobject Hb. rewrite exec_block_cons, (exec_with _ _ _ _ Hobject Hb).
  unfold exec_block. rewrite sequence_app.
  by destruct (sequence exec inner e) as [[[]|err] e'].
Qed.

(** ** Programs one after the other *)

Lemma run_first program programs e :
  run (program :: programs) e =
  match evaluate program e with
  | (Normal _, e') => run programs e'
  | (Throw err, e') => (Throw err, e')
  end.
Proof. done. Qed.

Lemma run_last programs program e :
  run (programs ++ [program]) e =
  match run programs e with
  | (Normal _, e') => evaluate program e'
  | (Throw err, e') => (Throw err, e')
  end.
Proof.
  revert e. induction programs as [|p programs IH]; intros e; simpl.
  - by destruct (evaluate program e) as [[[]|err] e'].
  - destruct (evaluate p e) as [[[]|err] e']; [apply IH | done].
Qed.

(** Programs that each run to their end from an engine with a property,
    and keep it, run to their end one after the other. *)
Lemma run_invariant (I : Engine K → Prop) programs e :
  Forall (λ program, ∀ e, I e →
            (evaluate program e).1 = Normal () ∧ I (evaluate program e).2)
         programs →
  I e → (run programs e).1 = Normal () ∧ I (run programs e).2.
Proof.
  intros Hall. revert e. induction Hall as [|p programs Hp _ IH]; intros e He.
  { done. }
  rewrite run_first. destruct (Hp e He) as [Hdone He'].
  destruct (evaluate p e) as [[[]|err] e']; simpl in *; [by apply IH | done].
Qed.

(** ** What an evaluation leaves alone *)

#[export] Instance same_at_preorder n : PreOrder (@same_at K n).
Proof. split; [done | intros e1 e2 e3 H12 H23; unfold same_at in *; congruence]. Qed.

#[export] Instance grows_preorder : PreOrder (@grows K).
Proof. split; [by intros e n | intros e1 e2 e3 H12 H23 n Hn; auto]. Qed.

#[export] Instance same_exports_preorder :
  PreOrder (λ e e' : Engine K, exported e' = exported e).
Proof. split; [done | intros e1 e2 e3; congruence]. Qed.

Lemma same_at_assign n name b e : name ≠ n → same_at n e (assign name b e).
Proof. intros Hne. unfold same_at, assign. cbn [globals]. by rewrite lookup_insert_ne. Qed.

(** A program leaves the names it does not bind as they were. *)
Lemma evaluate_frame program e n :
  n ∉ names program → globals (evaluate program e).2 !! n = globals e !! n.
Proof.
  intros Hn. apply (evaluate_respects (same_at n)); [|done].
  intros name b e' Hname. apply same_at_assign. by intros ->.
Qed.

Lemma hoist_frame program e n :
  n ∉ names program → globals (hoist program e) !! n = globals e !! n.
Proof.
  intros Hn. apply (hoist_respects (same_at n)).
  intros name b e' Hname. apply same_at_assign. by intros ->.
Qed.

Lemma exec_all_frame program e n :
  n ∉ program ≫= top_assigned →
  globals (exec_all program e).2 !! n = globals e !! n.
Proof.
  intros Hn. apply (exec_all_respects (same_at n)); [|done].
  intros name b e' Hname. apply same_at_assign. by intros ->.
Qed.

(** Bindings of names a program does not bind are kept. *)
Lemma bound_lookup (bs : list (string * Binding K)) e n b :
  bound bs e → (n, b) ∈ bs → globals e !! n = Some b.
Proof. unfold bound. rewrite Forall_forall. intros Hbs Hin. apply (Hbs _ Hin). Qed.

Lemma bound_same (bs : list (string * Binding K)) e e' :
  Forall (λ n, same_at n e e') bs.*1 → bound bs e → bound bs e'.
Proof.
  unfold bound. rewrite Forall_fmap, !Forall_forall. intros Hsame Hbs nb Hnb.
  specialize (Hsame _ Hnb). unfold same_at in Hsame. simpl in Hsame.
  rewrite Hsame. by apply Hbs.
Qed.

Lemma bound_assign (bs : list (string * Binding K)) name b e :
  name ∉ bs.*1 → bound bs e → bound bs (assign name b e).
Proof.
  intros Hname. apply bound_same, Forall_forall. intros n Hn.
  apply same_at_assign. by intros ->.
Qed.

Lemma bound_hoist (bs : list (string * Binding K)) program e :
  Forall (λ n, n ∉ names program) bs.*1 → bound bs e → bound bs (hoist program e).
Proof.
  intros Hfree. apply bound_same. eapply Forall_impl; [done|].
  intros n Hn. by apply hoist_frame.
Qed.

Lemma bound_evaluate (bs : list (string * Binding K)) program e :
  Forall (λ n, n ∉ names program) bs.*1 →
  bound bs e → bound bs (evaluate program e).2.
Proof.
  intros Hfree. apply bound_same. eapply Forall_impl; [done|].
  intros n Hn. by apply evaluate_frame.
Qed.

(** No evaluation unbinds a name. *)
Lemma evaluate_grows program e n :
  is_Some (globals e !! n) → is_Some (globals (evaluate program e).2 !! n).
Proof.
  revert n. apply (evaluate_respects grows); [|by intros ? ? ? ? n].
  intros name b e' _ n. simpl. rewrite lookup_insert_is_Some.
  destruct (decide (name = n)); naive_solver.
Qed.

(** A program without a call of [Polyglot.export] exports nothing. *)
Lemma evaluate_exported program e :
  program ≫= exports = [] → exported (evaluate program e).2 = exported e.
Proof.
  intros Hnone. apply (evaluate_respects (λ e e', exported e' = exported e)); [done|].
  rewrite Hnone. by intros ? ? ? ?%elem_of_nil.
Qed.

(** ** Hoisting *)

Lemma declare_functions_lookup (fs : list (string * Body)) e name body :
  NoDup fs.*1 → (name, body) ∈ fs →
  globals (foldl declare_function e fs) !! name = Some (BFunction body).
Proof.
  revert e. induction fs as [|[n' body'] fs IH]; intros e Hnodup Hin.
  { by apply elem_of_nil in Hin. }
  rewrite fmap_cons in Hnodup. apply NoDup_cons in Hnodup as [Hn' Hnodup].
  apply elem_of_cons in Hin as [[= <- <-]|Hin]; [|by apply IH].
  simpl. trans (globals (declare_function e (name, body)) !! name).
  - apply (foldl_respects (same_at name)), Forall_forall.
    intros [n body'] Hf e'. apply same_at_assign. simpl. intros ->.
    apply Hn'. by apply (list_elem_of_fmap_2 fst) in Hf.
  - apply lookup_insert_eq.
Qed.

(** A [var] never replaces a binding. *)
Lemma declare_vars_lookup (vars : list string) e n b :
  globals e !! n = Some b → globals (foldl declare_var e vars) !! n = Some b.
Proof.
  revert e. induction vars as [|name vars IH]; intros e Hn; [done|].
  simpl. apply IH. unfold declare_var.
  destruct (globals e !! name) eqn:Hname; [done|].
  simpl. rewrite lookup_insert_ne; [done|]. by intros ->; simplify_eq.
Qed.

Lemma declare_vars_bound (vars : list string) e n :
  n ∈ vars → is_Some (globals (foldl declare_var e vars) !! n).
Proof.
  revert e. induction vars as [|name vars IH]; intros e Hn.
  { by apply elem_of_nil in Hn. }
  simpl. apply elem_of_cons in Hn as [->|Hn]; [|by apply IH].
  assert (is_Some (globals (declare_var e name) !! name)) as [b Hb].
  { unfold declare_var. destruct (globals e !! name) eqn:Hname; [by rewrite Hname|].
    simpl. rewrite lookup_insert_eq. eauto. }
  rewrite (declare_vars_lookup _ _ _ _ Hb). eauto.
Qed.

Lemma declare_vars_fresh (vars : list string) e n :
  n ∈ vars → globals e !! n = None →
  globals (foldl declare_var e vars) !! n = Some BUndefined.
Proof.
  revert e. induction vars as [|name vars IH]; intros e Hn Hnone.
  { by apply elem_of_nil in Hn. }
  simpl. destruct (decide (name = n)) as [->|Hne].
  - apply declare_vars_lookup. unfold declare_var. rewrite Hnone.
    apply globals_assign_eq.
  - apply elem_of_cons in Hn as [->|Hn]; [done|]. apply IH; [done|].
    unfold declare_var. destruct (globals e !! name); [done|].
    by rewrite globals_assign_ne.
Qed.

(** After hoisting, a function declared at the top level of the program
    is bound to its body and a variable is bound. *)
Lemma hoist_function program e name body :
  NoDup (functions program).*1 → (name, body) ∈ functions program →
  globals (hoist program e) !! name = Some (BFunction body).
Proof. intros. by apply declare_vars_lookup, declare_functions_lookup. Qed.

Lemma hoist_variable program e n :
  n ∈ program ≫= top_variables → is_Some (globals (hoist program e) !! n).
Proof. apply declare_vars_bound. Qed.

(** A variable of a name that was not bound and is not the name of a
    function of the top level is [undefined] until its statement runs:
    so is a function declared inside a block. *)
Lemma hoist_fresh program e n :
  n ∈ program ≫= top_variables → n ∉ (functions program).*1 →
  globals e !! n = None → globals (hoist program e) !! n = Some BUndefined.
Proof.
  intros Hvar Hfun Hnone. apply declare_vars_fresh; [done|].
  rewrite <- Hnone. apply (foldl_respects (same_at n)), Forall_forall.
  intros [name body] Hf e'. apply same_at_assign. simpl. intros ->.
  apply Hfun. by apply (list_elem_of_fmap_2 fst) in Hf.
Qed.

(** A function declared at the top level of a program that does not
    assign its name is bound to its body when the evaluation ends,
    whether the program completed or threw, and whatever the name was
    bound to before. *)
Lemma function_bound program e name body :
  NoDup (functions program).*1 → (name, body) ∈ functions program →
  name ∉ program ≫= top_assigned →
  globals (evaluate program e).2 !! name = Some (BFunction body).
Proof.
  intros Hnodup Hin Hname. unfold evaluate.
  rewrite exec_all_frame by done. by apply hoist_function.
Qed.

(** ** Calls *)

Lemma call_function_bound name body e :
  globals e !! name = Some (BFunction body) →
  call_function name e = call_body body (globals e).
Proof. unfold call_function, lookup_global. by intros ->. Qed.

Lemma construct_class class_name class g :
  g !! class_name = Some (BModuleClass class) →
  construct class_name g = Normal class.
Proof. unfold construct, lookup_global. by intros ->. Qed.

Lemma lookup_global_agree g g' n : g' !! n = g !! n → lookup_global n g' = lookup_global n g.
Proof. unfold lookup_global. by intros ->. Qed.

Lemma stores_all_agree g g' (stores : list (nat * string)) (a : list (option (Command K))) :
  Forall (λ n, g' !! n = g !! n) stores.*2 →
  stores_all g' stores a = stores_all g stores a.
Proof.
  revert a. induction stores as [|[i n] stores IH]; intros a; [done|].
  rewrite fmap_cons. intros [Hn Hstores]%Forall_cons. simpl in *.
  unfold store, element. simpl. rewrite (lookup_global_agree _ _ _ Hn).
  destruct (lookup_global n g) as [[]|]; simpl; try done;
    destruct (array_set _ _ _); simpl; auto.
Qed.

(** A call depends on the names its body reads, and on nothing else. *)
Lemma call_body_agree body g g' :
  Forall (λ n, g' !! n = g !! n) (reads body) →
  call_body body g' = call_body body g.
Proof.
  destruct body as [class_name|array_class size stores]; simpl.
  - intros [Hn _]%Forall_cons. unfold construct.
    by rewrite (lookup_global_agree _ _ _ Hn).
  - intros [Hn Hstores]%Forall_cons. rewrite (lookup_global_agree _ _ _ Hn).
    destruct (lookup_global array_class g) as [[]|]; simpl; try done.
    destruct (new_array _ _); [|done]. by rewrite (stores_all_agree g g').
Qed.

Lemma call_function_agree name body e e' :
  globals e !! name = Some (BFunction body) →
  Forall (λ n, globals e' !! n = globals e !! n) (name :: reads body) →
  call_function name e' = call_function name e.
Proof.
  intros Hname [Hn Hreads]%Forall_cons. unfold call_function.
  rewrite (lookup_global_agree _ _ _ Hn). unfold lookup_global. rewrite Hname.
  simpl. by apply call_body_agree.
Qed.

(** Non-interference: a program that binds neither the name of a function
    nor the names its body reads does not change what a call returns. *)
Lemma evaluate_call program e name body :
  globals e !! name = Some (BFunction body) →
  Forall (λ n, n ∉ names program) (name :: reads body) →
  call_function name (evaluate program e).2 = call_function name e.
Proof.
  intros Hname Hfree. apply (call_function_agree _ body); [done|].
  eapply Forall_impl; [done|]. intros n Hn. by apply evaluate_frame.
Qed.

(** ** Hooks *)

Lemma info_call_logger g name text LOG :
  g !! name = Some (BLogger LOG) → info_call g (name, text) = info_ LOG text.
Proof. unfold info_call. simpl. by intros ->. Qed.

Lemma info_call_agree g g' (c : string * string) :
  g' !! c.1 = g !! c.1 → info_call g' c = info_call g c.
Proof. unfold info_call. by intros ->. Qed.

(** A hook depends on the names its body reads, and on nothing else. *)
Lemma call_hook_agree (body : HookBody) g g' :
  Forall (λ n, g' !! n = g !! n) body.*1 → call_hook body g' = call_hook body g.
Proof.
  induction body as [|c body IH]; [done|]. rewrite fmap_cons.
  intros [Hc Hbody]%Forall_cons. simpl. by rewrite (info_call_agree g g'), IH.
Qed.

Lemma link_agree (object : ModuleClass) g g' :
  Forall (λ n, g' !! n = g !! n) (hook_reads object) →
  link g' object = link g object.
Proof.
  unfold hook_reads, link. intros [Hload Hunload]%Forall_app.
  destruct object as [class [i [onLoad|] [onUnload|]]]; simpl in *;
    by rewrite ?(call_hook_agree onLoad g g'), ?(call_hook_agree onUnload g g').
Qed.

(** Non-interference for the objects the host holds: a program that binds
    none of the names the hooks of an object read leaves the object as it
    was. *)
Lemma evaluate_link program e (object : ModuleClass) :
  Forall (λ n, n ∉ names program) (hook_reads object) →
  link (globals (evaluate program e).2) object = link (globals e) object.
Proof.
  intros Hfree. apply link_agree. eapply Forall_impl; [done|].
  intros n Hn. by apply evaluate_frame.
Qed.

Lemma host_module_object e (object : ModuleClass) :
  host_getModule e = Normal object → host_module e = Normal (link (globals e) object).
Proof. unfold host_module. by intros ->. Qed.

End lemmas.

(** Lookups in the scope of an engine after assignments. *)
Ltac scope_lookup :=
  repeat first
    [ rewrite globals_assign_eq
    | rewrite globals_assign_ne by done ].

End Scope.
