(* ===== verification/TestCommandJs.v ===== *)
(** * [src/example/scripts/testCommand.js]

    The script defines a module with a load hook and the command [testjs]:
    open to everyone, with the option [FORCE] and two patterns, the literal
    [add] followed by a string, and a catch-all.  Each definition below
    translates the lines of the script named in the project map; the
    theorems describe the array [getCommands] builds and the command's
    behaviour under [dispatch]. *)

From S2P Require Import Prelude Tokenizer AccessLevel Options Argument.
From S2P Require Import Runtime Patterns Commands Dispatcher Interop.

Module TestCommandJs.

#[local] Set Warnings "-clear-no-such-hyp".

Import Tokenizer AccessLevel Options Argument.
Import Runtime Patterns Commands Dispatcher Interop.

Section script.
Context {K : Type}.

(** [var LOG = LoggerFactory.getLogger("TestJSModule");] *)
Definition LOG : Logger := getLogger "TestJSModule".

(** [info: new ModuleInfo("TestModule", "Author", "URL", "1.0", 1)] *)
Definition TestModule_info : ModuleInfo :=
  {| name := "TestModule"; author := "Author"; url := "URL";
     versionName := "1.0"; buildNumber := 1 |}.

(** [onLoad: function () { LOG.info("TestJSCmd loaded !"); }] *)
Definition TestModule_onLoad : JsValue → JsValue → Host K JsValue :=
  λ _ _, _ ← info_ LOG "TestJSCmd loaded !"; mret VUndefined.

(** The object literal [{ info: ..., onLoad: ... }]: the unload hook is
    not overridden. *)
Definition TestModule_members : Overrides K :=
  {| ov_info := Some TestModule_info;
     ov_onLoad := Some TestModule_onLoad;
     ov_onUnload := None |}.

(** [var TestModule = Java.extend(BaseJavaScriptModule, { info, onLoad });] *)
Definition TestModule : Module K :=
  Java_extend BaseJavaScriptModule TestModule_members.

(** [function getModule() { return new TestModule(); }] *)
Definition getModule : Module K := TestModule.

(** The handler of the first pattern:
    [function (event, args, options) {
       event.fastReply("You wan to add: " + args[0].toString()); }] *)
Definition addHandler : Handler K := λ event args options,
  match args !! 0 with
  | None => throw (TypeError "Cannot read property toString of undefined")
  | Some arg =>
      _ ← fastReply event ("You wan to add: " +:+ toString arg);
      mret VUndefined
  end.

(** [[Argument.forString("add"), Argument.STRING]] *)
Definition add_arguments : list ArgumentMatcher := [forString "add"; STRING].

(** [new CommandPattern([...], function (event, args, options) {...})] *)
Definition addPattern : CommandPattern K :=
  WithArguments add_arguments addHandler.

(** The handler of the catch-all pattern:
    [function (event, args, options) {
       if (options.has("force")) event.fastReply("Hi, i'm force");
       else event.fastReply("Hi"); }] *)
Definition defaultHandler : Handler K := λ event args options,
  if has options "force"
  then _ ← fastReply event "Hi, i'm force"; mret VUndefined
  else _ ← fastReply event "Hi"; mret VUndefined.

(** [new CommandPattern(function (event, args, options) { ... })] *)
Definition defaultPattern : CommandPattern K := CatchAll defaultHandler.

(** The configuration object passed to [JavaScriptCommand.from]. *)
Definition testJSCommand_config : Command K :=
  {| aliases := ["testjs"];
     description := "Hey";
     shortDescription := "yo";
     accessLevel := EVERYONE;
     options := [FORCE];
     patterns := [addPattern; defaultPattern] |}.

(** [var testJSCommand = JavaScriptCommand.from({ ... });] *)
Definition testJSCommand : option (Command K) := from testJSCommand_config.

(** [function getCommands() {
       var commands = new JavaScriptCommandArray(1);
       commands[0] = testJSCommand;
       return commands; }]
    The name [testJSCommand] stands for the value the script binds it to,
    and a slot that holds [None] holds [null]: that is also what a
    configuration [from] refuses would leave in it, which cannot be told
    apart here and does not happen ([testJSCommand_accepted]).  The
    function that reads the name when it is called is
    [Scripts.getCommands_body]. *)
Definition getCommands : option (list (option (Command K))) :=
  commands ← new_array JavaScriptCommandArray 1;
  commands ← array_set 0 testJSCommand commands;
  Some commands.

(** The registry of a host that has loaded this script alone. *)
Definition registry : gmap string (Command K) :=
  default ∅ (loadCommands getCommands ∅).

(** The reply a handler sends in answer to [event]. *)
Definition reply (event : Event) (txt : string) : Reply :=
  {| in_reply_to := event; text := txt |}.

(** The record the load hook writes. *)
Definition loaded : LogRecord :=
  {| logger := "TestJSModule"; log_level := INFO;
     log_message := "TestJSCmd loaded !" |}.

(** The remaining tokens have the shape of the first pattern. *)
Definition add_shape (remaining : list string) : option string :=
  match remaining with
  | [lit; x] => if eqb_ci lit "add" then Some x else None
  | _ => None
  end.

(** What the command answers to the tokens that follow its alias. *)
Definition answer (rest : list string) : string :=
  let '(remaining, active) := resolve [FORCE] rest in
  match add_shape remaining with
  | Some x => "You wan to add: " +:+ x
  | None => if has active "force" then "Hi, i'm force" else "Hi"
  end.

End script.

Section theorems.
Context {K : Type}.
Implicit Types (w : World K) (ev event : Event) (rest remaining : list string).

Local Abbreviation config := (@testJSCommand_config K).

(** ** The command and its registration *)

Lemma config_well_formed : well_formed config.
Proof.
  repeat split; simpl; try done.
  - by repeat constructor.
  - apply NoDup_singleton.
Qed.

Lemma testJSCommand_accepted : testJSCommand = Some config.
Proof. apply from_well_formed, config_well_formed. Qed.

Lemma getCommands_eq : @getCommands K = Some [Some config].
Proof. unfold getCommands. simpl. by rewrite testJSCommand_accepted. Qed.

(** The host's registration of the array succeeds on every registry in
    which the alias is free, and adds the command under that alias. *)
Lemma getCommands_register reg :
  reg !! "testjs" = None →
  loadCommands getCommands reg = Some (<["testjs" := config]> reg).
Proof.
  intros Hfree. rewrite getCommands_eq. simpl.
  rewrite register_free; [done | apply config_well_formed |].
  by apply Forall_singleton.
Qed.

Lemma registry_eq : registry = {[ "testjs" := config ]}.
Proof. unfold registry. by rewrite getCommands_register. Qed.

Lemma registry_lookup alias :
  lookup_alias registry alias = if eqb_ci alias "testjs" then Some config else None.
Proof.
  unfold lookup_alias, eqb_ci. rewrite registry_eq.
  case_bool_decide as H.
  - rewrite H. by apply lookup_singleton_eq.
  - by apply lookup_singleton_ne.
Qed.

(** C7. The array [getCommands] returns: the store [commands[0]] is inside
    the array of one slot, the slot holds the command read back by
    [commands[0]], no slot is left [null], and every other index is outside
    the array for reads and for stores. *)
Theorem getCommands_bounds :
  ∃ commands, @getCommands K = Some commands ∧
    length commands = 1 ∧ array_get 0 commands = Some testJSCommand ∧
    Forall is_Some commands ∧
    ∀ i, 0 < i → array_get i commands = None ∧
                 ∀ c, array_set i c commands = None.
Proof.
  eexists. split; [apply getCommands_eq|]. rewrite testJSCommand_accepted.
  repeat split; [by repeat constructor|..].
  - apply array_get_None. simpl. lia.
  - intros c. apply array_set_None. simpl. lia.
Qed.

(** ** Pattern selection for [testjs] *)

Lemma select_add remaining x :
  add_shape remaining = Some x →
  select_pattern (patterns config) remaining = Some (addHandler, [VString x]).
Proof.
  destruct remaining as [|lit [|y [|z remaining]]]; try done. simpl.
  unfold match_arg. simpl. destruct (eqb_ci lit "add"); [|done].
  by intros [= ->].
Qed.

Lemma select_default remaining :
  add_shape remaining = None →
  select_pattern (patterns config) remaining = Some (defaultHandler, []).
Proof.
  destruct remaining as [|lit [|y [|z remaining]]]; simpl; unfold match_arg; simpl;
    [done | destruct (eqb_ci lit "add"); done ..].
Qed.

(** C29. The configuration object is accepted by [JavaScriptCommand.from] and
    none of its patterns is dead: the literal pattern stands before the
    catch-all, so each pattern is the one selected for some arguments. *)
Theorem testJSCommand_well_formed :
  testJSCommand = Some config ∧
  ∀ p, p ∈ patterns config →
       ∃ remaining args,
         select_pattern (patterns config) remaining = Some (handler_of p, args).
Proof.
  split; [apply testJSCommand_accepted|].
  intros p [->|[->|[]%elem_of_nil]%elem_of_cons]%elem_of_cons.
  - exists ["add"; "x"], [VString "x"]. by apply select_add.
  - exists [], []. by apply select_default.
Qed.

(** ** The handlers *)

Lemma addHandler_cons event arg args active w :
  addHandler event (arg :: args) active w =
  (Normal VUndefined, send (reply event ("You wan to add: " +:+ toString arg)) w).
Proof. done. Qed.

Lemma addHandler_nil event active w :
  addHandler event [] active w =
  (Throw (TypeError "Cannot read property toString of undefined"), w).
Proof. done. Qed.

Lemma defaultHandler_run event args active w :
  defaultHandler event args active w =
  (Normal VUndefined,
   send (reply event (if has active "force" then "Hi, i'm force" else "Hi")) w).
Proof. unfold defaultHandler. by destruct (has active "force"). Qed.

(** ** Dispatch of [testjs] *)

Lemma registry_lookup_testjs alias :
  eq_ci alias "testjs" → lookup_alias registry alias = Some config.
Proof. intros H%eqb_ci_eq. by rewrite registry_lookup, H. Qed.

(** In any registry in which the alias resolves to the command of this
    script, dispatch invokes the handler of the first matching pattern,
    which sends the reply [answer] computes: the gate lets everyone
    through and one of the two patterns always matches. *)
Lemma dispatch_config reg ev w alias rest :
  tokenize (raw ev) = alias :: rest → lookup_alias reg alias = Some config →
  dispatch reg ev w =
  (Invoked (Normal VUndefined), send (reply ev (answer rest)) w).
Proof.
  intros Htok Hcmd. unfold answer.
  pose proof (λ h args, dispatch_invoked reg ev w alias rest config Htok Hcmd h args
                          (allow_everyone _)) as Hinv. simpl in Hinv.
  destruct (resolve [FORCE] rest) as [remaining active] eqn:Hres.
  destruct (add_shape remaining) as [x|] eqn:Hshape.
  - by rewrite (Hinv addHandler [VString x]) by by apply select_add.
  - rewrite (Hinv defaultHandler []) by by apply select_default.
    by rewrite defaultHandler_run.
Qed.

(** C2. Functional behaviour of the command on every branch, in the
    registry the host builds from [getCommands]: whoever sends a message
    whose first token is the alias [testjs] in any capitalisation gets the
    handler of the first matching pattern invoked; the handler returns
    [undefined] and sends exactly the reply [answer] computes from the
    tokens after the alias. *)
Theorem dispatch_testjs ev w alias rest :
  tokenize (raw ev) = alias :: rest → eq_ci alias "testjs" →
  dispatch registry ev w =
  (Invoked (Normal VUndefined), send (reply ev (answer rest)) w).
Proof.
  intros Htok Halias. apply (dispatch_config _ _ _ alias); [done|].
  by apply registry_lookup_testjs.
Qed.

(** C23. Round trip with the printer of token sequences: a command line made
    of the alias and any arguments, each printed in double quotes, is read
    back token by token, so the command answers what [answer] computes from
    the arguments, whatever they contain (spaces, nothing at all) as long as
    they hold no double quote. *)
Theorem dispatch_rendered ev w rest :
  raw ev = render ("testjs" :: rest) →
  Forall (λ tok, quote_free tok = true) rest →
  dispatch registry ev w =
  (Invoked (Normal VUndefined), send (reply ev (answer rest)) w).
Proof.
  intros Hraw Hrest. apply (dispatch_config _ _ _ "testjs").
  - rewrite Hraw. apply tokenize_render. by constructor.
  - by apply registry_lookup_testjs.
Qed.

(** A message for another command is unknown to this registry and leaves
    the world untouched. *)
Lemma dispatch_other ev w alias rest :
  tokenize (raw ev) = alias :: rest → ¬ eq_ci alias "testjs" →
  dispatch registry ev w = (Unknown, w).
Proof.
  intros Htok Hne. eapply dispatch_unknown; [done|].
  rewrite registry_lookup. destruct (eqb_ci alias "testjs") eqn:H; [|done].
  by apply eqb_ci_eq in H.
Qed.

(** C1. Totality and safety: on every input, from every sender, dispatch
    either does not know the command and changes nothing, or invokes a
    handler that completes normally with [undefined] after sending exactly
    one reply.  In particular no handler throws ([args[0]] is defined
    whenever the first pattern is selected), nobody is denied and some
    pattern always matches. *)
Theorem dispatch_cases ev w :
  dispatch registry ev w = (Unknown, w) ∨
  ∃ txt, dispatch registry ev w =
         (Invoked (Normal VUndefined), send (reply ev txt) w).
Proof.
  destruct (tokenize (raw ev)) as [|alias rest] eqn:Htok.
  - left. by apply dispatch_no_token.
  - destruct (decide (eq_ci alias "testjs")) as [Halias|Halias].
    + right. eexists. eapply dispatch_config; [done|].
      by apply registry_lookup_testjs.
    + left. by eapply dispatch_other.
Qed.

(** ** The first pattern *)

(** The markers of [FORCE] are not the literal [add]. *)
Lemma add_not_marker lit : eq_ci lit "add" → find_option [FORCE] lit = None.
Proof.
  intros Hlit. apply find_option_None. intros k ->%list_elem_of_singleton.
  unfold is_marker. apply orb_false_intro; apply bool_decide_eq_false;
    intros ->; discriminate Hlit.
Qed.

Lemma answer_add lit x :
  eq_ci lit "add" → find_option [FORCE] x = None →
  answer [lit; x] = "You wan to add: " +:+ x.
Proof.
  intros Hlit Hx. unfold answer.
  rewrite !resolve_cons, (add_not_marker _ Hlit), Hx. simpl.
  by rewrite (proj2 (eqb_ci_eq _ _) Hlit).
Qed.

(** C5. [testjs add <x>]: the literal is matched ignoring case, the
    argument is handed to the handler as it was typed, and the reply is
    ["You wan to add: "] followed by the argument. *)
Theorem dispatch_add ev w alias lit x :
  tokenize (raw ev) = [alias; lit; x] →
  eq_ci alias "testjs" → eq_ci lit "add" → find_option [FORCE] x = None →
  dispatch registry ev w =
  (Invoked (Normal VUndefined), send (reply ev ("You wan to add: " +:+ x)) w).
Proof.
  intros Htok Halias%registry_lookup_testjs Hlit Hx.
  by rewrite (dispatch_config _ _ _ _ _ Htok Halias), answer_add.
Qed.

(** The same at the level of the raw text, for an argument that is a
    single word. *)
Lemma tokenize_add x :
  plain_word x = true → tokenize ("testjs add " +:+ x) = ["testjs"; "add"; x].
Proof.
  intros Hx. change ("testjs add " +:+ x) with (unwords ["testjs"; "add"; x]).
  apply tokenize_unwords. by repeat constructor.
Qed.

(** ** The option [FORCE] *)

Lemma find_option_marker m :
  is_marker FORCE m = true → find_option [FORCE] m = Some FORCE.
Proof. intros Hm. unfold find_option. simpl. by rewrite decide_True. Qed.

Lemma answer_force xs ys m :
  is_marker FORCE m = true →
  answer (xs ++ m :: ys) =
  match add_shape (resolve [FORCE] (xs ++ ys)).1 with
  | Some x => "You wan to add: " +:+ x
  | None => "Hi, i'm force"
  end.
Proof.
  intros Hm%find_option_marker. unfold answer.
  rewrite (resolve_insert_marker _ _ _ _ _ Hm).
  destruct (add_shape _); [done|].
  by rewrite (has_elem _ FORCE) by set_solver.
Qed.

(** C9. Option extraction does not depend on the marker's position: with
    a marker of [FORCE] anywhere after the alias, a message that has the
    shape of the first pattern once the marker is removed is answered as
    if the marker were absent, and any other message is answered
    ["Hi, i'm force"]. *)
Theorem dispatch_force_anywhere ev w alias xs ys m :
  tokenize (raw ev) = alias :: xs ++ m :: ys →
  eq_ci alias "testjs" → is_marker FORCE m = true →
  dispatch registry ev w =
  (Invoked (Normal VUndefined),
   send (reply ev match add_shape (resolve [FORCE] (xs ++ ys)).1 with
                  | Some x => "You wan to add: " +:+ x
                  | None => "Hi, i'm force"
                  end) w).
Proof.
  intros Htok Halias%registry_lookup_testjs Hm.
  by rewrite (dispatch_config _ _ _ _ _ Htok Halias), answer_force.
Qed.

(** Without any marker the catch-all answers ["Hi"]. *)
Lemma answer_plain rest :
  Forall (λ tok, find_option [FORCE] tok = None) rest →
  add_shape rest = None → answer rest = "Hi".
Proof.
  intros Hrest Hshape. unfold answer.
  assert (resolve [FORCE] rest = (rest, ∅)) as ->.
  { clear Hshape. induction Hrest as [|tok rest Htok _ IH]; [done|].
    by rewrite resolve_cons, Htok, IH. }
  by rewrite Hshape, has_empty.
Qed.

(** ** The handlers on their own *)

(** C4. The error path of the first handler: it throws exactly when it is
    called with no parsed argument ([args[0].toString()] on [undefined]);
    by [addHandler_nil] nothing has been sent by then. *)
Theorem addHandler_throws_iff event args active w :
  (∃ e, (addHandler event args active w).1 = Throw e) ↔ args = [].
Proof.
  destruct args as [|arg args].
  - rewrite addHandler_nil. simpl. split; [done | by eexists].
  - rewrite addHandler_cons. simpl. split; [by intros [e ?] | done].
Qed.

(** ** The module *)

Lemma load_logs w :
  load getModule w = (Normal VUndefined, write_log loaded w).
Proof. done. Qed.

Lemma unload_inherited w : unload getModule w = (Normal VUndefined, w).
Proof. by apply Java_extend_unload_inherited. Qed.

(** C33. Lifecycle of the module: through any number of load/unload cycles,
    every load writes the record ["TestJSCmd loaded !"] to the logger
    [TestJSModule] and every unload runs the inherited hook, which does
    nothing; nothing else changes. *)
Theorem TestModule_lifecycle n w :
  cycles n getModule w =
  (Normal VUndefined,
   {| replies := replies w; logs := logs w ++ replicate n loaded;
      console := console w; actions := actions w; jobs := jobs w |}).
Proof.
  revert w. induction n as [|n IH]; intros w.
  - simpl. rewrite app_nil_r. by destruct w.
  - rewrite (cycles_S _ _ _ _ _ _ _ (load_logs w) (unload_inherited _)), IH.
    simpl. by rewrite <- app_assoc.
Qed.

End theorems.

(** ** The theorems at concrete messages *)

Definition bob (text : string) : Event :=
  {| raw := text; sender := "bob"; level := EVERYONE |}.

Lemma dispatch_testjs_witness :
  dispatch registry (bob "TestJS  add sword") (@empty_world unit) =
  (Invoked (Normal VUndefined),
   send (reply (bob "TestJS  add sword") (answer ["add"; "sword"])) empty_world).
Proof.
  apply (dispatch_testjs (bob "TestJS  add sword") empty_world
           "TestJS" ["add"; "sword"]); reflexivity.
Defined.

Lemma dispatch_rendered_witness :
  dispatch registry (bob (render ["testjs"; "add"; "a  b"])) (@empty_world unit) =
  (Invoked (Normal VUndefined),
   send (reply (bob (render ["testjs"; "add"; "a  b"])) (answer ["add"; "a  b"]))
     empty_world).
Proof.
  apply (dispatch_rendered (bob (render ["testjs"; "add"; "a  b"])) empty_world
           ["add"; "a  b"]); [reflexivity | by repeat constructor].
Defined.

(** The message [testjs ADD "Long Sword"], the argument in double
    quotes. *)
Definition quoted_message : string :=
  "testjs ADD " +:+ String quote_char "Long Sword" +:+ String quote_char "".

Lemma dispatch_add_witness :
  dispatch registry (bob quoted_message) (@empty_world unit) =
  (Invoked (Normal VUndefined),
   send (reply (bob quoted_message) "You wan to add: Long Sword") empty_world).
Proof.
  apply (dispatch_add (bob quoted_message) empty_world "testjs" "ADD" "Long Sword");
    reflexivity.
Defined.

Lemma dispatch_force_anywhere_witness :
  dispatch registry (bob "testjs add --force sword") (@empty_world unit) =
  (Invoked (Normal VUndefined),
   send (reply (bob "testjs add --force sword") "You wan to add: sword")
     empty_world).
Proof.
  apply (dispatch_force_anywhere (bob "testjs add --force sword") empty_world
           "testjs" ["add"] ["sword"] "--force"); reflexivity.
Defined.

End TestCommandJs.
