(* ===== verification/TestJs.v ===== *)
(** * [src/example/scripts/test.js]

    A module with a load hook and an unload hook, each of which writes one
    record to the logger [JS TestModule]. *)

From S2P Require Import Prelude Runtime Interop.

Module TestJs.

Import Runtime Interop.

Section script.
Context {K : Type}.

(** [var LOG = LoggerFactory.getLogger("JS TestModule");] *)
Definition LOG : Logger := getLogger "JS TestModule".

(** [info: new ModuleInfo("TestModule", "Author", "URL", "1.0", 1)] *)
Definition TestModule_info : ModuleInfo :=
  {| name := "TestModule"; author := "Author"; url := "URL";
     versionName := "1.0"; buildNumber := 1 |}.

(** [onLoad: function(moduleManager, builder) { LOG.info("Module loaded !"); }] *)
Definition TestModule_onLoad : JsValue → JsValue → Host K JsValue :=
  λ moduleManager builder, _ ← info_ LOG "Module loaded !"; mret VUndefined.

(** [onUnload: function () { LOG.info("Module unloaded !"); }] *)
Definition TestModule_onUnload : Host K JsValue :=
  _ ← info_ LOG "Module unloaded !"; mret VUndefined.

(** The object literal [{ info: ..., onLoad: ..., onUnload: ... }]. *)
Definition TestModule_members : Overrides K :=
  {| ov_info := Some TestModule_info;
     ov_onLoad := Some TestModule_onLoad;
     ov_onUnload := Some TestModule_onUnload |}.

(** [var TestModule = Java.extend(BaseJavaScriptModule, { ... });] *)
Definition TestModule : Module K :=
  Java_extend BaseJavaScriptModule TestModule_members.

(** [function getModule() { return new TestModule(); }] *)
Definition getModule : Module K := TestModule.

(** The record a hook of this module writes. *)
Definition record (message : string) : LogRecord :=
  {| logger := "JS TestModule"; log_level := INFO; log_message := message |}.

(** What [n] cycles write to the log: the two records, alternating. *)
Fixpoint cycle_log (n : nat) : list LogRecord :=
  match n with
  | 0 => []
  | S n' => record "Module loaded !" :: record "Module unloaded !" :: cycle_log n'
  end.

End script.

Section theorems.
Context {K : Type}.
Implicit Types (w : World K).

Lemma load_run w :
  load getModule w = (Normal VUndefined, write_log (record "Module loaded !") w).
Proof. done. Qed.

Lemma unload_run w :
  unload getModule w = (Normal VUndefined, write_log (record "Module unloaded !") w).
Proof. done. Qed.

(** The hooks only write to the log. *)
Lemma hooks_frame w :
  replies (load getModule w).2 = replies w ∧
  console (load getModule w).2 = console w ∧
  actions (load getModule w).2 = actions w ∧
  replies (unload getModule w).2 = replies w ∧
  console (unload getModule w).2 = console w ∧
  actions (unload getModule w).2 = actions w.
Proof. done. Qed.

Lemma cycle_log_length n : length (cycle_log n) = 2 * n.
Proof. induction n; simpl; lia. Qed.

(** C30. Lifecycle of the module, for any number of load/unload cycles: the
    hooks complete normally, every load is logged before the matching
    unload, and nothing else is written. *)
Theorem lifecycle_log n w :
  (cycles n getModule w).1 = Normal VUndefined ∧
  logs (cycles n getModule w).2 = logs w ++ cycle_log n ∧
  replies (cycles n getModule w).2 = replies w ∧
  console (cycles n getModule w).2 = console w.
Proof.
  revert w. induction n as [|n IH]; intros w.
  - simpl. by rewrite app_nil_r.
  - rewrite (cycles_S _ _ _ _ _ _ _ (load_run w) (unload_run _)).
    destruct (IH (write_log (record "Module unloaded !")
      (write_log (record "Module loaded !") w))) as (-> & -> & -> & ->).
    simpl. by rewrite <- !app_assoc.
Qed.

End theorems.

End TestJs.
