(* ===== verification/CommandAdapterJs.v ===== *)
(** * [src/ModularBot-NashornCommandSupport/src/main/resources/commandAdapter.js]

    The adapter module that the Nashorn command support loads.  Its load
    hook has an empty body. *)

From S2P Require Import Prelude Runtime Interop.

Module CommandAdapterJs.

Import Runtime Interop.

(** [var BaseJsModule = Java.type("...BaseJsModule");] *)
Definition BaseJsModule : JavaClass :=
  Java_type "com.jesus_crie.modularbot_nashornsupport.module.BaseJsModule".

(** [var ModuleInfo = Java.type("...BaseModule.ModuleInfo");] *)
Definition ModuleInfo_class : JavaClass :=
  Java_type "com.jesus_crie.modularbot.module.BaseModule.ModuleInfo".

Section script.
Context {K : Type}.

(** [info: new ModuleInfo("JS CommandAdapter", "Jesus-Crie", "https://...", "1.0", 1)] *)
Definition CommandAdapterModule_info : ModuleInfo :=
  {| name := "JS CommandAdapter"; author := "Jesus-Crie";
     url := "https://github.com/JesusCrie/ModularBot";
     versionName := "1.0"; buildNumber := 1 |}.

(** [onLoad: function (moduleManager, builder) { }] *)
Definition CommandAdapterModule_onLoad : JsValue → JsValue → Host K JsValue :=
  λ moduleManager builder, mret VUndefined.

(** The object literal [{ info: ..., onLoad: ... }]. *)
Definition CommandAdapterModule_members : Overrides K :=
  {| ov_info := Some CommandAdapterModule_info;
     ov_onLoad := Some CommandAdapterModule_onLoad;
     ov_onUnload := None |}.

(** [var CommandAdapterModule = Java.extend(BaseJsModule, { info, onLoad });] *)
Definition CommandAdapterModule : Module K :=
  Java_extend BaseJsModule CommandAdapterModule_members.

(** [function getModule() { return new CommandAdapterModule(); }] *)
Definition getModule : Module K := CommandAdapterModule.

End script.

Section theorems.
Context {K : Type}.
Implicit Types (w : World K).

Lemma adapter_load w : load getModule w = (Normal VUndefined, w).
Proof. done. Qed.

Lemma adapter_unload w : unload getModule w = (Normal VUndefined, w).
Proof. by apply Java_extend_unload_inherited. Qed.

(** The adapter is inert: through any number of load/unload cycles both
    hooks complete normally and the world, whatever it is, is unchanged. *)
Theorem adapter_inert n w : cycles n getModule w = (Normal VUndefined, w).
Proof.
  induction n as [|n IH]; [done|].
  by rewrite (cycles_S _ _ _ _ _ _ _ (adapter_load w) (adapter_unload w)).
Qed.

(** The adapter extends a class of another package than the one the
    example scripts' header binds: the two were written against different
    versions of the Nashorn support. *)
Lemma adapter_superclass :
  superclass (@getModule K) ≠ BaseJavaScriptModule ∧
  ModuleInfo_class = Interop.ModuleInfo_class.
Proof. done. Qed.

End theorems.

End CommandAdapterJs.
