(* ===== verification/MainJs.v ===== *)
(** * [src/example/main.js]

    A module class for the GraalVM host.  Its constructor registers the
    quick command [yolo] with the command module it is given; [onLoad]
    writes a line to the console; [acceptPromise] and [listenRestAction]
    chain function expressions on an action of the host, which run when the
    host settles the action and drains the job queue.

    The function expressions are the constructors of [Callback], run by
    [call]; the world of the script holds reactions over them.  The
    theorems on chaining fix an action that is pending in a world without
    queued jobs and describe the world once the host has settled the action
    and run the jobs, for the call made before and after the completion,
    and for any number of calls of [listenRestAction] on the same action
    ([listen_times]).  The methods are made of the primitives of
    the host, so they keep every relation between worlds that the
    primitives keep ([Store.Stable]), which is what the theorems on
    sequences of host steps in [Example] build on.  Called on an action
    the host made itself, a method raises the credit of the world by one
    line at most ([invoke_credit]) and its account by the lines the call
    will have written in the end ([invoke_account]), which is what
    [Polite] builds on. *)

From S2P Require Import Prelude Tokenizer AccessLevel Options Argument.
From S2P Require Import AsyncAction Runtime Promise Store Linear Output.
From S2P Require Import Credit Account Patterns Commands Dispatcher Interop.

Module MainJs.

#[local] Set Warnings "-clear-no-such-hyp".

Import Tokenizer AccessLevel Options Argument.
Import AsyncAction Runtime Promise Store Linear Output Credit Account.
Import Patterns Commands Dispatcher Interop.

Section script.
Context {K : Type}.

(** [e => e.fastReply("YOLO !")]: an arrow function with an expression
    body, so the handler returns what [fastReply] returns. *)
Definition yoloHandler : Event → Host K JsValue :=
  λ e, fastReply e "YOLO !".

(** [constructor(commandModule) {
       commandModule.registerQuickCommand("yolo", e => e.fastReply("YOLO !")); }]
    The command module's registry is the state the constructor changes;
    [None] stands for the registration error. *)
Definition constructor (commandModule : gmap string (Command K))
  : option (gmap string (Command K)) :=
  registerQuickCommand "yolo" yoloHandler commandModule.

(** [onLoad() { console.log("Loaded !") }] *)
Definition onLoad : Host K JsValue :=
  _ ← console_log (VStr "Loaded !"); mret VUndefined.

(** The reply the quick command sends in answer to [event]. *)
Definition yolo_reply (event : Event) : Reply :=
  {| in_reply_to := event; text := "YOLO !" |}.

End script.

(** ** The function expressions of the script *)

Inductive Callback :=
  | AcceptValue     (* [function (value) { console.log(value) }] of [acceptPromise] *)
  | AcceptReason    (* [function (reason) { console.error(reason) }] *)
  | ListenValue.    (* [function (value) { console.log(value) }] of [listenRestAction] *)

#[export] Instance Callback_eq_dec : EqDecision Callback.
Proof. solve_decision. Defined.

Abbreviation Script := (Reaction Callback).

(** The bodies are blocks without [return]: a call returns [undefined].

    [function (value) { console.log(value) }] in [acceptPromise]. *)
Definition acceptPromise_onValue (value : JsValue) : Host Script JsValue :=
  _ ← console_log value; mret VUndefined.

(** [function (reason) { console.error(reason) }] *)
Definition acceptPromise_onReason (reason : JsValue) : Host Script JsValue :=
  _ ← console_error reason; mret VUndefined.

(** [function (value) { console.log(value) }] in [listenRestAction]. *)
Definition listenRestAction_onValue (value : JsValue) : Host Script JsValue :=
  _ ← console_log value; mret VUndefined.

(** The call of a function expression by the host. *)
Definition call (cb : Callback) : JsValue → Host Script JsValue :=
  match cb with
  | AcceptValue => acceptPromise_onValue
  | AcceptReason => acceptPromise_onReason
  | ListenValue => listenRestAction_onValue
  end.

(** [acceptPromise(p) { p.then(function (value) {...}).catch(function (reason) {...}) }] *)
Definition acceptPromise (p : JsValue) : Host Script JsValue :=
  chained ← then_ p (Some AcceptValue) None;
  _ ← catch_ chained AcceptReason;
  mret VUndefined.

(** [listenRestAction(a) { a.then(function (value) {...}) }] *)
Definition listenRestAction (a : JsValue) : Host Script JsValue :=
  _ ← then_ a (Some ListenValue) None;
  mret VUndefined.

(** [class TestModule { constructor ... onLoad ... acceptPromise ...
    listenRestAction ... }] *)
Definition TestModule : Class (K:=Script) :=
  {| new := constructor;
     methods :=
       {[ "onLoad" := λ _, onLoad;
          "acceptPromise" := λ args, acceptPromise (parameter args 0);
          "listenRestAction" := λ args, listenRestAction (parameter args 0) ]} |}.

(** [Polyglot.export("class", TestModule)] in the bindings of a fresh
    context. *)
Definition exports : gmap string (Class (K:=Script)) :=
  Polyglot_export "class" TestModule ∅.

(** ** What the callbacks leave behind *)

(** The stream a callback writes to. *)
Definition stream_of (cb : Callback) : Stream :=
  match cb with AcceptReason => Stderr | _ => Stdout end.

(** The line [acceptPromise] writes for an outcome. *)
Definition outcome_line (o : JsValue + JsValue) : ConsoleLine :=
  match o with
  | inl v => {| stream := Stdout; line := v |}
  | inr e => {| stream := Stderr; line := e |}
  end.

(** The world once [acceptPromise] was called on the pending action [id],
    the action was settled with [o] and the jobs have run: one line on the
    console, and the two derived actions settled. *)
Definition accepted (id : nat) (o : JsValue + JsValue) (w : World Script)
  : World Script :=
  {| replies := replies w; logs := logs w;
     console := console w ++ [outcome_line o];
     actions := <[id := settled_with o]> (actions w) ++
                [settled_with (match o with inl _ => inl VUndefined | inr e => inr e end);
                 Resolved VUndefined];
     jobs := [] |}.

(** The same for [listenRestAction]: a line for a value, nothing for an
    error, which ends on the derived action. *)
Definition listened (id : nat) (o : JsValue + JsValue) (w : World Script)
  : World Script :=
  {| replies := replies w; logs := logs w;
     console := match o with
                | inl v => console w ++ [{| stream := Stdout; line := v |}]
                | inr _ => console w
                end;
     actions := <[id := settled_with o]> (actions w) ++
                [settled_with (match o with inl _ => inl VUndefined | inr e => inr e end)];
     jobs := [] |}.

(** The lines two calls of [acceptPromise] on two actions write, when the
    action of the outcome [first] is settled before the other: an error
    reaches its callback one job later than a value, so the value of the
    second is written before the error of the first. *)
Definition race_lines (first second : JsValue + JsValue) : list ConsoleLine :=
  match first, second with
  | inr _, inl _ => [outcome_line second; outcome_line first]
  | _, _ => [outcome_line first; outcome_line second]
  end.

(** The line a job writes when it runs: that of its callback, if it has
    one. *)
Definition job_lines (j : Firing JsValue JsValue Script) : list ConsoleLine :=
  match j with
  | FireSuccess r v | FireFailure r v =>
      option_list ((λ cb, {| stream := stream_of cb; line := v |}) <$> handler r)
  end.

(** [listenRestAction] called [n] times on the same action. *)
Fixpoint listen_times (n : nat) (a : JsValue) (w : World Script) : World Script :=
  match n with
  | 0 => w
  | S n' => listen_times n' a (listenRestAction a w).2
  end.

(** The line a value is logged as. *)
Definition value_line (v : JsValue) : ConsoleLine :=
  {| stream := Stdout; line := v |}.

(** The lines a call of a method can cause to be written, at once or by
    the callbacks it registers: one for [onLoad], the two callbacks of
    [acceptPromise], the callback of [listenRestAction]. *)
Definition cost (method : string) : nat :=
  if decide (method = "onLoad") then 1
  else if decide (method = "acceptPromise") then 2
  else if decide (method = "listenRestAction") then 1
  else 0.

(** The lines a call of a method causes to be written when the hosts
    complete no action but their own: one for each of the three
    methods. *)
Definition lines (method : string) : nat :=
  if decide (method ∈ ["onLoad"; "acceptPromise"; "listenRestAction"]) then 1 else 0.

(** The line a callback writes and what it returns. *)
Definition says (cb : Callback) (v : JsValue) : ConsoleLine :=
  {| stream := stream_of cb; line := v |}.

Definition returns (cb : Callback) (v : JsValue) : JsValue := VUndefined.

(** The lines a call of a method will have written in the end, given the
    fate of the actions: the line of [onLoad]; for [acceptPromise] the
    outcome of the action, if it is completed; for [listenRestAction] the
    value of the action, if it is resolved. *)
Definition said (fate : nat → option (JsValue + JsValue)) (method : string)
    (args : list JsValue) : list ConsoleLine :=
  if decide (method = "onLoad") then [value_line (VStr "Loaded !")]
  else match parameter args 0 with
       | VAction id =>
           match fate id with
           | Some o =>
               if decide (method = "acceptPromise") then [outcome_line o]
               else if decide (method = "listenRestAction")
                    then match o with inl v => [value_line v] | inr _ => [] end
               else []
           | None => []
           end
       | _ => []
       end.

Section theorems.
Context {K : Type}.
Implicit Types (w : World K) (ev : Event) (reg : gmap string (Command K)).

Local Abbreviation yolo := (quickCommand (K:=K) "yolo" yoloHandler).

Lemma yolo_well_formed : well_formed yolo.
Proof. apply quickCommand_well_formed. reflexivity. Qed.

Lemma yolo_keys : keys yolo = ["yolo"].
Proof. reflexivity. Qed.

Lemma constructor_fresh reg :
  reg !! "yolo" = None → constructor reg = Some (<["yolo" := yolo]> reg).
Proof.
  intros Hfree. unfold constructor, registerQuickCommand.
  rewrite register_free; [done | apply yolo_well_formed | by apply Forall_singleton].
Qed.

(** C31. The constructor succeeds exactly on a command module in which the
    alias [yolo] is free, and then adds that alias and nothing else. *)
Theorem constructor_Some reg reg' :
  constructor reg = Some reg' ↔ reg !! "yolo" = None ∧ reg' = <["yolo" := yolo]> reg.
Proof.
  unfold constructor, registerQuickCommand.
  rewrite register_Some. unfold free. rewrite yolo_keys, Forall_singleton.
  naive_solver eauto using yolo_well_formed.
Qed.

(** Constructing the module twice on the same command module is an
    error: the second registration of [yolo] is refused. *)
Theorem constructor_twice reg reg' :
  constructor reg = Some reg' → constructor reg' = None.
Proof. apply register_twice. Qed.

Lemma constructor_lookup reg reg' alias :
  constructor reg = Some reg' → eq_ci alias "yolo" →
  lookup_alias reg' alias = Some yolo.
Proof.
  intros Hc Halias. eapply register_lookup; [done|].
  rewrite yolo_keys, Halias. set_solver.
Qed.

(** Commands registered before are still resolved as before. *)
Lemma constructor_lookup_other reg reg' alias :
  constructor reg = Some reg' → ¬ eq_ci alias "yolo" →
  lookup_alias reg' alias = lookup_alias reg alias.
Proof.
  intros Hc Halias. eapply register_lookup_other; [done|].
  rewrite yolo_keys. intros H%list_elem_of_singleton. by apply Halias.
Qed.

(** In any registry in which the alias resolves to the quick command,
    dispatch sends the reply and returns the action of its delivery,
    whatever the sender and the further tokens. *)
Lemma dispatch_quick reg ev w alias rest :
  tokenize (raw ev) = alias :: rest → lookup_alias reg alias = Some yolo →
  dispatch reg ev w =
  (Invoked (Normal (VAction (length (actions w)))), send (yolo_reply ev) w).
Proof.
  intros Htok Hcmd.
  rewrite (dispatch_invoked _ _ _ _ _ _ Htok Hcmd (λ e _ _, yoloHandler e) []);
    [done | apply allow_everyone |].
  change (options yolo) with (@nil OptionKind). by rewrite resolve_nil.
Qed.

(** C24. Every message whose first token is [yolo], in any capitalisation, from
    any sender and with any further tokens, is answered ["YOLO !"]; the
    handler's result is the action of the reply's delivery, which is
    pending. *)
Theorem dispatch_yolo reg reg' ev w alias rest :
  constructor reg = Some reg' →
  tokenize (raw ev) = alias :: rest → eq_ci alias "yolo" →
  dispatch reg' ev w =
  (Invoked (Normal (VAction (length (actions w)))), send (yolo_reply ev) w) ∧
  actions (send (yolo_reply ev) w) !! length (actions w) = Some AsyncAction.init.
Proof.
  intros Hc Htok Halias. split.
  - eapply dispatch_quick; [done|]. by eapply constructor_lookup.
  - apply (fastReply_fresh ev "YOLO !").
Qed.

(** [onLoad] writes one line to standard output and nothing else. *)
Lemma onLoad_run w :
  onLoad w =
  (Normal VUndefined,
   write_console {| stream := Stdout; line := VStr "Loaded !" |} w).
Proof. done. Qed.

End theorems.

(** ** Chained callbacks *)

Lemma call_run cb v w :
  call cb v w =
  (Normal VUndefined, write_console {| stream := stream_of cb; line := v |} w).
Proof. by destruct cb. Qed.

(** The callbacks write to the console and leave the store and the queue
    alone. *)
#[export] Instance call_frame : StoreFrame call.
Proof. intros cb v w. by rewrite call_run. Qed.

Ltac run_simpl :=
  repeat first
    [ store_step | rewrite call_run | progress cbn -[run_jobs call]
    | erewrite run_jobs_step by done ].

Section chained.
Implicit Types (w : World Script) (o : JsValue + JsValue).

(** The two calls of [acceptPromise] on an action in any state: two
    derived actions are allocated, the second chained on the first. *)
Lemma acceptPromise_run id w st :
  actions w !! id = Some st →
  acceptPromise (VAction id) w =
  (Normal VUndefined,
   let d := length (actions w) in
   let r := Promise.register (Some AcceptValue) None d st in
   {| replies := replies w; logs := logs w; console := console w;
      actions := <[id := r.1]> (actions w) ++
        [Pending [{| handler := None; derived := S d |}]
                 [{| handler := Some AcceptReason; derived := S d |}]; init];
      jobs := jobs w ++ r.2 |}).
Proof.
  intros Hst. unfold acceptPromise, catch_, mbind, Host_bind, bind.
  rewrite (then_run _ _ _ _ _ Hst).
  erewrite then_run by apply lookup_insert_app_0.
  simpl. rewrite length_app, length_insert, Nat.add_1_r. simpl.
  rewrite (insert_insert_app_r _ _ _ 0) by lia. simpl.
  by rewrite app_nil_r, <- app_assoc.
Qed.

(** After the call the action holds the callback for its value, behind
    the reactions it held before. *)
Lemma acceptPromise_registered id w ss fs :
  actions w !! id = Some (Pending ss fs) →
  ∃ fs', actions (acceptPromise (VAction id) w).2 !! id =
         Some (Pending (ss ++ [{| handler := Some AcceptValue;
                                  derived := length (actions w) |}]) fs').
Proof.
  intros Hst. rewrite (acceptPromise_run _ _ _ Hst). eexists. cbn.
  apply lookup_insert_app. by eapply lookup_lt_Some.
Qed.

(** The chain the call builds on a pending action: the action passes
    its error on to the first derived action, which holds the callback for
    the error. *)
Lemma acceptPromise_chained id w ss fs :
  actions w !! id = Some (Pending ss fs) →
  let d := length (actions w) in
  let w1 := (acceptPromise (VAction id) w).2 in
  actions w1 !! id =
    Some (Pending (ss ++ [{| handler := Some AcceptValue; derived := d |}])
                  (fs ++ [{| handler := None; derived := d |}])) ∧
  actions w1 !! d =
    Some (Pending [{| handler := None; derived := S d |}]
                  [{| handler := Some AcceptReason; derived := S d |}]).
Proof.
  intros Hst. rewrite (acceptPromise_run _ _ _ Hst). cbn. split.
  - apply lookup_insert_app. by eapply lookup_lt_Some.
  - apply lookup_insert_app_0.
Qed.

Lemma listenRestAction_run id w st :
  actions w !! id = Some st →
  listenRestAction (VAction id) w =
  (Normal VUndefined,
   let r := Promise.register (Some ListenValue) None (length (actions w)) st in
   {| replies := replies w; logs := logs w; console := console w;
      actions := <[id := r.1]> (actions w) ++ [init];
      jobs := jobs w ++ r.2 |}).
Proof.
  intros Hst. unfold listenRestAction, mbind, Host_bind, bind.
  by rewrite (then_run _ _ _ _ _ Hst).
Qed.

Section pending.
Context (id : nat) (w : World Script).
Context (Hjobs : jobs w = []) (Hst : actions w !! id = Some init).

Lemma pending_lt : id < length (actions w).
Proof. by eapply lookup_lt_Some. Qed.

(** Registration first, completion second. *)
Lemma acceptPromise_settle o :
  run_jobs call 2 (settle id o (acceptPromise (VAction id) w).2) =
  Some (accepted id o w).
Proof.
  pose proof pending_lt. rewrite (acceptPromise_run _ _ _ Hst).
  destruct o; run_simpl; rewrite Hjobs; by run_simpl.
Qed.

(** Completion first, registration second. *)
Lemma settle_acceptPromise o :
  run_jobs call 2 (acceptPromise (VAction id) (settle id o w)).2 =
  Some (accepted id o w).
Proof.
  pose proof pending_lt. rewrite (settle_run _ _ _ _ Hst).
  erewrite acceptPromise_run by (by apply list_lookup_insert_eq).
  destruct o; run_simpl; rewrite Hjobs, length_insert; by run_simpl.
Qed.

Lemma listenRestAction_settle o :
  run_jobs call 1 (settle id o (listenRestAction (VAction id) w).2) =
  Some (listened id o w).
Proof.
  pose proof pending_lt. rewrite (listenRestAction_run _ _ _ Hst).
  destruct o; run_simpl; rewrite Hjobs; by run_simpl.
Qed.

Lemma settle_listenRestAction o :
  run_jobs call 1 (listenRestAction (VAction id) (settle id o w)).2 =
  Some (listened id o w).
Proof.
  pose proof pending_lt. rewrite (settle_run _ _ _ _ Hst).
  erewrite listenRestAction_run by (by apply list_lookup_insert_eq).
  destruct o; run_simpl; rewrite Hjobs, ?length_insert; by run_simpl.
Qed.

(** C3. Whatever the order of the call and the completion, the job loop
    ends within two jobs, in the same world for both orders, and
    [acceptPromise] has written exactly one line: the value on standard
    output when the action resolves, the error on standard error when it
    is rejected; replies and logs are untouched and no job is left. *)
Theorem acceptPromise_once o :
  ∃ w', run_jobs call 2 (settle id o (acceptPromise (VAction id) w).2) = Some w' ∧
        run_jobs call 2 (acceptPromise (VAction id) (settle id o w)).2 = Some w' ∧
        console w' = console w ++ [outcome_line o] ∧
        replies w' = replies w ∧ logs w' = logs w ∧ jobs w' = [].
Proof.
  exists (accepted id o w). by rewrite acceptPromise_settle, settle_acceptPromise.
Qed.

(** C26. [listenRestAction] registers no callback for errors: a rejection
    writes nothing and ends on the derived action, which stays rejected
    with no reaction to run. *)
Theorem listenRestAction_rejected e :
  ∃ w', run_jobs call 1 (settle id (inr e) (listenRestAction (VAction id) w).2) = Some w' ∧
    console w' = console w ∧ logs w' = logs w ∧
    actions w' !! length (actions w) = Some (Rejected e).
Proof.
  eexists. split; [apply listenRestAction_settle|]. simpl.
  repeat split. apply lookup_insert_app_0.
Qed.

(** A value is written once on standard output, in either order. *)
Theorem listenRestAction_resolved v :
  run_jobs call 1 (settle id (inl v) (listenRestAction (VAction id) w).2) =
    Some (listened id (inl v) w) ∧
  run_jobs call 1 (listenRestAction (VAction id) (settle id (inl v) w)).2 =
    Some (listened id (inl v) w).
Proof. split; [apply listenRestAction_settle | apply settle_listenRestAction]. Qed.

End pending.

(** ** Two actions *)

Section race.
Context (a b : nat) (w : World Script).
Context (Hjobs : jobs w = []) (Hne : a ≠ b).
Context (Ha : actions w !! a = Some init) (Hb : actions w !! b = Some init).

(** C8. [acceptPromise] is called on [a], then on [b]; the host settles [b],
    then [a], and runs the jobs.  The lines come out in the order of the
    completions, not of the calls, unless the first completion is an error
    and the second a value. *)
Theorem acceptPromise_race ob oa :
  ∃ w', run_jobs call 4
          (settle a oa (settle b ob
             (acceptPromise (VAction b) (acceptPromise (VAction a) w).2).2)) = Some w' ∧
    console w' = console w ++ race_lines ob oa ∧ jobs w' = [].
Proof.
  pose proof (lookup_lt_Some _ _ _ Ha). pose proof (lookup_lt_Some _ _ _ Hb).
  rewrite (acceptPromise_run _ _ _ Ha). cbn [snd].
  erewrite acceptPromise_run by store_lookup.
  cbn -[run_jobs call]. store_length. rewrite Hjobs.
  erewrite (settle_run b), (settle_run a) by store_lookup.
  destruct ob as [vb|eb], oa as [va|ea]; cbn -[run_jobs call];
    do 4 (erewrite run_jobs_step by done; cbn -[run_jobs call]; rewrite ?call_run;
          cbn -[run_jobs call]; erewrite settle_run by store_lookup;
          cbn -[run_jobs call]);
    rewrite run_jobs_empty by done;
    (eexists; split; [done|]; cbn; by rewrite <- !app_assoc).
Qed.

End race.

(** ** Many listeners on one action *)

Lemma listen_times_then_all n id w :
  listen_times n (VAction id) w = then_all id (replicate n ListenValue) w.
Proof. revert w. induction n as [|n IH]; intros w; [done|]. simpl. by rewrite IH. Qed.

(** The jobs of [k] listeners whose derived actions are pending run in
    [k] steps and write the value [k] times. *)
Lemma run_listeners k d v w :
  jobs w = (λ r, FireSuccess r v) <$> reactions Some d (replicate k ListenValue) →
  (∀ i, i < k → actions w !! (d + i) = Some init) →
  ∃ w', run_jobs call k w = Some w' ∧
    console w' = console w ++ replicate k (value_line v) ∧
    replies w' = replies w ∧ logs w' = logs w ∧ jobs w' = [].
Proof.
  revert d w. induction k as [|k IH]; intros d w Hjobs Hinit.
  { exists w. rewrite run_jobs_empty by done. by rewrite app_nil_r. }
  cbn [replicate] in Hjobs. rewrite reactions_cons in Hjobs.
  erewrite run_jobs_step by done. cbn [run_job react handler derived].
  rewrite call_run. cbn -[run_jobs call].
  pose proof (Hinit 0 ltac:(lia)) as H0. rewrite Nat.add_0_r in H0.
  erewrite settle_run by done. cbn -[run_jobs call].
  edestruct (IH (S d)) as (w' & Hrun & Hc & Hr & Hl & Hj); last first.
  { exists w'. rewrite Hrun, Hc, Hr, Hl, Hj. cbn. by rewrite <- app_assoc. }
  - intros i Hi. cbn. rewrite list_lookup_insert_ne by lia.
    rewrite <- Nat.add_succ_r. apply Hinit. lia.
  - cbn. by rewrite app_nil_r.
Qed.

(** C22. The action is shared by everyone who chains on it: when
    [listenRestAction] is called [m] times before the action resolves and
    [n] times after, each of the [m + n] callbacks runs exactly once, so the
    value is written [m + n] times and nothing else changes. *)
Theorem listen_many m n id v w :
  jobs w = [] → actions w !! id = Some init →
  ∃ w', run_jobs call (m + n)
          (listen_times n (VAction id) (settle id (inl v) (listen_times m (VAction id) w)))
        = Some w' ∧
    console w' = console w ++ replicate (m + n) (value_line v) ∧
    replies w' = replies w ∧ logs w' = logs w ∧ jobs w' = [].
Proof.
  intros Hjobs Hst. pose proof (lookup_lt_Some _ _ _ Hst) as Hid.
  rewrite !listen_times_then_all, then_all_interleave by done.
  rewrite (then_all_pending _ _ _ _ _ Hst).
  erewrite settle_run by (by apply lookup_insert_app).
  rewrite <- replicate_add.
  edestruct (run_listeners (m + n) (length (actions w)) v) as (w' & Hrun & Hw');
    [| |exists w'; split; [exact Hrun|exact Hw']].
  - cbn. by rewrite Hjobs.
  - intros i Hi. cbn. rewrite insert_insert_app by done.
    rewrite (lookup_insert_app_r _ _ _ i), length_replicate by done.
    by apply lookup_replicate_2.
Qed.

(** ** The methods keep what the primitives keep *)

Section stable.
Context (R : relation (World Script)) `{!Stable call R}.

Lemma call_stable cb v : respects R (call cb v).
Proof. intros w. rewrite call_run. apply stable_write_console. Qed.

Lemma onLoad_stable : respects R onLoad.
Proof. apply (stable_console_log call R). Qed.

Lemma acceptPromise_stable p : respects R (acceptPromise p).
Proof.
  unfold acceptPromise.
  apply (respects_bind R); [apply stable_then | intros d].
  apply (respects_bind R);
    [apply (stable_catch call R) | intros _; apply (respects_ret R)].
Qed.

Lemma listenRestAction_stable a : respects R (listenRestAction a).
Proof.
  unfold listenRestAction.
  apply (respects_bind R); [apply stable_then | intros _; apply (respects_ret R)].
Qed.

Lemma methods_stable method f args :
  methods TestModule !! method = Some f → respects R (f args).
Proof.
  cbn [methods TestModule]. rewrite !lookup_insert_Some, lookup_singleton_Some.
  intros [[_ <-]|[_ [[_ <-]|[_ [_ <-]]]]];
    [apply onLoad_stable | apply acceptPromise_stable
    | apply listenRestAction_stable].
Qed.

Lemma invoke_stable method args :
  respects R (invoke exports "class" method args).
Proof.
  intros w. unfold invoke, exports, Polyglot_export. rewrite lookup_insert_eq.
  cbn [mbind option_bind].
  destruct (methods TestModule !! method) as [f|] eqn:Hf; [|reflexivity].
  by eapply methods_stable.
Qed.

End stable.

(** ** Jobs and replies *)

(** A job that runs and a reply that is sent do not see each other. *)
Lemma react_send r o rp w :
  derived r < length (actions w) →
  react call r o (send rp w) = send rp (react call r o w).
Proof.
  intros Hr. unfold react. destruct (handler r) as [cb|]; [|by apply settle_send].
  rewrite !call_run. cbn [fst snd].
  change (write_console ?l (send rp w)) with (send rp (write_console l w)).
  by apply settle_send.
Qed.

Lemma tick_send rp w :
  world_ok w → tick call (send rp w) = send rp (tick call w).
Proof.
  intros [_ Hj]. unfold tick. simpl. destruct (jobs w) as [|j js]; [done|].
  apply Forall_cons in Hj as [Hj _].
  destruct j; by apply (react_send _ _ rp (set_jobs js w)).
Qed.

(** ** What a call can cause to be written *)

#[export] Instance call_writer : Writer call.
Proof.
  split; [apply _|..]; intros cb v w; rewrite call_run; simpl.
  - repeat split; simpl; by try apply prefix_app_r.
  - rewrite length_app. simpl. lia.
Qed.

Lemma onLoad_balance w : balance (onLoad w).2 = S (balance w).
Proof. unfold balance, owed. simpl. rewrite length_app. simpl. lia. Qed.

Lemma acceptPromise_balance p w : balance (acceptPromise p w).2 ≤ balance w + 2.
Proof.
  unfold acceptPromise, catch_, mbind, Host_bind, bind.
  pose proof (balance_then p (Some AcceptValue) None w) as H1.
  destruct (then_ p _ _ w) as [[d|e] w1]; simpl in *; [|lia].
  pose proof (balance_then d None (Some AcceptReason) w1) as H2.
  destruct (then_ d _ _ w1) as [[d'|e] w2]; simpl in *; lia.
Qed.

Lemma listenRestAction_balance a w : balance (listenRestAction a w).2 ≤ balance w + 1.
Proof.
  unfold listenRestAction, mbind, Host_bind, bind.
  pose proof (balance_then a (Some ListenValue) None w) as H1.
  destruct (then_ a _ _ w) as [[d|e] w1]; simpl in *; lia.
Qed.

Lemma invoke_balance method args w :
  balance (invoke exports "class" method args w).2 ≤ balance w + cost method.
Proof.
  unfold invoke, exports, Polyglot_export. rewrite lookup_insert_eq.
  cbn [mbind option_bind].
  destruct (methods TestModule !! method) as [f|] eqn:Hf; [|simpl; lia].
  revert Hf. cbn [methods TestModule].
  rewrite !lookup_insert_Some, lookup_singleton_Some.
  intros [[<- <-]|[_ [[<- <-]|[_ [<- <-]]]]].
  - rewrite onLoad_balance. change (cost "onLoad") with 1. lia.
  - apply acceptPromise_balance.
  - apply listenRestAction_balance.
Qed.

(** ** One line for each call *)

#[export] Instance call_total : Total call.
Proof. intros cb v w. rewrite call_run. by eexists. Qed.

#[export] Instance call_exact : Exact says returns call.
Proof. intros cb v w. apply call_run. Qed.

(** In a world whose roots are [roots], a call of a method on a root
    keeps the invariant of [Credit] and raises the credit by one line at
    most: of the two callbacks of [acceptPromise] one only can run. *)
Section credit.
Context (roots : gset nat) (w : World Script) (Hinv : inv roots w).

Lemma onLoad_credit :
  inv roots (onLoad w).2 ∧ credit roots (onLoad w).2 ≤ credit roots w + 1.
Proof.
  split; [by apply (inv_frame roots w)|].
  rewrite onLoad_run. cbn [snd]. rewrite credit_write_console. lia.
Qed.

Lemma acceptPromise_credit p :
  (∀ id, p = VAction id → id ∈ roots) →
  inv roots (acceptPromise p w).2 ∧
  credit roots (acceptPromise p w).2 ≤ credit roots w + 1.
Proof.
  intros Hp. destruct p as [| | | |id|]; try (split; [done | simpl; lia]).
  specialize (Hp id eq_refl).
  destruct (lookup_lt_is_Some_2 (actions w) id) as [st Hst]; [by apply Hinv|].
  rewrite (acceptPromise_run _ _ _ Hst). cbv zeta. cbn [snd].
  match goal with |- inv _ ?x ∧ _ => set (w' := x) end.
  assert (actions w' =
          <[id := (Promise.register (Some AcceptValue) None (length (actions w)) st).1]>
            (actions w) ++
          [Pending [{| handler := None; derived := S (length (actions w)) |}]
                   [{| handler := Some AcceptReason; derived := S (length (actions w)) |}];
           init]) as Ha by done.
  apply (register_root roots w w' id st (Some AcceptValue) None _
           Hinv Hp Hst eq_refl Ha eq_refl);
    [done | repeat constructor; simpl; try lia; charge_ext Ha | charge_ext Ha..].
Qed.

Lemma listenRestAction_credit a :
  (∀ id, a = VAction id → id ∈ roots) →
  inv roots (listenRestAction a w).2 ∧
  credit roots (listenRestAction a w).2 ≤ credit roots w + 1.
Proof.
  intros Hp. destruct a as [| | | |id|]; try (split; [done | simpl; lia]).
  specialize (Hp id eq_refl).
  destruct (lookup_lt_is_Some_2 (actions w) id) as [st Hst]; [by apply Hinv|].
  rewrite (listenRestAction_run _ _ _ Hst). cbv zeta. cbn [snd].
  match goal with |- inv _ ?x ∧ _ => set (w' := x) end.
  assert (actions w' =
          <[id := (Promise.register (Some ListenValue) None (length (actions w)) st).1]>
            (actions w) ++ [init]) as Ha by done.
  apply (register_root roots w w' id st (Some ListenValue) None _
           Hinv Hp Hst eq_refl Ha eq_refl);
    [done | repeat constructor; simpl; try lia; charge_ext Ha | charge_ext Ha..].
Qed.

Lemma invoke_credit method args :
  (∀ id, parameter args 0 = VAction id → id ∈ roots) →
  inv roots (invoke exports "class" method args w).2 ∧
  credit roots (invoke exports "class" method args w).2 ≤ credit roots w + lines method.
Proof.
  intros Hp. unfold invoke, exports, Polyglot_export. rewrite lookup_insert_eq.
  cbn [mbind option_bind].
  destruct (methods TestModule !! method) as [m|] eqn:Hm; [|split; [done | simpl; lia]].
  revert Hm. cbn [methods TestModule].
  rewrite !lookup_insert_Some, lookup_singleton_Some.
  intros [[<- <-]|[_ [[<- <-]|[_ [<- <-]]]]];
    [apply onLoad_credit | by apply acceptPromise_credit
    | by apply listenRestAction_credit].
Qed.

End credit.

(** ** The lines of a call, given the fate of its action *)

(** The same calls counted exactly: in a world that keeps the invariant
    of [Credit], a call of a method on a root adds to the account of the
    world the lines the call will have written once the root has met its
    fate. *)
Section account.
Context (fate : nat → option (JsValue + JsValue)) (roots : gset nat).
Context (w : World Script) (Hinv : inv roots w).

Local Abbreviation account := (account says returns).

(** A registration keeps the fate of the action it is made on. *)
Lemma register_fate id st (f g : option Callback) w' ext :
  agrees fate w' → actions w !! id = Some st →
  actions w' = <[id := (Promise.register f g (length (actions w)) st).1]> (actions w) ++ ext →
  ∀ o, outcome_of st = Some o → fate id = Some o.
Proof.
  intros Hfate Hst Ha o Ho. apply (Hfate id (Promise.register f g (length (actions w)) st).1).
  - rewrite Ha. apply lookup_insert_app. by eapply lookup_lt_Some.
  - by destruct st.
Qed.

Lemma said_acceptPromise id :
  said fate "acceptPromise" [VAction id] =
  match fate id with Some o => [outcome_line o] | None => [] end.
Proof. done. Qed.

Lemma said_listenRestAction id :
  said fate "listenRestAction" [VAction id] =
  match fate id with Some (inl v) => [value_line v] | _ => [] end.
Proof. unfold said. simpl. by destruct (fate id) as [[]|]. Qed.

Lemma acceptPromise_account p :
  (∀ id, p = VAction id → id ∈ roots) → agrees fate (acceptPromise p w).2 →
  account fate roots (acceptPromise p w).2 =
  account fate roots w ⊎ list_to_set_disj (said fate "acceptPromise" [p]).
Proof.
  intros Hp. destruct p as [| | | |id|]; try (simpl; multiset_solver).
  specialize (Hp id eq_refl). rewrite said_acceptPromise.
  destruct (lookup_lt_is_Some_2 (actions w) id) as [st Hst]; [by apply Hinv|].
  rewrite (acceptPromise_run _ _ _ Hst). cbv zeta. cbn [snd].
  match goal with |- agrees _ ?x → _ => set (w' := x) end. intros Hfate.
  assert (actions w' =
          <[id := (Promise.register (Some AcceptValue) None (length (actions w)) st).1]>
            (actions w) ++
          [Pending [{| handler := None; derived := S (length (actions w)) |}]
                   [{| handler := Some AcceptReason; derived := S (length (actions w)) |}];
           init]) as Ha by done.
  rewrite (account_register says returns fate roots w w' id st (Some AcceptValue) None _
             Hinv Hp Hst eq_refl Ha eq_refl); [|by eapply register_fate].
  f_equal. destruct (fate id) as [[]|]; yield_ext Ha.
Qed.

Lemma listenRestAction_account a :
  (∀ id, a = VAction id → id ∈ roots) → agrees fate (listenRestAction a w).2 →
  account fate roots (listenRestAction a w).2 =
  account fate roots w ⊎ list_to_set_disj (said fate "listenRestAction" [a]).
Proof.
  intros Hp. destruct a as [| | | |id|]; try (simpl; multiset_solver).
  specialize (Hp id eq_refl). rewrite said_listenRestAction.
  destruct (lookup_lt_is_Some_2 (actions w) id) as [st Hst]; [by apply Hinv|].
  rewrite (listenRestAction_run _ _ _ Hst). cbv zeta. cbn [snd].
  match goal with |- agrees _ ?x → _ => set (w' := x) end. intros Hfate.
  assert (actions w' =
          <[id := (Promise.register (Some ListenValue) None (length (actions w)) st).1]>
            (actions w) ++ [init]) as Ha by done.
  rewrite (account_register says returns fate roots w w' id st (Some ListenValue) None _
             Hinv Hp Hst eq_refl Ha eq_refl); [|by eapply register_fate].
  f_equal. destruct (fate id) as [[]|]; yield_ext Ha.
Qed.

Lemma said_parameter method args :
  said fate method args = said fate method [parameter args 0].
Proof. unfold said. by destruct (parameter args 0). Qed.

Lemma invoke_account method args :
  (∀ id, parameter args 0 = VAction id → id ∈ roots) →
  agrees fate (invoke exports "class" method args w).2 →
  account fate roots (invoke exports "class" method args w).2 =
  account fate roots w ⊎ list_to_set_disj (said fate method args).
Proof.
  intros Hp. unfold invoke, exports, Polyglot_export. rewrite lookup_insert_eq.
  cbn [mbind option_bind].
  destruct (methods TestModule !! method) as [m|] eqn:Hm; revert Hm;
    cbn [methods TestModule].
  - rewrite !lookup_insert_Some, lookup_singleton_Some.
    intros [[<- <-]|[_ [[<- <-]|[_ [<- <-]]]]]; rewrite said_parameter.
    + intros _. rewrite onLoad_run. cbn [snd]. rewrite account_write_console.
      unfold said. simpl. multiset_solver.
    + by apply acceptPromise_account.
    + by apply listenRestAction_account.
  - rewrite !lookup_insert_None, lookup_singleton_None. intros ((? & ?) & ?) _.
    cbn [snd]. unfold said. repeat case_match; done || multiset_solver.
Qed.

End account.

(** ** Every queued job runs *)

(** One job: it leaves the queue, what it fires joins the queue at the
    end, and the console gains the line of its callback. *)
Lemma tick_cons j js w :
  jobs w = j :: js →
  ∃ new, jobs (tick call w) = js ++ new ∧
         console (tick call w) = console w ++ job_lines j.
Proof.
  intros Hjobs. unfold tick. rewrite Hjobs.
  destruct j as [r v|r v]; unfold run_job, react, job_lines;
    destruct (handler r) as [cb|]; rewrite ?call_run; cbn [option_list fmap option_fmap option_map];
    unfold settle, apply_action;
    match goal with |- context [actions ?w !! ?i] => destruct (actions w !! i) end;
    simpl; rewrite ?app_nil_r; eauto using app_nil_r.
Qed.

(** When the queue has drained, the console has gained the lines of
    all the jobs that were queued. *)
Lemma run_jobs_console fuel w w' :
  run_jobs call fuel w = Some w' →
  ∃ l, console w' = console w ++ l ∧ ∀ j, j ∈ jobs w → job_lines j ⊆ l.
Proof.
  revert w. induction fuel as [|fuel IH]; intros w; simpl;
    destruct (jobs w) as [|j js] eqn:Hjobs; try done;
    try (intros [= <-]; exists []; rewrite app_nil_r; split; [done | set_solver]).
  intros (l & Hl & Hin)%IH.
  destruct (tick_cons _ _ _ Hjobs) as (new & Hq & Hc).
  exists (job_lines j ++ l). rewrite Hl, Hc, <- app_assoc. split; [done|].
  rewrite Hq in Hin. intros j' [->|Hj']%elem_of_cons; [set_solver|].
  specialize (Hin j'). set_solver.
Qed.

(** A callback registered for the error of a derived action is run once
    the action it derives from is rejected, when the error passes through:
    the job that carries the error settles the derived action, which
    nobody else does. *)
Lemma reject_logged id e w ss fs d ss1 fs1 cb d2 :
  sound w → id ≠ d →
  actions w !! id = Some (Pending ss fs) →
  {| handler := None; derived := d |} ∈ fs →
  actions w !! d = Some (Pending ss1 fs1) →
  {| handler := Some cb; derived := d2 |} ∈ fs1 →
  ∃ w', run_jobs call (measure (settle id (inr e) w)) (settle id (inr e) w) = Some w' ∧
        jobs w' = [] ∧ {| stream := stream_of cb; line := e |} ∈ console w'.
Proof.
  intros Hw Hne Hst Hr Hd Hcb.
  destruct (run_jobs_terminates call (measure (settle id (inr e) w)) (settle id (inr e) w))
    as (w' & Hrun & Hq); [done|].
  exists w'. split; [done|]. split; [done|].
  apply list_elem_of_split in Hr as (fs0 & fs2 & ->).
  edestruct (drain_passes call (jobs w ++ ((λ r, FireFailure r e) <$> fs0)))
    as (fuel1 & w1 & Hin & Hrun1); [| | |exact Hcb|exact Hrun|].
  - by apply (stable_settle (call:=call) (R := keeps sound)).
  - rewrite (settle_run _ _ _ _ Hst). simpl.
    by rewrite fmap_app, fmap_cons, <- app_assoc.
  - unfold settle. by rewrite apply_action_lookup_ne.
  - destruct (run_jobs_console _ _ _ Hrun1) as (l & -> & Hl).
    apply elem_of_app. right. apply (Hl _ Hin). by left.
Qed.

(** A callback registered for the value of a pending action is run once
    the action resolves, whatever else the world holds: draining the queue
    ends, and the value is on the console. *)
Lemma resolve_logged id v w ss fs cb d :
  actions w !! id = Some (Pending ss fs) →
  {| handler := Some cb; derived := d |} ∈ ss →
  ∃ w', run_jobs call (measure (settle id (inl v) w)) (settle id (inl v) w) = Some w' ∧
        jobs w' = [] ∧ {| stream := stream_of cb; line := v |} ∈ console w'.
Proof.
  intros Hst Hr.
  destruct (run_jobs_terminates call (measure (settle id (inl v) w)) (settle id (inl v) w))
    as (w' & Hrun & Hq); [done|].
  exists w'. split; [done|]. split; [done|].
  destruct (run_jobs_console _ _ _ Hrun) as (l & -> & Hin).
  apply elem_of_app. right.
  apply (Hin (FireSuccess {| handler := Some cb; derived := d |} v)); [|by left].
  rewrite (settle_run _ _ _ _ Hst). simpl. apply elem_of_app. right.
  by apply (list_elem_of_fmap_2 (λ r, FireSuccess r v)).
Qed.

(** C32. Called on anything but an action, [acceptPromise] throws and changes
    nothing. *)
Theorem acceptPromise_not_action p w :
  (∀ id, p ≠ VAction id) →
  acceptPromise p w = (Throw (TypeError "then is not a function"), w).
Proof.
  intros Hp. unfold acceptPromise, mbind, Host_bind, bind.
  by rewrite then_not_action.
Qed.

(** The host calling [acceptPromise] without an argument gets the
    exception. *)
Theorem invoke_acceptPromise_no_argument w :
  invoke exports "class" "acceptPromise" [] w =
  (Throw (TypeError "then is not a function"), w).
Proof. done. Qed.

(** C25. The job queue of the script always drains: with as much fuel as the
    measure of the world, [run_jobs] ends with an empty queue. *)
Theorem jobs_drain fuel w :
  measure w ≤ fuel → ∃ w', run_jobs call fuel w = Some w' ∧ jobs w' = [].
Proof. apply run_jobs_terminates, _. Qed.

End chained.

(** ** The theorems at concrete inputs *)

Definition alice (text : string) : Event :=
  {| raw := text; sender := "alice"; level := MODERATOR |}.

(** A world with one pending action and nothing else. *)
Definition one_pending : World Script :=
  {| replies := []; logs := []; console := []; actions := [init]; jobs := [] |}.

(** A world with two pending actions and nothing else. *)
Definition two_pending : World Script :=
  {| replies := []; logs := []; console := []; actions := [init; init]; jobs := [] |}.

Lemma constructor_Some_witness :
  constructor (∅ : gmap string (Command unit)) =
  Some (<["yolo" := quickCommand "yolo" yoloHandler]> ∅).
Proof. by apply constructor_Some. Defined.

Lemma constructor_twice_witness :
  constructor (<["yolo" := quickCommand "yolo" yoloHandler]> ∅
               : gmap string (Command unit)) = None.
Proof. apply (constructor_twice ∅). by apply constructor_fresh. Defined.

Lemma dispatch_yolo_witness :
  dispatch (<["yolo" := quickCommand "yolo" yoloHandler]> ∅)
    (alice "YOLO and more") (@empty_world unit) =
  (Invoked (Normal (VAction 0)), send (yolo_reply (alice "YOLO and more")) empty_world) ∧
  actions (send (yolo_reply (alice "YOLO and more")) (@empty_world unit)) !! 0 =
  Some AsyncAction.init.
Proof.
  apply (dispatch_yolo ∅ _ (alice "YOLO and more") empty_world "YOLO" ["and"; "more"]);
    [by apply constructor_fresh | reflexivity | reflexivity].
Defined.

Lemma acceptPromise_once_witness :
  ∃ w', run_jobs call 2
          (settle 0 (inr (VStr "timeout")) (acceptPromise (VAction 0) one_pending).2)
        = Some w' ∧
        run_jobs call 2
          (acceptPromise (VAction 0) (settle 0 (inr (VStr "timeout")) one_pending)).2
        = Some w' ∧
        console w' = [] ++ [{| stream := Stderr; line := VStr "timeout" |}] ∧
        replies w' = [] ∧ logs w' = [] ∧ jobs w' = [].
Proof.
  exact (acceptPromise_once 0 one_pending eq_refl eq_refl (inr (VStr "timeout"))).
Defined.

Lemma acceptPromise_race_witness :
  ∃ w', run_jobs call 4
          (settle 0 (inl (VNum 7)) (settle 1 (inr (VStr "timeout"))
             (acceptPromise (VAction 1) (acceptPromise (VAction 0) two_pending).2).2))
        = Some w' ∧
    console w' = [] ++ [value_line (VNum 7);
                        {| stream := Stderr; line := VStr "timeout" |}] ∧
    jobs w' = [].
Proof.
  exact (acceptPromise_race 0 1 two_pending eq_refl ltac:(discriminate) eq_refl eq_refl
           (inr (VStr "timeout")) (inl (VNum 7))).
Defined.

Lemma listenRestAction_rejected_witness :
  ∃ w', run_jobs call 1
          (settle 0 (inr (VStr "403")) (listenRestAction (VAction 0) one_pending).2) = Some w' ∧
    console w' = [] ∧ logs w' = [] ∧ actions w' !! 1 = Some (Rejected (VStr "403")).
Proof. exact (listenRestAction_rejected 0 one_pending eq_refl eq_refl (VStr "403")). Defined.

Lemma listenRestAction_resolved_witness :
  run_jobs call 1 (settle 0 (inl (VNum 7)) (listenRestAction (VAction 0) one_pending).2) =
    Some (listened 0 (inl (VNum 7)) one_pending) ∧
  run_jobs call 1 (listenRestAction (VAction 0) (settle 0 (inl (VNum 7)) one_pending)).2 =
    Some (listened 0 (inl (VNum 7)) one_pending).
Proof. exact (listenRestAction_resolved 0 one_pending eq_refl eq_refl (VNum 7)). Defined.

Lemma listen_many_witness :
  ∃ w', run_jobs call (1 + 2)
          (listen_times 2 (VAction 0)
             (settle 0 (inl (VNum 7)) (listen_times 1 (VAction 0) one_pending)))
        = Some w' ∧
    console w' = [] ++ replicate (1 + 2) (value_line (VNum 7)) ∧
    replies w' = [] ∧ logs w' = [] ∧ jobs w' = [].
Proof. exact (listen_many 1 2 0 (VNum 7) one_pending eq_refl eq_refl). Defined.

Lemma acceptPromise_not_action_witness :
  acceptPromise VUndefined one_pending =
  (Throw (TypeError "then is not a function"), one_pending).
Proof. by apply acceptPromise_not_action. Defined.

Lemma jobs_drain_witness :
  ∃ w', run_jobs call 3 (settle 0 (inl (VNum 7)) (acceptPromise (VAction 0) one_pending).2)
        = Some w' ∧ jobs w' = [].
Proof. apply jobs_drain. vm_compute. lia. Defined.

End MainJs.
