(* ===== verification/Example.v ===== *)
(** * The example bot

    The scripts of [src/example] loaded together: the Nashorn host registers
    the array [getCommands()] of [testCommand.js] and the GraalVM host
    constructs the class of [main.js] on the same command module.  The
    resulting registry knows the commands [testjs] and [yolo]; the bot
    serves a sequence of messages by dispatching them one after the other
    in the same world.

    [host_step] lists what can happen to the world of the running bot: a
    message is dispatched, the host calls a method of the exported class,
    an action completes, a job runs; [host_run] is the same as a function
    of the event, and [host_runs] runs a sequence of events.  The
    invariants, the refinement, the bounds and the liveness theorems at the
    end of the file hold along every sequence of such steps, whatever
    action the hosts complete; [Polite] is about the hosts that complete
    their own actions only. *)

From S2P Require Import Prelude Tokenizer AccessLevel Options Argument.
From S2P Require Import AsyncAction Runtime Promise Store Linear Output.
From S2P Require Import Patterns Commands Dispatcher Interop.
From S2P Require Import TestCommandJs TestJs MainJs.

Module Example.

#[local] Set Warnings "-clear-no-such-hyp".

Import Tokenizer AccessLevel Options Argument.
Import AsyncAction Runtime Promise Store Linear Output.
Import Patterns Commands Dispatcher Interop.

#[local] Existing Instances MainJs.call_frame MainJs.call_writer.

Abbreviation Script := MainJs.Script.
Abbreviation Registry := (gmap string (Command Script)).

(** The command module after the Nashorn scripts, then the GraalVM class,
    were loaded; [None] when a registration is refused. *)
Definition boot : option Registry :=
  loadCommands TestCommandJs.getCommands ∅ ≫= MainJs.constructor.

(** The same with the GraalVM class loaded first. *)
Definition boot_graal_first : option Registry :=
  MainJs.constructor ∅ ≫= loadCommands TestCommandJs.getCommands.

Definition bot : Registry := default ∅ boot.

(** The text the bot answers a message with, if it answers. *)
Definition expected (ev : Event) : option string :=
  match tokenize (raw ev) with
  | [] => None
  | alias :: rest =>
      if eqb_ci alias "testjs" then Some (TestCommandJs.answer rest)
      else if eqb_ci alias "yolo" then Some "YOLO !"
      else None
  end.

(** The reply to a message, and the world after the message was served. *)
Definition reply_to (ev : Event) : option Reply :=
  (λ txt, {| in_reply_to := ev; text := txt |}) <$> expected ev.

Definition deliver (ev : Event) (w : World Script) : World Script :=
  match reply_to ev with
  | Some r => send r w
  | None => w
  end.

(** What the handler returns, if one is invoked. *)
Definition outcome (ev : Event) (w : World Script) : DispatchOutcome :=
  match tokenize (raw ev) with
  | [] => Unknown
  | alias :: _ =>
      if eqb_ci alias "testjs" then Invoked (Normal VUndefined)
      else if eqb_ci alias "yolo" then Invoked (Normal (VAction (length (actions w))))
      else Unknown
  end.

(** The bot serving messages one after the other. *)
Definition serve (reg : Registry) (evs : list Event) (w : World Script)
  : World Script :=
  foldl (λ w ev, (dispatch reg ev w).2) w evs.

(** The steps the hosts take around the scripts, in any order: a message
    is dispatched, a method of the exported class is called, the transport
    or any other producer settles an action, a queued job runs. *)
Inductive host_step : relation (World Script) :=
  | step_message ev w : host_step w (dispatch bot ev w).2
  | step_invoke method args w :
      host_step w (invoke MainJs.exports "class" method args w).2
  | step_settle id o w : host_step w (settle id o w)
  | step_tick w : host_step w (tick MainJs.call w).

(** The same steps as events of the hosts, and the world after a
    sequence of them. *)
Inductive HostEvent :=
  | Message (ev : Event)
  | Invoke (method : string) (args : list JsValue)
  | Settle (id : nat) (o : JsValue + JsValue)
  | Tick.

Definition host_run (e : HostEvent) (w : World Script) : World Script :=
  match e with
  | Message ev => (dispatch bot ev w).2
  | Invoke method args => (invoke MainJs.exports "class" method args w).2
  | Settle id o => settle id o w
  | Tick => tick MainJs.call w
  end.

Definition host_runs (es : list HostEvent) (w : World Script) : World Script :=
  foldl (λ w e, host_run e w) w es.

(** The lines an event can cause to be written, at once or later. *)
Definition price (e : HostEvent) : nat :=
  match e with
  | Invoke method _ => MainJs.cost method
  | _ => 0
  end.

Section theorems.
Implicit Types (w : World Script) (ev : Event) (evs : list Event).
Implicit Types (es : list HostEvent).

Local Abbreviation config := (@TestCommandJs.testJSCommand_config Script).
Local Abbreviation yolo := (quickCommand (K:=Script) "yolo" MainJs.yoloHandler).

(** ** Loading *)

Lemma boot_eq : boot = Some (<["yolo" := yolo]> {[ "testjs" := config ]}).
Proof.
  unfold boot. rewrite TestCommandJs.getCommands_register by done. simpl.
  by apply MainJs.constructor_fresh.
Qed.

Lemma bot_eq : bot = <["yolo" := yolo]> {[ "testjs" := config ]}.
Proof. unfold bot. by rewrite boot_eq. Qed.

Lemma bot_lookup alias :
  lookup_alias bot alias =
  if eqb_ci alias "testjs" then Some config
  else if eqb_ci alias "yolo" then Some yolo else None.
Proof.
  unfold lookup_alias, eqb_ci. rewrite bot_eq.
  change (lower "testjs") with "testjs". change (lower "yolo") with "yolo".
  repeat case_bool_decide;
    repeat match goal with H : lower _ = _ |- _ => rewrite H end;
    by simplify_map_eq.
Qed.

(** ** One message *)

(** The reference behaviour of the bot: the outcome and the world after
    one message. *)
Lemma dispatch_bot ev w : dispatch bot ev w = (outcome ev w, deliver ev w).
Proof.
  unfold outcome, deliver, reply_to, expected.
  destruct (tokenize (raw ev)) as [|alias rest] eqn:Htok.
  { by apply dispatch_no_token. }
  pose proof (bot_lookup alias) as Hcmd.
  destruct (eqb_ci alias "testjs"); [by eapply TestCommandJs.dispatch_config|].
  destruct (eqb_ci alias "yolo"); [by eapply MainJs.dispatch_quick|].
  by eapply dispatch_unknown.
Qed.

Lemma serve_cons ev evs w :
  serve bot (ev :: evs) w = serve bot evs (deliver ev w).
Proof. unfold serve. simpl. by rewrite dispatch_bot. Qed.

Lemma deliver_replies ev w :
  replies (deliver ev w) = replies w ++ option_list (reply_to ev).
Proof. unfold deliver. destruct (reply_to ev); simpl; by rewrite ?app_nil_r. Qed.

Lemma deliver_actions ev w :
  actions (deliver ev w) =
  actions w ++ replicate (length (option_list (reply_to ev))) init.
Proof. unfold deliver. destruct (reply_to ev); simpl; by rewrite ?app_nil_r. Qed.

Lemma deliver_frame ev w :
  logs (deliver ev w) = logs w ∧ console (deliver ev w) = console w ∧
  jobs (deliver ev w) = jobs w.
Proof. unfold deliver. by destruct (reply_to ev). Qed.

(** The order in which the two hosts load their scripts does not matter:
    both orders succeed and give the same registry, which is consistent
    (every key is the lower-case alias of the well-formed command stored
    under it). *)
Theorem boot_commute :
  boot_graal_first = boot ∧ is_Some boot ∧ registry_ok bot.
Proof.
  rewrite boot_eq, bot_eq. unfold boot_graal_first.
  rewrite MainJs.constructor_fresh by done. cbn [mbind option_bind].
  rewrite TestCommandJs.getCommands_register by done.
  split; [by rewrite insert_insert_ne | split; [done|]].
  intros k c. rewrite lookup_insert_Some, lookup_singleton_Some.
  intros [[<- <-]|[_ [<- <-]]];
    (split; [by constructor|]);
    auto using MainJs.yolo_well_formed, TestCommandJs.config_well_formed.
Qed.

(** ** Sequences of messages *)

(** C6. The bot answers the messages in the order in which they arrive: after
    serving a sequence of messages the replies sent are those before,
    followed by one reply for each message that names [testjs] or [yolo],
    in order, each addressed to its message and carrying the expected
    text; the messages for other commands are passed over. *)
Theorem serve_replies evs w :
  replies (serve bot evs w) = replies w ++ omap reply_to evs.
Proof.
  revert w. induction evs as [|ev evs IH]; intros w.
  - simpl. by rewrite app_nil_r.
  - rewrite serve_cons, IH, deliver_replies. simpl.
    destruct (reply_to ev); simpl; by rewrite <- ?app_assoc, ?app_nil_r.
Qed.

(** Serving messages allocates one action per reply, all of them pending,
    and leaves the actions, the jobs, the logs and the console of the
    world as they were: no handler of the example settles or chains
    anything. *)
Theorem serve_pending evs w :
  actions (serve bot evs w) = actions w ++ replicate (length (omap reply_to evs)) init ∧
  jobs (serve bot evs w) = jobs w ∧
  logs (serve bot evs w) = logs w ∧ console (serve bot evs w) = console w.
Proof.
  revert w. induction evs as [|ev evs IH]; intros w.
  - simpl. by rewrite app_nil_r.
  - rewrite serve_cons. destruct (IH (deliver ev w)) as (-> & -> & -> & ->).
    destruct (deliver_frame ev w) as (-> & -> & ->).
    rewrite deliver_actions. simpl.
    destruct (reply_to ev); simpl; by rewrite <- ?app_assoc, ?app_nil_r.
Qed.

(** ** The host's steps *)

Section stable.
Context (R : relation (World Script)) `{!Stable MainJs.call R}.

Lemma deliver_stable ev w : R w (deliver ev w).
Proof. unfold deliver. destruct (reply_to ev); [apply stable_send | done]. Qed.

Lemma host_step_stable w w' : host_step w w' → R w w'.
Proof.
  destruct 1.
  - rewrite dispatch_bot. apply deliver_stable.
  - by apply MainJs.invoke_stable.
  - apply stable_settle.
  - apply stable_tick.
Qed.

Lemma host_steps_stable w w' : rtc host_step w w' → R w w'.
Proof.
  induction 1 as [|w1 w2 w3 Hstep _ IH]; [done|].
  etrans; [by apply host_step_stable | done].
Qed.

End stable.

Lemma host_steps_advances w w' : rtc host_step w w' → advances w w'.
Proof. apply host_steps_stable, _. Qed.

(** The events are the steps. *)
Lemma host_step_run w w' : host_step w w' ↔ ∃ e, w' = host_run e w.
Proof.
  split.
  - destruct 1; [by eexists (Message _) | by eexists (Invoke _ _)
                 | by eexists (Settle _ _) | by exists Tick].
  - intros [[ev|method args|id o|] ->]; constructor.
Qed.

Lemma host_runs_steps es w : rtc host_step w (host_runs es w).
Proof.
  revert w. induction es as [|e es IH]; intros w; [done|].
  eapply rtc_l; [|apply IH]. apply host_step_run. by exists e.
Qed.

Lemma host_runs_snoc es (e : HostEvent) w : host_runs (es ++ [e]) w = host_run e (host_runs es w).
Proof. unfold host_runs. by rewrite foldl_snoc. Qed.

Lemma host_run_balance (e : HostEvent) w : balance (host_run e w) ≤ balance w + price e.
Proof.
  destruct e as [ev|method args|id o|]; simpl.
  - rewrite dispatch_bot. unfold deliver, balance.
    destruct (reply_to ev); simpl; [|lia].
    change (owed (send _ w)) with (owed (alloc w)). rewrite owed_alloc. lia.
  - apply MainJs.invoke_balance.
  - pose proof (balance_settle id o w). lia.
  - pose proof (balance_tick MainJs.call w). lia.
Qed.

(** Well-formedness is an invariant of the bot: in every world the hosts
    can reach from the empty one, every reaction held by an action or
    waiting in the queue names a derived action of the store, so every job
    that runs finds the action it settles. *)
Lemma reachable_ok w :
  rtc host_step empty_world w →
  world_ok w ∧
  ∀ r v, FireSuccess r v ∈ jobs w ∨ FireFailure r v ∈ jobs w →
         is_Some (actions w !! derived r).
Proof.
  intros [_ Hok]%host_steps_advances. specialize (Hok world_ok_empty).
  split; [done|]. intros r v [Hj|Hj]; apply (job_derived_found _ _ Hok Hj).
Qed.

(** The store refines the state machine of asynchronous actions, one copy
    per action: along any sequence of steps of the hosts an action of the
    store stays in the store and moves by transitions of the machine only;
    once settled it never changes. *)
Lemma host_refines w w' id st :
  rtc host_step w w' → actions w !! id = Some st →
  ∃ st', actions w' !! id = Some st' ∧ rtc transition st st' ∧
         (settled st = true → st' = st).
Proof.
  intros [Hev _]%host_steps_advances Hst.
  destruct (Hev id st Hst) as (st' & Hst' & Ht).
  exists st'. split; [done|]. split; [done|]. by apply evolves_settled.
Qed.

(** C18. Liveness of [acceptPromise]: once it was called on a pending action,
    whatever the hosts do afterwards (messages, other calls, completions
    of other actions, jobs), if the action is still pending and then
    resolves, draining the queue ends and the value has been written to
    standard output. *)
Theorem logged_eventually id v w0 w ss fs ss' fs' :
  actions w0 !! id = Some (Pending ss fs) →
  rtc host_step (MainJs.acceptPromise (VAction id) w0).2 w →
  actions w !! id = Some (Pending ss' fs') →
  ∃ w', run_jobs MainJs.call (measure (settle id (inl v) w)) (settle id (inl v) w)
        = Some w' ∧
        jobs w' = [] ∧ MainJs.value_line v ∈ console w'.
Proof.
  intros Hst [Hev _]%host_steps_advances Hst'.
  destruct (MainJs.acceptPromise_registered _ _ _ _ Hst) as (fs1 & Hreg).
  destruct (store_evolves_pending _ _ _ _ _ _ _ Hev Hreg Hst') as [[k Hk] _].
  apply (MainJs.resolve_logged id v w ss' fs' MainJs.AcceptValue
           (length (actions w0))); [done|].
  rewrite Hk. set_solver.
Qed.

(** C19. Liveness of the error path of [acceptPromise].  The error of the
    action reaches the callback of [catch] through the action derived by
    [then]: in a world reached by the bot, once [acceptPromise] was called
    on a pending action, whatever the hosts do afterwards, if the action
    and the one derived from it are still pending and the action is then
    rejected, draining the queue ends and the error has been written to
    standard error. *)
Theorem rejected_eventually id e w0 w ss fs ss' fs' ss1 fs1 :
  rtc host_step empty_world w0 →
  actions w0 !! id = Some (Pending ss fs) →
  rtc host_step (MainJs.acceptPromise (VAction id) w0).2 w →
  actions w !! id = Some (Pending ss' fs') →
  actions w !! length (actions w0) = Some (Pending ss1 fs1) →
  ∃ w', run_jobs MainJs.call (measure (settle id (inr e) w)) (settle id (inr e) w)
        = Some w' ∧
        jobs w' = [] ∧ {| stream := Stderr; line := e |} ∈ console w'.
Proof.
  intros Hw0 Hst Hsteps Hst' Hd.
  pose proof (lookup_lt_Some _ _ _ Hst) as Hlt.
  destruct (MainJs.acceptPromise_chained _ _ _ _ Hst) as [Hid Hd1].
  assert (sound w) as Hw.
  { apply (host_steps_stable (keeps sound)) in Hsteps. apply Hsteps.
    apply (MainJs.acceptPromise_stable (keeps sound)).
    apply (host_steps_stable (keeps sound) _ _ Hw0).
    split; [apply world_ok_empty | apply linear_empty]. }
  apply host_steps_advances in Hsteps as [Hev _].
  destruct (store_evolves_pending _ _ _ _ _ _ _ Hev Hid Hst') as [_ [k1 Hk1]].
  destruct (store_evolves_pending _ _ _ _ _ _ _ Hev Hd1 Hd) as [_ [k2 Hk2]].
  apply (MainJs.reject_logged id e w ss' fs' (length (actions w0)) ss1 fs1
           MainJs.AcceptReason (S (length (actions w0)))); try done; [lia|..].
  - rewrite Hk1. set_solver.
  - rewrite Hk2. set_solver.
Qed.

(** ** Steps and events *)

(** The two descriptions of what the hosts do agree: a world is reached
    by steps of [host_step] exactly when it is the result of running a
    sequence of events. *)
Theorem host_runs_reach w w' :
  rtc host_step w w' ↔ ∃ es, w' = host_runs es w.
Proof.
  split; [|intros [es ->]; apply host_runs_steps].
  induction 1 as [w|w1 w2 w3 [e ->]%host_step_run _ [es ->]]; [by exists []|].
  by exists (e :: es).
Qed.

(** ** What every run of the bot keeps *)

(** Linearity is an invariant of the bot: after any sequence of events
    the store is well formed, the two reactions of every call of [then]
    are held together, and every derived action is named by the
    reactions of at most one action or by at most one queued job, so no
    derived action is settled twice by the job loop. *)
Lemma reachable_linear es :
  world_ok (host_runs es empty_world) ∧
  Forall paired (actions (host_runs es empty_world)) ∧
  NoDup (names (host_runs es empty_world)).
Proof.
  apply (host_steps_stable (keeps sound) _ _ (host_runs_steps es empty_world)).
  split; [apply world_ok_empty | apply linear_empty].
Qed.

(** Outputs are only appended to: whatever the hosts and the scripts do,
    the replies sent, the log records and the lines on the console before
    a sequence of events are the first ones after it, in the same
    order. *)
Lemma outputs_kept es w :
  replies w `prefix_of` replies (host_runs es w) ∧
  logs w `prefix_of` logs (host_runs es w) ∧
  console w `prefix_of` console (host_runs es w).
Proof. apply (host_steps_stable extends), host_runs_steps. Qed.

(** C20. Every callback runs at most once: the lines on the console and the
    callbacks still owed a run grow by at most the price of the events,
    which is one for a call of [onLoad] or [listenRestAction], two for a
    call of [acceptPromise] and nothing for a message, a completion or a
    job.  From the empty world the console holds at most as many lines as
    the calls have paid for. *)
Theorem console_budget es w :
  length (console (host_runs es w)) + owed (host_runs es w) ≤
  length (console w) + owed w + sum_list_with price es.
Proof.
  induction es as [|e es IH] using rev_ind; [simpl; lia|].
  rewrite host_runs_snoc, sum_list_with_app. simpl.
  pose proof (host_run_balance e (host_runs es w)). unfold balance in *. lia.
Qed.

(** ** Messages and the job loop *)

(** C21. Serving a message is independent of the completions and the jobs
    around it: in a well-formed world, a message served before or after a
    job, or before or after the completion of an action of the store,
    leaves the same world. *)
Theorem message_commutes ev w :
  world_ok w →
  host_runs [Tick; Message ev] w = host_runs [Message ev; Tick] w ∧
  ∀ id o, id < length (actions w) →
    host_runs [Settle id o; Message ev] w = host_runs [Message ev; Settle id o] w.
Proof.
  intros Hw. unfold host_runs. cbn [foldl host_run].
  split; [|intros id o Hid]; rewrite !dispatch_bot; cbn [snd]; unfold deliver;
    (destruct (reply_to ev) as [rp|]; [|done]).
  - by rewrite MainJs.tick_send.
  - by rewrite settle_send.
Qed.

(** The two modules of the Nashorn examples cannot be told apart by
    their [ModuleInfo] (name, author, URL, version and build number are
    the same), although they are different modules: their load hooks write
    different records, on different loggers. *)
Theorem module_info_clash w :
  info (TestJs.getModule (K:=Script)) = info (TestCommandJs.getModule (K:=Script)) ∧
  logs (load TestJs.getModule w).2 ≠ logs (load TestCommandJs.getModule w).2.
Proof. split; [done|]. simpl. by intros [= ?]%app_inv_head. Qed.

(** ** A reply that cannot be delivered *)

(** C28. No handler of the example listens to the delivery of its reply, except
    through [acceptPromise]: when the transport rejects the action of a
    reply, the rejection stays in the store and nothing is queued, written
    or logged. *)
Theorem reply_failure_silent ev w e :
  is_Some (reply_to ev) →
  let w1 := (dispatch bot ev w).2 in
  let w2 := settle (length (actions w)) (inr e) w1 in
  actions w2 !! length (actions w) = Some (Rejected e) ∧
  jobs w2 = jobs w ∧ console w2 = console w ∧ logs w2 = logs w ∧
  replies w2 = replies w1.
Proof.
  intros [r Hr]. rewrite dispatch_bot. unfold deliver. rewrite Hr. simpl.
  erewrite settle_run by (simpl; apply list_lookup_middle; done). simpl.
  rewrite app_nil_r. repeat split. apply list_lookup_insert_eq.
  rewrite length_app. simpl. lia.
Qed.

(** ** A reply followed to its delivery *)

(** C27. The action that the handler of [yolo] returns can be handed to
    [acceptPromise]: once the transport settles it and the jobs have run,
    the console shows the outcome of the delivery, on standard output for a
    delivered message and on standard error for a failure. *)
Theorem yolo_delivery ev w alias rest o :
  jobs w = [] → tokenize (raw ev) = alias :: rest → eq_ci alias "yolo" →
  ∃ id w1 w2,
    dispatch bot ev w = (Invoked (Normal (VAction id)), w1) ∧
    run_jobs MainJs.call 2 (settle id o (MainJs.acceptPromise (VAction id) w1).2)
      = Some w2 ∧
    console w2 = console w ++ [MainJs.outcome_line o] ∧
    sent w2 = sent w ++ ["YOLO !"].
Proof.
  intros Hjobs Htok Halias.
  assert (eqb_ci alias "testjs" = false) as Hne.
  { apply bool_decide_eq_false. by rewrite Halias. }
  apply eqb_ci_eq in Halias.
  eexists _, _, _. split; [|split].
  - rewrite dispatch_bot. unfold outcome, deliver, reply_to, expected.
    by rewrite Htok, Hne, Halias.
  - apply MainJs.acceptPromise_settle; [done|].
    simpl. by rewrite lookup_app_r, Nat.sub_diag.
  - split; [done|]. unfold sent. simpl. by rewrite fmap_app.
Qed.

End theorems.

(** ** The theorems at concrete messages *)

Definition carol (text : string) : Event :=
  {| raw := text; sender := "carol"; level := ADMIN |}.

Lemma yolo_delivery_witness :
  ∃ id w1 w2,
    dispatch bot (carol "Yolo") empty_world = (Invoked (Normal (VAction id)), w1) ∧
    run_jobs MainJs.call 2
      (settle id (inr (VStr "offline")) (MainJs.acceptPromise (VAction id) w1).2)
      = Some w2 ∧
    console w2 = [] ++ [MainJs.outcome_line (inr (VStr "offline"))] ∧
    sent w2 = [] ++ ["YOLO !"].
Proof.
  apply (yolo_delivery (carol "Yolo") empty_world "Yolo" []); reflexivity.
Defined.

Lemma reply_failure_silent_witness :
  let w1 := (dispatch bot (carol "testjs") empty_world).2 in
  let w2 := settle 0 (inr (VStr "offline")) w1 in
  actions w2 !! 0 = Some (Rejected (VStr "offline")) ∧
  jobs w2 = [] ∧ console w2 = [] ∧ logs w2 = [] ∧ replies w2 = replies w1.
Proof.
  apply (reply_failure_silent (carol "testjs") empty_world (VStr "offline")).
  by eexists.
Defined.

Lemma logged_eventually_witness :
  ∃ w', run_jobs MainJs.call
          (measure (settle 0 (inl (VNum 7))
             (dispatch bot (carol "yolo") (MainJs.acceptPromise (VAction 0) MainJs.one_pending).2).2))
          (settle 0 (inl (VNum 7))
             (dispatch bot (carol "yolo") (MainJs.acceptPromise (VAction 0) MainJs.one_pending).2).2)
        = Some w' ∧
        jobs w' = [] ∧ MainJs.value_line (VNum 7) ∈ console w'.
Proof.
  eapply (logged_eventually 0 (VNum 7) MainJs.one_pending _ [] []);
    [reflexivity | apply rtc_once, (step_message (carol "yolo")) | reflexivity].
Defined.

(** The bound of [console_budget] is reached: when the action derived
    by [then] is rejected from outside before the action itself resolves,
    one call of [acceptPromise] writes two lines. *)
Lemma budget_reached :
  console (host_runs [Message (carol "yolo"); Invoke "acceptPromise" [VAction 0];
                      Settle 1 (inr (VStr "late")); Settle 0 (inl (VNum 7));
                      Tick; Tick] empty_world) =
  [{| stream := Stderr; line := VStr "late" |}; MainJs.value_line (VNum 7)].
Proof. reflexivity. Qed.

Lemma message_commutes_witness :
  host_runs [Tick; Message (carol "yolo")]
    (settle 0 (inl (VNum 7)) (MainJs.acceptPromise (VAction 0) MainJs.one_pending).2) =
  host_runs [Message (carol "yolo"); Tick]
    (settle 0 (inl (VNum 7)) (MainJs.acceptPromise (VAction 0) MainJs.one_pending).2) ∧
  ∀ id o, id < 3 →
    host_runs [Settle id o; Message (carol "yolo")]
      (settle 0 (inl (VNum 7)) (MainJs.acceptPromise (VAction 0) MainJs.one_pending).2) =
    host_runs [Message (carol "yolo"); Settle id o]
      (settle 0 (inl (VNum 7)) (MainJs.acceptPromise (VAction 0) MainJs.one_pending).2).
Proof.
  apply (message_commutes (carol "yolo")
           (settle 0 (inl (VNum 7)) (MainJs.acceptPromise (VAction 0) MainJs.one_pending).2)).
  by apply (bool_decide_unpack _).
Defined.

Lemma rejected_eventually_witness :
  ∃ w', run_jobs MainJs.call
          (measure (settle 0 (inr (VStr "offline"))
             (dispatch bot (carol "testjs")
                (MainJs.acceptPromise (VAction 0)
                   (dispatch bot (carol "yolo") empty_world).2).2).2))
          (settle 0 (inr (VStr "offline"))
             (dispatch bot (carol "testjs")
                (MainJs.acceptPromise (VAction 0)
                   (dispatch bot (carol "yolo") empty_world).2).2).2)
        = Some w' ∧
        jobs w' = [] ∧ {| stream := Stderr; line := VStr "offline" |} ∈ console w'.
Proof.
  eapply (rejected_eventually 0 (VStr "offline")
            (dispatch bot (carol "yolo") empty_world).2 _ [] []);
    [apply rtc_once, (step_message (carol "yolo")) | reflexivity
    | apply rtc_once, (step_message (carol "testjs")) | reflexivity | reflexivity].
Defined.

End Example.
