(* ===== verification/Polite.v ===== *)
(** * Hosts that keep to their own actions

    The actions the scripts derive with [then] and [catch] are never
    returned to the hosts: [acceptPromise] and [listenRestAction] of
    [main.js] return nothing.  The hosts of a running bot can therefore
    complete, and hand to the methods of the class, only the actions they
    made themselves, which in the example are the actions of the replies
    ([polite]).

    For such hosts the lines on the console are known exactly.  After any
    sequence of events the console holds at most one line for each call of
    a method ([polite_budget]); once the queue is empty it holds, in some
    order, exactly the line of each call of [onLoad], the outcome of the
    action of each call of [acceptPromise] on an action that has completed
    and the value of the action of each call of [listenRestAction] on an
    action that has resolved ([polite_exact]).  Running as many jobs as
    the measure of the world counts always empties the queue
    ([polite_drains]).  [Example.budget_reached]
    shows a host that completes a derived action and gets two lines for
    one call. *)

From S2P Require Import Prelude Tokenizer AccessLevel Options Argument.
From S2P Require Import AsyncAction Runtime Promise Store Linear Output.
From S2P Require Import Credit Account Patterns Commands Dispatcher Interop.
From S2P Require Import TestCommandJs TestJs MainJs Example.

Module Polite.

#[local] Set Warnings "-clear-no-such-hyp".

Import Tokenizer AccessLevel Options Argument.
Import AsyncAction Runtime Promise Store Linear Output Credit Account.
Import Patterns Commands Dispatcher Interop Example.

#[local] Existing Instances MainJs.call_frame MainJs.call_writer MainJs.call_total
  MainJs.call_exact.

(** The actions the hosts made are those of the replies they sent: a
    message that is answered adds the action of the delivery to the
    roots. *)
Definition roots_after (e : HostEvent) (w : World Script) (roots : gset nat)
  : gset nat :=
  match e with
  | Message ev =>
      if reply_to ev is Some _ then {[length (actions w)]} ∪ roots else roots
  | _ => roots
  end.

(** A host that keeps to its own actions completes roots only, and hands
    roots only to the methods of the class. *)
Definition polite (roots : gset nat) (e : HostEvent) : Prop :=
  match e with
  | Settle id _ => id ∈ roots
  | Invoke _ args =>
      match parameter args 0 with VAction id => id ∈ roots | _ => True end
  | _ => True
  end.

Fixpoint polite_run (roots : gset nat) (es : list HostEvent) (w : World Script)
  : Prop :=
  match es with
  | [] => True
  | e :: es' => polite roots e ∧ polite_run (roots_after e w roots) es' (host_run e w)
  end.

#[export] Instance polite_dec roots e : Decision (polite roots e).
Proof.
  destruct e as [|method args| |]; simpl; try apply _.
  destruct (parameter args 0); apply _.
Defined.

#[export] Instance polite_run_dec roots es w : Decision (polite_run roots es w).
Proof. revert roots w. induction es; simpl; apply _. Defined.

(** The lines an event causes to be written under such hosts. *)
Definition writes (e : HostEvent) : nat :=
  match e with
  | Invoke method _ => MainJs.lines method
  | _ => 0
  end.

(** The lines an event will have written in the end, given the fate of
    the actions. *)
Definition utters (fate : nat → option (JsValue + JsValue)) (e : HostEvent)
  : list ConsoleLine :=
  match e with
  | Invoke method args => MainJs.said fate method args
  | _ => []
  end.

Section theorems.
Implicit Types (w : World Script) (es : list HostEvent) (roots : gset nat).

(** ** At most one line for each call *)

Lemma host_run_credit roots (e : HostEvent) w :
  inv roots w → polite roots e →
  inv (roots_after e w roots) (host_run e w) ∧
  credit (roots_after e w roots) (host_run e w) ≤ credit roots w + writes e.
Proof.
  intros Hinv He.
  destruct e as [ev|method args|id o|]; cbn [roots_after host_run writes polite] in *.
  - rewrite dispatch_bot. cbn [snd]. unfold deliver. destruct (reply_to ev) as [rp|].
    + split; [by apply inv_send|]. pose proof (credit_send roots rp w Hinv). lia.
    + split; [done | lia].
  - apply MainJs.invoke_credit; [done|]. intros id Hid. by rewrite Hid in He.
  - split; [by apply inv_settle|].
    pose proof (credit_settle roots id o w Hinv) as Hs.
    rewrite decide_True in Hs by done. lia.
  - split; [by apply (inv_tick MainJs.call)|].
    pose proof (credit_tick MainJs.call roots w Hinv). lia.
Qed.

Lemma host_runs_credit es roots w :
  inv roots w → polite_run roots es w →
  ∃ roots', inv roots' (host_runs es w) ∧
            credit roots' (host_runs es w) ≤ credit roots w + sum_list_with writes es.
Proof.
  revert roots w. induction es as [|e es IH]; intros roots w Hinv Hes.
  { exists roots. split; [done | simpl; lia]. }
  destruct Hes as [He Hes].
  destruct (host_run_credit roots e w Hinv He) as [Hinv' Hc].
  destruct (IH _ _ Hinv' Hes) as (roots' & Hinv'' & Hc').
  exists roots'. split; [done|]. simpl. lia.
Qed.

(** C11. At most one line for each call.  When the hosts complete no action but
    those of the replies they sent, and hand no other action to the
    methods of the class, then whatever the interleaving of messages,
    calls, completions and jobs, the console holds at most one line for
    each call of [onLoad], [acceptPromise] or [listenRestAction]: of the
    two callbacks [acceptPromise] chains, one only ever runs. *)
Theorem polite_budget es :
  polite_run ∅ es empty_world →
  length (console (host_runs es empty_world)) ≤ sum_list_with writes es.
Proof.
  intros Hes.
  destruct (host_runs_credit es ∅ empty_world inv_empty Hes) as (roots & _ & Hc).
  unfold credit in Hc at 1. change (credit ∅ empty_world) with 0 in Hc. lia.
Qed.

(** ** The lines of the calls that come to their end *)

Local Abbreviation account := (account MainJs.says MainJs.returns).

Lemma host_run_account fate roots (e : HostEvent) w :
  inv roots w → linear w → polite roots e → agrees fate (host_run e w) →
  account fate (roots_after e w roots) (host_run e w) =
  account fate roots w ⊎ list_to_set_disj (utters fate e).
Proof.
  intros Hinv Hlin He.
  destruct e as [ev|method args|id o|];
    cbn [roots_after host_run utters polite list_to_set_disj] in *.
  - intros _. rewrite dispatch_bot. cbn [snd]. unfold deliver.
    destruct (reply_to ev) as [rp|]; [|multiset_solver].
    rewrite (account_send _ _ fate roots rp w Hinv). multiset_solver.
  - apply MainJs.invoke_account; [done|]. intros id Hid. by rewrite Hid in He.
  - intros Hfate. rewrite account_settle_root by done. multiset_solver.
  - intros _. rewrite (account_tick MainJs.call _ _ fate roots w Hinv Hlin).
    multiset_solver.
Qed.

Lemma host_runs_account fate es roots w :
  inv roots w → sound w → polite_run roots es w → agrees fate (host_runs es w) →
  ∃ roots', account fate roots' (host_runs es w) =
            account fate roots w ⊎ list_to_set_disj (es ≫= utters fate).
Proof.
  revert roots w. induction es as [|e es IH]; intros roots w Hinv Hw Hes Hfate.
  { exists roots. simpl. multiset_solver. }
  destruct Hes as [He Hes].
  assert (host_step w (host_run e w)) as Hstep by (apply host_step_run; by exists e).
  assert (agrees fate (host_run e w)) as Hfate'.
  { eapply agrees_evolves; [|exact Hfate].
    apply (host_steps_advances _ _ (host_runs_steps es (host_run e w))). }
  destruct (IH (roots_after e w roots) (host_run e w)) as [roots' Hacc]; try done.
  - by apply host_run_credit.
  - by apply (host_step_stable (keeps sound) w).
  - exists roots'. change (host_runs (e :: es) w) with (host_runs es (host_run e w)).
    rewrite Hacc, host_run_account by (try done; apply Hw).
    rewrite bind_cons, list_to_set_disj_app. multiset_solver.
Qed.

(** C10. The lines of the calls that come to their end.  When the hosts
    complete no action but those of the replies they sent, and hand no
    other action to the methods of the class, then whatever the
    interleaving of messages, calls, completions and jobs, once the queue
    is empty the console holds, in some order, exactly: the line of
    [onLoad] for each call of [onLoad]; for each call of [acceptPromise]
    on an action that has completed, the value on standard output or the
    error on standard error; for each call of [listenRestAction] on an
    action that has resolved, the value on standard output.  A call on an
    action that is still pending, a call of [listenRestAction] on an
    action that was rejected and a call without an action have written
    nothing, and no line is written twice. *)
Theorem polite_exact es :
  polite_run ∅ es empty_world → jobs (host_runs es empty_world) = [] →
  console (host_runs es empty_world) ≡ₚ
  es ≫= utters (fate_of (host_runs es empty_world)).
Proof.
  intros Hes Hjobs. apply list_to_set_disj_inj.
  destruct (host_runs_account (fate_of (host_runs es empty_world)) es ∅ empty_world)
    as [roots Hacc];
    [apply inv_empty | split; [apply world_ok_empty | apply linear_empty] | done
    | apply agrees_fate_of |].
  rewrite account_quiescent in Hacc by done. rewrite Hacc.
  unfold Account.account, pending. simpl. multiset_solver.
Qed.

(** ** Draining the queue *)

(** Jobs run by the host: a job on an empty queue does nothing, and as
    many jobs as the job loop takes leave the world the loop leaves. *)
Lemma ticks_empty n w : jobs w = [] → host_runs (replicate n Tick) w = w.
Proof.
  intros Hjobs. induction n as [|n IH]; [done|].
  simpl. unfold tick. by rewrite Hjobs.
Qed.

Lemma ticks_run_jobs fuel w w' :
  run_jobs MainJs.call fuel w = Some w' → host_runs (replicate fuel Tick) w = w'.
Proof.
  revert w. induction fuel as [|fuel IH]; intros w; simpl;
    destruct (jobs w) eqn:Hjobs; try done.
  - by intros [= <-].
  - intros [= <-]. unfold tick. rewrite Hjobs. by apply (ticks_empty fuel).
  - apply IH.
Qed.

Lemma polite_run_ticks roots es n w :
  polite_run roots es w → polite_run roots (es ++ replicate n Tick) w.
Proof.
  revert roots w. induction es as [|e es IH]; intros roots w; simpl.
  - intros _. revert w. induction n as [|n IHn]; intros w; simpl; auto.
  - intros [He Hes]. auto.
Qed.

Lemma utters_ticks fate es n :
  (es ++ replicate n Tick) ≫= utters fate = es ≫= utters fate.
Proof.
  rewrite bind_app. by induction n as [|n IH]; simpl; [rewrite app_nil_r|].
Qed.

(** C12. The queue always drains, and then the console is known.  After any
    sequence of events of hosts that keep to their own actions, running as
    many jobs as the measure of the world empties the queue, and the
    console is then a permutation of the lines the calls stand for. *)
Theorem polite_drains es :
  polite_run ∅ es empty_world →
  let fuel := measure (host_runs es empty_world) in
  let w := host_runs (es ++ replicate fuel Tick) empty_world in
  jobs w = [] ∧ console w ≡ₚ es ≫= utters (fate_of w).
Proof.
  intros Hes fuel w.
  destruct (run_jobs_terminates MainJs.call fuel (host_runs es empty_world))
    as (w' & Hrun & Hjobs); [done|].
  assert (w = w') as Hw.
  { unfold w, host_runs. rewrite foldl_app. by apply ticks_run_jobs. }
  split; [by rewrite Hw|]. apply list_to_set_disj_inj.
  destruct (host_runs_account (fate_of w) (es ++ replicate fuel Tick) ∅ empty_world)
    as [roots Hacc];
    [apply inv_empty | split; [apply world_ok_empty | apply linear_empty]
    | by apply polite_run_ticks | apply agrees_fate_of |].
  fold w in Hacc. rewrite account_quiescent, utters_ticks in Hacc by by rewrite Hw.
  rewrite Hacc. unfold Account.account, pending. simpl. multiset_solver.
Qed.

End theorems.

(** ** The theorems at concrete events *)

Lemma polite_budget_witness :
  length (console (host_runs [Message (Example.carol "yolo"); Invoke "acceptPromise" [VAction 0];
                              Settle 0 (inr (VStr "offline")); Tick; Tick] empty_world)) ≤
  sum_list_with writes [Message (Example.carol "yolo"); Invoke "acceptPromise" [VAction 0];
                        Settle 0 (inr (VStr "offline")); Tick; Tick].
Proof. apply polite_budget. by apply (bool_decide_unpack _). Defined.

Lemma polite_exact_witness :
  console (host_runs [Message (Example.carol "yolo");
                      Invoke "onLoad" [];
                      Invoke "acceptPromise" [VAction 0];
                      Invoke "listenRestAction" [VAction 0];
                      Settle 0 (inr (VStr "offline")); Tick; Tick; Tick]
             empty_world) ≡ₚ
  [MainJs.value_line (VStr "Loaded !"); MainJs.outcome_line (inr (VStr "offline"))].
Proof.
  apply (polite_exact [Message (Example.carol "yolo");
                       Invoke "onLoad" [];
                       Invoke "acceptPromise" [VAction 0];
                       Invoke "listenRestAction" [VAction 0];
                       Settle 0 (inr (VStr "offline")); Tick; Tick; Tick]);
    [by apply (bool_decide_unpack _) | reflexivity].
Defined.

Lemma polite_drains_witness :
  let es := [Message (Example.carol "yolo"); Invoke "acceptPromise" [VAction 0];
             Settle 0 (inl VUndefined)] in
  let w := host_runs (es ++ replicate (measure (host_runs es empty_world)) Tick)
             empty_world in
  jobs w = [] ∧ console w ≡ₚ es ≫= utters (fate_of w).
Proof.
  apply (polite_drains [Message (Example.carol "yolo");
                        Invoke "acceptPromise" [VAction 0];
                        Settle 0 (inl VUndefined)]).
  by apply (bool_decide_unpack _).
Defined.

End Polite.
