(* ===== verification/Scripts.v ===== *)
(** * The files of the repository as programs

    Each file under [src/] as the sequence of its top-level statements, in
    the order and with the nesting of the text, evaluated by [Scope].
    This file shows that evaluating the programs yields the definitions
    of the files that model the scripts ([TestJs], [TestCommandJs],
    [CommandAdapterJs], [MainJs]), what a call of [getCommands] returns in
    every scope, what goes wrong when a script is evaluated without its
    header, and what happens to the modules when several scripts share an
    engine: which module [getModule()] returns, and under which logger
    the hooks of an object obtained earlier write. *)

From S2P Require Import Prelude Runtime Patterns Commands Interop Scope.
From S2P Require Import TestCommandJs TestJs CommandAdapterJs MainJs Example.

Module Scripts.

#[local] Set Warnings "-clear-no-such-hyp".

Import Runtime Patterns Commands Interop Scope.

Section programs.
Context {K : Type}.

(** [src/example/scripts/_script_header.js]: five [var] statements. *)
Definition script_header_js : Program K :=
  [ Var "BaseJavaScriptModule" (λ _, Normal (BClass BaseJavaScriptModule));
    Var "ModuleInfo" (λ _, Normal (BClass Interop.ModuleInfo_class));
    Var "baseImports" (λ _, Normal (BImporter baseImports));
    Var "JavaScriptCommandArray" (λ _, Normal (BClass JavaScriptCommandArray));
    Var "commandImports" (λ _, Normal (BImporter commandImports)) ].

(** The object literals the scripts give to [Java.extend], with the
    bodies of their hooks: [LOG.info("Module loaded !");] and
    [LOG.info("Module unloaded !");] in [test.js],
    [LOG.info("TestJSCmd loaded !");] in [testCommand.js], and the empty
    body in [commandAdapter.js]. *)
Definition test_members : Members :=
  {| m_info := Some TestJs.TestModule_info;
     m_onLoad := Some [("LOG", "Module loaded !")];
     m_onUnload := Some [("LOG", "Module unloaded !")] |}.

Definition testCommand_members : Members :=
  {| m_info := Some TestCommandJs.TestModule_info;
     m_onLoad := Some [("LOG", "TestJSCmd loaded !")];
     m_onUnload := None |}.

Definition commandAdapter_members : Members :=
  {| m_info := Some CommandAdapterJs.CommandAdapterModule_info;
     m_onLoad := Some [];
     m_onUnload := None |}.

(** [src/example/scripts/test.js]: a [with] block that binds the logger
    and the class of the module, and after it, at the top level, the
    declaration of [getModule]. *)
Definition test_js : Program K :=
  [ With "baseImports"
      [ Var "LOG" (λ _, Normal (BLogger TestJs.LOG));
        Var "TestModule"
          (extend "BaseJavaScriptModule" "ModuleInfo" test_members) ];
    FunctionDecl "getModule" (ReturnNew "TestModule") ].

(** The body of [getCommands] in [testCommand.js]:
    [var commands = new JavaScriptCommandArray(1);
     commands[0] = testJSCommand; return commands;] *)
Definition getCommands_body : Body :=
  ReturnArray "JavaScriptCommandArray" 1 [(0, "testJSCommand")].

(** [src/example/scripts/testCommand.js]: everything stands inside
    [with (baseImports)]: the logger, the class of the module, the
    function [getModule] and, inside [with (commandImports)], the function
    [getCommands] followed by the [var] of the command it stores. *)
Definition testCommand_js : Program K :=
  [ With "baseImports"
      [ Var "LOG" (λ _, Normal (BLogger TestCommandJs.LOG));
        Var "TestModule"
          (extend "BaseJavaScriptModule" "ModuleInfo" testCommand_members);
        FunctionDecl "getModule" (ReturnNew "TestModule");
        With "commandImports"
          [ FunctionDecl "getCommands" getCommands_body;
            Var "testJSCommand"
              (command_from TestCommandJs.testJSCommand_config) ] ] ].

(** [src/ModularBot-NashornCommandSupport/src/main/resources/commandAdapter.js]:
    the script binds the classes it needs itself. *)
Definition commandAdapter_js : Program K :=
  [ Var "BaseJsModule" (λ _, Normal (BClass CommandAdapterJs.BaseJsModule));
    Var "ModuleInfo" (λ _, Normal (BClass CommandAdapterJs.ModuleInfo_class));
    Var "CommandAdapterModule"
      (extend "BaseJsModule" "ModuleInfo" commandAdapter_members);
    FunctionDecl "getModule" (ReturnNew "CommandAdapterModule") ].

(** A Nashorn host evaluates the header, then the script, in a fresh
    engine. *)
Definition nashorn (program : Program K) : Outcome K :=
  run [script_header_js; program] empty_engine.

(** What [_script_header.js] leaves in the scope. *)
Definition header_bindings : list (string * Binding K) :=
  [ ("BaseJavaScriptModule", BClass BaseJavaScriptModule);
    ("ModuleInfo", BClass Interop.ModuleInfo_class);
    ("baseImports", BImporter baseImports);
    ("JavaScriptCommandArray", BClass JavaScriptCommandArray);
    ("commandImports", BImporter commandImports) ].

Definition header_loaded : Engine K → Prop := bound header_bindings.

(** The scripts a Nashorn host loads, the program and the module of
    each. *)
Inductive NashornScript := test | testCommand | commandAdapter.

Definition program_of (script : NashornScript) : Program K :=
  match script with
  | test => test_js
  | testCommand => testCommand_js
  | commandAdapter => commandAdapter_js
  end.

Definition module_of (script : NashornScript) : Module K :=
  match script with
  | test => TestJs.getModule
  | testCommand => TestCommandJs.getModule
  | commandAdapter => CommandAdapterJs.getModule
  end.

(** The global name of the class of the module of a script, the class,
    and the logger the script binds to [LOG]. *)
Definition class_of (script : NashornScript) : string :=
  match script with
  | test | testCommand => "TestModule"
  | commandAdapter => "CommandAdapterModule"
  end.

Definition object_of (script : NashornScript) : ModuleClass :=
  match script with
  | test => {| mc_base := BaseJavaScriptModule; mc_members := test_members |}
  | testCommand =>
      {| mc_base := BaseJavaScriptModule; mc_members := testCommand_members |}
  | commandAdapter =>
      {| mc_base := CommandAdapterJs.BaseJsModule;
         mc_members := commandAdapter_members |}
  end.

Definition LOG_of (script : NashornScript) : option Logger :=
  match script with
  | test => Some TestJs.LOG
  | testCommand => Some TestCommandJs.LOG
  | commandAdapter => None
  end.

(** What the statements of a script bind, in the order in which they
    run.  The functions of [testCommand.js] are among them: they are
    declared inside blocks. *)
Definition leaves (script : NashornScript) : list (string * Binding K) :=
  match script with
  | test =>
      [ ("LOG", BLogger TestJs.LOG);
        ("TestModule", BModuleClass (object_of test)) ]
  | testCommand =>
      [ ("LOG", BLogger TestCommandJs.LOG);
        ("TestModule", BModuleClass (object_of testCommand));
        ("getModule", BFunction (ReturnNew "TestModule"));
        ("getCommands", BFunction getCommands_body);
        ("testJSCommand", BCommand TestCommandJs.testJSCommand_config) ]
  | commandAdapter =>
      [ ("BaseJsModule", BClass CommandAdapterJs.BaseJsModule);
        ("ModuleInfo", BClass CommandAdapterJs.ModuleInfo_class);
        ("CommandAdapterModule", BModuleClass (object_of commandAdapter)) ]
  end.

(** The logger the global [LOG] holds after scripts were evaluated in an
    engine in which it held [LOG]: that of the last script that assigns
    the name. *)
Definition logger_after (scripts : list NashornScript) (LOG : Logger) : Logger :=
  foldl (λ LOG script, default LOG (LOG_of script)) LOG scripts.

Definition assign_all (bs : list (string * Binding K)) (e : Engine K) : Engine K :=
  foldl (λ e nb, assign nb.1 nb.2 e) e bs.

(** The engine holds what a call of [getCommands] needs from
    [testCommand.js]: the function and the command. *)
Definition commands_ready (e : Engine K) : Prop :=
  globals e !! "getCommands" = Some (BFunction getCommands_body) ∧
  globals e !! "testJSCommand" = Some (BCommand TestCommandJs.testJSCommand_config).

(** What a call of [getModule] throws in the engine a script has left
    after failing at its first statement: in [test.js] the function is
    declared at the top level and is bound, but the class is not; in
    [testCommand.js] it is declared inside the block that did not run. *)
Definition unloaded_error (script : NashornScript) : JsValue :=
  match script with
  | testCommand => TypeError "getModule is not a function"
  | _ => TypeError "TestModule is not a constructor"
  end.

End programs.

#[export] Instance NashornScript_eq_dec : EqDecision NashornScript.
Proof. solve_decision. Defined.

(** [src/example/main.js]: the class declaration and its export. *)
Definition main_js : Program MainJs.Script :=
  [ ClassDecl "TestModule" MainJs.TestModule;
    Export "class" "TestModule" ].

(** The registry of the example bot as the hosts build it from the
    programs: the array [getCommands()] returns in the engine of
    [testCommand.js] is registered, and the class [main.js] exports is
    constructed on the result. *)
Definition boot_evaluated : option (gmap string (Command MainJs.Script)) :=
  reg ← host_loadCommands (nashorn testCommand_js).2 ∅;
  class ← exported_classes (evaluate main_js empty_engine).2 !! "class";
  new class reg.

(** Names that a program does not bind, decided by evaluation. *)
Ltac free := by apply (bool_decide_unpack _).

(** Membership in a list that is given. *)
Ltac listed :=
  simpl; repeat first [apply list_elem_of_here | apply list_elem_of_further].

(** A binding of the header, from the hypothesis that it is loaded. *)
Ltac header H :=
  eapply (bound_lookup _ _ _ _ H); unfold header_bindings; listed.

(** Lookups in the scope a script has left. *)
Ltac leaves_lookup :=
  cbn [assign_all foldl leaves fst snd]; scope_lookup.

Section theorems.
Context {K : Type}.
Implicit Types (e h : Engine K) (script : NashornScript).

(** ** The header *)

Lemma header_exec e :
  exec_all script_header_js e = (Normal (), assign_all header_bindings e).
Proof. done. Qed.

(** The header can be evaluated in any engine, and leaves its five names
    bound. *)
Lemma header_loads e :
  (evaluate script_header_js e).1 = Normal () ∧
  header_loaded (evaluate script_header_js e).2.
Proof.
  unfold evaluate. rewrite header_exec. split; [done|].
  repeat constructor; cbn [assign_all foldl header_bindings fst snd];
    by scope_lookup.
Qed.

(** ** The scripts statement by statement *)

Lemma test_js_exec h :
  header_loaded h → exec_all test_js h = (Normal (), assign_all (leaves test) h).
Proof.
  intros Hh. unfold test_js.
  rewrite (exec_all_with _ _ _ _ (BImporter baseImports)); [|header Hh | done].
  rewrite (exec_block_var _ _ _ _ (BLogger TestJs.LOG)) by done.
  erewrite exec_block_var; [done|]. eapply extend_class; scope_lookup; header Hh.
Qed.

Lemma testCommand_js_exec h :
  header_loaded h →
  exec_all testCommand_js h = (Normal (), assign_all (leaves testCommand) h).
Proof.
  intros Hh. unfold testCommand_js.
  rewrite (exec_all_with _ _ _ _ (BImporter baseImports)); [|header Hh | done].
  rewrite (exec_block_var _ _ _ _ (BLogger TestCommandJs.LOG)) by done.
  erewrite exec_block_var; [|eapply extend_class; scope_lookup; header Hh].
  rewrite exec_block_function.
  rewrite (exec_block_with _ _ _ _ (BImporter commandImports));
    [|scope_lookup; header Hh | done].
  cbn [app]. rewrite exec_block_function.
  erewrite exec_block_var;
    [done | apply command_from_accepted, TestCommandJs.testJSCommand_accepted].
Qed.

Lemma commandAdapter_js_exec e :
  exec_all commandAdapter_js e = (Normal (), assign_all (leaves commandAdapter) e).
Proof.
  unfold commandAdapter_js.
  rewrite (exec_all_var _ _ _ _ (BClass CommandAdapterJs.BaseJsModule)) by done.
  rewrite (exec_all_var _ _ _ _ (BClass CommandAdapterJs.ModuleInfo_class)) by done.
  erewrite exec_all_var; [done|]. eapply extend_class; by scope_lookup.
Qed.

(** ** Loading a script *)

(** In the engine a script has been hoisted in, it runs to its end and
    leaves its bindings. *)
Lemma program_exec script e :
  header_loaded e →
  exec_all (program_of script) (hoist (program_of script) e) =
  (Normal (), assign_all (leaves script) (hoist (program_of script) e)).
Proof.
  intros He. destruct script; simpl program_of;
    [apply test_js_exec | apply testCommand_js_exec | apply commandAdapter_js_exec];
    (apply bound_hoist; [free | done]).
Qed.

Lemma loaded_getModule script e :
  globals (assign_all (leaves script) (hoist (program_of script) e)) !! "getModule"
  = Some (BFunction (ReturnNew (class_of script))).
Proof.
  destruct script; leaves_lookup; try done; (apply hoist_function; [free | listed]).
Qed.

Lemma leaves_class script e :
  globals (assign_all (leaves script) e) !! class_of script
  = Some (BModuleClass (object_of script)).
Proof. destruct script; by leaves_lookup. Qed.

Lemma leaves_LOG script e LOG :
  LOG_of script = Some LOG →
  globals (assign_all (leaves script) e) !! "LOG" = Some (BLogger LOG).
Proof. destruct script; intros [= <-]; by leaves_lookup. Qed.

(** [getModule()] in the scope a script has left returns an object of
    the class of the script. *)
Lemma leaves_getModule script e :
  host_getModule (assign_all (leaves script) (hoist (program_of script) e))
  = Normal (object_of script).
Proof.
  unfold host_getModule.
  rewrite (call_function_bound _ _ _ (loaded_getModule script e)).
  cbn [call_body]. by rewrite (construct_class _ (object_of script))
    by apply leaves_class.
Qed.

(** ** The objects and the scope *)

(** In a scope in which [LOG] is the logger of the script, or in any
    scope when the script has none, an object of the class of a script is
    the module of the script. *)
Lemma link_own script (g : Globals K) :
  (∀ LOG, LOG_of script = Some LOG → g !! "LOG" = Some (BLogger LOG)) →
  link g (object_of script) = module_of script.
Proof.
  intros Hlog. destruct script; [| |done];
    specialize (Hlog _ eq_refl); unfold link; cbn -[info_call];
    by rewrite !(info_call_logger g _ _ _ Hlog).
Qed.

(** What the load hook of [test.js] writes in a scope in which [LOG] is a
    logger: its message, under the name of that logger. *)
Lemma test_load_in (g : Globals K) LOG (w : World K) :
  g !! "LOG" = Some (BLogger LOG) →
  load (link g (object_of test)) w =
  (Normal VUndefined,
   write_log {| logger := logger_name LOG; log_level := INFO;
                log_message := "Module loaded !" |} w).
Proof.
  intros Hlog. unfold load, link. cbn -[info_call].
  by rewrite (info_call_logger g _ _ _ Hlog).
Qed.

Lemma script_object script e :
  header_loaded e →
  host_getModule (evaluate (program_of script) e).2 = Normal (object_of script).
Proof.
  intros He. unfold evaluate. rewrite (program_exec _ _ He). apply leaves_getModule.
Qed.

Lemma script_LOG script e LOG :
  header_loaded e → LOG_of script = Some LOG →
  globals (evaluate (program_of script) e).2 !! "LOG" = Some (BLogger LOG).
Proof.
  intros He HLOG. unfold evaluate. rewrite (program_exec _ _ He).
  by apply leaves_LOG.
Qed.

(** A script evaluated in an engine in which the header is loaded, fresh
    or used, runs to its end, leaves the header loaded, and [getModule()]
    then returns its module. *)
Lemma script_loads script e :
  header_loaded e →
  (evaluate (program_of script) e).1 = Normal () ∧
  header_loaded (evaluate (program_of script) e).2 ∧
  host_module (evaluate (program_of script) e).2 = Normal (module_of script).
Proof.
  intros He. unfold evaluate. rewrite (program_exec _ _ He). cbn [fst snd].
  split; [done|]. split.
  - destruct script; repeat constructor; leaves_lookup;
      rewrite ?hoist_frame by free; done || header He.
  - rewrite (host_module_object _ _ (leaves_getModule script e)).
    f_equal. apply link_own. intros LOG. apply leaves_LOG.
Qed.

(** [commandAdapter.js] needs no header: it binds the classes it uses,
    and loads in any engine. *)
Lemma commandAdapter_loads e :
  (evaluate commandAdapter_js e).1 = Normal () ∧
  host_module (evaluate commandAdapter_js e).2 = Normal CommandAdapterJs.getModule.
Proof.
  unfold evaluate. rewrite commandAdapter_js_exec. split; [done|]. cbn [snd].
  change commandAdapter_js with (program_of (K:=K) commandAdapter).
  by rewrite (host_module_object _ _ (leaves_getModule commandAdapter e)).
Qed.

(** The Nashorn scripts export nothing to a polyglot host. *)
Lemma nashorn_exports script e :
  exported (evaluate (program_of script) e).2 = exported e.
Proof. apply evaluate_exported. by destruct script. Qed.

(** ** Calls of [getCommands] *)

(** [getCommands()] on every branch: the array holds the command once
    [testJSCommand] is assigned, [null] while it is [undefined]; the call
    throws when the name is unbound or bound to something else. *)
Lemma getCommands_call e :
  globals e !! "getCommands" = Some (BFunction getCommands_body) →
  globals e !! "JavaScriptCommandArray" = Some (BClass JavaScriptCommandArray) →
  host_getCommands e =
  match globals e !! "testJSCommand" with
  | Some (BCommand command) => Normal [Some command]
  | Some BUndefined => Normal [None]
  | Some _ => Throw (TypeError "testJSCommand is not a command")
  | None => Throw (ReferenceError "testJSCommand")
  end.
Proof.
  intros Hf Hclass. unfold host_getCommands.
  rewrite (call_function_bound _ _ _ Hf).
  unfold getCommands_body, call_body, lookup_global. rewrite Hclass.
  destruct (globals e !! "testJSCommand") as [[]|] eqn:Hcmd;
    unfold stores_all, store, element, lookup_global; simpl; by rewrite Hcmd.
Qed.

Lemma ready_commands e :
  header_loaded e → commands_ready e →
  host_getCommands e = Normal [Some TestCommandJs.testJSCommand_config].
Proof.
  intros He [Hf Hcmd]. rewrite getCommands_call; [by rewrite Hcmd | done | header He].
Qed.

Lemma testCommand_ready e :
  header_loaded e → commands_ready (evaluate testCommand_js e).2.
Proof.
  intros He. unfold evaluate.
  change testCommand_js with (program_of (K:=K) testCommand).
  rewrite (program_exec testCommand _ He). by split; leaves_lookup.
Qed.

(** The other scripts bind none of the names [getCommands] needs. *)
Lemma ready_kept script e :
  script ≠ testCommand → commands_ready e →
  commands_ready (evaluate (program_of script) e).2.
Proof.
  intros Hscript [Hf Hcmd].
  destruct script; [|done|]; split; by rewrite evaluate_frame by free.
Qed.

(** A program that binds none of the three names a call of
    [getCommands] reads leaves the call as it was. *)
Lemma getCommands_kept (program : Program K) e :
  globals e !! "getCommands" = Some (BFunction getCommands_body) →
  Forall (λ n, n ∉ names program)
         ["getCommands"; "JavaScriptCommandArray"; "testJSCommand"] →
  host_getCommands (evaluate program e).2 = host_getCommands e.
Proof.
  intros Hf Hfree. unfold host_getCommands.
  by rewrite (evaluate_call _ _ _ _ Hf Hfree).
Qed.

(** ** Scripts without their header *)

(** The two example scripts open with [with (baseImports)]: in an engine
    that does not bind the name they throw at once, and leave only what
    hoisting has bound. *)
Lemma header_missing script e :
  script ≠ commandAdapter → globals e !! "baseImports" = None →
  evaluate (program_of script) e =
  (Throw (ReferenceError "baseImports"), hoist (program_of script) e).
Proof.
  intros Hscript Hnone. unfold evaluate.
  destruct script; [| |done]; apply exec_all_with_unbound;
    by rewrite hoist_frame by free.
Qed.

(** ** Several scripts in one engine *)

Lemma run_ready (scripts : list NashornScript) e :
  header_loaded e → commands_ready e ∨ testCommand ∈ scripts →
  commands_ready (run (program_of <$> scripts) e).2.
Proof.
  revert e. induction scripts as [|script scripts IH]; intros e He Hready.
  { by destruct Hready as [?|?%elem_of_nil]. }
  rewrite fmap_cons, run_first.
  destruct (script_loads script e He) as (Hdone & He' & _).
  assert (commands_ready (evaluate (program_of script) e).2 ∨ testCommand ∈ scripts)
    as Hready'.
  { destruct (decide (script = testCommand)) as [->|Hne].
    - left. by apply testCommand_ready.
    - destruct Hready as [?|[?|?]%elem_of_cons]; [|done|by right].
      left. by apply ready_kept. }
  destruct (evaluate (program_of script) e) as [[[]|err] e']; simpl in *;
    [by apply IH | done].
Qed.

Lemma run_loads (scripts : list NashornScript) e :
  header_loaded e →
  (run (program_of <$> scripts) e).1 = Normal () ∧
  header_loaded (run (program_of <$> scripts) e).2.
Proof.
  apply run_invariant, Forall_fmap, Forall_forall.
  intros script _ e' He'. by destruct (script_loads script e' He') as (? & ? & _).
Qed.

(** The logger after a script, and after several. *)
Lemma script_LOG_after script e LOG :
  header_loaded e → globals e !! "LOG" = Some (BLogger LOG) →
  globals (evaluate (program_of script) e).2 !! "LOG"
  = Some (BLogger (default LOG (LOG_of script))).
Proof.
  intros He Hlog. destruct (LOG_of script) as [LOG'|] eqn:Hscript; simpl.
  - by apply script_LOG.
  - destruct script; try done. by rewrite evaluate_frame by free.
Qed.

Lemma run_LOG (scripts : list NashornScript) e LOG :
  header_loaded e → globals e !! "LOG" = Some (BLogger LOG) →
  globals (run (program_of <$> scripts) e).2 !! "LOG"
  = Some (BLogger (logger_after scripts LOG)).
Proof.
  revert e LOG. induction scripts as [|script scripts IH]; intros e LOG He Hlog.
  { done. }
  rewrite fmap_cons, run_first.
  destruct (script_loads script e He) as (Hdone & He' & _).
  pose proof (script_LOG_after script e LOG He Hlog) as Hlog'.
  destruct (evaluate (program_of script) e) as [[[]|err] e']; simpl in *;
    [by apply IH | done].
Qed.

(** The last of several scripts is evaluated in an engine in which the
    header is loaded. *)
Lemma run_snoc (scripts : list NashornScript) (last : NashornScript) e :
  header_loaded e →
  ∃ e1, header_loaded e1 ∧
        run (program_of <$> scripts ++ [last]) e = evaluate (program_of last) e1.
Proof.
  intros He. rewrite fmap_app. simpl. rewrite run_last.
  destruct (run_loads scripts e He) as [Hdone He1].
  destruct (run (program_of <$> scripts) e) as [[[]|err] e1]; simpl in *; [|done].
  by exists e1.
Qed.

(** The modules of the three scripts are three different modules. *)
Lemma module_of_inj : Inj (=) (=) (@module_of K).
Proof.
  intros s1 s2 Heq.
  pose proof (f_equal info Heq) as Hinfo.
  pose proof (f_equal (λ m, logs (load m empty_world).2) Heq) as Hlogs.
  by destruct s1, s2.
Qed.

(** ** The hosts of the example *)

(** A Nashorn host evaluates the script in the engine the header has
    left. *)
Lemma nashorn_eq (program : Program K) :
  nashorn program = evaluate program (evaluate script_header_js empty_engine).2.
Proof.
  unfold nashorn. rewrite run_first.
  destruct (header_loads empty_engine) as [Hdone _].
  destruct (evaluate script_header_js empty_engine) as [[[]|err] e]; [|done].
  cbn [run snd]. by destruct (evaluate program e) as [[[]|err] e'].
Qed.

(** A Nashorn host that evaluates the header and one script in a fresh
    engine gets the module of the script, and the commands of
    [testCommand.js]. *)
Lemma nashorn_loads script :
  (nashorn (K:=K) (program_of script)).1 = Normal () ∧
  header_loaded (nashorn (K:=K) (program_of script)).2 ∧
  host_module (nashorn (K:=K) (program_of script)).2 = Normal (module_of script).
Proof. rewrite nashorn_eq. apply script_loads, header_loads. Qed.

Lemma nashorn_commands :
  host_getCommands (nashorn (K:=K) testCommand_js).2
  = Normal [Some TestCommandJs.testJSCommand_config].
Proof.
  apply ready_commands; [apply (nashorn_loads testCommand)|].
  rewrite nashorn_eq. apply testCommand_ready, header_loads.
Qed.

(** C13. Scripts in one engine.  In an engine in which the header is loaded,
    any scripts evaluated one after the other run to their end, and the
    commands of [testCommand.js] can be obtained whenever it was among
    them; but [getModule()] returns the module of the script evaluated
    last and of no other: the scripts bind the same global names, and the
    modules of the scripts evaluated before are out of reach. *)
Theorem shared_engine (scripts : list NashornScript) (last : NashornScript) e :
  header_loaded e →
  let r := run (program_of <$> scripts ++ [last]) e in
  r.1 = Normal () ∧
  (∀ script, host_module r.2 = Normal (module_of script) ↔ script = last) ∧
  (testCommand ∈ scripts ++ [last] →
   host_getCommands r.2 = Normal [Some TestCommandJs.testJSCommand_config]).
Proof.
  intros He r. destruct (run_loads (scripts ++ [last]) e He) as [Hdone He'].
  split; [done|]. split.
  - assert (host_module r.2 = Normal (module_of last)) as ->.
    { unfold r. destruct (run_snoc scripts last e He) as (e1 & He1 & ->).
      by destruct (script_loads last e1 He1) as (_ & _ & ?). }
    intros script. split; [|by intros ->].
    intros [= Heq]. symmetry. by apply module_of_inj.
  - intros Hin. apply ready_commands; [done|]. apply run_ready; auto.
Qed.

(** C14. Hooks read the scope when they run.  The object [getModule()]
    returns after [test.js] was evaluated writes the record of its load
    under the logger the global [LOG] holds when the hook is called: the
    logger of [test.js] while the engine stays as the script left it, and,
    once other scripts have been evaluated in the same engine, the logger
    of the last of them that assigns [LOG], which [testCommand.js] does
    and [commandAdapter.js] does not. *)
Theorem stale_logger (scripts : list NashornScript) e (w : World K) :
  header_loaded e →
  let e1 := (evaluate test_js e).2 in
  let e2 := (run (program_of <$> scripts) e1).2 in
  ∃ object,
    host_getModule e1 = Normal object ∧
    load (link (globals e2) object) w =
    (Normal VUndefined,
     write_log {| logger := logger_name (logger_after scripts TestJs.LOG);
                  log_level := INFO; log_message := "Module loaded !" |} w).
Proof.
  intros He e1 e2. exists (object_of test).
  destruct (script_loads test e He) as (_ & He1 & _).
  split; [by apply (script_object test)|].
  by apply test_load_in, run_LOG, (script_LOG test).
Qed.

(** C15. The load of the commands in every scope.  In an engine in which the
    header is loaded and [getCommands] is the function of the script, the
    host's call of [getCommands()] followed by the registration of the
    array succeeds exactly when [testJSCommand] is bound to a command that
    the registry accepts: while the name is [undefined] the array holds
    [null] and the load fails, and it fails as well when the name is
    unbound or bound to anything else. *)
Theorem loadCommands_evaluated e (reg : gmap string (Command K)) :
  header_loaded e →
  globals e !! "getCommands" = Some (BFunction getCommands_body) →
  host_loadCommands e reg =
  match globals e !! "testJSCommand" with
  | Some (BCommand command) => register command reg
  | _ => None
  end.
Proof.
  intros He Hf. unfold host_loadCommands.
  rewrite (getCommands_call _ Hf) by header He.
  destruct (globals e !! "testJSCommand") as [[]|]; try done.
  simpl. by destruct (register command reg).
Qed.

(** C16. A script without its header.  In an engine that binds none of
    [baseImports], [TestModule] and [getModule], an example script throws
    a [ReferenceError] at its first statement, and a call of [getModule]
    afterwards throws: in [test.js] the function is bound, being declared
    at the top level, but the class it constructs is [undefined]; in
    [testCommand.js] the function itself is [undefined], being declared
    inside the block that did not run. *)
Theorem header_required script e :
  script ≠ commandAdapter →
  globals e !! "baseImports" = None → globals e !! "TestModule" = None →
  globals e !! "getModule" = None →
  let r := evaluate (program_of script) e in
  r.1 = Throw (ReferenceError "baseImports") ∧
  host_getModule r.2 = Throw (unloaded_error script).
Proof.
  intros Hscript Hnone Hclass Hf r. unfold r.
  rewrite (header_missing _ _ Hscript Hnone). split; [done|].
  unfold host_getModule, call_function, lookup_global. cbn [snd].
  destruct script; [| |done].
  - rewrite (hoist_function _ _ "getModule" (ReturnNew "TestModule"));
      [|free | listed].
    simpl. unfold construct, lookup_global.
    by rewrite (hoist_fresh _ _ "TestModule"); [|listed | free | done].
  - by rewrite (hoist_fresh _ _ "getModule"); [|listed | free | done].
Qed.

(** C17. The adapter stands alone.  [commandAdapter.js] binds the classes it
    uses itself: evaluated in any engine, with or without the header, it
    runs to its end, and [getModule()] returns an object whose hooks read
    no global name: in every scope, and through any number of load/unload
    cycles, they complete normally and leave the world as it is. *)
Theorem adapter_standalone e (g : Globals K) n (w : World K) :
  let r := evaluate commandAdapter_js e in
  r.1 = Normal () ∧
  ∃ object, host_getModule r.2 = Normal object ∧
            cycles n (link g object) w = (Normal VUndefined, w).
Proof.
  intros r. unfold r, evaluate. rewrite commandAdapter_js_exec.
  split; [done|]. exists (object_of commandAdapter).
  split; [apply (leaves_getModule commandAdapter)|].
  rewrite (link_own commandAdapter) by done.
  apply CommandAdapterJs.adapter_inert.
Qed.

End theorems.

Lemma main_js_exports :
  (evaluate main_js empty_engine).1 = Normal () ∧
  exported_classes (evaluate main_js empty_engine).2 = MainJs.exports.
Proof.
  split; [done|]. unfold exported_classes, MainJs.exports, Polyglot_export.
  change (exported (evaluate main_js empty_engine).2)
    with (<["class" := BScriptClass MainJs.TestModule]> (∅ : gmap string (Binding MainJs.Script))).
  rewrite !insert_empty. by apply omap_singleton_Some.
Qed.

(** The registry built from the evaluated programs is the registry the
    development starts from. *)
Lemma boot_evaluated_eq : boot_evaluated = Example.boot.
Proof.
  unfold boot_evaluated, Example.boot, host_loadCommands.
  rewrite nashorn_commands. destruct main_js_exports as [_ ->].
  by rewrite TestCommandJs.getCommands_eq.
Qed.

Lemma shared_engine_witness :
  let e := (evaluate (K:=MainJs.Script) script_header_js empty_engine).2 in
  let r := run (program_of <$> [test; testCommand] ++ [test]) e in
  r.1 = Normal () ∧
  (∀ script, host_module r.2 = Normal (module_of script) ↔ script = test) ∧
  (testCommand ∈ [test; testCommand] ++ [test] →
   host_getCommands r.2 = Normal [Some TestCommandJs.testJSCommand_config]).
Proof.
  apply (shared_engine [test; testCommand] test).
  apply header_loads.
Defined.

Lemma stale_logger_witness :
  let e := (evaluate (K:=MainJs.Script) script_header_js empty_engine).2 in
  let scripts := [testCommand; commandAdapter] in
  let e1 := (evaluate test_js e).2 in
  let e2 := (run (program_of <$> scripts) e1).2 in
  ∃ object,
    host_getModule e1 = Normal object ∧
    load (link (globals e2) object) empty_world =
    (Normal VUndefined,
     write_log {| logger := logger_name (logger_after scripts TestJs.LOG);
                  log_level := INFO; log_message := "Module loaded !" |}
               empty_world).
Proof.
  apply (stale_logger [testCommand; commandAdapter] _ empty_world), header_loads.
Defined.

Lemma loadCommands_evaluated_witness :
  let e := (nashorn (K:=MainJs.Script) testCommand_js).2 in
  host_loadCommands e ∅ =
  match globals e !! "testJSCommand" with
  | Some (BCommand command) => register command ∅
  | _ => None
  end.
Proof.
  apply (loadCommands_evaluated _ ∅);
    [apply (nashorn_loads testCommand) | reflexivity].
Defined.

Lemma header_required_witness :
  let r := evaluate (K:=MainJs.Script) (program_of testCommand) empty_engine in
  r.1 = Throw (ReferenceError "baseImports") ∧
  host_getModule r.2 = Throw (unloaded_error testCommand).
Proof.
  apply (header_required testCommand empty_engine); [discriminate | reflexivity..].
Defined.

End Scripts.
